(** * SymSpell (node-symspell): index, lookup and OSA distance kernel

    A shallow embedding of [src/index.js], [src/edit-distance.js] and the
    helpers module, followed by the properties proved about them.

    Conventions.
    - A JavaScript string is the list of its UTF-16 code units ([list N]).
    - A JavaScript number that the code only uses as an integer is a [Z];
      a value that may also be [undefined] (an array hole, an index out of
      range) is an [option Z], and a comparison with [undefined] is false.
    - A [Map] is a [gmap]; a [Set] iterated in insertion order is a
      duplicate-free list; an array is a [jsarray] (length and contents). *)

From Stdlib Require Import ZArith String Ascii List Lia Sorted QArith Qround SpecFloat.
From stdpp Require Import gmap strings list fin_maps.

Open Scope Z_scope.

(* ===================================================================== *)
(** * Part I. The embedding                                               *)
(* ===================================================================== *)

(** ** JavaScript strings *)

Abbreviation jsstring := (list N).

(** A string literal, as the list of its code units. *)
Definition js (s : string) : jsstring :=
  N_of_ascii <$> list_ascii_of_string s.

(** [s[i]] : the code unit at index [i], [undefined] out of range. *)
Definition charAt (s : jsstring) (i : Z) : option N :=
  if i <? 0 then None else s !! Z.to_nat i.

(** [s.substr(start, length)]. *)
Definition substr (s : jsstring) (start len : Z) : jsstring :=
  let size := Z.of_nat (length s) in
  let st := if start <? 0 then Z.max (size + start) 0 else Z.min start size in
  let n := Z.min (Z.max len 0) (size - st) in
  take (Z.to_nat n) (drop (Z.to_nat st) s).

(** [s.substr(start)] : up to the end of the string. *)
Definition substrFrom (s : jsstring) (start : Z) : jsstring :=
  substr s start (Z.of_nat (length s)).

(** [s.slice(a, b)] for indices [0 <= a], [0 <= b]. *)
Definition slice (s : jsstring) (a b : nat) : jsstring :=
  drop a (take b s).

(** [Number.MAX_SAFE_INTEGER]. *)
Definition MAX_SAFE_INTEGER : Z := 9007199254740991.

(** ** src/index.js : SuggestItem *)

Record SuggestItem := mkSuggestItem {
  term : jsstring;
  distance : Z;
  count : Z
}.

(** [compareTo]: equal distances compare by count, otherwise by the
    distance of [other] minus the distance of [this]. *)
Definition compareTo (this other : SuggestItem) : Z :=
  if distance this =? distance other
  then count this - count other
  else distance other - distance this.

Inductive Verbosity := TOP | CLOSEST | ALL.

Definition Verbosity_eqb (v w : Verbosity) : bool :=
  match v, w with
  | TOP, TOP | CLOSEST, CLOSEST | ALL, ALL => true
  | _, _ => false
  end.

(** [SymSpell.N] *)
Definition SymSpell_N : Z := 1024908267229.

(** ** src/index.js : the index *)

Record SymSpell := mkSymSpell {
  maxDictionaryEditDistance : Z;
  prefixLength : Z;
  countThreshold : Z;
  words : gmap jsstring Z;
  maxDictionaryWordLength : Z;
  deletes : gmap jsstring (list jsstring);
  belowThresholdWords : gmap jsstring Z;
  bigrams : gmap jsstring Z;
  bigramCountMin : Z
}.

(** [new SymSpell(maxDictionaryEditDistance, prefixLength, countThreshold)] *)
Definition newSymSpell (med pl ct : Z) : SymSpell :=
  {| maxDictionaryEditDistance := med;
     prefixLength := pl;
     countThreshold := ct;
     words := ∅;
     maxDictionaryWordLength := 0;
     deletes := ∅;
     belowThresholdWords := ∅;
     bigrams := ∅;
     bigramCountMin := MAX_SAFE_INTEGER |}.

(** The defaults of the constructor: [(2, 7, 1)]. *)
Definition defaultSymSpell : SymSpell := newSymSpell 2 7 1.

Definition set_words (f : gmap jsstring Z -> gmap jsstring Z) (this : SymSpell) : SymSpell :=
  {| maxDictionaryEditDistance := maxDictionaryEditDistance this;
     prefixLength := prefixLength this;
     countThreshold := countThreshold this;
     words := f (words this);
     maxDictionaryWordLength := maxDictionaryWordLength this;
     deletes := deletes this;
     belowThresholdWords := belowThresholdWords this;
     bigrams := bigrams this;
     bigramCountMin := bigramCountMin this |}.

Definition set_belowThresholdWords (f : gmap jsstring Z -> gmap jsstring Z) (this : SymSpell) : SymSpell :=
  {| maxDictionaryEditDistance := maxDictionaryEditDistance this;
     prefixLength := prefixLength this;
     countThreshold := countThreshold this;
     words := words this;
     maxDictionaryWordLength := maxDictionaryWordLength this;
     deletes := deletes this;
     belowThresholdWords := f (belowThresholdWords this);
     bigrams := bigrams this;
     bigramCountMin := bigramCountMin this |}.

Definition set_maxDictionaryWordLength (n : Z) (this : SymSpell) : SymSpell :=
  {| maxDictionaryEditDistance := maxDictionaryEditDistance this;
     prefixLength := prefixLength this;
     countThreshold := countThreshold this;
     words := words this;
     maxDictionaryWordLength := n;
     deletes := deletes this;
     belowThresholdWords := belowThresholdWords this;
     bigrams := bigrams this;
     bigramCountMin := bigramCountMin this |}.

Definition set_deletes (d : gmap jsstring (list jsstring)) (this : SymSpell) : SymSpell :=
  {| maxDictionaryEditDistance := maxDictionaryEditDistance this;
     prefixLength := prefixLength this;
     countThreshold := countThreshold this;
     words := words this;
     maxDictionaryWordLength := maxDictionaryWordLength this;
     deletes := d;
     belowThresholdWords := belowThresholdWords this;
     bigrams := bigrams this;
     bigramCountMin := bigramCountMin this |}.

(** [Set.prototype.add] on a set kept in insertion order. *)
Definition setAdd (x : jsstring) (s : list jsstring) : list jsstring :=
  if decide (x ∈ s) then s else s ++ [x].

(** The string [word] without its character at index [i]:
    [word.slice(0, i) + word.slice(i + 1, word.length)]. *)
Definition deleteAt (word : jsstring) (i : nat) : jsstring :=
  slice word 0 i ++ slice word (i + 1) (length word).

(** [edits(word, editDistance, deleteWords)].  The recursive call is on a
    string one character shorter than [word]; [fuel] bounds that depth, and
    [edits] below starts it at the length of the word. *)
Fixpoint edits_fuel (fuel : nat) (med : Z) (word : jsstring) (editDistance : Z)
    (deleteWords : list jsstring) : list jsstring :=
  match fuel with
  | O => deleteWords
  | S fuel' =>
    let editDistance := editDistance + 1 in
    if (1 <? length word)%nat then
      fold_left
        (fun deleteWords i =>
           let del := deleteAt word i in
           if decide (del ∈ deleteWords) then deleteWords
           else
             let deleteWords := deleteWords ++ [del] in
             (* recursion, if maximum edit distance not yet reached *)
             if editDistance <? med
             then edits_fuel fuel' med del editDistance deleteWords
             else deleteWords)
        (seq 0 (length word)) deleteWords
    else deleteWords
  end.

Definition edits (this : SymSpell) (word : jsstring) (editDistance : Z)
    (deleteWords : list jsstring) : list jsstring :=
  edits_fuel (length word) (maxDictionaryEditDistance this) word editDistance deleteWords.

(** [editsPrefix(key)] *)
Definition editsPrefix (this : SymSpell) (key : jsstring) : list jsstring :=
  let hashSet := [] in
  let hashSet :=
    if Z.of_nat (length key) <=? maxDictionaryEditDistance this
    then setAdd [] hashSet else hashSet in
  let key :=
    if Z.of_nat (length key) >? prefixLength this
    then substr key 0 (prefixLength this) else key in
  let hashSet := setAdd key hashSet in
  edits this key 0 hashSet.

(** The count update shared by the two accumulating branches:
    [(MAX_SAFE_INTEGER - countPrevious > count) ? countPrevious + count : MAX_SAFE_INTEGER]. *)
Definition accumulate (countPrevious count : Z) : Z :=
  if MAX_SAFE_INTEGER - countPrevious >? count
  then countPrevious + count else MAX_SAFE_INTEGER.

(** [deletes.get(del).push(key)], creating the bucket when it is missing. *)
Definition pushDelete (key : jsstring) (d : gmap jsstring (list jsstring)) (del : jsstring)
    : gmap jsstring (list jsstring) :=
  <[del := default [] (d !! del) ++ [key]]> d.

(** The tail of [createDictionaryEntry]: a new word at or above the threshold
    ("what we have at this point is a new, above threshold word"). *)
Definition promote (this : SymSpell) (key : jsstring) (count : Z) : bool * SymSpell :=
  let this := set_words <[key := count]> this in
  let this :=
    if Z.of_nat (length key) >? maxDictionaryWordLength this
    then set_maxDictionaryWordLength (Z.of_nat (length key)) this else this in
  let edits := editsPrefix this key in
  let this := set_deletes (fold_left (pushDelete key) edits (deletes this)) this in
  (true, this).

(** [createDictionaryEntry(key, count)]: the returned flag and the index
    after the call. *)
Definition createDictionaryEntry (this : SymSpell) (key : jsstring) (count : Z)
    : bool * SymSpell :=
  if (count <=? 0) && (countThreshold this >? 0) then (false, this)
  else
    let count := if count <=? 0 then 0 else count in
    match (if countThreshold this >? 1 then belowThresholdWords this !! key else None) with
    | Some countPrevious =>
        let count := accumulate countPrevious count in
        if count >=? countThreshold this
        then promote (set_belowThresholdWords (delete key) this) key count
        else (false, set_belowThresholdWords <[key := count]> this)
    | None =>
        match words this !! key with
        | Some countPrevious =>
            let count := accumulate countPrevious count in
            (false, set_words <[key := count]> this)
        | None =>
            if count <? countThreshold this
            then (false, set_belowThresholdWords <[key := count]> this)
            else promote this key count
        end
    end.

(** The index after a sequence of [createDictionaryEntry] calls. *)
Definition createEntries (this : SymSpell) (entries : list (jsstring * Z)) : SymSpell :=
  fold_left (fun this e => (createDictionaryEntry this e.1 e.2).2) entries this.

(** ** Numbers that may be [undefined] *)

(** [a < b]; false when either side is [undefined] (or [NaN]). *)
Definition js_lt (a b : option Z) : bool :=
  match a, b with
  | Some x, Some y => x <? y
  | _, _ => false
  end.

(** [a <= b] *)
Definition js_le (a b : option Z) : bool :=
  match a, b with
  | Some x, Some y => x <=? y
  | _, _ => false
  end.

(** [a > b] *)
Definition js_gt (a b : option Z) : bool := js_lt b a.

(** [a + 1]; [undefined + 1] is [NaN], which behaves as [undefined] here. *)
Definition js_succ (a : option Z) : option Z := Z.succ <$> a.

(** ** Arrays of numbers *)

(** A JavaScript array: its [length] and its defined entries; an index with
    no entry reads as [undefined], and a write past the end extends it. *)
Record jsarray := mkArray {
  arrLength : nat;
  arrData : gmap nat Z
}.

(** [new Array(n)]; [[]] is [newArray 0]. *)
Definition newArray (n : nat) : jsarray := mkArray n ∅.

(** [a[j]] *)
Definition arrGet (a : jsarray) (j : nat) : option Z := arrData a !! j.

(** [a[k]] for an index computed as a number. *)
Definition arrGetZ (a : jsarray) (k : Z) : option Z :=
  if k <? 0 then None else arrGet a (Z.to_nat k).

(** [a[j] = v] *)
Definition arrSet (a : jsarray) (j : nat) (v : option Z) : jsarray :=
  mkArray (Nat.max (arrLength a) (S j)) (partial_alter (fun _ => v) j (arrData a)).

(** ** helpers : nullDistanceResults, prefixSuffixPrep *)

(** [nullDistanceResults(string1, string2, maxDistance)]; [None] is [null]. *)
Definition nullDistanceResults (string1 string2 : option jsstring) (maxDistance : Z) : Z :=
  match string1 with
  | None =>
      match string2 with
      | None => 0
      | Some s2 => if Z.of_nat (length s2) <=? maxDistance then Z.of_nat (length s2) else -1
      end
  | Some s1 => if Z.of_nat (length s1) <=? maxDistance then Z.of_nat (length s1) else -1
  end.

(** The first loop of [prefixSuffixPrep]:
    [while (len1 !== 0 && string1[len1 - 1] === string2[len2 - 1])]. *)
Fixpoint suffixLoop (string1 string2 : jsstring) (len1 len2 : nat) : nat * nat :=
  match len1 with
  | O => (O, len2)
  | S l1 =>
      if decide (string1 !! l1 = charAt string2 (Z.of_nat len2 - 1))
      then suffixLoop string1 string2 l1 (len2 - 1)
      else (len1, len2)
  end.

(** The second loop:
    [while (start !== len1 && string1[start] === string2[start]) start++];
    [n] is [len1 - start]. *)
Fixpoint prefixLoop (string1 string2 : jsstring) (n start : nat) : nat :=
  match n with
  | O => start
  | S n' =>
      if decide (string1 !! start = string2 !! start)
      then prefixLoop string1 string2 n' (S start)
      else start
  end.

(** [prefixSuffixPrep(string1, string2)] returns [{ len1, len2, start }].
    The function "expects string1.length to be less than or equal to
    string2.length", and [distance] calls it so; the lengths are then
    natural numbers throughout. *)
Definition prefixSuffixPrep (string1 string2 : jsstring) : nat * nat * nat :=
  let '(len1, len2) := suffixLoop string1 string2 (length string1) (length string2) in
  let start := prefixLoop string1 string2 len1 0 in
  (len1 - start, len2 - start, start)%nat.

(** ** src/edit-distance.js *)

Record EditDistance := mkEditDistance {
  baseChar1Costs : jsarray;
  basePrevChar1Costs : jsarray
}.

(** [new EditDistance()] *)
Definition newEditDistance : EditDistance := mkEditDistance (newArray 0) (newArray 0).

(** The space character, the initial value of [char1] and [char2]. *)
Definition SPACE : N := 32%N.

(** The variables of an inner loop (over [j]) of [_distance] and
    [_distanceMax]. *)
Record InnerState := mkInner {
  nextTransCost : option Z;
  currentCost : option Z;
  leftCharCost : option Z;
  aboveCharCost : option Z;
  char2 : option N;
  char1Costs : jsarray;
  prevChar1Costs : jsarray
}.

(** One iteration of the inner loop; the two functions have the same loop
    body.  [i], [char1] and [prevChar1] are fixed during the loop. *)
Definition innerBody (string2 : jsstring) (start i : nat) (char1 prevChar1 : option N)
    (st : InnerState) (j : nat) : InnerState :=
  let thisTransCost := nextTransCost st in
  let nextTransCost := arrGet (prevChar1Costs st) j in
  let currentCost := leftCharCost st in
  let prevChar1Costs := arrSet (prevChar1Costs st) j (leftCharCost st) in
  let leftCharCost := arrGet (char1Costs st) j in
  let prevChar2 := char2 st in
  let char2 := string2 !! (start + j)%nat in
  let currentCost :=
    if decide (char1 = char2) then currentCost
    else
      let currentCost :=
        if js_lt (aboveCharCost st) currentCost then aboveCharCost st else currentCost in
      let currentCost :=
        if js_lt leftCharCost currentCost then leftCharCost else currentCost in
      let currentCost := js_succ currentCost in
      if negb (i =? 0)%nat && negb (j =? 0)%nat
         && bool_decide (char1 = prevChar2)
         && bool_decide (prevChar1 = char2)
         && js_lt (js_succ thisTransCost) currentCost
      then js_succ thisTransCost
      else currentCost in
  mkInner nextTransCost currentCost leftCharCost currentCost char2
          (arrSet (char1Costs st) j currentCost) prevChar1Costs.

(** The variables that live across the rows (the loop over [i]). *)
Record OuterState := mkOuter {
  o_char1 : option N;
  o_currentCost : option Z;
  o_char1Costs : jsarray;
  o_prevChar1Costs : jsarray
}.

(** The prologue of a row: [prevChar1 = char1], [char1 = string1[start + i]],
    [char2 = ' '], [leftCharCost = aboveCharCost = i], [nextTransCost = 0];
    then the inner loop over the columns [js]. *)
Definition runRow (string1 string2 : jsstring) (start i : nat) (js : list nat)
    (st : OuterState) : OuterState :=
  let prevChar1 := o_char1 st in
  let char1 := string1 !! (start + i)%nat in
  let init :=
    mkInner (Some 0) (o_currentCost st) (Some (Z.of_nat i)) (Some (Z.of_nat i))
            (Some SPACE) (o_char1Costs st) (o_prevChar1Costs st) in
  let fin := fold_left (innerBody string2 start i char1 prevChar1) js init in
  mkOuter char1 (currentCost fin) (char1Costs fin) (prevChar1Costs fin).

(** [_distance(string1, string2, len1, len2, start, char1Costs, prevChar1Costs)]:
    the result and the (shared) array [prevChar1Costs] after the call.  The
    parameter [char1Costs] is overwritten by a fresh array on entry. *)
Definition _distance (string1 string2 : jsstring) (len1 len2 start : nat)
    (prevChar1Costs : jsarray) : option Z * jsarray :=
  let char1Costs :=
    fold_left (fun a j => arrSet a j (Some (Z.of_nat j + 1))) (seq 0 len2) (newArray 0) in
  let fin :=
    fold_left (fun st i => runRow string1 string2 start i (seq 0 len2) st)
              (seq 0 len1)
              (mkOuter (Some SPACE) (Some 0) char1Costs prevChar1Costs) in
  (o_currentCost fin, o_prevChar1Costs fin).

(** The rows of [_distanceMax], from row [i], with [n] rows left; [jStart]
    and [jEnd] are the values before the row's updates. *)
Fixpoint distanceMaxRows (string1 string2 : jsstring) (len1 len2 start : nat)
    (maxDistance : Z) (n i : nat) (jStart : nat) (jEnd : Z) (st : OuterState)
    : option Z * jsarray :=
  match n with
  | O =>
      (* return (currentCost <= maxDistance) ? currentCost : -1 *)
      ((if js_le (o_currentCost st) (Some maxDistance) then o_currentCost st else Some (-1)),
       o_prevChar1Costs st)
  | S n' =>
      let lenDiff := Z.of_nat len2 - Z.of_nat len1 in
      let jStartOffset := maxDistance - lenDiff in
      let jStart := (jStart + (if Z.of_nat i >? jStartOffset then 1 else 0))%nat in
      let jEnd := jEnd + (if jEnd <? Z.of_nat len2 then 1 else 0) in
      let st := runRow string1 string2 start i
                       (seq jStart (Z.to_nat (jEnd - Z.of_nat jStart))) st in
      if js_gt (arrGetZ (o_char1Costs st) (Z.of_nat i + lenDiff)) (Some maxDistance)
      then (Some (-1), o_prevChar1Costs st)
      else distanceMaxRows string1 string2 len1 len2 start maxDistance n' (S i) jStart jEnd st
  end.

(** [_distanceMax(string1, string2, len1, len2, start, maxDistance, char1Costs, prevChar1Costs)] *)
Definition _distanceMax (string1 string2 : jsstring) (len1 len2 start : nat)
    (maxDistance : Z) (prevChar1Costs : jsarray) : option Z * jsarray :=
  let char1Costs :=
    fold_left
      (fun a j =>
         if Z.of_nat j <? maxDistance then arrSet a j (Some (Z.of_nat j + 1))
         else arrSet a j (Some (maxDistance + 1)))
      (seq 0 len2) (newArray 0) in
  distanceMaxRows string1 string2 len1 len2 start maxDistance len1 0 0 maxDistance
    (mkOuter (Some SPACE) (Some 0) char1Costs prevChar1Costs).

(** [distance(string1, string2, maxDistance)] for an integer [maxDistance]
    (on which [Math.ceil] is the identity): the result and the object after
    the call.  [None] as a string is [null]. *)
Definition EditDistance_distance (this : EditDistance) (string1 string2 : option jsstring)
    (maxDistance : Z) : option Z * EditDistance :=
  match string1, string2 with
  | Some s1, Some s2 =>
      if maxDistance <=? 0 then
        ((if decide (s1 = s2) then Some 0 else Some (-1)), this)
      else
        let iMaxDistance :=
          if maxDistance <=? MAX_SAFE_INTEGER then maxDistance else MAX_SAFE_INTEGER in
        (* ensure shorter string is in string1 *)
        let '(s1, s2) := if (length s2 <? length s1)%nat then (s2, s1) else (s1, s2) in
        if Z.of_nat (length s2) - Z.of_nat (length s1) >? iMaxDistance then (Some (-1), this)
        else
          let '(len1, len2, start) := prefixSuffixPrep s1 s2 in
          if (len1 =? 0)%nat then
            ((if Z.of_nat len2 <=? iMaxDistance then Some (Z.of_nat len2) else Some (-1)), this)
          else
            let this :=
              if (arrLength (baseChar1Costs this) <? len2)%nat
              then mkEditDistance (newArray len2) (newArray len2)
              else this in
            if iMaxDistance <? Z.of_nat len2 then
              let '(r, prev) :=
                _distanceMax s1 s2 len1 len2 start iMaxDistance (basePrevChar1Costs this) in
              (r, mkEditDistance (baseChar1Costs this) prev)
            else
              let '(r, prev) := _distance s1 s2 len1 len2 start (basePrevChar1Costs this) in
              (r, mkEditDistance (baseChar1Costs this) prev)
  | _, _ => (Some (nullDistanceResults string1 string2 maxDistance), this)
  end.

(** [compare(string1, string2, maxDistance)] *)
Definition EditDistance_compare (this : EditDistance) (string1 string2 : jsstring)
    (maxDistance : Z) : option Z * EditDistance :=
  EditDistance_distance this (Some string1) (Some string2) maxDistance.

(** ** The reference: the unbounded OSA dynamic program

    [osa_dp a b i j] is the cell [d[i][j]] of the textbook matrix for the
    prefixes of length [i] of [a] and [j] of [b]:
    [d[i][0] = i], [d[0][j] = j], and otherwise the minimum of a deletion,
    an insertion, a substitution (free when the characters agree) and, when
    the last two characters of both prefixes are swapped, an adjacent
    transposition from [d[i-2][j-2]]. *)
Fixpoint osa_dp (a b : jsstring) (i : nat) {struct i} : nat -> Z :=
  match i with
  | O => fun j => Z.of_nat j
  | S i' =>
      fix row (j : nat) : Z :=
        match j with
        | O => Z.of_nat (S i')
        | S j' =>
            let cost := if decide (a !! i' = b !! j') then 0 else 1 in
            let best :=
              Z.min (Z.min (osa_dp a b i' (S j') + 1) (row j' + 1))
                    (osa_dp a b i' j' + cost) in
            match i', j' with
            | S i'', S j'' =>
                if bool_decide (a !! i' = b !! j'') && bool_decide (a !! i'' = b !! j')
                then Z.min best (osa_dp a b i'' j'' + 1)
                else best
            | _, _ => best
            end
        end
  end.

(** The reference OSA distance between two strings. *)
Definition osa_ref (a b : jsstring) : Z :=
  osa_dp a b (length a) (length b).

(** ** src/index.js : lookup *)

(** The options object of [lookup].  [ignoreToken] is a regular expression in
    the source; only [input.match(ignoreToken)] is used, so it is kept as
    the predicate "the expression matches the string". *)
Record LookupOptions := mkLookupOptions {
  includeUnknown : bool;
  ignoreToken : option (jsstring -> bool);
  transferCasing : bool
}.

(** [{}] : no option given. *)
Definition noOptions : LookupOptions := mkLookupOptions false None false.

(** [deleteInSuggestionPrefix]: the [while] loop that advances [j];
    [n] is [suggestionLen - j]. *)
Fixpoint scanSuggestion (suggestion : jsstring) (suggestionLen : Z) (delChar : option N)
    (n j : nat) : nat :=
  match n with
  | O => j
  | S n' =>
      if (Z.of_nat j <? suggestionLen) && negb (bool_decide (delChar = suggestion !! j))
      then scanSuggestion suggestion suggestionLen delChar n' (S j)
      else j
  end.

(** The [for] loop of [deleteInSuggestionPrefix] over the characters of the
    delete, from the current [j]. *)
Fixpoint deleteInSuggestionPrefixLoop (suggestion : jsstring) (suggestionLen : Z)
    (delChars : list N) (j : nat) : bool :=
  match delChars with
  | [] => true
  | delChar :: rest =>
      let j := scanSuggestion suggestion suggestionLen (Some delChar)
                 (Z.to_nat (suggestionLen - Z.of_nat j)) j in
      if Z.of_nat j =? suggestionLen then false
      else deleteInSuggestionPrefixLoop suggestion suggestionLen rest j
  end.

(** [deleteInSuggestionPrefix(del, deleteLen, suggestion, suggestionLen)],
    called with [deleteLen = del.length]. *)
Definition deleteInSuggestionPrefix (this : SymSpell) (del : jsstring) (deleteLen : Z)
    (suggestion : jsstring) (suggestionLen : Z) : bool :=
  if deleteLen =? 0 then true
  else
    let suggestionLen :=
      if prefixLength this <? suggestionLen then prefixLength this else suggestionLen in
    deleteInSuggestionPrefixLoop suggestion suggestionLen (take (Z.to_nat deleteLen) del) 0.

(** The variables of the candidate loop of [lookup]. *)
Record LoopState := mkLoop {
  ls_suggestions : list SuggestItem;
  ls_maxEditDistance2 : Z;
  ls_consideredDeletes : gset jsstring;
  ls_consideredSuggestions : gset jsstring;
  ls_distanceComparer : EditDistance
}.

Definition set_suggestions (l : list SuggestItem) (st : LoopState) : LoopState :=
  mkLoop l (ls_maxEditDistance2 st) (ls_consideredDeletes st) (ls_consideredSuggestions st)
         (ls_distanceComparer st).

Definition set_maxEditDistance2 (d : Z) (st : LoopState) : LoopState :=
  mkLoop (ls_suggestions st) d (ls_consideredDeletes st) (ls_consideredSuggestions st)
         (ls_distanceComparer st).

(** The end of the body of the loop over [dictSuggestions], once [distance]
    is known: lines "if (distance <= maxEditDistance2) ...". *)
Definition recordSuggestion (this : SymSpell) (verbosity : Verbosity)
    (suggestion : jsstring) (distance : Z) (st : LoopState) : LoopState :=
  if distance <=? ls_maxEditDistance2 st then
    let suggestionCount := words this !! suggestion in
    let si := mkSuggestItem suggestion distance (default 0 suggestionCount) in
    match ls_suggestions st, verbosity with
    | _ :: _, CLOSEST =>
        (* we will calculate DamLev distance only to the smallest found distance so far *)
        let st := if distance <? ls_maxEditDistance2 st then set_suggestions [] st else st in
        let st := set_maxEditDistance2 distance st in
        set_suggestions (ls_suggestions st ++ [si]) st
    | s0 :: rest, TOP =>
        if (distance <? ls_maxEditDistance2 st) || js_gt suggestionCount (Some (count s0))
        then set_suggestions (si :: rest) (set_maxEditDistance2 distance st)
        else st
    | _, _ =>
        let st := if Verbosity_eqb verbosity ALL then st
                  else set_maxEditDistance2 distance st in
        set_suggestions (ls_suggestions st ++ [si]) st
    end
  else st.

(** [input.indexOf(c) < 0] for a one-character string [c]. *)
Definition notIn (c : option N) (input : jsstring) : bool :=
  match c with
  | Some c => negb (bool_decide (c ∈ input))
  | None => true
  end.

(** The body of the loop over [dictSuggestions] for one [suggestion]. *)
Definition suggestionBody (this : SymSpell) (verbosity : Verbosity) (maxEditDistance : Z)
    (input : jsstring) (inputLen inputPrefixLen : Z) (candidate : jsstring)
    (st : LoopState) (suggestion : jsstring) : LoopState :=
  let candidateLen := Z.of_nat (length candidate) in
  if decide (suggestion = input) then st
  else
    let suggestionLen := Z.of_nat (length suggestion) in
    if (Z.abs (suggestionLen - inputLen) >? ls_maxEditDistance2 st)
       || (suggestionLen <? candidateLen)
       || ((suggestionLen =? candidateLen) && negb (bool_decide (suggestion = candidate)))
    then st
    else
      let suggPrefixLen := Z.min suggestionLen (prefixLength this) in
      if (suggPrefixLen >? inputPrefixLen)
         && (suggPrefixLen - candidateLen >? ls_maxEditDistance2 st)
      then st
      else if candidateLen =? 0 then
        (* suggestions which have no common chars with input *)
        let distance := Z.max inputLen suggestionLen in
        if (distance >? ls_maxEditDistance2 st)
           || bool_decide (suggestion ∈ ls_consideredSuggestions st)
        then st
        else recordSuggestion this verbosity suggestion distance st
      else if suggestionLen =? 1 then
        let distance := if notIn (suggestion !! 0%nat) input then inputLen else inputLen - 1 in
        if (distance >? ls_maxEditDistance2 st)
           || bool_decide (suggestion ∈ ls_consideredSuggestions st)
        then st
        else recordSuggestion this verbosity suggestion distance st
      else
        let min :=
          if prefixLength this - maxEditDistance =? candidateLen
          then Z.min inputLen suggestionLen - prefixLength this else 0 in
        if (prefixLength this - maxEditDistance =? candidateLen)
           && (((min >? 1)
                && negb (bool_decide (substrFrom input (inputLen + 1 - min)
                                      = substrFrom suggestion (suggestionLen + 1 - min))))
               || ((min >? 0)
                   && negb (bool_decide (charAt input (inputLen - min)
                                         = charAt suggestion (suggestionLen - min)))
                   && (negb (bool_decide (charAt input (inputLen - min - 1)
                                          = charAt suggestion (suggestionLen - min)))
                       || negb (bool_decide (charAt input (inputLen - min)
                                             = charAt suggestion (suggestionLen - min - 1))))))
        then st
        else if (negb (Verbosity_eqb verbosity ALL)
                 && negb (deleteInSuggestionPrefix this candidate candidateLen
                            suggestion suggestionLen))
                || bool_decide (suggestion ∈ ls_consideredSuggestions st)
        then st
        else
          let '(distance, comparer) :=
            EditDistance_compare (ls_distanceComparer st) input suggestion (ls_maxEditDistance2 st) in
          let st := mkLoop (ls_suggestions st) (ls_maxEditDistance2 st) (ls_consideredDeletes st)
                           ({[suggestion]} ∪ ls_consideredSuggestions st) comparer in
          match distance with
          | Some distance =>
              if distance <? 0 then st
              else recordSuggestion this verbosity suggestion distance st
          | None => st
          end.

(** "add edits": the loop that enqueues the single-character deletes of
    [candidate] that were not seen before. *)
Definition pushDeletes (candidate : jsstring) (queue : list jsstring) (st : LoopState)
    : list jsstring * LoopState :=
  fold_left
    (fun '(queue, st) i =>
       let del := deleteAt candidate i in
       if bool_decide (del ∈ ls_consideredDeletes st) then (queue, st)
       else (queue ++ [del],
             mkLoop (ls_suggestions st) (ls_maxEditDistance2 st)
                    ({[del]} ∪ ls_consideredDeletes st) (ls_consideredSuggestions st)
                    (ls_distanceComparer st)))
    (seq 0 (length candidate)) (queue, st).

(** The [while (candidatePointer < candidates.length)] loop; [queue] is the
    part of [candidates] from [candidatePointer] on.  [None] only when
    [fuel] iterations were not enough to empty the queue. *)
Fixpoint lookupLoop (fuel : nat) (this : SymSpell) (verbosity : Verbosity)
    (maxEditDistance : Z) (input : jsstring) (inputLen inputPrefixLen : Z)
    (queue : list jsstring) (st : LoopState) : option LoopState :=
  match queue with
  | [] => Some st
  | candidate :: queue =>
      match fuel with
      | O => None
      | S fuel' =>
          let continue := lookupLoop fuel' this verbosity maxEditDistance input
                            inputLen inputPrefixLen in
          let candidateLen := Z.of_nat (length candidate) in
          let lengthDiff := inputPrefixLen - candidateLen in
          if lengthDiff >? ls_maxEditDistance2 st then
            (* skip to next candidate if Verbosity.ALL, look no further otherwise *)
            if Verbosity_eqb verbosity ALL then continue queue st else Some st
          else
            let st :=
              match deletes this !! candidate with
              | Some dictSuggestions =>
                  fold_left (suggestionBody this verbosity maxEditDistance input inputLen
                               inputPrefixLen candidate) dictSuggestions st
              | None => st
              end in
            if (lengthDiff <? maxEditDistance) && (candidateLen <=? prefixLength this) then
              if negb (Verbosity_eqb verbosity ALL) && (lengthDiff >=? ls_maxEditDistance2 st)
              then continue queue st
              else
                let '(queue, st) := pushDeletes candidate queue st in
                continue queue st
            else continue queue st
      end
  end.

(** A bound on the number of iterations of the candidate loop started on a
    candidate of length [n]: the size of the tree of its successive
    deletes. *)
Fixpoint lookupFuel (n : nat) : nat :=
  match n with
  | O => 1
  | S n' => S (S n' * lookupFuel n')
  end.

(** The comparator given to [sort], [(a, b) => a.compareTo(b)], through a
    stable insertion sort. *)
Fixpoint sortInsert (x : SuggestItem) (l : list SuggestItem) : list SuggestItem :=
  match l with
  | [] => [x]
  | y :: l' => if compareTo x y <=? 0 then x :: y :: l' else y :: sortInsert x l'
  end.

Definition sortSuggestions (l : list SuggestItem) : list SuggestItem :=
  foldr sortInsert [] l.

Section Lookup.

(** [String.prototype.toLowerCase], and [Helpers.transferCasingSimilar]
    (which rests on the external [difflib] package). *)
Variable toLowerCase : jsstring -> jsstring.
Variable transferCasingSimilar : jsstring -> jsstring -> jsstring.

(** The local function [earlyExit] of [lookup]. *)
Definition earlyExit (opts : LookupOptions) (input : jsstring) (maxEditDistance : Z)
    (suggestions : list SuggestItem) : list SuggestItem :=
  if includeUnknown opts && (length suggestions =? 0)%nat
  then suggestions ++ [mkSuggestItem input (maxEditDistance + 1) 0]
  else suggestions.

(** [lookup(input, verbosity, maxEditDistance, options)]; [None] for
    [maxEditDistance] is [null]. *)
Definition SymSpell_lookup (this : SymSpell) (input : jsstring) (verbosity : Verbosity)
    (maxEditDistance : option Z) (opts : LookupOptions) : list SuggestItem :=
  let maxEditDistance := default (maxDictionaryEditDistance this) maxEditDistance in
  let suggestions := [] in
  let inputLen := Z.of_nat (length input) in
  let originalPhrase := if transferCasing opts then input else [] in
  let input := if transferCasing opts then toLowerCase input else input in
  let earlyExit := earlyExit opts input maxEditDistance in
  (* early exit - word is too big to possibly match any words *)
  if inputLen - maxEditDistance >? maxDictionaryWordLength this then earlyExit suggestions
  else
    (* quick look for exact match *)
    let found := words this !! input in
    let suggestions :=
      match found with
      | Some suggestionCount => suggestions ++ [mkSuggestItem input 0 suggestionCount]
      | None => suggestions
      end in
    if bool_decide (is_Some found) && negb (Verbosity_eqb verbosity ALL)
    then earlyExit suggestions
    else
      let ignored :=
        match ignoreToken opts with
        | Some matches => matches input
        | None => false
        end in
      let suggestions :=
        if ignored then suggestions ++ [mkSuggestItem input 0 1] else suggestions in
      if ignored && negb (Verbosity_eqb verbosity ALL) then earlyExit suggestions
      else if maxEditDistance =? 0 then earlyExit suggestions
      else
        let inputPrefixLen :=
          if inputLen >? prefixLength this then prefixLength this else inputLen in
        let candidate :=
          if inputLen >? prefixLength this then substr input 0 inputPrefixLen else input in
        let st := mkLoop suggestions maxEditDistance ∅ {[input]} newEditDistance in
        match lookupLoop (lookupFuel (length candidate)) this verbosity maxEditDistance
                input inputLen inputPrefixLen [candidate] st with
        | None => []
        | Some st =>
            let suggestions := ls_suggestions st in
            (* sort by ascending edit distance, then by descending word frequency *)
            let suggestions :=
              if (1 <? length suggestions)%nat
              then rev (sortSuggestions suggestions) else suggestions in
            let suggestions :=
              if transferCasing opts
              then (fun s => mkSuggestItem (transferCasingSimilar originalPhrase (term s))
                                           (distance s) (count s)) <$> suggestions
              else suggestions in
            earlyExit suggestions
        end.

End Lookup.

(** ** src/index.js : wordSegmentation and lookupCompound *)

(** White space in the sense of the regular expression [\s]. *)
Definition isWhitespace (c : N) : bool :=
  bool_decide (c ∈ [9; 10; 11; 12; 13; 32; 160; 5760; 8232; 8233; 8239; 8287; 12288; 65279]%N)
  || ((8192 <=? c)%N && (c <=? 8202)%N).

(** [s.replace(/\s+/g, '')] *)
Definition removeWhitespace (s : jsstring) : jsstring :=
  filter (fun c => isWhitespace c = false) s.

(** The string without its leading white space. *)
Fixpoint dropWhitespace (s : jsstring) : jsstring :=
  match s with
  | c :: s' => if isWhitespace c then dropWhitespace s' else s
  | [] => []
  end.

(** [s.trimEnd()] *)
Definition trimEnd (s : jsstring) : jsstring :=
  reverse (dropWhitespace (reverse s)).

(** The options of [wordSegmentation]; [None] is [null]. *)
Record SegmentationOptions := mkSegmentationOptions {
  seg_maxEditDistance : option Z;
  seg_maxSegmentationWordLength : option Z;
  seg_ignoreToken : option (jsstring -> bool)
}.

(** The options of [lookupCompound]. *)
Record CompoundOptions := mkCompoundOptions {
  ignoreNonWords : bool;
  cmp_transferCasing : bool
}.

(** How a call ends: with a value, or with an exception ([TypeError] on a
    property read of [undefined], [RangeError] on [new Array] of a negative
    length). *)
Inductive Completion (A : Type) : Type :=
  | Returned (a : A)
  | Thrown.
Arguments Returned {A} a.
Arguments Thrown {A}.

Section Host.

(** The part of the host that the two functions use and that is kept
    abstract: the numbers in which counts and probabilities are computed
    (IEEE doubles in the source) with their operations, the tokenizer
    [Helpers.parseWordsCase], [Helpers.isAcronym], the truth value of
    [parseInt(s, 10)], [toLowerCase] and [Helpers.transferCasingSimilar]. *)
Variable num : Type.
Variable num_of_Z : Z -> num.
Variables nadd nmul ndiv nmin nmax npow : num -> num -> num.
Variables nfloor nlog10 : num -> num.
Variable nlt : num -> num -> bool.
Variable nfalsy : num -> bool.
Variable parseWordsCase : jsstring -> bool -> list jsstring.
Variable isAcronym : jsstring -> bool.
Variable parseIntTruthy : jsstring -> bool.
Variable toLowerCase : jsstring -> jsstring.
Variable transferCasingSimilar : jsstring -> jsstring -> jsstring.

(** A composition of [wordSegmentation]. *)
Record Composition := mkComposition {
  segmentedString : jsstring;
  correctedString : jsstring;
  distanceSum : Z;
  probabilityLogSum : num
}.

(** [x || 0] on a number *)
Definition norZero (x : num) : num := if nfalsy x then num_of_Z 0 else x.

(** The body of the inner loop of [wordSegmentation] (part length [i] at
    start position [j]); [None] when a property of an [undefined]
    composition is read.  An array is used here with indices that may be
    any number, so [compositions] is a map from [Z]. *)
Definition segmentationBody (this : SymSpell) (input : jsstring)
    (maxEditDistance maxSegmentationWordLength : Z) (ignoreToken : option (jsstring -> bool))
    (arraySize circularIndex : Z) (j : nat)
    (compositions : gmap Z Composition) (i : nat) : option (gmap Z Composition) :=
  let part := substr input (Z.of_nat j) (Z.of_nat i) in
  c0 ← part !! 0%nat;
  let separatorLength := if isWhitespace c0 then 0 else 1 in
  let part := if isWhitespace c0 then substrFrom part 1 else part in
  let topEd := Z.of_nat (length part) in
  let part := removeWhitespace part in
  let topEd := topEd - Z.of_nat (length part) in
  let results :=
    SymSpell_lookup toLowerCase transferCasingSimilar this part TOP (Some maxEditDistance)
      (mkLookupOptions false ignoreToken false) in
  let '(topResult, topEd, topProbabilityLog) :=
    match results with
    | r :: _ =>
        (term r, topEd + distance r,
         nlog10 (ndiv (num_of_Z (count r)) (num_of_Z SymSpell_N)))
    | [] =>
        (part, topEd + Z.of_nat (length part),
         nlog10 (ndiv (num_of_Z 10)
                      (ndiv (num_of_Z SymSpell_N)
                            (npow (num_of_Z 10) (num_of_Z (Z.of_nat (length part)))))))
    end in
  let destinationIndex := Z.rem (Z.of_nat i + circularIndex) arraySize in
  if (j =? 0)%nat then
    Some (<[destinationIndex := mkComposition part topResult topEd topProbabilityLog]>
            compositions)
  else
    replace ←
      (if Z.of_nat i =? maxSegmentationWordLength then Some true
       else
         prev ← compositions !! circularIndex;
         dest ← compositions !! destinationIndex;
         Some ((((distanceSum prev + topEd =? distanceSum dest)
                 || (distanceSum prev + separatorLength + topEd =? distanceSum dest))
                && nlt (probabilityLogSum dest) (nadd (probabilityLogSum prev) topProbabilityLog))
               || (distanceSum prev + separatorLength + topEd <? distanceSum dest)));
    if replace : bool then
      prev ← compositions !! circularIndex;
      Some (<[destinationIndex :=
                mkComposition (segmentedString prev ++ [SPACE] ++ part)
                              (correctedString prev ++ [SPACE] ++ topResult)
                              (distanceSum prev + separatorLength + topEd)
                              (nadd (norZero (probabilityLogSum prev)) topProbabilityLog)]>
              compositions)
    else Some compositions.

(** The outer loop of [wordSegmentation], from start position [j], over the
    [n] positions left. *)
Fixpoint segmentationLoop (this : SymSpell) (input : jsstring)
    (maxEditDistance maxSegmentationWordLength : Z) (ignoreToken : option (jsstring -> bool))
    (arraySize : Z) (n j : nat) (circularIndex : Z) (compositions : gmap Z Composition)
    : option (Z * gmap Z Composition) :=
  match n with
  | O => Some (circularIndex, compositions)
  | S n' =>
      let imax := Z.min (Z.of_nat (length input) - Z.of_nat j) maxSegmentationWordLength in
      compositions ←
        foldl (fun acc i =>
                 compositions ← acc;
                 segmentationBody this input maxEditDistance maxSegmentationWordLength
                   ignoreToken arraySize circularIndex j compositions i)
              (Some compositions) (seq 1 (Z.to_nat imax));
      let circularIndex := circularIndex + 1 in
      let circularIndex := if circularIndex =? arraySize then 0 else circularIndex in
      segmentationLoop this input maxEditDistance maxSegmentationWordLength ignoreToken
        arraySize n' (S j) circularIndex compositions
  end.

(** [wordSegmentation(input, options)]: the returned composition, [None]
    when the function returns [undefined]. *)
Definition wordSegmentation (this : SymSpell) (input : jsstring) (opts : SegmentationOptions)
    : Completion (option Composition) :=
  let maxEditDistance := default (maxDictionaryEditDistance this) (seg_maxEditDistance opts) in
  let maxSegmentationWordLength :=
    default (maxDictionaryWordLength this) (seg_maxSegmentationWordLength opts) in
  let arraySize := Z.min maxSegmentationWordLength (Z.of_nat (length input)) in
  (* new Array(arraySize) *)
  if arraySize <? 0 then Thrown
  else
    let compositions : gmap Z Composition := ∅ in
    let circularIndex := -1 in
    match segmentationLoop this input maxEditDistance maxSegmentationWordLength
            (seg_ignoreToken opts) arraySize (length input) 0 circularIndex compositions with
    | None => Thrown
    | Some (circularIndex, compositions) => Returned (compositions !! circularIndex)
    end.

(** A [SuggestItem] of [lookupCompound]: its count is no longer an integer,
    and its distance may come from the distance kernel. *)
Record CompoundItem := mkCompoundItem {
  c_term : jsstring;
  c_distance : option Z;
  c_count : num
}.

Definition ofSuggestItem (s : SuggestItem) : CompoundItem :=
  mkCompoundItem (term s) (Some (distance s)) (num_of_Z (count s)).

(** [a + b] on numbers that may be [undefined] *)
Definition js_add (a b : option Z) : option Z :=
  x ← a; y ← b; Some (x + y).

(** [a === b] on numbers that may be [undefined] ([NaN] is not equal to
    itself). *)
Definition js_eq (a b : option Z) : bool :=
  match a, b with
  | Some x, Some y => x =? y
  | _, _ => false
  end.

(** "estimated word occurrence probability P = 10 / (N * 10^word length)":
    [10 / Math.pow(10, term.length)] *)
Definition unknownCount (t : jsstring) : num :=
  ndiv (num_of_Z 10) (npow (num_of_Z 10) (num_of_Z (Z.of_nat (length t)))).

(** The body of the loop over the split positions [j] of a token; the state
    is [suggestionSplitBest] ([None] is [null]) and the distance object. *)
Definition splitBody (this : SymSpell) (maxEditDistance : Z) (token : jsstring)
    (suggestions : list SuggestItem)
    (st : option CompoundItem * EditDistance) (j : nat) : option CompoundItem * EditDistance :=
  let '(suggestionSplitBest, distanceComparer) := st in
  let part1 := substr token 0 (Z.of_nat j) in
  let part2 := substrFrom token (Z.of_nat j) in
  let suggestions1 :=
    SymSpell_lookup toLowerCase transferCasingSimilar this part1 TOP (Some maxEditDistance)
      noOptions in
  match suggestions1 with
  | [] => st
  | s1 :: _ =>
      let suggestions2 :=
        SymSpell_lookup toLowerCase transferCasingSimilar this part2 TOP (Some maxEditDistance)
          noOptions in
      match suggestions2 with
      | [] => st
      | s2 :: _ =>
          (* select best suggestion for split pair *)
          let splitTerm := term s1 ++ [SPACE] ++ term s2 in
          let '(distance2, distanceComparer) :=
            EditDistance_compare distanceComparer token splitTerm maxEditDistance in
          let distance2 :=
            if js_lt distance2 (Some 0) then Some (maxEditDistance + 1) else distance2 in
          if match suggestionSplitBest with
             | Some best => js_gt distance2 (c_distance best)
             | None => false
             end
          then (suggestionSplitBest, distanceComparer)
          else
            let suggestionSplitBest :=
              match suggestionSplitBest with
              | Some best => if js_lt distance2 (c_distance best) then None else Some best
              | None => None
              end in
            let splitCount :=
              match bigrams this !! splitTerm with
              | Some bigramCount =>
                  let splitCount := num_of_Z bigramCount in
                  match suggestions with
                  | s :: _ =>
                      if bool_decide (term s1 ++ term s2 = token)
                      then nmax splitCount (nadd (num_of_Z (count s)) (num_of_Z 2))
                      else if bool_decide (term s1 = term s) || bool_decide (term s2 = term s)
                      then nmax splitCount (nadd (num_of_Z (count s)) (num_of_Z 1))
                      else splitCount
                  | [] =>
                      if bool_decide (term s1 ++ term s2 = token)
                      then nmax splitCount
                                (nadd (nmax (num_of_Z (count s1)) (num_of_Z (count s2)))
                                      (num_of_Z 2))
                      else splitCount
                  end
              | None =>
                  nfloor (nmin (num_of_Z (bigramCountMin this))
                               (nmul (ndiv (num_of_Z (count s1)) (num_of_Z SymSpell_N))
                                     (num_of_Z (count s2))))
              end in
            let suggestionSplit := mkCompoundItem splitTerm distance2 splitCount in
            match suggestionSplitBest with
            | Some best =>
                if nlt (c_count best) splitCount
                then (Some suggestionSplit, distanceComparer)
                else (Some best, distanceComparer)
            | None => (Some suggestionSplit, distanceComparer)
            end
      end
  end.

(** The variables of the token loop of [lookupCompound]. *)
Record CompoundState := mkCompound {
  suggestionParts : list CompoundItem;
  lastCombi : bool;
  cs_distanceComparer : EditDistance
}.

(** The token loop from "suggestions = this.lookup(termList1[i], ...)" on;
    [None] when a property of [undefined] is read. *)
Definition tokenBody (this : SymSpell) (maxEditDistance : Z) (termList1 : list jsstring)
    (i : nat) (token : jsstring) (st : CompoundState) : option CompoundState :=
  let suggestions :=
    SymSpell_lookup toLowerCase transferCasingSimilar this token TOP (Some maxEditDistance)
      noOptions in
  (* combi check, always before split *)
  combined ←
    (if negb (i =? 0)%nat && negb (lastCombi st) then
       let previous := default [] (termList1 !! (i - 1)%nat) in
       let suggestionsCombi :=
         SymSpell_lookup toLowerCase transferCasingSimilar this (previous ++ token) TOP
           (Some maxEditDistance) noOptions in
       match suggestionsCombi with
       | [] => Some None
       | combi :: _ =>
           best1 ← last (suggestionParts st);
           let best2 :=
             match suggestions with
             | s :: _ => ofSuggestItem s
             | [] => mkCompoundItem token (Some (maxEditDistance + 1)) (unknownCount token)
             end in
           let distance1 := js_add (c_distance best1) (c_distance best2) in
           if js_le (Some 0) distance1
              && (js_lt (Some (distance combi + 1)) distance1
                  || (js_eq (Some (distance combi + 1)) distance1
                      && nlt (nmul (ndiv (c_count best1) (num_of_Z SymSpell_N)) (c_count best2))
                             (num_of_Z (count combi))))
           then
             Some (Some (mkCompoundItem (term combi) (Some (distance combi + 1))
                                        (num_of_Z (count combi))))
           else Some None
       end
     else Some None);
  match combined with
  | Some combi =>
      Some (mkCompound (take (length (suggestionParts st) - 1) (suggestionParts st) ++ [combi])
                       true (cs_distanceComparer st))
  | None =>
      let unknown :=
        mkCompoundItem token (Some (maxEditDistance + 1)) (nfloor (unknownCount token)) in
      let '(part, comparer) :=
        match suggestions with
        | s :: _ =>
            if (distance s =? 0) || (length token =? 1)%nat
            then (ofSuggestItem s, cs_distanceComparer st)
            else if (1 <? length token)%nat then
              let '(best, comparer) :=
                fold_left (splitBody this maxEditDistance token suggestions)
                          (seq 1 (length token - 1))
                          (Some (ofSuggestItem s), cs_distanceComparer st) in
              (default unknown best, comparer)
            else (unknown, cs_distanceComparer st)
        | [] =>
            if (1 <? length token)%nat then
              let '(best, comparer) :=
                fold_left (splitBody this maxEditDistance token suggestions)
                          (seq 1 (length token - 1))
                          (None, cs_distanceComparer st) in
              (default unknown best, comparer)
            else (unknown, cs_distanceComparer st)
        end in
      Some (mkCompound (suggestionParts st ++ [part]) false comparer)
  end.

(** The token loop of [lookupCompound], over the tokens of [termList1] from
    index [i] on. *)
Fixpoint tokenLoop (this : SymSpell) (maxEditDistance : Z) (opts : CompoundOptions)
    (termList1 termList2 : list jsstring) (i : nat) (rest : list jsstring)
    (st : CompoundState) : option CompoundState :=
  match rest with
  | [] => Some st
  | token :: rest =>
      let continue := tokenLoop this maxEditDistance opts termList1 termList2 (S i) rest in
      skipped ←
        (if ignoreNonWords opts then
           if parseIntTruthy token then Some (Some (mkCompoundItem token (Some 0) (num_of_Z 0)))
           else
             original ← termList2 !! i;
             if isAcronym original
             then Some (Some (mkCompoundItem original (Some 0) (num_of_Z 0)))
             else Some None
         else Some None);
      match skipped with
      | Some part =>
          continue (mkCompound (suggestionParts st ++ [part]) (lastCombi st)
                               (cs_distanceComparer st))
      | None =>
          st ← tokenBody this maxEditDistance termList1 i token st;
          continue st
      end
  end.

(** The parts of [lookupCompound] when the token loop ends. *)
Definition compoundParts (this : SymSpell) (input : jsstring) (maxEditDistance : option Z)
    (opts : CompoundOptions) : option CompoundState :=
  let maxEditDistance := default (maxDictionaryEditDistance this) maxEditDistance in
  let termList1 := parseWordsCase input false in
  let termList2 := if ignoreNonWords opts then parseWordsCase input true else [] in
  tokenLoop this maxEditDistance opts termList1 termList2 0 termList1
    (mkCompound [] false newEditDistance).

(** [s += si.term + ' '] over the parts *)
Definition joinParts (parts : list CompoundItem) : jsstring :=
  foldl (fun s si => s ++ c_term si ++ [SPACE]) [] parts.

(** [count *= si.count / N] over the parts, from [count = N] *)
Definition productCount (parts : list CompoundItem) : num :=
  foldl (fun count si => nmul count (ndiv (c_count si) (num_of_Z SymSpell_N)))
        (num_of_Z SymSpell_N) parts.

(** [lookupCompound(input, maxEditDistance, options)] *)
Definition lookupCompound (this : SymSpell) (input : jsstring) (maxEditDistance : option Z)
    (opts : CompoundOptions) : Completion (list CompoundItem) :=
  match compoundParts this input maxEditDistance opts with
  | None => Thrown
  | Some st =>
      let count := nfloor (productCount (suggestionParts st)) in
      let s := trimEnd (joinParts (suggestionParts st)) in
      let s := if cmp_transferCasing opts then transferCasingSimilar input s else s in
      let '(d, _) := EditDistance_compare (cs_distanceComparer st) input s MAX_SAFE_INTEGER in
      Returned [mkCompoundItem s d count]
  end.

End Host.

(* ===================================================================== *)
(** * Vocabulary of the properties                                        *)
(* ===================================================================== *)

(** [prefix(t, prefixLength)]: the part of a term that takes part in the
    generation of delete variants (the value of [key] in [editsPrefix]
    after its truncation). *)
Definition termPrefix (this : SymSpell) (key : jsstring) : jsstring :=
  if Z.of_nat (length key) >? prefixLength this
  then substr key 0 (prefixLength this) else key.

(** [variant] is a key of the Deletes map and its bucket contains [t]. *)
Definition inBucket (this : SymSpell) (variant t : jsstring) : Prop :=
  exists bucket, deletes this !! variant = Some bucket /\ t ∈ bucket.

(** [d] is obtained from [p] by deleting at most [k] characters. *)
Definition deletedFrom (k : Z) (p d : jsstring) : Prop :=
  d `sublist_of` p /\ Z.of_nat (length p) - Z.of_nat (length d) <= k.

(** The strings that a call [edits(word, editDistance, _)] visits when no
    string is skipped as already present: the single-character deletes of
    a [word] longer than one character, and, while the incremented distance
    stays below the maximum [med], what the calls on these deletes visit. *)
Inductive visits (med : Z) : jsstring -> Z -> jsstring -> Prop :=
  | visits_delete word editDistance i :
      (1 < length word)%nat -> (i < length word)%nat ->
      visits med word editDistance (deleteAt word i)
  | visits_deeper word editDistance i d :
      (1 < length word)%nat -> (i < length word)%nat ->
      editDistance + 1 < med ->
      visits med (deleteAt word i) (editDistance + 1) d ->
      visits med word editDistance d.

(** Every string of [deleteWords] shorter than [word] that the traversal
    recursed into already has all it visits in [deleteWords]. *)
Definition explored (med : Z) (deleteWords : list jsstring) (word : jsstring)
    (editDistance : Z) : Prop :=
  forall d', d' ∈ deleteWords -> (length d' < length word)%nat ->
    let depth := editDistance + (Z.of_nat (length word) - Z.of_nat (length d')) in
    depth < med ->
    forall d, visits med d' depth d -> d ∈ deleteWords.

(** What one call of [edits] adds to [deleteWords]: non-empty strings
    shorter than [word]. *)
Definition addedBy (word : jsstring) (before after : list jsstring) : Prop :=
  forall x, x ∈ after ->
    x ∈ before \/ ((1 <= length x)%nat /\ (length x < length word)%nat).

(** The loop of [edits_fuel] over the positions of [word], with the
    distance already incremented. *)
Definition editsLoop (med : Z) (fuel' : nat) (word : jsstring) (editDistance : Z) :=
  fold_left
    (fun deleteWords i =>
       let del := deleteAt word i in
       if decide (del ∈ deleteWords) then deleteWords
       else
         let deleteWords := deleteWords ++ [del] in
         if editDistance <? med
         then edits_fuel fuel' med del editDistance deleteWords
         else deleteWords).

(** The Deletes map holds exactly the delete variants of the words: [t] is
    in the bucket of [x] iff [t] is a word and [x] one of its variants. *)
Definition deletesInv (this : SymSpell) : Prop :=
  forall x t, inBucket this x t <->
              (is_Some (words this !! t) /\ x ∈ editsPrefix this t).

(** The ways a call of [createDictionaryEntry] can end. *)
Inductive entryOutcome (this : SymSpell) (key : jsstring) (c : Z) : bool * SymSpell -> Prop :=
  | outcome_ignored :
      c <= 0 -> countThreshold this > 0 ->
      entryOutcome this key c (false, this)
  | outcome_below_promoted previous :
      countThreshold this > 1 ->
      belowThresholdWords this !! key = Some previous ->
      accumulate previous (Z.max c 0) >= countThreshold this ->
      entryOutcome this key c
        (promote (set_belowThresholdWords (delete key) this) key (accumulate previous (Z.max c 0)))
  | outcome_below_updated previous :
      countThreshold this > 1 ->
      belowThresholdWords this !! key = Some previous ->
      accumulate previous (Z.max c 0) < countThreshold this ->
      entryOutcome this key c
        (false, set_belowThresholdWords <[key := accumulate previous (Z.max c 0)]> this)
  | outcome_word_updated previous :
      (countThreshold this > 1 -> belowThresholdWords this !! key = None) ->
      words this !! key = Some previous ->
      entryOutcome this key c
        (false, set_words <[key := accumulate previous (Z.max c 0)]> this)
  | outcome_below_new :
      (countThreshold this > 1 -> belowThresholdWords this !! key = None) ->
      words this !! key = None ->
      Z.max c 0 < countThreshold this ->
      entryOutcome this key c
        (false, set_belowThresholdWords <[key := Z.max c 0]> this)
  | outcome_promoted :
      (countThreshold this > 1 -> belowThresholdWords this !! key = None) ->
      words this !! key = None ->
      Z.max c 0 >= countThreshold this ->
      entryOutcome this key c (promote this key (Z.max c 0)).


(** A suggestion list ordered by distance ascending, then count descending. *)
Definition precedes (a b : SuggestItem) : Prop :=
  distance a < distance b \/ (distance a = distance b /\ count b <= count a).

Definition sortedSuggestions (l : list SuggestItem) : Prop :=
  forall i j a b, (i < j)%nat -> l !! i = Some a -> l !! j = Some b -> precedes a b.

(** The iterations the candidate loop may still need for a queue. *)
Definition queueFuel (queue : list jsstring) : nat :=
  foldr (fun c n => (lookupFuel (length c) + n)%nat) O queue.

(** [le_cmp a b]: the comparator of [sort] does not put [a] after [b]. *)
Definition le_cmp (a b : SuggestItem) : Prop := compareTo a b <= 0.

(** The condition of the transposition at the cell [(S i, S j)] of the
    reference matrix. *)
Definition swapped (a b : jsstring) (i j : nat) : bool :=
  match i, j with
  | S i', S j' => bool_decide (a !! i = b !! j') && bool_decide (a !! i' = b !! j)
  | _, _ => false
  end.

(** The computation of [currentCost] in one iteration of the inner loop of
    the distance kernel, from the values it reads. *)
Definition cellCost (char1 char2 prevChar1 prevChar2 : option N) (i j : nat)
    (diag above left thisTransCost : option Z) : option Z :=
  if decide (char1 = char2) then diag
  else
    let currentCost := if js_lt above diag then above else diag in
    let currentCost := if js_lt left currentCost then left else currentCost in
    let currentCost := js_succ currentCost in
    if negb (i =? 0)%nat && negb (j =? 0)%nat
       && bool_decide (char1 = prevChar2)
       && bool_decide (prevChar1 = char2)
       && js_lt (js_succ thisTransCost) currentCost
    then js_succ thisTransCost
    else currentCost.

(** [remaining lenDiff r c]: the least number of edits still needed from the
    cell [(r, c)] to the last cell of the matrix, whose columns exceed its
    rows by [lenDiff]. *)
Definition remaining (lenDiff : Z) (r c : nat) : Z :=
  Z.abs (lenDiff + Z.of_nat r - Z.of_nat c).

(** [approx a b lenDiff M v r c]: the value [v] stands for the cell [(r, c)]
    of the reference matrix of [a] and [b] as far as a final result of at
    most [M] can tell: the totals through the cell, capped at [M + 1],
    agree. *)
Definition approx (a b : jsstring) (lenDiff M : Z) (v : Z) (r c : nat) : Prop :=
  0 <= v /\
  Z.min (v + remaining lenDiff r c) (M + 1)
  = Z.min (osa_dp a b r c + remaining lenDiff r c) (M + 1).

Definition approxAt (a b : jsstring) (lenDiff M : Z) (x : option Z) (r c : nat) : Prop :=
  exists v, x = Some v /\ approx a b lenDiff M v r c.

(** The state of the inner loop of row [i] before the column [j], for the
    window of columns [jS .. jE - 1]; [old] is the state at the start of the
    row. *)
Record innerInv (a b : jsstring) (lenDiff M : Z) (i jS jE : nat) (old : OuterState)
    (j : nat) (st : InnerState) : Prop := {
  inv_left : approxAt a b lenDiff M (leftCharCost st) i j;
  inv_above : approxAt a b lenDiff M (aboveCharCost st) (S i) j;
  inv_current : currentCost st = aboveCharCost st;
  inv_above_cell : aboveCharCost st = arrGet (char1Costs st) (j - 1);
  inv_char2 : char2 st = b !! (j - 1)%nat;
  inv_trans : (1 <= i)%nat -> (j < jE)%nat ->
              approxAt a b lenDiff M (nextTransCost st) (i - 1) (j - 1);
  inv_costs_new : forall c, (jS <= c < j)%nat ->
                  approxAt a b lenDiff M (arrGet (char1Costs st) c) (S i) (S c);
  inv_costs_old : forall c, ~ (jS <= c < j)%nat ->
                  arrGet (char1Costs st) c = arrGet (o_char1Costs old) c;
  inv_prev_new : forall c, (jS <= c < j)%nat ->
                 approxAt a b lenDiff M (arrGet (prevChar1Costs st) c) i c;
  inv_prev_old : forall c, ~ (jS <= c < j)%nat ->
                 arrGet (prevChar1Costs st) c = arrGet (o_prevChar1Costs old) c
}.

(** What a row needs from the state it starts in. *)
Record rowPre (a b : jsstring) (lenDiff M : Z) (i jS jE : nat) (st : OuterState) : Prop := {
  pre_first : jS = O \/
              ((1 <= jS)%nat /\ (1 <= i)%nat /\
               lenDiff + Z.of_nat i - Z.of_nat jS = M /\
               a !! 0%nat <> b !! 0%nat);
  pre_costs : forall c, (jS <= c < jE)%nat ->
              approxAt a b lenDiff M (arrGet (o_char1Costs st) c) i (S c);
  pre_prev : (1 <= i)%nat -> forall c, (jS <= c)%nat -> (S c < jE)%nat ->
             approxAt a b lenDiff M (arrGet (o_prevChar1Costs st) c) (i - 1) c;
  pre_char1 : (1 <= i)%nat -> o_char1 st = a !! (i - 1)%nat
}.

(** What a row leaves. *)
Record rowPost (a b : jsstring) (lenDiff M : Z) (i jS jE : nat) (old st : OuterState)
    : Prop := {
  post_costs : forall c, (jS <= c < jE)%nat ->
               approxAt a b lenDiff M (arrGet (o_char1Costs st) c) (S i) (S c);
  post_costs_old : forall c, ~ (jS <= c < jE)%nat ->
                   arrGet (o_char1Costs st) c = arrGet (o_char1Costs old) c;
  post_prev : forall c, (jS <= c < jE)%nat ->
              approxAt a b lenDiff M (arrGet (o_prevChar1Costs st) c) i c;
  post_current : o_currentCost st = arrGet (o_char1Costs st) (jE - 1);
  post_char1 : o_char1 st = a !! i
}.

(** The state of [_distance] before row [i]: every column of [char1Costs]
    holds row [i] of the matrix, [prevChar1Costs] the row before it. *)
Definition fullInv (a b : jsstring) (len1 len2 : nat) (i : nat) (st : OuterState) : Prop :=
  let lenDiff := Z.of_nat len2 - Z.of_nat len1 in
  let M := Z.of_nat len2 in
  (forall c, (c < len2)%nat ->
             approxAt a b lenDiff M (arrGet (o_char1Costs st) c) i (S c)) /\
  ((1 <= i)%nat -> forall c, (c < len2)%nat ->
                   approxAt a b lenDiff M (arrGet (o_prevChar1Costs st) c) (i - 1) c) /\
  ((1 <= i)%nat -> o_char1 st = a !! (i - 1)%nat) /\
  ((1 <= i)%nat -> o_currentCost st = arrGet (o_char1Costs st) (len2 - 1)).

(** The state of [_distanceMax] before row [i], with the values [jStart] and
    [jEnd] left by the row before: the columns of the last window hold row
    [i] as far as a result of at most [M] can tell, the columns to the right
    of it still hold [M + 1]. *)
Definition bandInv (a b : jsstring) (len1 len2 : nat) (M : Z) (i : nat)
    (jStart : nat) (jEnd : Z) (st : OuterState) : Prop :=
  let lenDiff := Z.of_nat len2 - Z.of_nat len1 in
  jStart = Z.to_nat (Z.of_nat i - 1 - (M - lenDiff)) /\
  jEnd = Z.min (Z.of_nat len2) (M + Z.of_nat i) /\
  (forall c, (jStart <= c)%nat -> Z.of_nat c < jEnd ->
             approxAt a b lenDiff M (arrGet (o_char1Costs st) c) i (S c)) /\
  (forall c, jEnd <= Z.of_nat c -> (c < len2)%nat ->
             arrGet (o_char1Costs st) c = Some (M + 1)) /\
  ((1 <= i)%nat -> forall c, (jStart <= c)%nat -> Z.of_nat c < jEnd ->
                   approxAt a b lenDiff M (arrGet (o_prevChar1Costs st) c) (i - 1) c) /\
  ((1 <= i)%nat -> o_char1 st = a !! (i - 1)%nat) /\
  ((1 <= i)%nat -> o_currentCost st = arrGet (o_char1Costs st) (Z.to_nat jEnd - 1)).

(** ** A small host

    An instance of the host in which numbers are integers (division and
    the logarithm rounded down), a phrase is cut into words at white space,
    no word is a number or an acronym, and letters have no case; the
    properties of [lookupCompound] and [wordSegmentation] are run on it. *)
Module IntegerHost.

Fixpoint splitWords (cur : jsstring) (s : jsstring) : list jsstring :=
  match s with
  | [] => match cur with [] => [] | _ => [reverse cur] end
  | c :: s' =>
      if isWhitespace c
      then match cur with [] => splitWords [] s' | _ => reverse cur :: splitWords [] s' end
      else splitWords (c :: cur) s'
  end.

Definition parseWordsCase (phrase : jsstring) (preserveCase : bool) : list jsstring :=
  splitWords [] phrase.

Definition log10 (x : Z) : Z := Z.log2 x * 30103 / 100000.

Definition lookupCompound :=
  lookupCompound Z (fun z => z) Z.add Z.mul Z.div Z.min Z.max Z.pow (fun z => z) Z.ltb
    parseWordsCase (fun _ => false) (fun _ => false) (fun s => s) (fun _ s => s).

Definition compoundParts :=
  compoundParts Z (fun z => z) Z.add Z.mul Z.div Z.min Z.max Z.pow (fun z => z) Z.ltb
    parseWordsCase (fun _ => false) (fun _ => false) (fun s => s) (fun _ s => s).

Definition wordSegmentation :=
  wordSegmentation Z (fun z => z) Z.add Z.div Z.pow log10 Z.ltb (Z.eqb 0)
    (fun s => s) (fun _ s => s).

End IntegerHost.

(* ===================================================================== *)
(** * Vocabulary of the further properties                                *)
(* ===================================================================== *)

(** The sum of the counts given for [t] in a sequence of calls of
    [createDictionaryEntry]; a count that is not positive adds nothing. *)
Definition totalCount (t : jsstring) (entries : list (jsstring * Z)) : Z :=
  foldr (fun e acc => if decide (e.1 = t) then Z.max e.2 0 + acc else acc) 0 entries.

(** The index records the total [s] for [t]: in Words once [s] reaches the
    threshold, in the below-threshold table while it is positive and has
    not. *)
Definition tallied (this : SymSpell) (t : jsstring) (s : Z) : Prop :=
  words this !! t = (if countThreshold this <=? s then Some s else None) /\
  belowThresholdWords this !! t
  = (if (0 <? s) && (s <? countThreshold this) then Some s else None).

(** A term in the below-threshold table is not a word, and the table is
    used only with a threshold above 1. *)
Definition stagingInv (this : SymSpell) : Prop :=
  forall t, is_Some (belowThresholdWords this !! t) ->
            words this !! t = None /\ countThreshold this > 1.

(** [maxDictionaryWordLength] is the length of a longest word. *)
Definition lengthInv (this : SymSpell) : Prop :=
  (forall t, is_Some (words this !! t) ->
             Z.of_nat (length t) <= maxDictionaryWordLength this) /\
  (maxDictionaryWordLength this = 0 \/
   exists t, is_Some (words this !! t) /\
             Z.of_nat (length t) = maxDictionaryWordLength this).

(** No bucket of the Deletes map lists a term twice. *)
Definition bucketsNoDup (this : SymSpell) : Prop :=
  forall x bucket, deletes this !! x = Some bucket -> NoDup bucket.

(** [d] can be read off [l] from left to right when a character of [l] may
    be read several times in a row: the relation that
    [deleteInSuggestionPrefix] decides, whose loop does not move past a
    character it has matched. *)
Inductive looselyEmbedded : jsstring -> jsstring -> Prop :=
  | loose_nil l : looselyEmbedded [] l
  | loose_match c d l : looselyEmbedded d (c :: l) -> looselyEmbedded (c :: d) (c :: l)
  | loose_skip d x l : looselyEmbedded d l -> looselyEmbedded d (x :: l).

(** The suggestions that [lookup] holds when it reaches its test of
    [maxEditDistance === 0]: the exact match, if the input is a word, and
    the match of [ignoreToken], if there is one. *)
Definition initialSuggestions (this : SymSpell) (opts : LookupOptions) (input : jsstring)
    : list SuggestItem :=
  match words this !! input with
  | Some suggestionCount => [mkSuggestItem input 0 suggestionCount]
  | None => []
  end
  ++ (if match ignoreToken opts with Some matches => matches input | None => false end
      then [mkSuggestItem input 0 1] else []).

(** The end of [lookup] after the candidate loop: the sort, and the
    transfer of the casing. *)
Definition finishSuggestions (transferCasingSimilar : jsstring -> jsstring -> jsstring)
    (opts : LookupOptions) (originalPhrase : jsstring) (suggestions : list SuggestItem)
    : list SuggestItem :=
  let suggestions :=
    if (1 <? length suggestions)%nat then rev (sortSuggestions suggestions) else suggestions in
  if transferCasing opts
  then (fun s => mkSuggestItem (transferCasingSimilar originalPhrase (term s))
                               (distance s) (count s)) <$> suggestions
  else suggestions.

(** The slot of the circular array [compositions] of [wordSegmentation] in
    which the composition of the first [p] characters of the input is
    kept. *)
Definition slotOf (arraySize : Z) (p : nat) : Z := (Z.of_nat p - 1) mod arraySize.

(** The slot of the prefix of length [p] holds a composition whose segmented
    string is that prefix up to white space. *)
Definition holdsPrefix (num : Type) (input : jsstring) (arraySize : Z)
    (compositions : gmap Z (Composition num)) (p : nat) : Prop :=
  exists comp,
    compositions !! slotOf arraySize p = Some comp /\
    removeWhitespace (segmentedString num comp) = removeWhitespace (take p input).

Definition windowHolds (num : Type) (input : jsstring) (arraySize : Z)
    (compositions : gmap Z (Composition num)) (lo hi : nat) : Prop :=
  forall p, (lo <= p <= hi)%nat -> holdsPrefix num input arraySize compositions p.

(* ===================================================================== *)
(** * src/index.js : parseWords and createDictionary                      *)
(* ===================================================================== *)

(** The character class [[^\W_]] of a regular expression without the [u]
    and [i] flags: the ASCII letters and digits. *)
Definition isAlnum (c : N) : bool :=
  ((48 <=? c) && (c <=? 57) || (65 <=? c) && (c <=? 90) || (97 <=? c) && (c <=? 122))%N.

(** The character class [['’]]: the apostrophe U+0027 and the right single
    quotation mark U+2019. *)
Definition isApostrophe (c : N) : bool := ((c =? 39) || (c =? 8217))%N.

(** A character of a word of [parseWords]: [([^\W_]|['’])]. *)
Definition isWordChar (c : N) : bool := isAlnum c || isApostrophe c.

(** The matches of [/((C)+)/g] for a character class [C], from left to
    right: the maximal runs of characters of the class.  [cur] holds, in
    reverse, the characters of the run being read. *)
Fixpoint wordRuns (inClass : N -> bool) (cur : jsstring) (s : jsstring) : list jsstring :=
  match s with
  | [] => match cur with [] => [] | _ => [reverse cur] end
  | c :: s' =>
      if inClass c then wordRuns inClass (c :: cur) s'
      else match cur with
           | [] => wordRuns inClass [] s'
           | _ => reverse cur :: wordRuns inClass [] s'
           end
  end.

Section Text.

Variable toLowerCase : jsstring -> jsstring.

(** [parseWords(text)]:
    [Array.from(text.toLowerCase().matchAll(/(([^\W_]|['’])+)/g), (match) => match[0])] *)
Definition parseWords (text : jsstring) : list jsstring :=
  wordRuns isWordChar [] (toLowerCase text).

(** [createDictionary(dictFile)], as a function of the lines that
    [readline] yields for the file: every word of every line is entered
    with the count 1.  The result is the returned flag and the index. *)
Definition createDictionary (this : SymSpell) (lines : list jsstring) : bool * SymSpell :=
  (true,
   fold_left
     (fun this line =>
        fold_left (fun this key => (createDictionaryEntry this key 1).2)
                  (parseWords line) this)
     lines this).

End Text.

(** ** Vocabulary of the coverage of [lookup] *)

(** The first candidate of [lookup]: the input, cut to the prefix length. *)
Definition inputPrefix (this : SymSpell) (input : jsstring) : jsstring :=
  if Z.of_nat (length input) >? prefixLength this
  then substr input 0 (prefixLength this) else input.

(** The comparison of the characters after the prefix, by which [lookup]
    skips a suggestion when the candidate is [maxEditDistance] deletes away
    from the prefix: the condition on [min], [input] and [suggestion] in the
    last branch of the loop over the suggestions. *)
Definition suffixMismatch (prefixLength : Z) (input suggestion : jsstring) : bool :=
  let inputLen := Z.of_nat (length input) in
  let suggestionLen := Z.of_nat (length suggestion) in
  let min := Z.min inputLen suggestionLen - prefixLength in
  ((min >? 1)
   && negb (bool_decide (substrFrom input (inputLen + 1 - min)
                         = substrFrom suggestion (suggestionLen + 1 - min))))
  || ((min >? 0)
      && negb (bool_decide (charAt input (inputLen - min)
                            = charAt suggestion (suggestionLen - min)))
      && (negb (bool_decide (charAt input (inputLen - min - 1)
                             = charAt suggestion (suggestionLen - min)))
          || negb (bool_decide (charAt input (inputLen - min)
                                = charAt suggestion (suggestionLen - min - 1))))).

Section Coverage.

Variables (this : SymSpell) (input : jsstring) (k : Z).

(** Some suggestion of the list has the term [w], with the count that [w]
    has in Words. *)
Definition reported (l : list SuggestItem) (w : jsstring) : Prop :=
  exists s, s ∈ l /\ term s = w /\ count s = default 0 (words this !! w).

(** The candidate [d] is a meeting point of the input and the word [w]: [w]
    is within the distance [k] of the input, [d] is at most [bound] deletes
    away from the prefix of the input and from the prefix of [w], and, if
    [d] is [k] deletes away from a prefix of full length, the characters
    after the prefixes agree. *)
Definition meets (bound : Z) (d w : jsstring) : Prop :=
  w <> input /\ osa_ref input w <= k /\
  deletedFrom bound (inputPrefix this input) d /\
  deletedFrom bound (termPrefix this w) d /\
  (prefixLength this - k = Z.of_nat (length d) ->
   suffixMismatch (prefixLength this) input w = false).

(** The words in [consideredSuggestions] need no further visit: each one is
    the input, or has been reported, or is beyond the distance. *)
Definition consideredInv (st : LoopState) : Prop :=
  forall w, w ∈ ls_consideredSuggestions st ->
            w = input \/ reported (ls_suggestions st) w \/ k < osa_ref input w.

(** What the visit of a suggestion keeps of the state [st] of the loop under
    [Verbosity.ALL]: the bound, the considered deletes, the words reported
    so far, and the invariant of [consideredSuggestions]. *)
Definition kept (st st1 : LoopState) : Prop :=
  ls_maxEditDistance2 st1 = k /\
  ls_consideredDeletes st1 = ls_consideredDeletes st /\
  (forall w, reported (ls_suggestions st) w -> reported (ls_suggestions st1) w) /\
  consideredInv st1.

(** The candidate [d] has had its iteration: the words of its bucket that it
    is a meeting point for are reported, and its single-character deletes
    have been enqueued if it is less than [k] deletes away from the prefix
    of the input. *)
Definition served (st : LoopState) (d : jsstring) : Prop :=
  (forall bucket w,
      deletes this !! d = Some bucket -> w ∈ bucket -> meets k d w ->
      reported (ls_suggestions st) w) /\
  (Z.of_nat (length (inputPrefix this input)) - Z.of_nat (length d) < k ->
   forall i, (i < length d)%nat -> deleteAt d i ∈ ls_consideredDeletes st).

(** The state of the candidate loop under [Verbosity.ALL], with the
    candidates [queue] still to visit. *)
Definition coverageInv (queue : list jsstring) (st : LoopState) : Prop :=
  ls_maxEditDistance2 st = k /\
  Forall (deletedFrom k (inputPrefix this input)) queue /\
  (forall d, d ∈ ls_consideredDeletes st -> d ∈ queue \/ served st d) /\
  consideredInv st.

(** The later state [st'] has kept the suggestions and the considered
    deletes of [st]. *)
Definition extends (st st' : LoopState) : Prop :=
  (forall w, reported (ls_suggestions st) w -> reported (ls_suggestions st') w) /\
  ls_consideredDeletes st ⊆ ls_consideredDeletes st'.

End Coverage.

(** ** Vocabulary of the choice of [lookup] under [TOP] and [CLOSEST] *)

Section Lead.

Variables (this : SymSpell) (input : jsstring) (k : Z) (verbosity : Verbosity).

(** The list does justice to the word [w]: it holds a suggestion closer to
    the input than [w] is, or one as close that, under [Verbosity.TOP], has
    at least the count of [w] and, under [Verbosity.CLOSEST], is [w]
    itself. *)
Definition accounted (l : list SuggestItem) (w : jsstring) : Prop :=
  exists s, s ∈ l /\
    (distance s < osa_ref input w \/
     (distance s = osa_ref input w /\
      match verbosity with
      | TOP => default 0 (words this !! w) <= count s
      | _ => term s = w
      end)).

(** [maxEditDistance2] is the distance of the suggestions found so far, and
    the requested distance as long as there is none. *)
Definition leadInv (st : LoopState) : Prop :=
  ls_maxEditDistance2 st <= k /\
  (ls_suggestions st = [] -> ls_maxEditDistance2 st = k) /\
  Forall (fun s => distance s = ls_maxEditDistance2 st) (ls_suggestions st) /\
  (verbosity = TOP -> (length (ls_suggestions st) <= 1)%nat).

(** The words in [consideredSuggestions] need no further visit. *)
Definition consideredLead (st : LoopState) : Prop :=
  forall w, w ∈ ls_consideredSuggestions st ->
            w = input \/ k < osa_ref input w \/ accounted (ls_suggestions st) w.

(** What the visit of a suggestion keeps of the state [st]. *)
Definition keptLead (st st1 : LoopState) : Prop :=
  leadInv st1 /\
  ls_maxEditDistance2 st1 <= ls_maxEditDistance2 st /\
  ls_consideredDeletes st1 = ls_consideredDeletes st /\
  (forall w, accounted (ls_suggestions st) w -> accounted (ls_suggestions st1) w) /\
  consideredLead st1.

(** The later state [st'] accounts for what [st] accounted for. *)
Definition extendsLead (st st' : LoopState) : Prop :=
  (forall w, accounted (ls_suggestions st) w -> accounted (ls_suggestions st') w) /\
  ls_consideredDeletes st ⊆ ls_consideredDeletes st' /\
  ls_maxEditDistance2 st' <= ls_maxEditDistance2 st.

(** The candidate [d] has had its iteration: the words of its bucket for
    which it is a meeting point within their distance to the input are
    accounted for; and its single-character deletes have been enqueued if it
    is less than [maxEditDistance2] deletes away from the prefix of the
    input. *)
Definition servedLead (st : LoopState) (d : jsstring) : Prop :=
  (forall bucket w,
      deletes this !! d = Some bucket -> w ∈ bucket ->
      meets this input k (osa_ref input w) d w ->
      accounted (ls_suggestions st) w) /\
  (Z.of_nat (length (inputPrefix this input)) - Z.of_nat (length d)
   < ls_maxEditDistance2 st ->
   forall i, (i < length d)%nat -> deleteAt d i ∈ ls_consideredDeletes st).

(** The queue of candidates holds delete variants of the prefix of the
    input in the order of their number of deletes, which differ by one at
    most. *)
Definition queueInv (queue : list jsstring) : Prop :=
  exists (D : Z) (q1 q2 : list jsstring),
    queue = q1 ++ q2 /\
    Forall (fun d => d `sublist_of` inputPrefix this input /\
                     Z.of_nat (length (inputPrefix this input)) - Z.of_nat (length d) = D)
           q1 /\
    Forall (fun d => d `sublist_of` inputPrefix this input /\
                     Z.of_nat (length (inputPrefix this input)) - Z.of_nat (length d)
                     = D + 1) q2.

(** The state of the candidate loop under [TOP] and [CLOSEST]. *)
Definition leadLoopInv (queue : list jsstring) (st : LoopState) : Prop :=
  leadInv st /\ queueInv queue /\
  (forall d, d ∈ ls_consideredDeletes st -> d ∈ queue \/ servedLead st d) /\
  consideredLead st.

End Lead.

(* ===================================================================== *)
(** * The helpers and the numbers of [lookupCompound]                     *)
(* ===================================================================== *)

(** ** The helpers module : parseWordsCase and isAcronym *)

Module Helpers.

(** The regular expression of [parseWordsCase] asks for one or more
    characters of [[^\W_]], then any number of [['’]], then any number of
    [[^\W_]].  Where its scan stands: outside a match, in the first run of
    letters and digits, in the run of apostrophes, or in the second run of
    letters and digits. *)
Inductive WordScan := Outside | FirstRun | Apostrophes | SecondRun.

(** The matches of that expression (flag [g]) from left to right.  Each of
    the three runs is greedy and the two last may be empty, so that a match
    is never cut short by backtracking: it starts at a letter or digit and
    takes the longest run of them, the apostrophes that follow, and the
    letters and digits after these.  [cur] holds, in reverse, the match
    being read. *)
Fixpoint wordMatches (state : WordScan) (cur : jsstring) (s : jsstring) : list jsstring :=
  match s with
  | [] => match state with Outside => [] | _ => [reverse cur] end
  | c :: s' =>
      match state with
      | Outside =>
          if isAlnum c then wordMatches FirstRun [c] s' else wordMatches Outside [] s'
      | FirstRun =>
          if isAlnum c then wordMatches FirstRun (c :: cur) s'
          else if isApostrophe c then wordMatches Apostrophes (c :: cur) s'
          else reverse cur :: wordMatches Outside [] s'
      | Apostrophes =>
          if isApostrophe c then wordMatches Apostrophes (c :: cur) s'
          else if isAlnum c then wordMatches SecondRun (c :: cur) s'
          else reverse cur :: wordMatches Outside [] s'
      | SecondRun =>
          if isAlnum c then wordMatches SecondRun (c :: cur) s'
          else reverse cur :: wordMatches Outside [] s'
      end
  end.

(** [parseWordsCase(phrase, preserveCase)]: the phrase is lower-cased
    unless [preserveCase] is set (it is [undefined] when the argument is
    left out), and cut into the matches of the regular expression. *)
Definition parseWordsCase (toLowerCase : jsstring -> jsstring) (phrase : jsstring)
    (preserveCase : bool) : list jsstring :=
  let phrase := if preserveCase then phrase else toLowerCase phrase in
  wordMatches Outside [] phrase.

(** The character class [\w]: letters, digits and the underscore. *)
Definition isWordUnit (c : N) : bool := isAlnum c || (c =? 95)%N.

(** The character class [[A-Z0-9]]. *)
Definition isUpperOrDigit (c : N) : bool :=
  ((48 <=? c) && (c <=? 57) || (65 <=? c) && (c <=? 90))%N.

(** The truth value of [isAcronym(word)], which is
    [word.match(/\b[A-Z0-9]{2,}\b/)].  A word boundary lies only at an end
    of a maximal run of [\w] characters, so the expression matches when one
    of these runs has two characters or more, all of them capitals or
    digits. *)
Definition isAcronym (word : jsstring) : bool :=
  existsb (fun run => (2 <=? length run)%nat && forallb isUpperOrDigit run)
          (wordRuns isWordUnit [] word).

(** The decimal digits that [parseInt(s, 10)] reads: those at the start of
    [s]. *)
Fixpoint leadingDigits (s : jsstring) : jsstring :=
  match s with
  | c :: s' => if ((48 <=? c) && (c <=? 57))%N then c :: leadingDigits s' else []
  | [] => []
  end.

(** The truth value of [parseInt(s, 10)]: white space at the start and one
    sign are skipped, and the number read from the digits that follow is
    [NaN] when there is none and [0] when all are zeros; otherwise it is a
    number other than zero, which is truthy. *)
Definition parseIntTruthy (s : jsstring) : bool :=
  let s := dropWhitespace s in
  let s := match s with
           | c :: s' => if ((c =? 43) || (c =? 45))%N then s' else s
           | [] => []
           end in
  existsb (fun c => negb (c =? 48)%N) (leadingDigits s).

(** The lower case of a code unit of Basic Latin or Latin-1 Supplement, and
    of the Kelvin sign U+212A, whose lower case is the letter [k]; any other
    code unit is kept. *)
Definition lowerUnit (c : N) : N :=
  if ((65 <=? c) && (c <=? 90))%N then (c + 32)%N
  else if ((192 <=? c) && (c <=? 222) && negb (c =? 215))%N then (c + 32)%N
  else if (c =? 8490)%N then 107%N
  else c.

(** [s.toLowerCase()] for a string [s] whose code units are all below
    U+0100 or the Kelvin sign.  (The case mapping of the other letters is
    not modelled: on them this function is the identity.) *)
Definition toLowerCaseLatin (s : jsstring) : jsstring := lowerUnit <$> s.

End Helpers.

(** ** The numbers of JavaScript: IEEE 754 binary64 *)

Module Double.

Definition prec : Z := 53.
Definition emax : Z := 1024.

Abbreviation double := spec_float.

(** The double of an integer literal or of an integer value: the nearest
    double, ties to even (the integer itself up to [2^53]). *)
Definition of_Z (z : Z) : double := binary_normalize prec emax z 0 false.

(** [x + y], [x * y], [x / y] and [x < y] *)
Definition add : double -> double -> double := SFadd prec emax.
Definition mul : double -> double -> double := SFmul prec emax.
Definition div : double -> double -> double := SFdiv prec emax.
Definition lt : double -> double -> bool := SFltb.

(** [Math.floor(x)]: a double whose exponent is not negative is an integer;
    otherwise the integer part is below [2^53], and is a double. *)
Definition floor (x : double) : double :=
  match x with
  | S754_finite s m e =>
      if 0 <=? e then x
      else binary_normalize prec emax (cond_Zopp s (Zpos m) / 2 ^ (- e)) 0 s
  | _ => x
  end.

(** [Math.min(x, y)] and [Math.max(x, y)]: [NaN] when an argument is, and
    [-0] is below [+0]. *)
Definition min (x y : double) : double :=
  match SFcompare x y with
  | None => S754_nan
  | Some Lt => x
  | Some Gt => y
  | Some Eq => match x with S754_zero true => x | _ => y end
  end.

Definition max (x y : double) : double :=
  match SFcompare x y with
  | None => S754_nan
  | Some Lt => y
  | Some Gt => x
  | Some Eq => match x with S754_zero false => x | _ => y end
  end.

(** The integer that a double is, if it is one. *)
Definition to_Z (x : double) : option Z :=
  match x with
  | S754_zero _ => Some 0
  | S754_finite s m e =>
      if 0 <=? e then Some (cond_Zopp s (Zpos m * 2 ^ e))
      else if Zpos m mod 2 ^ (- e) =? 0 then Some (cond_Zopp s (Zpos m / 2 ^ (- e)))
      else None
  | _ => None
  end.

(** [Math.pow(x, y)] for an integer [x] and an integer [y] that is not
    negative, which are the calls that [lookupCompound] makes
    ([Math.pow(10, term.length)]): the double nearest to the power, which is
    the power itself up to [10^22].  The calls outside this domain are not
    modelled, and [NaN] stands for their value. *)
Definition pow (x y : double) : double :=
  match to_Z x, to_Z y with
  | Some b, Some n => if 0 <=? n then of_Z (b ^ n) else S754_nan
  | _, _ => S754_nan
  end.

End Double.

(** ** [lookupCompound] on doubles *)

(** [lookupCompound] with its numbers computed in doubles and its tokens cut
    by the helpers; [toLowerCase] and [Helpers.transferCasingSimilar] (which
    is built on the [difflib] package) are left to the host. *)
Module DoubleHost.

Section Strings.

Variable toLowerCase : jsstring -> jsstring.
Variable transferCasingSimilar : jsstring -> jsstring -> jsstring.

Definition compoundParts :=
  compoundParts Double.double Double.of_Z Double.add Double.mul Double.div Double.min
    Double.max Double.pow Double.floor Double.lt (Helpers.parseWordsCase toLowerCase)
    Helpers.isAcronym Helpers.parseIntTruthy toLowerCase transferCasingSimilar.

Definition lookupCompound :=
  lookupCompound Double.double Double.of_Z Double.add Double.mul Double.div Double.min
    Double.max Double.pow Double.floor Double.lt (Helpers.parseWordsCase toLowerCase)
    Helpers.isAcronym Helpers.parseIntTruthy toLowerCase transferCasingSimilar.

End Strings.

End DoubleHost.

(** ** Vocabulary of the aggregate of [lookupCompound] *)


Section Aggregate.

Variable num : Type.
Variable N : num.
Variables nmul ndiv : num -> num -> num.


End Aggregate.


(* ===================================================================== *)
(** * Part II. The index: delete variants and dictionary entries          *)
(* ===================================================================== *)

(** ** Strings *)

Lemma deleteAt_delete (word : jsstring) (i : nat) :
  deleteAt word i = delete i word.
Proof.
  unfold deleteAt, slice. rewrite drop_0, firstn_all.
  rewrite Nat.add_1_r. symmetry. apply delete_take_drop.
Qed.

Lemma deleteAt_length (word : jsstring) (i : nat) :
  (i < length word)%nat -> length (deleteAt word i) = (length word - 1)%nat.
Proof.
  intros Hi. rewrite deleteAt_delete, length_delete; [lia|].
  apply lookup_lt_is_Some_2. exact Hi.
Qed.

Lemma deleteAt_sublist (word : jsstring) (i : nat) :
  deleteAt word i `sublist_of` word.
Proof. rewrite deleteAt_delete. apply sublist_delete. Qed.

(** A proper subsequence of [w] is a subsequence of [w] without one of its
    characters. *)
Lemma sublist_through_delete (d w : jsstring) :
  d `sublist_of` w -> (length d < length w)%nat ->
  exists i, (i < length w)%nat /\ d `sublist_of` deleteAt w i.
Proof.
  induction 1 as [|x d w Hs IH|x d w Hs IH]; simpl; intros Hlen.
  - lia.
  - destruct IH as (i & Hi & Hsub); [lia|].
    exists (S i). split; [lia|].
    rewrite deleteAt_delete in *. simpl. by constructor.
  - exists O. split; [lia|]. rewrite deleteAt_delete. simpl. exact Hs.
Qed.

(** ** [edits]: the traversal reaches every delete variant *)

Section Edits.

Variable med : Z.

Lemma edits_fuel_S fuel' word editDistance deleteWords :
  edits_fuel (S fuel') med word editDistance deleteWords =
  if (1 <? length word)%nat
  then editsLoop med fuel' word (editDistance + 1) (seq 0 (length word)) deleteWords
  else deleteWords.
Proof. reflexivity. Qed.

Lemma explored_mono (S S' : list jsstring) word e :
  explored med S word e ->
  S ⊆ S' ->
  (forall d', d' ∈ S' -> d' ∉ S -> (length d' < length word)%nat ->
     e + (Z.of_nat (length word) - Z.of_nat (length d')) < med ->
     forall d, visits med d' (e + (Z.of_nat (length word) - Z.of_nat (length d'))) d -> d ∈ S') ->
  explored med S' word e.
Proof.
  intros Hex Hsub Hnew d' Hd' Hlen depth Hdepth d Hv.
  destruct (decide (d' ∈ S)) as [Hin|Hnin].
  - apply Hsub. eapply Hex; eauto.
  - eapply Hnew; eauto.
Qed.

Lemma edits_fuel_spec fuel :
  forall word e S,
    (length word <= fuel)%nat ->
    explored med S word e ->
    let S' := edits_fuel fuel med word e S in
    S ⊆ S' /\
    (forall d, visits med word e d -> d ∈ S') /\
    explored med S' word e /\
    addedBy word S S'.
Proof.
  induction fuel as [|fuel IH]; intros word e S Hfuel Hex; simpl.
  - repeat split; auto.
    + intros d Hv. inversion Hv; subst; lia.
    + intros x Hx. by left.
  - destruct (1 <? length word)%nat eqn:Hlen; cycle 1.
    { apply Nat.ltb_ge in Hlen. repeat split; auto.
      - intros d Hv. inversion Hv; subst; lia.
      - intros x Hx. by left. }
    apply Nat.ltb_lt in Hlen.
    (* the loop over the positions, for any list of valid positions *)
    assert (Hloop : forall (idxs : list nat) S0,
               (forall i, i ∈ idxs -> (i < length word)%nat) ->
               explored med S0 word e ->
               let S1 := editsLoop med fuel word (e + 1) idxs S0 in
               S0 ⊆ S1 /\ explored med S1 word e /\
               (forall i, i ∈ idxs -> deleteAt word i ∈ S1) /\
               addedBy word S0 S1).
    { induction idxs as [|i idxs IHis]; intros S0 His Hex0; simpl.
      - repeat split; auto.
        + intros i Hi. by apply elem_of_nil in Hi.
        + intros x Hx. by left.
      - assert (Hi : (i < length word)%nat) by (apply His; left).
        pose proof (deleteAt_length word i Hi) as Hdl.
        set (del := deleteAt word i) in *.
        assert (Hstep : exists S1,
                   (if decide (del ∈ S0) then S0
                    else if e + 1 <? med
                         then edits_fuel fuel med del (e + 1) (S0 ++ [del])
                         else S0 ++ [del]) = S1 /\
                   S0 ⊆ S1 /\ explored med S1 word e /\ del ∈ S1 /\ addedBy word S0 S1).
        { destruct (decide (del ∈ S0)) as [Hin|Hnin].
          - exists S0. repeat split; auto. intros x Hx. by left.
          - destruct (e + 1 <? med) eqn:Hmed.
            + apply Z.ltb_lt in Hmed.
              destruct (IH del (e + 1) (S0 ++ [del])) as (Hs & Hv & Hex1 & Hadd).
              * lia.
              * intros d' Hd' Hl depth Hdepth d Hvis.
                apply elem_of_app in Hd' as [Hd'|Hd'].
                -- apply elem_of_app. left.
                   eapply (Hex0 d' Hd'); [lia| |].
                   ++ unfold depth in Hdepth. lia.
                   ++ replace (e + (Z.of_nat (length word) - Z.of_nat (length d')))
                        with depth by (unfold depth; lia). exact Hvis.
                -- apply list_elem_of_singleton in Hd'. subst d'. lia.
              * eexists. split; [reflexivity|].
                assert (Hsub : S0 ⊆ edits_fuel fuel med del (e + 1) (S0 ++ [del])).
                { intros x Hx. apply Hs. apply elem_of_app. by left. }
                repeat split; auto.
                -- apply (explored_mono S0); auto.
                   intros d' Hd' Hnin' Hl Hdepth d Hvis.
                   destruct (Hadd d' Hd') as [Hold|[Hge Hlt]].
                   ++ apply elem_of_app in Hold as [Hold|Hold]; [done|].
                      apply list_elem_of_singleton in Hold. subst d'.
                      apply Hv.
                      replace (e + 1) with (e + (Z.of_nat (length word) - Z.of_nat (length del)))
                        by lia. exact Hvis.
                   ++ eapply (Hex1 d' Hd' Hlt); [lia|].
                      replace (e + 1 + (Z.of_nat (length del) - Z.of_nat (length d')))
                        with (e + (Z.of_nat (length word) - Z.of_nat (length d'))) by lia.
                      exact Hvis.
                -- apply Hs. apply elem_of_app. right. by apply list_elem_of_singleton.
                -- intros x Hx. destruct (Hadd x Hx) as [Hold|[Hge Hlt]].
                   ++ apply elem_of_app in Hold as [Hold|Hold]; [by left|].
                      apply list_elem_of_singleton in Hold. subst x. right. lia.
                   ++ right. lia.
            + apply Z.ltb_ge in Hmed.
              exists (S0 ++ [del]). split; [reflexivity|].
              assert (Hsub : S0 ⊆ S0 ++ [del]).
              { intros x Hx. apply elem_of_app. by left. }
              repeat split; auto.
              * apply (explored_mono S0); auto.
                intros d' Hd' Hnin' Hl Hdepth d Hvis.
                apply elem_of_app in Hd' as [Hd'|Hd']; [done|].
                apply list_elem_of_singleton in Hd'. subst d'. lia.
              * apply elem_of_app. right. by apply list_elem_of_singleton.
              * intros x Hx. apply elem_of_app in Hx as [Hx|Hx]; [by left|].
                apply list_elem_of_singleton in Hx. subst x. right. lia. }
        destruct Hstep as (S1 & HS1 & Hs01 & Hex1 & Hdel1 & Hadd1).
        unfold editsLoop in *. simpl. fold del. rewrite HS1.
        destruct (IHis S1) as (Hs12 & Hex2 & Hall & Hadd2).
        { intros j Hj. apply His. by right. }
        { exact Hex1. }
        repeat split; auto.
        + intros x Hx. apply Hs12, Hs01, Hx.
        + intros j Hj. apply elem_of_cons in Hj as [->|Hj].
          * apply Hs12, Hdel1.
          * by apply Hall.
        + intros x Hx. destruct (Hadd2 x Hx) as [Hold|Hnew]; [|by right].
          by apply Hadd1. }
    destruct (Hloop (seq 0 (length word)) S) as (Hs & Hex' & Hall & Hadd); auto.
    { intros i Hi. apply elem_of_seq in Hi. lia. }
    repeat split; auto.
    intros d Hv. inversion Hv as [w0 e0 i H1 Hi|w0 e0 i d0 H1 Hi Hmed Hv']; subst.
    + apply Hall. apply elem_of_seq. lia.
    + pose proof (deleteAt_length word i Hi) as Hdl.
      eapply (Hex' (deleteAt word i)).
      * apply Hall. apply elem_of_seq. lia.
      * lia.
      * lia.
      * replace (e + (Z.of_nat (length word) - Z.of_nat (length (deleteAt word i))))
          with (e + 1) by lia. exact Hv'.
Qed.

End Edits.

Lemma sublist_same_length (d w : jsstring) :
  d `sublist_of` w -> length d = length w -> d = w.
Proof.
  induction 1 as [|x d w Hs IH|x d w Hs IH]; simpl; intros Hlen.
  - reflexivity.
  - f_equal. apply IH. lia.
  - apply sublist_length in Hs. lia.
Qed.

Lemma fold_left_ext_in {A B : Type} (f g : A -> B -> A) (l : list B) :
  (forall a x, x ∈ l -> f a x = g a x) ->
  forall a, fold_left f l a = fold_left g l a.
Proof.
  induction l as [|x l IH]; intros Hfg a; simpl; [reflexivity|].
  rewrite Hfg by left. apply IH. intros a' y Hy. apply Hfg. by right.
Qed.

(** The depth bound [fuel] plays no role once it is at least the length of
    the word: the traversal is a total function. *)
Lemma edits_fuel_enough med fuel1 :
  forall fuel2 word e S,
    (length word <= fuel1)%nat -> (length word <= fuel2)%nat ->
    edits_fuel fuel1 med word e S = edits_fuel fuel2 med word e S.
Proof.
  induction fuel1 as [|fuel1 IH]; intros [|fuel2] word e S H1 H2; simpl; try reflexivity.
  - destruct (1 <? length word)%nat eqn:Hlen; [apply Nat.ltb_lt in Hlen; lia|reflexivity].
  - destruct (1 <? length word)%nat eqn:Hlen; [apply Nat.ltb_lt in Hlen; lia|reflexivity].
  - destruct (1 <? length word)%nat eqn:Hlen; [|reflexivity].
    apply fold_left_ext_in. intros S0 i Hi.
    apply elem_of_seq in Hi.
    destruct (decide (deleteAt word i ∈ S0)); [reflexivity|].
    destruct (e + 1 <? med); [|reflexivity].
    apply IH; rewrite deleteAt_length; lia.
Qed.

(** [edits] satisfies the recursive equation of the source: the recursive
    call is [edits] itself on the shorter string. *)
Lemma edits_unfold (this : SymSpell) (word : jsstring) (editDistance : Z)
    (deleteWords : list jsstring) :
  edits this word editDistance deleteWords =
  if (1 <? length word)%nat then
    fold_left
      (fun deleteWords i =>
         let del := deleteAt word i in
         if decide (del ∈ deleteWords) then deleteWords
         else
           let deleteWords := deleteWords ++ [del] in
           if editDistance + 1 <? maxDictionaryEditDistance this
           then edits this del (editDistance + 1) deleteWords
           else deleteWords)
      (seq 0 (length word)) deleteWords
  else deleteWords.
Proof.
  unfold edits. destruct (length word) as [|n] eqn:Hn; [reflexivity|].
  rewrite edits_fuel_S, Hn.
  destruct (1 <? S n)%nat eqn:Hlen; [|reflexivity].
  unfold editsLoop. rewrite <- Hn.
  apply fold_left_ext_in. intros S0 i Hi. apply elem_of_seq in Hi. simpl.
  destruct (decide (deleteAt word i ∈ S0)); [reflexivity|].
  destruct (editDistance + 1 <? maxDictionaryEditDistance this); [|reflexivity].
  apply edits_fuel_enough; rewrite deleteAt_length; lia.
Qed.

(** A non-empty string obtained by deleting [n >= 1] characters is visited,
    provided the distance bound allows [n] levels (one level always runs). *)
Lemma visits_of_sublist med (n : nat) :
  forall (w d : jsstring) (e : Z),
    d `sublist_of` w ->
    length w = (length d + S n)%nat ->
    (1 <= length d)%nat ->
    (n = O \/ e + Z.of_nat (S n) <= med) ->
    visits med w e d.
Proof.
  induction n as [|n IH]; intros w d e Hsub Hlen Hd Hmed.
  - destruct (sublist_through_delete d w Hsub) as (i & Hi & Hsub'); [lia|].
    assert (d = deleteAt w i) as ->.
    { apply sublist_same_length; [exact Hsub'|]. rewrite deleteAt_length; lia. }
    apply visits_delete; lia.
  - destruct (sublist_through_delete d w Hsub) as (i & Hi & Hsub'); [lia|].
    destruct Hmed as [Hmed|Hmed]; [discriminate|].
    apply (visits_deeper med w e i d); [lia|lia|lia|].
    apply IH; auto.
    + rewrite deleteAt_length; lia.
    + right. lia.
Qed.

(** ** [editsPrefix] *)

Lemma elem_of_setAdd (x y : jsstring) (s : list jsstring) :
  x ∈ setAdd y s <-> x = y \/ x ∈ s.
Proof.
  unfold setAdd. destruct (decide (y ∈ s)) as [Hy|Hy].
  - split; [by right|]. intros [->|H]; auto.
  - rewrite elem_of_app, list_elem_of_singleton. tauto.
Qed.

(** The initial content of [hashSet] in [editsPrefix]. *)
Lemma editsPrefix_eq (this : SymSpell) (key : jsstring) :
  editsPrefix this key =
  edits this (termPrefix this key) 0
    (setAdd (termPrefix this key)
       (if Z.of_nat (length key) <=? maxDictionaryEditDistance this
        then setAdd [] [] else [])).
Proof. reflexivity. Qed.

Lemma editsPrefix_spec (this : SymSpell) (key : jsstring) :
  let med := maxDictionaryEditDistance this in
  let p := termPrefix this key in
  p ∈ editsPrefix this key /\
  (Z.of_nat (length key) <= med -> [] ∈ editsPrefix this key) /\
  (forall d, visits med p 0 d -> d ∈ editsPrefix this key) /\
  ([] ∈ editsPrefix this key -> Z.of_nat (length key) <= med \/ p = []).
Proof.
  intros med p. rewrite editsPrefix_eq. fold p. fold med.
  set (S0 := setAdd p _).
  assert (Hex : explored med S0 p 0).
  { intros d' Hd' Hlen depth Hdepth d Hv.
    assert (d' = []) as ->.
    { apply elem_of_setAdd in Hd' as [->|Hd']; [lia|].
      destruct (Z.of_nat (length key) <=? med).
      - apply elem_of_setAdd in Hd' as [->|Hd']; [done|]. by apply elem_of_nil in Hd'.
      - by apply elem_of_nil in Hd'. }
    inversion Hv; subst; simpl in *; lia. }
  destruct (edits_fuel_spec med (length p) p 0 S0 (le_n _) Hex) as (Hsub & Hvis & _ & Hadd).
  unfold edits. fold med. repeat split.
  - apply Hsub. apply elem_of_setAdd. by left.
  - intros Hle. apply Hsub. apply elem_of_setAdd. right.
    apply Z.leb_le in Hle. rewrite Hle. apply elem_of_setAdd. by left.
  - exact Hvis.
  - intros Hnil. destruct (Hadd _ Hnil) as [Hold|[Hge _]]; [|simpl in Hge; lia].
    apply elem_of_setAdd in Hold as [Hp|Hold]; [by right|].
    destruct (Z.of_nat (length key) <=? med) eqn:Hle.
    + left. by apply Z.leb_le.
    + by apply elem_of_nil in Hold.
Qed.

Lemma substr_0_length (s : jsstring) (n : Z) :
  0 <= n <= Z.of_nat (length s) -> Z.of_nat (length (substr s 0 n)) = n.
Proof.
  intros Hn. unfold substr.
  replace (0 <? 0) with false by reflexivity.
  replace (Z.min 0 (Z.of_nat (length s))) with 0 by lia.
  change (Z.to_nat 0) with O. rewrite drop_0, length_take. lia.
Qed.

Lemma termPrefix_length (this : SymSpell) (key : jsstring) :
  0 <= prefixLength this ->
  Z.of_nat (length (termPrefix this key)) = Z.min (Z.of_nat (length key)) (prefixLength this).
Proof.
  intros Hpl. unfold termPrefix.
  destruct (Z.of_nat (length key) >? prefixLength this) eqn:Hgt.
  - apply Z.gtb_lt in Hgt. rewrite substr_0_length; lia.
  - rewrite Z.gtb_ltb in Hgt. apply Z.ltb_ge in Hgt. lia.
Qed.

(** With [0 <= maxDictionaryEditDistance < prefixLength], [editsPrefix]
    holds every string obtained from the prefix by at most
    [maxDictionaryEditDistance] deletions. *)
Lemma editsPrefix_complete (this : SymSpell) (key d : jsstring) :
  0 <= maxDictionaryEditDistance this < prefixLength this ->
  deletedFrom (maxDictionaryEditDistance this) (termPrefix this key) d ->
  d ∈ editsPrefix this key.
Proof.
  intros Hcfg [Hsub Hk].
  destruct (editsPrefix_spec this key) as (Hp & Hnil & Hvis & _).
  pose proof (sublist_length _ _ Hsub) as Hle.
  pose proof (termPrefix_length this key ltac:(lia)) as Hpl.
  destruct (decide (length d = length (termPrefix this key))) as [Heq|Hne].
  { apply sublist_same_length in Hsub; [|exact Heq]. by subst d. }
  destruct d as [|c d].
  - apply Hnil. simpl in Hk. lia.
  - apply Hvis.
    apply (visits_of_sublist _ (length (termPrefix this key) - length (c :: d) - 1)); auto.
    + lia.
    + simpl. lia.
    + right. lia.
Qed.

Lemma editsPrefix_empty_iff (this : SymSpell) (key : jsstring) :
  0 <= maxDictionaryEditDistance this < prefixLength this ->
  [] ∈ editsPrefix this key <-> Z.of_nat (length key) <= maxDictionaryEditDistance this.
Proof.
  intros Hcfg.
  destruct (editsPrefix_spec this key) as (_ & Hnil & _ & Hinv).
  split; [|exact Hnil].
  intros H. destruct (Hinv H) as [Hle|Hp]; [exact Hle|].
  pose proof (termPrefix_length this key ltac:(lia)) as Hpl.
  rewrite Hp in Hpl. simpl in Hpl. lia.
Qed.

(** ** [createDictionaryEntry] *)

Lemma editsPrefix_config (this this' : SymSpell) (key : jsstring) :
  maxDictionaryEditDistance this' = maxDictionaryEditDistance this ->
  prefixLength this' = prefixLength this ->
  editsPrefix this' key = editsPrefix this key.
Proof.
  intros Hmed Hpl. unfold editsPrefix, edits. by rewrite Hmed, Hpl.
Qed.

Lemma termPrefix_config (this this' : SymSpell) (key : jsstring) :
  prefixLength this' = prefixLength this ->
  termPrefix this' key = termPrefix this key.
Proof. intros Hpl. unfold termPrefix. by rewrite Hpl. Qed.

(** Membership in the buckets after the [forEach] of [createDictionaryEntry]. *)
Lemma pushDelete_fold (key : jsstring) (es : list jsstring) :
  forall (d : gmap jsstring (list jsstring)) (x t : jsstring),
    (exists b, fold_left (pushDelete key) es d !! x = Some b /\ t ∈ b) <->
    (exists b, d !! x = Some b /\ t ∈ b) \/ (t = key /\ x ∈ es).
Proof.
  induction es as [|del es IH]; intros d x t; simpl.
  - split; [by left|]. intros [H|[_ H]]; [exact H|by apply elem_of_nil in H].
  - rewrite IH. unfold pushDelete.
    destruct (decide (del = x)) as [->|Hne].
    + rewrite lookup_insert_eq. split.
      * intros [(b & Hb & Ht)|[-> Hx]].
        -- injection Hb as <-. apply elem_of_app in Ht as [Ht|Ht].
           ++ left. destruct (d !! x) as [b|] eqn:Hd; [by exists b|by apply elem_of_nil in Ht].
           ++ apply list_elem_of_singleton in Ht. right. split; [done|by left].
        -- right. split; [done|by right].
      * intros [(b & Hb & Ht)|[-> Hx]].
        -- left. eexists. split; [reflexivity|]. rewrite Hb. apply elem_of_app. by left.
        -- left. eexists. split; [reflexivity|]. apply elem_of_app. right.
           by apply list_elem_of_singleton.
    + rewrite lookup_insert_ne by done. split.
      * intros [H|[-> Hx]]; [by left|]. right. split; [done|by right].
      * intros [H|[-> Hx]]; [by left|]. right. split; [done|].
        apply elem_of_cons in Hx as [->|Hx]; [done|exact Hx].
Qed.

(** What [promote] leaves in the index. *)
Lemma promote_spec (this : SymSpell) (key : jsstring) (c : Z) :
  let r := promote this key c in
  r.1 = true /\
  maxDictionaryEditDistance r.2 = maxDictionaryEditDistance this /\
  prefixLength r.2 = prefixLength this /\
  countThreshold r.2 = countThreshold this /\
  words r.2 = <[key := c]> (words this) /\
  belowThresholdWords r.2 = belowThresholdWords this /\
  maxDictionaryWordLength r.2 = Z.max (Z.of_nat (length key)) (maxDictionaryWordLength this) /\
  deletes r.2 = fold_left (pushDelete key) (editsPrefix this key) (deletes this).
Proof.
  unfold promote. simpl.
  destruct (Z.of_nat (length key) >? maxDictionaryWordLength this) eqn:Hgt; simpl.
  - apply Z.gtb_lt in Hgt. repeat split; try reflexivity. lia.
  - rewrite Z.gtb_ltb in Hgt. apply Z.ltb_ge in Hgt. repeat split; try reflexivity. lia.
Qed.

Lemma createDictionaryEntry_outcome (this : SymSpell) (key : jsstring) (c : Z) :
  entryOutcome this key c (createDictionaryEntry this key c).
Proof.
  unfold createDictionaryEntry.
  assert (Hcount : (if c <=? 0 then 0 else c) = Z.max c 0).
  { destruct (c <=? 0) eqn:Hc; [apply Z.leb_le in Hc|apply Z.leb_gt in Hc]; lia. }
  rewrite Hcount. clear Hcount.
  destruct ((c <=? 0) && (countThreshold this >? 0)) eqn:Hskip.
  { apply andb_true_iff in Hskip as [Hc Hct]. apply Z.leb_le in Hc. apply Z.gtb_lt in Hct.
    apply outcome_ignored; lia. }
  clear Hskip.
  assert (Hbelow :
            (if countThreshold this >? 1 then belowThresholdWords this !! key else None) = None ->
            countThreshold this > 1 -> belowThresholdWords this !! key = None).
  { intros H Hct. destruct (countThreshold this >? 1) eqn:Hgt; [exact H|].
    rewrite Z.gtb_ltb in Hgt. apply Z.ltb_ge in Hgt. lia. }
  destruct (if countThreshold this >? 1 then belowThresholdWords this !! key else None)
    as [previous|] eqn:Hb.
  - destruct (countThreshold this >? 1) eqn:Hgt; [|discriminate].
    apply Z.gtb_lt in Hgt.
    destruct (accumulate previous (Z.max c 0) >=? countThreshold this) eqn:Hacc.
    + rewrite Z.geb_leb in Hacc. apply Z.leb_le in Hacc.
      apply outcome_below_promoted; auto; lia.
    + rewrite Z.geb_leb in Hacc. apply Z.leb_gt in Hacc.
      apply outcome_below_updated; auto; lia.
  - specialize (Hbelow eq_refl).
    destruct (words this !! key) as [previous|] eqn:Hw.
    + by apply outcome_word_updated.
    + destruct (Z.max c 0 <? countThreshold this) eqn:Hlt.
      * apply Z.ltb_lt in Hlt. by apply outcome_below_new.
      * apply Z.ltb_ge in Hlt. apply outcome_promoted; auto; lia.
Qed.

(** The configuration is fixed by the constructor. *)
Lemma createDictionaryEntry_config (this : SymSpell) (key : jsstring) (c : Z) :
  let this' := (createDictionaryEntry this key c).2 in
  maxDictionaryEditDistance this' = maxDictionaryEditDistance this /\
  prefixLength this' = prefixLength this /\
  countThreshold this' = countThreshold this.
Proof.
  cbv zeta.
  destruct (createDictionaryEntry_outcome this key c); cbn [fst snd]; try done.
  - destruct (promote_spec (set_belowThresholdWords (delete key) this) key
                (accumulate previous (Z.max c 0))) as (_ & -> & -> & -> & _). done.
  - destruct (promote_spec this key (Z.max c 0)) as (_ & -> & -> & -> & _). done.
Qed.

(** A call leaves the other terms of both tables alone. *)
Lemma createDictionaryEntry_other (this : SymSpell) (key t : jsstring) (c : Z) :
  key <> t ->
  let this' := (createDictionaryEntry this key c).2 in
  words this' !! t = words this !! t /\
  belowThresholdWords this' !! t = belowThresholdWords this !! t.
Proof.
  intros Hne. cbv zeta.
  destruct (createDictionaryEntry_outcome this key c); cbn [fst snd]; try done.
  - destruct (promote_spec (set_belowThresholdWords (delete key) this) key
                (accumulate previous (Z.max c 0))) as (_ & _ & _ & _ & -> & -> & _).
    simpl. by rewrite lookup_insert_ne, lookup_delete_ne.
  - simpl. by rewrite lookup_insert_ne.
  - simpl. by rewrite lookup_insert_ne.
  - simpl. by rewrite lookup_insert_ne.
  - destruct (promote_spec this key (Z.max c 0)) as (_ & _ & _ & _ & -> & -> & _).
    by rewrite lookup_insert_ne.
Qed.

Lemma createDictionaryEntry_maxLength (this : SymSpell) (key : jsstring) (c : Z) :
  maxDictionaryWordLength this <= maxDictionaryWordLength (createDictionaryEntry this key c).2.
Proof.
  destruct (createDictionaryEntry_outcome this key c); cbn [fst snd]; try (simpl; lia).
  - destruct (promote_spec (set_belowThresholdWords (delete key) this) key
                (accumulate previous (Z.max c 0))) as (_ & _ & _ & _ & _ & _ & -> & _).
    simpl. lia.
  - destruct (promote_spec this key (Z.max c 0)) as (_ & _ & _ & _ & _ & _ & -> & _). lia.
Qed.

(** The first insertion of a term whose count reaches the threshold. *)
Lemma createDictionaryEntry_new (this : SymSpell) (t : jsstring) (c : Z) :
  words this !! t = None ->
  belowThresholdWords this !! t = None ->
  c >= countThreshold this -> c > 0 ->
  let r := createDictionaryEntry this t c in
  r = promote this t c.
Proof.
  intros Hw Hb Hct Hc. simpl.
  destruct (createDictionaryEntry_outcome this t c); try congruence; try lia.
  by replace (Z.max c 0) with c by lia.
Qed.

Lemma createEntries_app (this : SymSpell) (es1 es2 : list (jsstring * Z)) :
  createEntries this (es1 ++ es2) = createEntries (createEntries this es1) es2.
Proof. unfold createEntries. apply fold_left_app. Qed.

Lemma createEntries_cons (this : SymSpell) (e : jsstring * Z) (es : list (jsstring * Z)) :
  createEntries this (e :: es) = createEntries (createDictionaryEntry this e.1 e.2).2 es.
Proof. reflexivity. Qed.

Lemma createEntries_config (es : list (jsstring * Z)) :
  forall this,
    maxDictionaryEditDistance (createEntries this es) = maxDictionaryEditDistance this /\
    prefixLength (createEntries this es) = prefixLength this /\
    countThreshold (createEntries this es) = countThreshold this.
Proof.
  induction es as [|e es IH]; intros this; [done|].
  rewrite createEntries_cons.
  destruct (IH (createDictionaryEntry this e.1 e.2).2) as (-> & -> & ->).
  apply createDictionaryEntry_config.
Qed.

Lemma createEntries_other (es : list (jsstring * Z)) (t : jsstring) :
  t ∉ es.*1 ->
  forall this,
    words (createEntries this es) !! t = words this !! t /\
    belowThresholdWords (createEntries this es) !! t = belowThresholdWords this !! t.
Proof.
  induction es as [|e es IH]; intros Hnin this; [done|].
  rewrite createEntries_cons. simpl in Hnin.
  apply not_elem_of_cons in Hnin as [Hne Hnin].
  destruct (IH Hnin (createDictionaryEntry this e.1 e.2).2) as (-> & ->).
  by apply createDictionaryEntry_other.
Qed.

Lemma createEntries_maxLength (es : list (jsstring * Z)) :
  forall this, maxDictionaryWordLength this <= maxDictionaryWordLength (createEntries this es).
Proof.
  induction es as [|e es IH]; intros this; [simpl; lia|].
  rewrite createEntries_cons.
  etrans; [apply createDictionaryEntry_maxLength|apply IH].
Qed.

(** ** The Deletes map after any sequence of calls *)

Lemma deletesInv_new (med pl ct : Z) : deletesInv (newSymSpell med pl ct).
Proof.
  intros x t. unfold inBucket. simpl. split.
  - intros (b & Hb & _). by rewrite lookup_empty in Hb.
  - intros [[c Hc] _]. by rewrite lookup_empty in Hc.
Qed.

Lemma deletesInv_promote (this : SymSpell) (key : jsstring) (c : Z) :
  deletesInv this -> deletesInv (promote this key c).2.
Proof.
  intros Hinv x t.
  destruct (promote_spec this key c) as (_ & Hmed & Hpl & _ & Hw & _ & _ & Hd).
  unfold inBucket. rewrite Hd, Hw, pushDelete_fold.
  rewrite (editsPrefix_config this _ t Hmed Hpl).
  specialize (Hinv x t). unfold inBucket in Hinv. rewrite Hinv.
  destruct (decide (key = t)) as [->|Hne].
  - rewrite lookup_insert_eq. split.
    + intros [[_ Hx]|[_ Hx]]; (split; [by eexists|exact Hx]).
    + intros [_ Hx]. right. done.
  - rewrite lookup_insert_ne by done. split.
    + intros [H|[-> _]]; [exact H|done].
    + intros H. by left.
Qed.

Lemma deletesInv_ext (this this' : SymSpell) :
  maxDictionaryEditDistance this' = maxDictionaryEditDistance this ->
  prefixLength this' = prefixLength this ->
  deletes this' = deletes this ->
  (forall t, is_Some (words this' !! t) <-> is_Some (words this !! t)) ->
  deletesInv this -> deletesInv this'.
Proof.
  intros Hmed Hpl Hd Hw Hinv x t. unfold inBucket. rewrite Hd, Hw.
  rewrite (editsPrefix_config this this' t Hmed Hpl). apply Hinv.
Qed.

Lemma deletesInv_step (this : SymSpell) (key : jsstring) (c : Z) :
  deletesInv this -> deletesInv (createDictionaryEntry this key c).2.
Proof.
  intros Hinv.
  destruct (createDictionaryEntry_outcome this key c); cbn [fst snd].
  - exact Hinv.
  - apply deletesInv_promote. by apply (deletesInv_ext this).
  - by apply (deletesInv_ext this).
  - apply (deletesInv_ext this); try done.
    intros t. simpl. destruct (decide (key = t)) as [->|Hne].
    + rewrite lookup_insert_eq. split; intros _; by eexists.
    + by rewrite lookup_insert_ne.
  - by apply (deletesInv_ext this).
  - by apply deletesInv_promote.
Qed.

Lemma deletesInv_createEntries (es : list (jsstring * Z)) :
  forall this, deletesInv this -> deletesInv (createEntries this es).
Proof.
  induction es as [|e es IH]; intros this Hinv; [exact Hinv|].
  rewrite createEntries_cons. apply IH. by apply deletesInv_step.
Qed.

(** ** C2 *)

(** C2, as stated, fails when [prefixLength = maxDictionaryEditDistance]:
    with both equal to 1, the term "ab" has the prefix "a"; the empty string
    is obtained from it by one deletion, yet it is not a key of the Deletes
    map ([edits] does nothing on a one-character word and [editsPrefix]
    adds the empty string only when the whole term is short enough). *)
Lemma deletes_cover_variants_counterexample :
  let this := createEntries (newSymSpell 1 1 1) [(js "ab", 1)] in
  maxDictionaryEditDistance this <= prefixLength this /\
  is_Some (words this !! js "ab") /\
  deletedFrom (maxDictionaryEditDistance this) (termPrefix this (js "ab")) [] /\
  ~ inBucket this [] (js "ab").
Proof.
  cbv zeta. split; [vm_compute; discriminate|]. split; [by eexists|]. split.
  - split; [apply sublist_nil_l|vm_compute; discriminate].
  - intros (b & Hb & _). vm_compute in Hb. discriminate.
Qed.

(** C2 (amended): on an index with
    [0 <= maxDictionaryEditDistance < prefixLength], after any sequence of
    [createDictionaryEntry] calls, for every term [t] of Words: every string
    obtained by deleting at most [maxDictionaryEditDistance] characters from
    the prefix of [t] is a key of Deletes whose bucket contains [t]; the
    bucket of the empty string contains [t] iff
    [|t| <= maxDictionaryEditDistance]; the prefix itself is a key whose
    bucket contains [t]. *)
Theorem deletes_cover_variants (med pl ct : Z) (entries : list (jsstring * Z))
    (t : jsstring) :
  0 <= med < pl ->
  is_Some (words (createEntries (newSymSpell med pl ct) entries) !! t) ->
  let this := createEntries (newSymSpell med pl ct) entries in
  (forall d, deletedFrom med (termPrefix this t) d -> inBucket this d t) /\
  (inBucket this [] t <-> Z.of_nat (length t) <= med) /\
  inBucket this (termPrefix this t) t.
Proof.
  intros Hcfg Hw this.
  pose proof (deletesInv_createEntries entries _ (deletesInv_new med pl ct)) as Hinv.
  fold this in Hinv.
  destruct (createEntries_config entries (newSymSpell med pl ct)) as (Hmed & Hpl & _).
  fold this in Hmed, Hpl. simpl in Hmed, Hpl.
  assert (Hcfg' : 0 <= maxDictionaryEditDistance this < prefixLength this) by lia.
  split; [|split; [split|]].
  - intros d Hd. apply Hinv. split; [exact Hw|].
    apply editsPrefix_complete; [exact Hcfg'|]. by rewrite Hmed.
  - intros H. apply Hinv in H as [_ H].
    apply editsPrefix_empty_iff in H; [lia|exact Hcfg'].
  - intros H. apply Hinv. split; [exact Hw|].
    apply editsPrefix_empty_iff; [exact Hcfg'|lia].
  - apply Hinv. split; [exact Hw|].
    by destruct (editsPrefix_spec this t) as (Hp & _).
Qed.

Lemma deletes_cover_variants_witness :
  0 <= 2 < 7 /\
  is_Some (words (createEntries (newSymSpell 2 7 1) [(js "steam", 3)]) !! js "steam") /\
  let this := createEntries (newSymSpell 2 7 1) [(js "steam", 3)] in
  (forall d, deletedFrom 2 (termPrefix this (js "steam")) d -> inBucket this d (js "steam")) /\
  (inBucket this [] (js "steam") <-> Z.of_nat (length (js "steam")) <= 2) /\
  inBucket this (termPrefix this (js "steam")) (js "steam").
Proof.
  split; [lia|]. split; [by eexists|].
  apply (deletes_cover_variants 2 7 1 [(js "steam", 3)] (js "steam")); [lia|by eexists].
Defined.

(** ** C10 *)

(** C10, as stated, fails for [prefixLength = 1]: the term "ab" has the
    prefix "a", whose single-character deletion is the empty string, and
    that is not a key of the Deletes map after the term is promoted. *)
Lemma single_deletes_counterexample :
  let this := newSymSpell 0 1 1 in
  let r := createDictionaryEntry this (js "ab") 1 in
  maxDictionaryEditDistance this = 0 /\
  (2 <= length (js "ab"))%nat /\
  r.1 = true /\
  (0 < length (termPrefix this (js "ab")))%nat /\
  ~ inBucket r.2 (deleteAt (termPrefix this (js "ab")) 0) (js "ab").
Proof.
  cbv zeta. split; [reflexivity|]. split; [vm_compute; lia|]. split; [reflexivity|].
  split; [vm_compute; lia|].
  intros (b & Hb & _). vm_compute in Hb. discriminate.
Qed.

(** C10 (amended): on an index with [maxDictionaryEditDistance = 0] and
    [prefixLength >= 2], a call of [createDictionaryEntry] that promotes a
    term [t] of length at least 2 leaves every single-character deletion of
    the prefix of [t] as a key of the Deletes map whose bucket contains [t]:
    variants at delete distance 1, one more than the configured maximum. *)
Theorem single_deletes_at_distance_zero (this this' : SymSpell) (t : jsstring) (c : Z)
    (i : nat) :
  maxDictionaryEditDistance this = 0 ->
  2 <= prefixLength this ->
  (2 <= length t)%nat ->
  createDictionaryEntry this t c = (true, this') ->
  (i < length (termPrefix this t))%nat ->
  inBucket this' (deleteAt (termPrefix this t) i) t /\
  Z.of_nat (length (termPrefix this t)) - Z.of_nat (length (deleteAt (termPrefix this t) i))
    = maxDictionaryEditDistance this + 1.
Proof.
  intros Hmed Hpl Ht Hcall Hi.
  pose proof (termPrefix_length this t ltac:(lia)) as Hlen.
  split; [|rewrite deleteAt_length by exact Hi; lia].
  assert (Hpromoted : exists this0 c0,
             this' = (promote this0 t c0).2 /\
             maxDictionaryEditDistance this0 = maxDictionaryEditDistance this /\
             prefixLength this0 = prefixLength this).
  { destruct (createDictionaryEntry_outcome this t c); try discriminate.
    - eexists _, _. split; [by rewrite Hcall|]. done.
    - eexists _, _. split; [by rewrite Hcall|]. done. }
  destruct Hpromoted as (this0 & c0 & -> & Hmed0 & Hpl0).
  destruct (promote_spec this0 t c0) as (_ & _ & _ & _ & _ & _ & _ & Hd).
  unfold inBucket. rewrite Hd. apply pushDelete_fold. right. split; [done|].
  rewrite (editsPrefix_config this this0 t Hmed0 Hpl0).
  destruct (editsPrefix_spec this t) as (_ & _ & Hvis & _).
  apply Hvis. apply visits_delete; lia.
Qed.

Lemma single_deletes_at_distance_zero_witness :
  let this := newSymSpell 0 7 1 in
  let this' := (createDictionaryEntry this (js "pipe") 5).2 in
  inBucket this' (deleteAt (termPrefix this (js "pipe")) 1) (js "pipe") /\
  Z.of_nat (length (termPrefix this (js "pipe")))
    - Z.of_nat (length (deleteAt (termPrefix this (js "pipe")) 1))
    = maxDictionaryEditDistance this + 1.
Proof.
  apply (single_deletes_at_distance_zero (newSymSpell 0 7 1) _ (js "pipe") 5 1).
  - reflexivity.
  - simpl. lia.
  - vm_compute. lia.
  - reflexivity.
  - vm_compute. lia.
Defined.

(** ** C6 *)

(** C6: for a term [t] new to the index, two successive calls with counts
    [c1] and [c2], both positive and at least the threshold: the second
    call returns [false], leaves the number of words unchanged, and the
    count of [t] is [c1 + c2], capped at [MAX_SAFE_INTEGER]. *)
Theorem createDictionaryEntry_twice (this : SymSpell) (t : jsstring) (c1 c2 : Z) :
  words this !! t = None ->
  belowThresholdWords this !! t = None ->
  c1 >= countThreshold this -> c1 > 0 ->
  c2 >= countThreshold this -> c2 > 0 ->
  let first := createDictionaryEntry this t c1 in
  let second := createDictionaryEntry first.2 t c2 in
  second.1 = false /\
  size (words second.2) = size (words first.2) /\
  words second.2 !! t = Some (Z.min (c1 + c2) MAX_SAFE_INTEGER).
Proof.
  intros Hw Hb Hc1 Hc1' Hc2 Hc2'. cbv zeta.
  rewrite (createDictionaryEntry_new this t c1) by assumption.
  destruct (promote_spec this t c1) as (_ & _ & _ & Hct & Hw1 & Hb1 & _).
  set (this1 := (promote this t c1).2) in *.
  destruct (createDictionaryEntry_outcome this1 t c2) as
    [| p ? Hp | p ? Hp | p ? Hp | ? Hp | ? Hp ]; try lia;
    try (rewrite Hb1, Hb in Hp; discriminate);
    try (rewrite Hw1, lookup_insert_eq in Hp; discriminate).
  rewrite Hw1, lookup_insert_eq in Hp. injection Hp as <-.
  cbn [fst snd set_words words]. split; [reflexivity|]. split.
  - rewrite map_size_insert_Some; [reflexivity|]. rewrite Hw1, lookup_insert_eq. by eexists.
  - rewrite lookup_insert_eq. f_equal. unfold accumulate.
    replace (Z.max c2 0) with c2 by lia.
    destruct (MAX_SAFE_INTEGER - c1 >? c2) eqn:Hgt.
    + apply Z.gtb_lt in Hgt. lia.
    + rewrite Z.gtb_ltb in Hgt. apply Z.ltb_ge in Hgt. lia.
Qed.

Lemma createDictionaryEntry_twice_witness :
  let this := defaultSymSpell in
  let first := createDictionaryEntry this (js "hello") 11 in
  let second := createDictionaryEntry first.2 (js "hello") 3 in
  second.1 = false /\
  size (words second.2) = size (words first.2) /\
  words second.2 !! js "hello" = Some (Z.min (11 + 3) MAX_SAFE_INTEGER).
Proof.
  apply (createDictionaryEntry_twice defaultSymSpell (js "hello") 11 3).
  - reflexivity.
  - reflexivity.
  - simpl. lia.
  - lia.
  - simpl. lia.
  - lia.
Defined.

(* ===================================================================== *)
(** * Part III. lookup                                                    *)
(* ===================================================================== *)

(** ** The candidate loop terminates *)

Lemma lookupFuel_pos (n : nat) : (1 <= lookupFuel n)%nat.
Proof. destruct n; simpl; lia. Qed.

Lemma queueFuel_app (q1 q2 : list jsstring) :
  queueFuel (q1 ++ q2) = (queueFuel q1 + queueFuel q2)%nat.
Proof. induction q1 as [|c q1 IH]; simpl; [reflexivity|]. rewrite IH. lia. Qed.

(** The deletes enqueued for a candidate cost at most one iteration less
    than the candidate itself. *)
Lemma pushDeletes_fuel (candidate : jsstring) (queue : list jsstring) (st : LoopState) :
  (S (queueFuel (pushDeletes candidate queue st).1)
   <= lookupFuel (length candidate) + queueFuel queue)%nat.
Proof.
  unfold pushDeletes.
  assert (Hgen : forall idxs q s,
             (forall i, i ∈ idxs -> (i < length candidate)%nat) ->
             (queueFuel
                (fold_left
                   (fun '(queue, st) i =>
                      let del := deleteAt candidate i in
                      if bool_decide (del ∈ ls_consideredDeletes st) then (queue, st)
                      else (queue ++ [del],
                            mkLoop (ls_suggestions st) (ls_maxEditDistance2 st)
                                   ({[del]} ∪ ls_consideredDeletes st)
                                   (ls_consideredSuggestions st) (ls_distanceComparer st)))
                   idxs (q, s)).1
              <= queueFuel q + length idxs * lookupFuel (length candidate - 1))%nat).
  { induction idxs as [|i idxs IH]; intros q s Hin; simpl; [lia|].
    assert (Hi : (i < length candidate)%nat) by (apply Hin; left).
    destruct (bool_decide (deleteAt candidate i ∈ ls_consideredDeletes s)).
    - etrans; [apply IH|lia]. intros j Hj. apply Hin. by right.
    - etrans; [apply IH|].
      + intros j Hj. apply Hin. by right.
      + rewrite queueFuel_app. simpl. rewrite deleteAt_length by exact Hi. lia. }
  etrans; [apply le_n_S, Hgen|].
  - intros i Hi. apply elem_of_seq in Hi. lia.
  - rewrite length_seq. destruct (length candidate) as [|n]; simpl.
    + lia.
    + rewrite Nat.sub_0_r. lia.
Qed.

(** With the fuel that [lookup] gives it, the loop runs until the queue is
    empty or the loop is left by [break]. *)
Lemma lookupLoop_total (this : SymSpell) (verbosity : Verbosity) (maxEditDistance : Z)
    (input : jsstring) (inputLen inputPrefixLen : Z) (fuel : nat) :
  forall queue st,
    (queueFuel queue <= fuel)%nat ->
    is_Some (lookupLoop fuel this verbosity maxEditDistance input inputLen inputPrefixLen
               queue st).
Proof.
  induction fuel as [|fuel IH]; intros [|candidate queue] st Hfuel; simpl;
    try (by eexists).
  - simpl in Hfuel. pose proof (lookupFuel_pos (length candidate)). lia.
  - simpl in Hfuel. pose proof (lookupFuel_pos (length candidate)) as Hpos.
    assert (Hq : (queueFuel queue <= fuel)%nat) by lia.
    destruct (inputPrefixLen - Z.of_nat (length candidate) >? ls_maxEditDistance2 st).
    { destruct (Verbosity_eqb verbosity ALL); [by apply IH|by eexists]. }
    match goal with
    | |- context [if ?c && _ then _ else _] => destruct c
    end; simpl; [|by apply IH].
    match goal with
    | |- context [if ?c then _ else _] => destruct c
    end; simpl; [|by apply IH].
    match goal with
    | |- context [if ?c then _ else _] => destruct c
    end; simpl; [by apply IH|].
    match goal with
    | |- context [pushDeletes candidate queue ?s] =>
        pose proof (pushDeletes_fuel candidate queue s) as Hpush;
        destruct (pushDeletes candidate queue s) as [queue' st']
    end.
    apply IH. simpl in Hpush. lia.
Qed.

(** ** The order of the results *)

Lemma sortedSuggestions_short (l : list SuggestItem) :
  (length l <= 1)%nat -> sortedSuggestions l.
Proof.
  intros Hlen i j a b Hij Hi Hj.
  apply lookup_lt_Some in Hj. lia.
Qed.

Lemma le_cmp_spec (a b : SuggestItem) :
  le_cmp a b <-> distance b < distance a \/ (distance a = distance b /\ count a <= count b).
Proof.
  unfold le_cmp, compareTo.
  destruct (distance a =? distance b) eqn:Hd;
    [apply Z.eqb_eq in Hd|apply Z.eqb_neq in Hd]; lia.
Qed.

Lemma le_cmp_total (a b : SuggestItem) : le_cmp a b \/ le_cmp b a.
Proof. rewrite !le_cmp_spec. lia. Qed.

Lemma le_cmp_trans (a b c : SuggestItem) : le_cmp a b -> le_cmp b c -> le_cmp a c.
Proof. rewrite !le_cmp_spec. lia. Qed.

Lemma sortInsert_elem (x y : SuggestItem) (l : list SuggestItem) :
  y ∈ sortInsert x l <-> y = x \/ y ∈ l.
Proof.
  induction l as [|z l IH]; simpl.
  - rewrite list_elem_of_singleton. split; [by left|]. intros [H|H]; [done|by apply elem_of_nil in H].
  - destruct (compareTo x z <=? 0).
    + rewrite elem_of_cons. tauto.
    + rewrite !elem_of_cons, IH. tauto.
Qed.

Lemma sortInsert_sorted (x : SuggestItem) (l : list SuggestItem) :
  Sorted le_cmp l -> Sorted le_cmp (sortInsert x l).
Proof.
  induction 1 as [|z l Hs IH Hhd]; simpl.
  - repeat constructor.
  - destruct (compareTo x z <=? 0) eqn:Hc.
    + apply Z.leb_le in Hc. repeat constructor; auto.
    + apply Z.leb_gt in Hc. constructor; [exact IH|].
      assert (Hzx : le_cmp z x).
      { destruct (le_cmp_total x z) as [H|H]; [unfold le_cmp in H; lia|exact H]. }
      destruct l as [|w l]; simpl.
      * by constructor.
      * destruct (compareTo x w <=? 0); constructor; auto. by inversion Hhd.
Qed.

Lemma sortSuggestions_sorted (l : list SuggestItem) : Sorted le_cmp (sortSuggestions l).
Proof.
  induction l as [|x l IH]; simpl; [constructor|]. by apply sortInsert_sorted.
Qed.

Lemma sortSuggestions_length (l : list SuggestItem) :
  length (sortSuggestions l) = length l.
Proof.
  induction l as [|x l IH]; simpl; [reflexivity|]. rewrite <- IH.
  generalize (sortSuggestions l). intros k.
  induction k as [|y k IHk]; simpl; [reflexivity|].
  destruct (compareTo x y <=? 0); simpl; [reflexivity|]. by rewrite IHk.
Qed.

(** [sort(...).reverse()] puts the list in the order of the specification. *)
Lemma rev_sort_sorted (l : list SuggestItem) :
  sortedSuggestions (rev (sortSuggestions l)).
Proof.
  pose proof (sortSuggestions_sorted l) as Hs.
  apply Sorted_StronglySorted in Hs; [|intros a b c; apply le_cmp_trans].
  generalize dependent (sortSuggestions l). intros k Hs.
  intros i j a b Hij Hi Hj.
  assert (Hlen : (j < length (rev k))%nat) by (by apply lookup_lt_Some in Hj).
  rewrite length_rev in Hlen.
  rewrite rev_alt in Hi, Hj.
  change (rev_append k []) with (reverse k) in Hi, Hj.
  rewrite reverse_lookup in Hi by lia. rewrite reverse_lookup in Hj by lia.
  assert (Hle : le_cmp b a).
  { clear -Hs Hi Hj Hij Hlen.
    set (p := (length k - S j)%nat) in *. set (q := (length k - S i)%nat) in *.
    assert (Hpq : (p < q)%nat) by (unfold p, q; lia).
    clearbody p q. clear Hij Hlen.
    revert p q Hpq Hi Hj. induction Hs as [|z k Hs IH Hall]; intros p q Hpq Hi Hj.
    - by rewrite lookup_nil in Hi.
    - destruct q as [|q]; [lia|]. destruct p as [|p]; simpl in *.
      + injection Hj as <-. rewrite Forall_forall in Hall. apply Hall.
        by eapply list_elem_of_lookup_2.
      + apply (IH p q); [lia|done|done]. }
  apply le_cmp_spec in Hle. unfold precedes. lia.
Qed.

Lemma sortedSuggestions_fmap (f : SuggestItem -> SuggestItem) (l : list SuggestItem) :
  (forall s, distance (f s) = distance s /\ count (f s) = count s) ->
  sortedSuggestions l -> sortedSuggestions (f <$> l).
Proof.
  intros Hf Hs i j a b Hij Hi Hj.
  rewrite list_lookup_fmap in Hi, Hj.
  destruct (l !! i) as [a'|] eqn:Ha; [|discriminate].
  destruct (l !! j) as [b'|] eqn:Hb; [|discriminate].
  injection Hi as <-. injection Hj as <-.
  specialize (Hs i j a' b' Hij Ha Hb). unfold precedes in *.
  destruct (Hf a') as [-> ->]. destruct (Hf b') as [-> ->]. exact Hs.
Qed.

Section LookupProperties.

Variable toLowerCase : jsstring -> jsstring.
Variable transferCasingSimilar : jsstring -> jsstring -> jsstring.

Lemma earlyExit_sorted opts input med l :
  sortedSuggestions l -> sortedSuggestions (earlyExit opts input med l).
Proof.
  intros Hs. unfold earlyExit.
  destruct (includeUnknown opts && (length l =? 0)%nat) eqn:Hc; [|exact Hs].
  apply andb_true_iff in Hc as [_ Hc]. apply Nat.eqb_eq in Hc.
  apply sortedSuggestions_short. rewrite length_app. simpl. lia.
Qed.

(** The end of [lookup] after the candidate loop. *)
Ltac after_loop :=
  match goal with
  | |- context [lookupLoop ?f ?t ?v ?m ?i ?il ?ip ?q ?s] =>
      destruct (lookupLoop f t v m i il ip q s) as [st|]
  end;
  [apply earlyExit_sorted;
   match goal with
   | |- sortedSuggestions (if transferCasing ?o then ?f <$> ?l else ?l) =>
       assert (Hl : sortedSuggestions l);
       [match goal with
        | |- context [(1 <? length ?k)%nat] =>
            let Hlen := fresh "Hlen" in
            destruct (1 <? length k)%nat eqn:Hlen;
            [apply rev_sort_sorted
            |apply Nat.ltb_ge in Hlen; by apply sortedSuggestions_short]
        end
       |destruct (transferCasing o);
        [apply sortedSuggestions_fmap; [done|exact Hl]|exact Hl]]
   end
  |apply sortedSuggestions_short; simpl; lia].

Ltac early_return :=
  apply earlyExit_sorted, sortedSuggestions_short; simpl; lia.

(** Every path of [lookup] but one returns an ordered list; the exception
    is the early return for [maxEditDistance = 0] taken under
    [Verbosity.ALL] after both the exact match and the [ignoreToken]
    match were pushed. *)
Lemma lookup_sorted (this : SymSpell) (input : jsstring) (verbosity : Verbosity)
    (maxEditDistance : option Z) (opts : LookupOptions) :
  sortedSuggestions
    (SymSpell_lookup toLowerCase transferCasingSimilar this input verbosity
       maxEditDistance opts)
  \/ (verbosity = ALL /\
      default (maxDictionaryEditDistance this) maxEditDistance = 0 /\
      let input := if transferCasing opts then toLowerCase input else input in
      is_Some (words this !! input) /\
      exists matches, ignoreToken opts = Some matches /\ matches input = true).
Proof.
  unfold SymSpell_lookup.
  set (med := default (maxDictionaryEditDistance this) maxEditDistance).
  set (inp := if transferCasing opts then toLowerCase input else input).
  destruct (Z.of_nat (length input) - med >? maxDictionaryWordLength this).
  { left. early_return. }
  destruct (words this !! inp) as [c|] eqn:Hfound; simpl.
  - destruct (Verbosity_eqb verbosity ALL) eqn:Hv; simpl; [|left; early_return].
    destruct verbosity; try discriminate.
    destruct (ignoreToken opts) as [matches|] eqn:Hig.
    + destruct (matches inp) eqn:Hmatch; simpl.
      * destruct (med =? 0) eqn:Hmed; [|left; after_loop].
        apply Z.eqb_eq in Hmed. right. cbv zeta. fold inp.
        split; [done|]. split; [done|]. split; [by eexists|by eexists].
      * left. destruct (med =? 0); [early_return|after_loop].
    + left. destruct (med =? 0); [early_return|after_loop].
  - left.
    destruct (match ignoreToken opts with Some matches => matches inp | None => false end);
      simpl.
    + destruct (Verbosity_eqb verbosity ALL); simpl; [|early_return].
      destruct (med =? 0); [early_return|after_loop].
    + destruct (med =? 0); [early_return|after_loop].
Qed.

End LookupProperties.

Section LookupScenarios.

Variable toLowerCase : jsstring -> jsstring.
Variable transferCasingSimilar : jsstring -> jsstring -> jsstring.

Local Abbreviation lookup := (SymSpell_lookup toLowerCase transferCasingSimilar).

(** ** C3 *)

(** C3: in an index built by any sequence of calls in which the term [t]
    is the key of exactly one call, with a positive count [c] that
    reaches the threshold, [lookup(t, TOP, 0)] returns the one suggestion
    [(t, distance 0, count c)]. *)
Theorem lookup_exact_after_single_insert (med pl ct : Z)
    (before after : list (jsstring * Z)) (t : jsstring) (c : Z) (opts : LookupOptions) :
  t ∉ before.*1 -> t ∉ after.*1 ->
  c >= ct -> c > 0 ->
  transferCasing opts = false ->
  lookup (createEntries (newSymSpell med pl ct) (before ++ (t, c) :: after))
         t TOP (Some 0) opts
  = [mkSuggestItem t 0 c].
Proof.
  intros Hbefore Hafter Hct Hc Hcasing.
  rewrite createEntries_app, createEntries_cons. cbn [fst snd].
  set (this1 := createEntries (newSymSpell med pl ct) before).
  destruct (createEntries_other before t Hbefore (newSymSpell med pl ct)) as [Hw1 Hb1].
  fold this1 in Hw1, Hb1. simpl in Hw1, Hb1. rewrite lookup_empty in Hw1, Hb1.
  destruct (createEntries_config before (newSymSpell med pl ct)) as (_ & _ & Hct1).
  fold this1 in Hct1. simpl in Hct1.
  rewrite (createDictionaryEntry_new this1 t c) by (rewrite ?Hct1; assumption).
  destruct (promote_spec this1 t c) as (_ & _ & _ & _ & Hw2 & _ & Hlen2 & _).
  set (this2 := (promote this1 t c).2) in *.
  destruct (createEntries_other after t Hafter this2) as [Hw3 _].
  pose proof (createEntries_maxLength after this2) as Hlen3.
  set (this3 := createEntries this2 after) in *.
  assert (Hfound : words this3 !! t = Some c).
  { by rewrite Hw3, Hw2, lookup_insert_eq. }
  assert (Hbig : (Z.of_nat (length t) - 0 >? maxDictionaryWordLength this3) = false).
  { rewrite Z.gtb_ltb. apply Z.ltb_ge. lia. }
  unfold SymSpell_lookup. rewrite Hcasing. cbn [default].
  rewrite Hfound. simpl. rewrite Hbig.
  unfold earlyExit. simpl. by rewrite andb_false_r.
Qed.

(** ** C4 *)

(** C4, second half: the scenario of the unit test
    [WordsWithSharedPrefixShouldRetainCounts], index [(1, 3)] with
    "pipe" = 5 and "pips" = 10. *)
Example lookup_pip_all :
  lookup (createEntries (newSymSpell 1 3 1) [(js "pipe", 5); (js "pips", 10)])
         (js "pip") ALL (Some 1) noOptions
  = [mkSuggestItem (js "pips") 1 10; mkSuggestItem (js "pipe") 1 5].
Proof. vm_compute. reflexivity. Qed.

(** The same with the default configuration [(2, 7, 1)]. *)
Example lookup_pip_all_default :
  lookup (createEntries defaultSymSpell [(js "pipe", 5); (js "pips", 10)])
         (js "pip") ALL (Some 1) noOptions
  = [mkSuggestItem (js "pips") 1 10; mkSuggestItem (js "pipe") 1 5].
Proof. vm_compute. reflexivity. Qed.

(** C4, first half, fails on one path: with [countThreshold = 0] the word
    "a" can be stored with count 0; [lookup("a", ALL, 0)] with an
    [ignoreToken] that matches pushes the exact match (count 0) and then
    the token match (count 1), and returns at [maxEditDistance === 0]
    before the sort: equal distances, counts ascending. *)
Theorem lookup_unsorted_exact_matches :
  let this := createEntries (newSymSpell 2 7 0) [(js "a", 0)] in
  let opts := mkLookupOptions false (Some (fun _ => true)) false in
  lookup this (js "a") ALL (Some 0) opts
    = [mkSuggestItem (js "a") 0 0; mkSuggestItem (js "a") 0 1] /\
  ~ sortedSuggestions (lookup this (js "a") ALL (Some 0) opts).
Proof.
  cbv zeta.
  assert (Heq : lookup (createEntries (newSymSpell 2 7 0) [(js "a", 0)]) (js "a") ALL
                  (Some 0) (mkLookupOptions false (Some (fun _ => true)) false)
                = [mkSuggestItem (js "a") 0 0; mkSuggestItem (js "a") 0 1]).
  { vm_compute. reflexivity. }
  split; [exact Heq|]. rewrite Heq. intros Hs.
  specialize (Hs 0%nat 1%nat _ _ ltac:(lia) eq_refl eq_refl).
  unfold precedes in Hs. simpl in Hs. lia.
Qed.

(** ** C5 *)

(** C5: the scenario of the unit test [VerbosityShouldControlLookupResults]:
    default index with "steam" = 1, "steams" = 2, "steem" = 3, query
    "steems" with [maxEditDistance = 2]. *)
Theorem lookup_verbosity_counts :
  let this := createEntries defaultSymSpell
                [(js "steam", 1); (js "steams", 2); (js "steem", 3)] in
  length (lookup this (js "steems") TOP (Some 2) noOptions) = 1%nat /\
  length (lookup this (js "steems") CLOSEST (Some 2) noOptions) = 2%nat /\
  length (lookup this (js "steems") ALL (Some 2) noOptions) = 3%nat.
Proof. cbv zeta. repeat split; vm_compute; reflexivity. Qed.

(** The three lists themselves. *)
Example lookup_verbosity_lists :
  let this := createEntries defaultSymSpell
                [(js "steam", 1); (js "steams", 2); (js "steem", 3)] in
  lookup this (js "steems") TOP (Some 2) noOptions
    = [mkSuggestItem (js "steem") 1 3] /\
  lookup this (js "steems") CLOSEST (Some 2) noOptions
    = [mkSuggestItem (js "steem") 1 3; mkSuggestItem (js "steams") 1 2] /\
  lookup this (js "steems") ALL (Some 2) noOptions
    = [mkSuggestItem (js "steem") 1 3; mkSuggestItem (js "steams") 1 2;
       mkSuggestItem (js "steam") 2 1].
Proof. cbv zeta. repeat split; vm_compute; reflexivity. Qed.

(** ** C8 *)

(** C8 does not hold of the code: [lookup] never compares
    [maxEditDistance] with [maxDictionaryEditDistance].  On an index built
    for distance 1, a query with [maxEditDistance = 2] is answered like
    any other, here with a suggestion at distance 2. *)
Theorem lookup_beyond_configured_distance :
  let this := createEntries (newSymSpell 1 7 1) [(js "steam", 4)] in
  maxDictionaryEditDistance this < 2 /\
  lookup this (js "xstem") ALL (Some 2) noOptions = [mkSuggestItem (js "steam") 2 4].
Proof. cbv zeta. split; [vm_compute; reflexivity|vm_compute; reflexivity]. Qed.

End LookupScenarios.

Lemma lookup_exact_after_single_insert_witness :
  (js "pawn" ∉ [(js "flame", 20)].*1) /\ (js "pawn" ∉ [(js "flam", 1)].*1) /\
  10 >= 10 /\ 10 > 0 /\ transferCasing noOptions = false /\
  SymSpell_lookup (fun s => s) (fun _ s => s)
    (createEntries (newSymSpell 2 7 10)
       ([(js "flame", 20)] ++ (js "pawn", 10) :: [(js "flam", 1)]))
    (js "pawn") TOP (Some 0) noOptions
  = [mkSuggestItem (js "pawn") 0 10].
Proof.
  assert (H1 : js "pawn" ∉ [(js "flame", 20)].*1).
  { intros H. apply list_elem_of_singleton in H. vm_compute in H. discriminate. }
  assert (H2 : js "pawn" ∉ [(js "flam", 1)].*1).
  { intros H. apply list_elem_of_singleton in H. vm_compute in H. discriminate. }
  repeat (split; [first [exact H1|exact H2|lia|reflexivity]|]).
  apply (lookup_exact_after_single_insert (fun s => s) (fun _ s => s) 2 7 10
           [(js "flame", 20)] [(js "flam", 1)] (js "pawn") 10 noOptions);
    first [exact H1|exact H2|lia|reflexivity].
Defined.

(* ===================================================================== *)
(** * Part IV. The reference OSA dynamic program                          *)
(* ===================================================================== *)

(** Induction over the cells of the matrix: a cell may use every cell
    above and to the left of it. *)
Lemma dp_induction (P : nat -> nat -> Prop) :
  (forall j, P O j) ->
  (forall i, P i O) ->
  (forall i j,
      (forall i' j', (i' <= S i)%nat -> (j' <= S j)%nat -> (i' + j' < S i + S j)%nat -> P i' j') ->
      P (S i) (S j)) ->
  forall i j, P i j.
Proof.
  intros H0 H1 HS i j.
  remember (i + j)%nat as n eqn:Hn.
  revert i j Hn. induction n as [n IH] using lt_wf_ind. intros i j Hn.
  destruct i as [|i]; [apply H0|]. destruct j as [|j]; [apply H1|].
  apply HS. intros i' j' Hi Hj Hlt. apply (IH (i' + j')%nat); [lia|reflexivity].
Qed.

Section Reference.

Variables a b : jsstring.

Lemma osa_dp_0_l j : osa_dp a b 0 j = Z.of_nat j.
Proof. reflexivity. Qed.

Lemma osa_dp_0_r i : osa_dp a b i 0 = Z.of_nat i.
Proof. destruct i; reflexivity. Qed.

(** The recurrence of the matrix. *)
Lemma osa_dp_S i j :
  osa_dp a b (S i) (S j) =
  let cost := if decide (a !! i = b !! j) then 0 else 1 in
  let best :=
    Z.min (Z.min (osa_dp a b i (S j) + 1) (osa_dp a b (S i) j + 1)) (osa_dp a b i j + cost) in
  if swapped a b i j then Z.min best (osa_dp a b (i - 1) (j - 1) + 1) else best.
Proof.
  destruct i as [|i], j as [|j]; try reflexivity.
  simpl. rewrite !Nat.sub_0_r. reflexivity.
Qed.

Arguments osa_dp : simpl never.

Lemma osa_dp_nonneg i j : 0 <= osa_dp a b i j.
Proof.
  revert i j. apply dp_induction.
  - intros j. pose proof (osa_dp_0_l j). lia.
  - intros i. pose proof (osa_dp_0_r i). lia.
  - intros i j IH. rewrite osa_dp_S. cbv zeta.
    pose proof (IH i (S j) ltac:(lia) ltac:(lia) ltac:(lia)).
    pose proof (IH (S i) j ltac:(lia) ltac:(lia) ltac:(lia)).
    pose proof (IH i j ltac:(lia) ltac:(lia) ltac:(lia)).
    pose proof (IH (i - 1)%nat (j - 1)%nat ltac:(lia) ltac:(lia) ltac:(lia)).
    destruct (decide (a !! i = b !! j)), (swapped a b i j); lia.
Qed.

(** One more character on either side costs at most one more edit. *)
Lemma osa_dp_step_down i j : osa_dp a b (S i) j <= osa_dp a b i j + 1.
Proof.
  destruct j as [|j]; [rewrite (osa_dp_0_r (S i)), (osa_dp_0_r i); lia|].
  rewrite osa_dp_S. cbv zeta.
  destruct (decide (a !! i = b !! j)), (swapped a b i j); lia.
Qed.

Lemma osa_dp_step_right i j : osa_dp a b i (S j) <= osa_dp a b i j + 1.
Proof.
  destruct i as [|i]; [rewrite (osa_dp_0_l (S j)), (osa_dp_0_l j); lia|].
  rewrite osa_dp_S. cbv zeta.
  destruct (decide (a !! i = b !! j)), (swapped a b i j); lia.
Qed.

Lemma osa_dp_step_diag i j : osa_dp a b (S i) (S j) <= osa_dp a b i j + 1.
Proof.
  rewrite osa_dp_S. cbv zeta.
  destruct (decide (a !! i = b !! j)), (swapped a b i j); lia.
Qed.

(** ... and at least one edit less. *)
Lemma osa_dp_back_down i : forall j, osa_dp a b i j <= osa_dp a b (S i) j + 1.
Proof.
  induction j as [|j IH]; [rewrite (osa_dp_0_r (S i)), (osa_dp_0_r i); lia|].
  rewrite (osa_dp_S i j). cbv zeta.
  pose proof (osa_dp_step_right i j).
  assert (Hd : swapped a b i j = true -> osa_dp a b i j <= osa_dp a b (i - 1) (j - 1) + 1).
  { destruct i as [|i], j as [|j']; simpl; try discriminate. intros _.
    rewrite !Nat.sub_0_r. apply osa_dp_step_diag. }
  destruct (decide (a !! i = b !! j)), (swapped a b i j); try specialize (Hd eq_refl); lia.
Qed.

Lemma osa_dp_back_right j : forall i, osa_dp a b i j <= osa_dp a b i (S j) + 1.
Proof.
  induction i as [|i IH]; [rewrite (osa_dp_0_l (S j)), (osa_dp_0_l j); lia|].
  rewrite (osa_dp_S i j). cbv zeta.
  pose proof (osa_dp_step_down i j).
  assert (Hd : swapped a b i j = true -> osa_dp a b i j <= osa_dp a b (i - 1) (j - 1) + 1).
  { destruct i as [|i'], j as [|j]; simpl; try discriminate. intros _.
    rewrite !Nat.sub_0_r. apply osa_dp_step_diag. }
  destruct (decide (a !! i = b !! j)), (swapped a b i j); try specialize (Hd eq_refl); lia.
Qed.

Lemma swapped_diag i j :
  swapped a b i j = true -> osa_dp a b i j <= osa_dp a b (i - 1) (j - 1) + 1.
Proof.
  destruct i as [|i], j as [|j]; simpl; try discriminate. intros _.
  rewrite !Nat.sub_0_r. apply osa_dp_step_diag.
Qed.

(** The distance does not decrease along a diagonal. *)
Lemma osa_dp_diag_mono i j : osa_dp a b i j <= osa_dp a b (S i) (S j).
Proof.
  rewrite osa_dp_S. cbv zeta.
  pose proof (osa_dp_back_down i j). pose proof (osa_dp_back_right j i).
  pose proof (swapped_diag i j).
  pose proof (osa_dp_step_down i j). pose proof (osa_dp_step_right i j).
  destruct (decide (a !! i = b !! j)), (swapped a b i j); lia.
Qed.

Lemma osa_dp_diag_mono_n (n i j : nat) :
  osa_dp a b i j <= osa_dp a b (i + n) (j + n).
Proof.
  induction n as [|n IH]; [by rewrite !Nat.add_0_r|].
  rewrite !Nat.add_succ_r. etrans; [exact IH|apply osa_dp_diag_mono].
Qed.

(** Equal characters: the cell repeats its diagonal neighbour. *)
Lemma osa_dp_equal i j :
  a !! i = b !! j -> osa_dp a b (S i) (S j) = osa_dp a b i j.
Proof.
  intros Heq. rewrite osa_dp_S. cbv zeta.
  pose proof (osa_dp_back_down i j). pose proof (osa_dp_back_right j i).
  pose proof (swapped_diag i j).
  pose proof (osa_dp_step_down i j). pose proof (osa_dp_step_right i j).
  destruct (decide (a !! i = b !! j)); [|done].
  destruct (swapped a b i j); lia.
Qed.

(** Different characters: one more than the cheapest neighbour. *)
Lemma osa_dp_differ i j :
  a !! i <> b !! j ->
  osa_dp a b (S i) (S j) =
  let best := 1 + Z.min (Z.min (osa_dp a b i j) (osa_dp a b (S i) j)) (osa_dp a b i (S j)) in
  if swapped a b i j then Z.min best (osa_dp a b (i - 1) (j - 1) + 1) else best.
Proof.
  intros Hne. rewrite osa_dp_S. cbv zeta.
  destruct (decide (a !! i = b !! j)); [done|].
  destruct (swapped a b i j); lia.
Qed.

Lemma osa_dp_lower i j : Z.abs (Z.of_nat i - Z.of_nat j) <= osa_dp a b i j.
Proof.
  revert i j. apply dp_induction.
  - intros j. pose proof (osa_dp_0_l j). lia.
  - intros i. pose proof (osa_dp_0_r i). lia.
  - intros i j IH. rewrite osa_dp_S. cbv zeta.
    pose proof (IH i (S j) ltac:(lia) ltac:(lia) ltac:(lia)).
    pose proof (IH (S i) j ltac:(lia) ltac:(lia) ltac:(lia)).
    pose proof (IH i j ltac:(lia) ltac:(lia) ltac:(lia)).
    pose proof (IH (i - 1)%nat (j - 1)%nat ltac:(lia) ltac:(lia) ltac:(lia)).
    assert (Hs : swapped a b i j = true -> (1 <= i)%nat /\ (1 <= j)%nat).
    { destruct i, j; simpl; try discriminate. lia. }
    destruct (decide (a !! i = b !! j)), (swapped a b i j);
      try specialize (Hs eq_refl); lia.
Qed.

Lemma osa_dp_upper i j : osa_dp a b i j <= Z.max (Z.of_nat i) (Z.of_nat j).
Proof.
  revert i j. apply dp_induction.
  - intros j. pose proof (osa_dp_0_l j). lia.
  - intros i. pose proof (osa_dp_0_r i). lia.
  - intros i j IH.
    pose proof (IH i j ltac:(lia) ltac:(lia) ltac:(lia)).
    pose proof (osa_dp_step_diag i j). lia.
Qed.

(** With different first characters, no two non-empty prefixes are equal. *)
Lemma osa_dp_positive i j :
  a !! 0%nat <> b !! 0%nat -> (1 <= i)%nat -> (1 <= j)%nat -> 1 <= osa_dp a b i j.
Proof.
  intros Hfirst. revert i j.
  apply (dp_induction (fun i j => (1 <= i)%nat -> (1 <= j)%nat -> 1 <= osa_dp a b i j)).
  - intros j Hi. lia.
  - intros i _ Hj. lia.
  - intros i j IH _ _. rewrite osa_dp_S. cbv zeta.
    pose proof (osa_dp_nonneg i (S j)). pose proof (osa_dp_nonneg (S i) j).
    pose proof (osa_dp_nonneg (i - 1) (j - 1)).
    assert (Hd : 1 <= osa_dp a b i j + (if decide (a !! i = b !! j) then 0 else 1)).
    { destruct i as [|i].
      - pose proof (osa_dp_0_l j). destruct j as [|j].
        + destruct (decide (a !! 0%nat = b !! 0%nat)); [done|lia].
        + destruct (decide (a !! 0%nat = b !! S j)); lia.
      - destruct j as [|j].
        + pose proof (osa_dp_0_r (S i)). destruct (decide (a !! S i = b !! 0%nat)); lia.
        + pose proof (IH (S i) (S j) ltac:(lia) ltac:(lia) ltac:(lia) ltac:(lia) ltac:(lia)).
          destruct (decide (a !! S i = b !! S j)); lia. }
    destruct (swapped a b i j); lia.
Qed.

End Reference.

Arguments osa_dp : simpl never.

(** The cell [(i, j)] reads only the first [i] and [j] characters. *)
Lemma osa_dp_ext (a b a' b' : jsstring) :
  forall i j,
    (forall k, (k < i)%nat -> a !! k = a' !! k) ->
    (forall k, (k < j)%nat -> b !! k = b' !! k) ->
    osa_dp a b i j = osa_dp a' b' i j.
Proof.
  apply (dp_induction (fun i j =>
           (forall k, (k < i)%nat -> a !! k = a' !! k) ->
           (forall k, (k < j)%nat -> b !! k = b' !! k) ->
           osa_dp a b i j = osa_dp a' b' i j)).
  - intros j _ _. reflexivity.
  - intros i _ _. pose proof (osa_dp_0_r a b i). pose proof (osa_dp_0_r a' b' i). lia.
  - intros i j IH Ha Hb. rewrite (osa_dp_S a b), (osa_dp_S a' b'). cbv zeta.
    rewrite (IH i (S j)), (IH (S i) j), (IH i j), (IH (i - 1)%nat (j - 1)%nat);
      try lia; try (intros k Hk; first [apply Ha|apply Hb]; lia).
    rewrite <- (Ha i), <- (Hb j) by lia.
    replace (swapped a' b' i j) with (swapped a b i j); [reflexivity|].
    destruct i as [|i], j as [|j]; simpl; try reflexivity.
    by rewrite (Ha (S i)), (Ha i), (Hb (S j)), (Hb j) by lia.
Qed.

Lemma swapped_sym (a b : jsstring) i j : swapped b a j i = swapped a b i j.
Proof.
  destruct i as [|i], j as [|j]; simpl; try reflexivity.
  rewrite andb_comm. f_equal; apply bool_decide_ext; split; congruence.
Qed.

(** The distance is symmetric. *)
Lemma osa_dp_sym (a b : jsstring) : forall i j, osa_dp a b i j = osa_dp b a j i.
Proof.
  apply dp_induction.
  - intros j. pose proof (osa_dp_0_l a b j). pose proof (osa_dp_0_r b a j). lia.
  - intros i. pose proof (osa_dp_0_r a b i). pose proof (osa_dp_0_l b a i). lia.
  - intros i j IH. rewrite (osa_dp_S a b), (osa_dp_S b a). cbv zeta.
    rewrite (IH i (S j)), (IH (S i) j), (IH i j), (IH (i - 1)%nat (j - 1)%nat) by lia.
    rewrite (swapped_sym a b).
    destruct (decide (a !! i = b !! j)), (decide (b !! j = a !! i)); try congruence;
      destruct (swapped a b i j); lia.
Qed.

Lemma osa_ref_sym (a b : jsstring) : osa_ref a b = osa_ref b a.
Proof. apply osa_dp_sym. Qed.

(** A common suffix can be ignored. *)
Lemma osa_dp_suffix (a b : jsstring) (i j n : nat) :
  (forall k, (k < n)%nat -> a !! (i + k)%nat = b !! (j + k)%nat) ->
  osa_dp a b (i + n) (j + n) = osa_dp a b i j.
Proof.
  induction n as [|n IH]; intros Heq; [by rewrite !Nat.add_0_r|].
  rewrite !Nat.add_succ_r, osa_dp_equal; [|apply Heq; lia].
  apply IH. intros k Hk. apply Heq. lia.
Qed.

(** A common first character can be ignored. *)
Lemma osa_dp_cons (x : N) (a b : jsstring) :
  forall i j, osa_dp (x :: a) (x :: b) (S i) (S j) = osa_dp a b i j.
Proof.
  apply dp_induction.
  - induction j as [|j IH].
    + rewrite osa_dp_equal by reflexivity. reflexivity.
    + rewrite osa_dp_S. cbv zeta. rewrite IH.
      pose proof (osa_dp_0_l (x :: a) (x :: b) (S (S j))).
      pose proof (osa_dp_0_l (x :: a) (x :: b) (S j)).
      pose proof (osa_dp_0_l a b (S j)). pose proof (osa_dp_0_l a b j).
      change (swapped (x :: a) (x :: b) 0 (S j)) with false.
      destruct (decide _); lia.
  - induction i as [|i IH].
    + rewrite osa_dp_equal by reflexivity. reflexivity.
    + rewrite osa_dp_S. cbv zeta. rewrite IH.
      pose proof (osa_dp_0_r (x :: a) (x :: b) (S (S i))).
      pose proof (osa_dp_0_r (x :: a) (x :: b) (S i)).
      pose proof (osa_dp_0_r a b (S i)). pose proof (osa_dp_0_r a b i).
      change (swapped (x :: a) (x :: b) (S i) 0) with false.
      destruct (decide _); lia.
  - intros i j IH.
    rewrite (osa_dp_S (x :: a) (x :: b) (S i) (S j)), (osa_dp_S a b i j). cbv zeta.
    rewrite (IH i (S j)), (IH (S i) j), (IH i j) by lia.
    change ((x :: a) !! S i) with (a !! i). change ((x :: b) !! S j) with (b !! j).
    set (best := Z.min (Z.min (osa_dp a b i (S j) + 1) (osa_dp a b (S i) j + 1)) _).
    assert (Hbest : best <= osa_dp a b i j + 1).
    { unfold best. destruct (decide (a !! i = b !! j)); lia. }
    destruct i as [|i]; [|destruct j as [|j]].
    + change (swapped a b 0 j) with false.
      pose proof (osa_dp_0_l a b j). pose proof (osa_dp_0_l (x :: a) (x :: b) (S j - 1)).
      destruct (swapped (x :: a) (x :: b) 1 (S j)); [|reflexivity].
      replace (S j - 1)%nat with j in * by lia.
      change (1 - 1)%nat with 0%nat. lia.
    + change (swapped a b (S i) 0) with false.
      pose proof (osa_dp_0_r a b (S i)). pose proof (osa_dp_0_r (x :: a) (x :: b) (S i)).
      destruct (swapped (x :: a) (x :: b) (S (S i)) 1); [|reflexivity].
      replace (S (S i) - 1)%nat with (S i) by lia.
      change (1 - 1)%nat with 0%nat. lia.
    + change (swapped (x :: a) (x :: b) (S (S i)) (S (S j))) with (swapped a b (S i) (S j)).
      replace (S (S i) - 1)%nat with (S i) by lia.
      replace (S (S j) - 1)%nat with (S j) by lia.
      replace (S i - 1)%nat with i by lia. replace (S j - 1)%nat with j by lia.
      rewrite (IH i j) by lia. reflexivity.
Qed.

(** A common prefix can be ignored. *)
Lemma osa_dp_prefix (n : nat) :
  forall (a b : jsstring) (i j : nat),
    (n <= length a)%nat -> (n <= length b)%nat ->
    (forall k, (k < n)%nat -> a !! k = b !! k) ->
    osa_dp a b (n + i) (n + j) = osa_dp (drop n a) (drop n b) i j.
Proof.
  induction n as [|n IH]; intros a b i j Ha Hb Heq; [by rewrite !drop_0|].
  destruct a as [|x a]; [simpl in Ha; lia|]. destruct b as [|y b]; [simpl in Hb; lia|].
  assert (x = y) as <-.
  { specialize (Heq 0%nat ltac:(lia)). simpl in Heq. congruence. }
  simpl. rewrite osa_dp_cons. apply IH; simpl in *; try lia.
  intros k Hk. apply (Heq (S k)). lia.
Qed.

(** Equal strings, and only they, are at distance 0. *)
Lemma osa_dp_refl (a : jsstring) (i : nat) : osa_dp a a i i = 0.
Proof.
  induction i as [|i IH]; [reflexivity|]. by rewrite osa_dp_equal.
Qed.

Lemma osa_dp_zero (a b : jsstring) :
  forall i j, (i <= length a)%nat -> (j <= length b)%nat ->
              osa_dp a b i j = 0 -> take i a = take j b.
Proof.
  apply (dp_induction (fun i j =>
           (i <= length a)%nat -> (j <= length b)%nat ->
           osa_dp a b i j = 0 -> take i a = take j b)).
  - intros j _ Hj H0. pose proof (osa_dp_0_l a b j). by replace j with 0%nat by lia.
  - intros i Hi _ H0. pose proof (osa_dp_0_r a b i). by replace i with 0%nat by lia.
  - intros i j IH Hi Hj H0. rewrite osa_dp_S in H0. cbv zeta in H0.
    pose proof (osa_dp_nonneg a b i (S j)). pose proof (osa_dp_nonneg a b (S i) j).
    pose proof (osa_dp_nonneg a b i j). pose proof (osa_dp_nonneg a b (i - 1) (j - 1)).
    destruct (decide (a !! i = b !! j)) as [Heq|Hne]; [|destruct (swapped a b i j); lia].
    assert (Hd : osa_dp a b i j = 0) by (destruct (swapped a b i j); lia).
    pose proof (IH i j ltac:(lia) ltac:(lia) ltac:(lia) ltac:(lia) ltac:(lia) Hd) as Htake.
    destruct (lookup_lt_is_Some_2 a i ltac:(lia)) as [x Hx].
    rewrite (take_S_r a i x Hx). rewrite Heq in Hx. rewrite (take_S_r b j x Hx).
    by rewrite Htake.
Qed.

Lemma osa_ref_zero_iff (a b : jsstring) : osa_ref a b = 0 <-> a = b.
Proof.
  split.
  - intros H. apply osa_dp_zero in H; [|lia|lia]. by rewrite !firstn_all in H.
  - intros ->. apply osa_dp_refl.
Qed.

Lemma osa_ref_nonneg (a b : jsstring) : 0 <= osa_ref a b.
Proof. apply osa_dp_nonneg. Qed.

(* ===================================================================== *)
(** * Part V. The distance kernel                                         *)
(* ===================================================================== *)

(** ** Arrays *)

Lemma arrGet_arrSet_eq (a : jsarray) (j : nat) (v : option Z) :
  arrGet (arrSet a j v) j = v.
Proof. unfold arrGet, arrSet. simpl. apply lookup_partial_alter_eq. Qed.

Lemma arrGet_arrSet_ne (a : jsarray) (j k : nat) (v : option Z) :
  j <> k -> arrGet (arrSet a j v) k = arrGet a k.
Proof. intros Hne. unfold arrGet, arrSet. simpl. by apply lookup_partial_alter_ne. Qed.

(** A loop that fills the entries [s .. s + n - 1] of an array. *)
Lemma arrGet_fill (g : nat -> option Z) (n : nat) :
  forall (s : nat) (a : jsarray) (c : nat),
    arrGet (fold_left (fun a j => arrSet a j (g j)) (seq s n) a) c =
    if decide (s <= c < s + n)%nat then g c else arrGet a c.
Proof.
  induction n as [|n IH]; intros s a c; simpl.
  - destruct (decide _); [lia|reflexivity].
  - rewrite IH. destruct (decide (c = s)) as [->|Hne].
    + rewrite arrGet_arrSet_eq.
      destruct (decide (S s <= s < S s + n)%nat); [lia|].
      destruct (decide (s <= s < s + S n)%nat); [reflexivity|lia].
    + rewrite arrGet_arrSet_ne by done.
      destruct (decide (S s <= c < S s + n)%nat), (decide (s <= c < s + S n)%nat);
        try reflexivity; lia.
Qed.

(** ** [prefixSuffixPrep] *)

Lemma charAt_pred (s : jsstring) (n : nat) :
  charAt s (Z.of_nat (S n) - 1) = s !! n.
Proof.
  unfold charAt. destruct (Z.of_nat (S n) - 1 <? 0) eqn:Hneg; [apply Z.ltb_lt in Hneg; lia|].
  f_equal. lia.
Qed.

Lemma suffixLoop_spec (s1 s2 : jsstring) :
  forall len1 len2 : nat,
    (len1 <= len2)%nat ->
    let r := suffixLoop s1 s2 len1 len2 in
    (r.1 <= len1)%nat /\
    (len1 - r.1 = len2 - r.2)%nat /\
    (r.2 <= len2)%nat /\
    (forall k, (k < len1 - r.1)%nat -> s1 !! (r.1 + k)%nat = s2 !! (r.2 + k)%nat).
Proof.
  induction len1 as [|l IH]; intros len2 Hle; simpl.
  - repeat split; intros; lia.
  - destruct len2 as [|l2]; [lia|].
    rewrite charAt_pred.
    destruct (decide (s1 !! l = s2 !! l2)) as [Heq|Hne]; simpl.
    + replace (l2 - 0)%nat with l2 by lia.
      destruct (IH l2 ltac:(lia)) as (H1 & H2 & H3 & H4).
      set (r := suffixLoop s1 s2 l l2) in *.
      repeat split; try lia.
      intros k Hk. destruct (decide (k < l - r.1)%nat) as [Hlt|Hge].
      * by apply H4.
      * replace (r.1 + k)%nat with l by lia. replace (r.2 + k)%nat with l2 by lia. exact Heq.
    + repeat split; intros; lia.
Qed.

Lemma prefixLoop_spec (s1 s2 : jsstring) :
  forall n start : nat,
    (forall k, (k < start)%nat -> s1 !! k = s2 !! k) ->
    let r := prefixLoop s1 s2 n start in
    (start <= r <= start + n)%nat /\
    (forall k, (k < r)%nat -> s1 !! k = s2 !! k) /\
    (r = (start + n)%nat \/ s1 !! r <> s2 !! r).
Proof.
  induction n as [|n IH]; intros start Hpre; simpl.
  - repeat split; try lia; auto.
  - destruct (decide (s1 !! start = s2 !! start)) as [Heq|Hne].
    + destruct (IH (S start)) as (H1 & H2 & H3).
      { intros k Hk. destruct (decide (k = start)) as [->|]; [exact Heq|apply Hpre; lia]. }
      repeat split; try lia; auto.
      destruct H3 as [H3|H3]; [left; lia|by right].
    + repeat split; try lia; auto.
Qed.

(** What [prefixSuffixPrep] returns for [|string1| <= |string2|]: the
    distance of the two strings is that of the parts of lengths [len1] and
    [len2] that start at [start]; the length difference is kept; and when
    [len1] is not 0 the two parts start with different characters. *)
Lemma prefixSuffixPrep_spec (s1 s2 : jsstring) :
  (length s1 <= length s2)%nat ->
  let '(len1, len2, start) := prefixSuffixPrep s1 s2 in
  (start + len1 <= length s1)%nat /\
  (start + len2 <= length s2)%nat /\
  (len1 <= len2)%nat /\
  (len2 - len1 = length s2 - length s1)%nat /\
  osa_ref s1 s2 = osa_dp (drop start s1) (drop start s2) len1 len2 /\
  ((0 < len1)%nat -> drop start s1 !! 0%nat <> drop start s2 !! 0%nat).
Proof.
  intros Hle. unfold prefixSuffixPrep.
  pose proof (suffixLoop_spec s1 s2 (length s1) (length s2) Hle) as Hsuf.
  destruct (suffixLoop s1 s2 (length s1) (length s2)) as [l1 l2]. simpl in Hsuf.
  destruct Hsuf as (H1 & H2 & H3 & H4).
  pose proof (prefixLoop_spec s1 s2 l1 0 ltac:(intros; lia)) as Hpre.
  set (start := prefixLoop s1 s2 l1 0) in *. simpl in Hpre.
  destruct Hpre as (H5 & H6 & H7).
  repeat split; try lia.
  - unfold osa_ref.
    replace (length s1) with (l1 + (length s1 - l1))%nat by lia.
    replace (length s2) with (l2 + (length s1 - l1))%nat by lia.
    rewrite osa_dp_suffix by exact H4.
    replace l1 with (start + (l1 - start))%nat at 1 by lia.
    replace l2 with (start + (l2 - start))%nat at 1 by lia.
    apply osa_dp_prefix; try lia. exact H6.
  - intros Hpos. rewrite !lookup_drop, !Nat.add_0_r.
    destruct H7 as [H7|H7]; [lia|exact H7].
Qed.

(** ** One cell *)

Lemma innerBody_eq (string2 : jsstring) (start i : nat) (char1 prevChar1 : option N)
    (st : InnerState) (j : nat) :
  innerBody string2 start i char1 prevChar1 st j =
  let v := cellCost char1 (string2 !! (start + j)%nat) prevChar1 (char2 st) i j
             (leftCharCost st) (aboveCharCost st) (arrGet (char1Costs st) j)
             (nextTransCost st) in
  mkInner (arrGet (prevChar1Costs st) j) v (arrGet (char1Costs st) j) v
          (string2 !! (start + j)%nat)
          (arrSet (char1Costs st) j v) (arrSet (prevChar1Costs st) j (leftCharCost st)).
Proof.
  unfold innerBody, cellCost. cbv zeta.
  destruct (decide (char1 = string2 !! (start + j)%nat)); [reflexivity|].
  destruct (_ && _); reflexivity.
Qed.

(** Arithmetic of capped totals. *)
Lemma cap_shift (C x y k : Z) :
  0 <= k -> Z.min x C = Z.min y C -> Z.min (x + k) C = Z.min (y + k) C.
Proof. lia. Qed.

Lemma cap_min (C x1 x2 y1 y2 : Z) :
  Z.min x1 C = Z.min y1 C -> Z.min x2 C = Z.min y2 C ->
  Z.min (Z.min x1 x2) C = Z.min (Z.min y1 y2) C.
Proof. lia. Qed.

Lemma abs_step (x : Z) :
  0 <= 1 + Z.abs x - Z.abs (x + 1) /\ 0 <= 1 + Z.abs x - Z.abs (x - 1).
Proof. lia. Qed.

Section Cell.

Variables (a b : jsstring) (lenDiff M : Z).

Local Abbreviation approx := (approx a b lenDiff M).
Local Abbreviation approxAt := (approxAt a b lenDiff M).
Local Abbreviation D := (osa_dp a b).
Local Abbreviation R := (remaining lenDiff).

Lemma approx_exact (r c : nat) : approx (D r c) r c.
Proof. split; [apply osa_dp_nonneg|reflexivity]. Qed.

Lemma remaining_diag (i j : nat) : R (S i) (S j) = R i j.
Proof. unfold remaining. f_equal. lia. Qed.

(** The total through a neighbour of the cell [(S i, S j)], one edit later. *)
Lemma through_diag (v : Z) (i j : nat) :
  approx v i j ->
  Z.min (v + 1 + R (S i) (S j)) (M + 1) = Z.min (D i j + 1 + R (S i) (S j)) (M + 1).
Proof.
  intros [_ H]. rewrite remaining_diag.
  replace (v + 1 + R i j) with (v + R i j + 1) by ring.
  replace (D i j + 1 + R i j) with (D i j + R i j + 1) by ring.
  apply cap_shift; [lia|exact H].
Qed.

Lemma through_above (v : Z) (i j : nat) :
  approx v (S i) j ->
  Z.min (v + 1 + R (S i) (S j)) (M + 1) = Z.min (D (S i) j + 1 + R (S i) (S j)) (M + 1).
Proof.
  intros [_ H].
  replace (v + 1 + R (S i) (S j))
    with (v + R (S i) j + (1 + R (S i) (S j) - R (S i) j)) by ring.
  replace (D (S i) j + 1 + R (S i) (S j))
    with (D (S i) j + R (S i) j + (1 + R (S i) (S j) - R (S i) j)) by ring.
  apply cap_shift; [|exact H].
  unfold remaining.
  pose proof (abs_step (lenDiff + Z.of_nat i - Z.of_nat j)) as [Hs _].
  replace (lenDiff + Z.of_nat (S i) - Z.of_nat (S j)) with (lenDiff + Z.of_nat i - Z.of_nat j)
    by lia.
  replace (lenDiff + Z.of_nat (S i) - Z.of_nat j) with (lenDiff + Z.of_nat i - Z.of_nat j + 1)
    by lia.
  exact Hs.
Qed.

Lemma through_left (v : Z) (i j : nat) :
  approx v i (S j) ->
  Z.min (v + 1 + R (S i) (S j)) (M + 1) = Z.min (D i (S j) + 1 + R (S i) (S j)) (M + 1).
Proof.
  intros [_ H].
  replace (v + 1 + R (S i) (S j))
    with (v + R i (S j) + (1 + R (S i) (S j) - R i (S j))) by ring.
  replace (D i (S j) + 1 + R (S i) (S j))
    with (D i (S j) + R i (S j) + (1 + R (S i) (S j) - R i (S j))) by ring.
  apply cap_shift; [|exact H].
  unfold remaining.
  pose proof (abs_step (lenDiff + Z.of_nat i - Z.of_nat j)) as [_ Hs].
  replace (lenDiff + Z.of_nat (S i) - Z.of_nat (S j)) with (lenDiff + Z.of_nat i - Z.of_nat j)
    by lia.
  replace (lenDiff + Z.of_nat i - Z.of_nat (S j)) with (lenDiff + Z.of_nat i - Z.of_nat j - 1)
    by lia.
  exact Hs.
Qed.

Lemma through_trans (t : Z) (i j : nat) :
  (1 <= i)%nat -> (1 <= j)%nat ->
  approx t (i - 1) (j - 1) ->
  Z.min (t + 1 + R (S i) (S j)) (M + 1)
  = Z.min (D (i - 1) (j - 1) + 1 + R (S i) (S j)) (M + 1).
Proof.
  intros Hi Hj [_ H].
  assert (HR : R (S i) (S j) = R (i - 1) (j - 1)).
  { unfold remaining. f_equal. lia. }
  rewrite HR.
  replace (t + 1 + R (i - 1) (j - 1)) with (t + R (i - 1) (j - 1) + 1) by ring.
  replace (D (i - 1) (j - 1) + 1 + R (i - 1) (j - 1))
    with (D (i - 1) (j - 1) + R (i - 1) (j - 1) + 1) by ring.
  apply cap_shift; [lia|exact H].
Qed.

(** The guard of the transposition in the code is the condition of the
    reference. *)
Lemma guard_swapped (i j : nat) (prevChar1 prevChar2 : option N) :
  ((1 <= i)%nat -> prevChar1 = a !! (i - 1)%nat) ->
  ((1 <= j)%nat -> prevChar2 = b !! (j - 1)%nat) ->
  negb (i =? 0)%nat && negb (j =? 0)%nat
  && bool_decide (a !! i = prevChar2) && bool_decide (prevChar1 = b !! j)
  = swapped a b i j.
Proof.
  intros H1 H2. destruct i as [|i]; [reflexivity|].
  destruct j as [|j]; [reflexivity|].
  rewrite H1, H2 by lia. simpl. by rewrite !Nat.sub_0_r.
Qed.

(** The three-way minimum of the code. *)
Lemma code_min (diag above left : Z) :
  js_succ (if js_lt (Some left)
                (if js_lt (Some above) (Some diag) then Some above else Some diag)
           then Some left
           else if js_lt (Some above) (Some diag) then Some above else Some diag)
  = Some (1 + Z.min (Z.min diag above) left).
Proof.
  simpl. destruct (above <? diag) eqn:H1;
    [apply Z.ltb_lt in H1|apply Z.ltb_ge in H1]; simpl.
  - destruct (left <? above) eqn:H2;
      [apply Z.ltb_lt in H2|apply Z.ltb_ge in H2]; simpl; f_equal; lia.
  - destruct (left <? diag) eqn:H2;
      [apply Z.ltb_lt in H2|apply Z.ltb_ge in H2]; simpl; f_equal; lia.
Qed.

Lemma code_trans (t c : Z) :
  (if true && js_lt (js_succ (Some t)) (Some c) then js_succ (Some t) else Some c)
  = Some (Z.min c (t + 1)).
Proof.
  unfold js_lt, js_succ. cbn [andb fmap option_fmap option_map].
  destruct (Z.succ t <? c) eqn:Hlt; [apply Z.ltb_lt in Hlt|apply Z.ltb_ge in Hlt];
    f_equal; lia.
Qed.

Lemma min3_plus (x y z k : Z) :
  1 + Z.min (Z.min x y) z + k = Z.min (Z.min (x + 1 + k) (y + 1 + k)) (z + 1 + k).
Proof. lia. Qed.

(** A cell inside the window: from the three neighbours, and the cell two
    rows and two columns back when the characters are swapped. *)
Lemma cellCost_approx (i j : nat) (diag above left : Z) (trans : option Z)
    (prevChar1 prevChar2 : option N) :
  approx diag i j -> approx above (S i) j -> approx left i (S j) ->
  ((1 <= i)%nat -> prevChar1 = a !! (i - 1)%nat) ->
  ((1 <= j)%nat -> prevChar2 = b !! (j - 1)%nat) ->
  (swapped a b i j = true -> approxAt trans (i - 1) (j - 1)) ->
  approxAt (cellCost (a !! i) (b !! j) prevChar1 prevChar2 i j
              (Some diag) (Some above) (Some left) trans) (S i) (S j).
Proof.
  intros Hd Ha Hl Hp1 Hp2 Ht.
  unfold cellCost. destruct (decide (a !! i = b !! j)) as [Heq|Hne].
  - exists diag. split; [reflexivity|]. destruct Hd as [Hd0 Hd]. split; [exact Hd0|].
    rewrite (osa_dp_equal a b i j Heq), remaining_diag. exact Hd.
  - cbv zeta. rewrite (guard_swapped i j prevChar1 prevChar2 Hp1 Hp2), code_min.
    pose proof (osa_dp_differ a b i j Hne) as HD. cbv zeta in HD.
    pose proof (through_diag _ _ _ Hd) as Td.
    pose proof (through_above _ _ _ Ha) as Ta.
    pose proof (through_left _ _ _ Hl) as Tl.
    pose proof (cap_min _ _ _ _ _ (cap_min _ _ _ _ _ Td Ta) Tl) as Tmin.
    rewrite <- !min3_plus in Tmin.
    destruct Hd as [Hd0 _], Ha as [Ha0 _], Hl as [Hl0 _].
    destruct (swapped a b i j) eqn:Hsw.
    + destruct (Ht eq_refl) as (t & -> & Htr).
      assert (Hij : (1 <= i)%nat /\ (1 <= j)%nat).
      { destruct i, j; simpl in Hsw; try discriminate. lia. }
      pose proof (through_trans _ _ _ (proj1 Hij) (proj2 Hij) Htr) as Tt.
      pose proof (cap_min _ _ _ _ _ Tmin Tt) as Tall.
      destruct Htr as [Ht0 _].
      rewrite code_trans. eexists. split; [reflexivity|].
      split; [clear -Hd0 Ha0 Hl0 Ht0; lia|]. rewrite HD.
      rewrite <- !Z.add_min_distr_r. exact Tall.
    + cbn [andb]. eexists. split; [reflexivity|].
      split; [clear -Hd0 Ha0 Hl0; lia|].
      rewrite HD. exact Tmin.
Qed.

(** The first cell of a row whose window starts at column 0. *)
Lemma cellCost_first_column (i : nat) (left : Z) (trans : option Z)
    (prevChar1 prevChar2 : option N) :
  approx left i 1 ->
  approxAt (cellCost (a !! i) (b !! 0%nat) prevChar1 prevChar2 i 0
              (Some (Z.of_nat i)) (Some (Z.of_nat i)) (Some left) trans) (S i) 1.
Proof.
  intros Hl.
  assert (Hd : approx (Z.of_nat i) i 0).
  { pose proof (osa_dp_0_r a b i) as H0. pose proof (approx_exact i 0) as He.
    by rewrite H0 in He. }
  unfold cellCost. destruct (decide (a !! i = b !! 0%nat)) as [Heq|Hne].
  - exists (Z.of_nat i). split; [reflexivity|]. destruct Hd as [Hd0 Hd]. split; [exact Hd0|].
    rewrite (osa_dp_equal a b i 0 Heq), remaining_diag. exact Hd.
  - cbv zeta. rewrite Nat.eqb_refl, andb_false_r. cbn [andb]. rewrite code_min.
    pose proof (osa_dp_differ a b i 0 Hne) as HD. cbv zeta in HD.
    replace (swapped a b i 0) with false in HD by (by destruct i).
    pose proof (through_diag _ _ _ Hd) as Td.
    pose proof (through_left _ _ _ Hl) as Tl.
    pose proof (osa_dp_0_r a b i) as H0. pose proof (osa_dp_0_r a b (S i)) as H1.
    destruct Hl as [Hl0 _].
    eexists. split; [reflexivity|]. split; [clear -Hl0; lia|].
    rewrite HD, H0, H1.
    rewrite H0 in Td.
    replace (Z.min (Z.min (Z.of_nat i) (Z.of_nat i)) left)
      with (Z.min (Z.of_nat i) left) by lia.
    replace (Z.min (Z.min (Z.of_nat i) (Z.of_nat (S i))) (D i 1))
      with (Z.min (Z.of_nat i) (D i 1)) by lia.
    pose proof (cap_min _ _ _ _ _ Td Tl) as Tmin.
    rewrite !Z.add_min_distr_r in Tmin.
    replace (1 + Z.min (Z.of_nat i) left + R (S i) 1)
      with (Z.min (Z.of_nat i) left + 1 + R (S i) 1) by ring.
    replace (1 + Z.min (Z.of_nat i) (D i 1) + R (S i) 1)
      with (Z.min (Z.of_nat i) (D i 1) + 1 + R (S i) 1) by ring.
    exact Tmin.
Qed.

(** The first cell of a row whose window starts further right, on the
    lowest diagonal of the band: the code reads stand-ins for its
    neighbours, and all that matters of its value is that it is not 0. *)
Lemma cellCost_boundary (i jS : nat) (left : Z) (prevChar1 prevChar2 : option N) :
  (1 <= i)%nat -> (1 <= jS)%nat ->
  lenDiff + Z.of_nat i - Z.of_nat jS = M -> 0 <= M ->
  0 <= left ->
  a !! 0%nat <> b !! 0%nat ->
  approxAt (cellCost (a !! i) (b !! jS) prevChar1 prevChar2 i jS
              (Some (Z.of_nat i)) (Some (Z.of_nat i)) (Some left) (Some 0)) (S i) (S jS).
Proof.
  intros Hi Hj HM HM0 Hl Hfirst.
  pose proof (osa_dp_positive a b (S i) (S jS) Hfirst ltac:(lia) ltac:(lia)) as HD.
  assert (HR : R (S i) (S jS) = M).
  { unfold remaining. replace (lenDiff + Z.of_nat (S i) - Z.of_nat (S jS)) with M by lia. lia. }
  assert (Hv : exists v, cellCost (a !! i) (b !! jS) prevChar1 prevChar2 i jS
                           (Some (Z.of_nat i)) (Some (Z.of_nat i)) (Some left) (Some 0)
                         = Some v /\ 1 <= v).
  { unfold cellCost. destruct (decide (a !! i = b !! jS)).
    - eexists. split; [reflexivity|lia].
    - cbv zeta. rewrite code_min.
      destruct (_ && _); eexists; (split; [reflexivity|]); simpl; lia. }
  destruct Hv as (v & -> & Hv). exists v. split; [reflexivity|]. split; [lia|].
  rewrite HR. lia.
Qed.

End Cell.

(** ** One row *)

Section Row.

Variables (string1 string2 : jsstring) (start : nat) (lenDiff M : Z).

Local Abbreviation a := (drop start string1).
Local Abbreviation b := (drop start string2).
Local Abbreviation approx := (approx a b lenDiff M).
Local Abbreviation approxAt := (approxAt a b lenDiff M).

Hypothesis M_nonneg : 0 <= M.

(** The stand-in [i] that a row reads for the cell left of its window. *)
Lemma approx_row_start (i jS : nat) :
  jS = O \/ ((1 <= jS)%nat /\ (1 <= i)%nat /\
             lenDiff + Z.of_nat i - Z.of_nat jS = M /\ a !! 0%nat <> b !! 0%nat) ->
  approxAt (Some (Z.of_nat i)) i jS.
Proof.
  intros [->|(HjS & Hi & HM & Hfirst)]; exists (Z.of_nat i); (split; [reflexivity|]).
  - pose proof (osa_dp_0_r a b i) as H0. pose proof (approx_exact a b lenDiff M i 0) as He.
    by rewrite H0 in He.
  - pose proof (osa_dp_positive a b i jS Hfirst Hi HjS) as HD.
    split; [lia|]. unfold remaining. rewrite HM. lia.
Qed.

(** The first column of the window. *)
Lemma innerBody_first (i jS jE : nat) (old : OuterState) (cur : option Z)
    (prevChar1 : option N) :
  rowPre a b lenDiff M i jS jE old ->
  (jS < jE)%nat ->
  innerInv a b lenDiff M i jS jE old (S jS)
    (innerBody string2 start i (a !! i) prevChar1
       (mkInner (Some 0) cur (Some (Z.of_nat i)) (Some (Z.of_nat i)) (Some SPACE)
                (o_char1Costs old) (o_prevChar1Costs old)) jS).
Proof.
  intros Hpre HjE. rewrite innerBody_eq. cbn [leftCharCost aboveCharCost char2 nextTransCost
    char1Costs prevChar1Costs]. cbv zeta.
  rewrite <- (lookup_drop string2 start jS).
  destruct (pre_costs _ _ _ _ _ _ _ _ Hpre jS ltac:(lia)) as (left & Hleft & Hl).
  rewrite Hleft.
  assert (Hv : approxAt (cellCost (a !! i) (b !! jS) prevChar1 (Some SPACE) i jS
                           (Some (Z.of_nat i)) (Some (Z.of_nat i)) (Some left) (Some 0))
                        (S i) (S jS)).
  { destruct (pre_first _ _ _ _ _ _ _ _ Hpre) as [->|(HjS & Hi & HM & Hfirst)].
    - by apply cellCost_first_column.
    - apply cellCost_boundary; try done. by destruct Hl. }
  set (v := cellCost _ _ _ _ _ _ _ _ _ _) in *.
  constructor; cbn [leftCharCost aboveCharCost char2 nextTransCost currentCost
                    char1Costs prevChar1Costs].
  - by exists left.
  - exact Hv.
  - reflexivity.
  - replace (S jS - 1)%nat with jS by lia. by rewrite arrGet_arrSet_eq.
  - by replace (S jS - 1)%nat with jS by lia.
  - intros Hi HjE'. replace (S jS - 1)%nat with jS by lia.
    by apply (pre_prev _ _ _ _ _ _ _ _ Hpre).
  - intros c Hc. replace c with jS by lia. by rewrite arrGet_arrSet_eq.
  - intros c Hc. rewrite arrGet_arrSet_ne by lia. reflexivity.
  - intros c Hc. replace c with jS by lia. rewrite arrGet_arrSet_eq.
    apply approx_row_start. apply (pre_first _ _ _ _ _ _ _ _ Hpre).
  - intros c Hc. rewrite arrGet_arrSet_ne by lia. reflexivity.
Qed.

(** A further column. *)
Lemma innerBody_step (i jS jE : nat) (old : OuterState) (prevChar1 : option N)
    (j : nat) (st : InnerState) :
  rowPre a b lenDiff M i jS jE old ->
  ((1 <= i)%nat -> prevChar1 = a !! (i - 1)%nat) ->
  (jS < j < jE)%nat ->
  innerInv a b lenDiff M i jS jE old j st ->
  innerInv a b lenDiff M i jS jE old (S j)
    (innerBody string2 start i (a !! i) prevChar1 st j).
Proof.
  intros Hpre Hp1 Hj Hinv. rewrite innerBody_eq. cbv zeta.
  rewrite <- (lookup_drop string2 start j).
  destruct (inv_left _ _ _ _ _ _ _ _ _ _ Hinv) as (diag & Hdiag & Hd).
  destruct (inv_above _ _ _ _ _ _ _ _ _ _ Hinv) as (above & Habove & Ha).
  assert (Hold : arrGet (char1Costs st) j = arrGet (o_char1Costs old) j).
  { apply (inv_costs_old _ _ _ _ _ _ _ _ _ _ Hinv). lia. }
  destruct (pre_costs _ _ _ _ _ _ _ _ Hpre j ltac:(lia)) as (left & Hleft & Hl).
  rewrite <- Hold in Hleft.
  assert (Hv : approxAt (cellCost (a !! i) (b !! j) prevChar1 (char2 st) i j
                           (leftCharCost st) (aboveCharCost st) (arrGet (char1Costs st) j)
                           (nextTransCost st)) (S i) (S j)).
  { rewrite Hdiag, Habove, Hleft. apply cellCost_approx; try done.
    - intros _. apply (inv_char2 _ _ _ _ _ _ _ _ _ _ Hinv).
    - intros Hsw. apply (inv_trans _ _ _ _ _ _ _ _ _ _ Hinv); [|lia].
      destruct i; [discriminate|lia]. }
  set (v := cellCost _ _ _ _ _ _ _ _ _ _) in *.
  constructor; cbn [leftCharCost aboveCharCost char2 nextTransCost currentCost
                    char1Costs prevChar1Costs].
  - by exists left.
  - exact Hv.
  - reflexivity.
  - replace (S j - 1)%nat with j by lia. by rewrite arrGet_arrSet_eq.
  - by replace (S j - 1)%nat with j by lia.
  - intros Hi HjE'. replace (S j - 1)%nat with j by lia.
    rewrite (inv_prev_old _ _ _ _ _ _ _ _ _ _ Hinv) by lia.
    apply (pre_prev _ _ _ _ _ _ _ _ Hpre); lia.
  - intros c Hc. destruct (decide (c = j)) as [->|Hne].
    + by rewrite arrGet_arrSet_eq.
    + rewrite arrGet_arrSet_ne by done.
      apply (inv_costs_new _ _ _ _ _ _ _ _ _ _ Hinv). lia.
  - intros c Hc. rewrite arrGet_arrSet_ne by lia.
    apply (inv_costs_old _ _ _ _ _ _ _ _ _ _ Hinv). lia.
  - intros c Hc. destruct (decide (c = j)) as [->|Hne].
    + rewrite arrGet_arrSet_eq. rewrite Hdiag. by exists diag.
    + rewrite arrGet_arrSet_ne by done.
      apply (inv_prev_new _ _ _ _ _ _ _ _ _ _ Hinv). lia.
  - intros c Hc. rewrite arrGet_arrSet_ne by lia.
    apply (inv_prev_old _ _ _ _ _ _ _ _ _ _ Hinv). lia.
Qed.

(** The columns after the first. *)
Lemma innerLoop_spec (i jS jE : nat) (old : OuterState) (prevChar1 : option N) (n : nat) :
  rowPre a b lenDiff M i jS jE old ->
  ((1 <= i)%nat -> prevChar1 = a !! (i - 1)%nat) ->
  forall (j : nat) (st : InnerState),
    (jS < j)%nat -> (j + n <= jE)%nat ->
    innerInv a b lenDiff M i jS jE old j st ->
    innerInv a b lenDiff M i jS jE old (j + n)
      (fold_left (innerBody string2 start i (a !! i) prevChar1) (seq j n) st).
Proof.
  intros Hpre Hp1. induction n as [|n IH]; intros j st Hj HjE Hinv; simpl.
  - by rewrite Nat.add_0_r.
  - replace (j + S n)%nat with (S j + n)%nat by lia.
    apply IH; [lia|lia|]. apply innerBody_step; auto. lia.
Qed.

(** A whole row over the window [jS .. jS + n - 1]. *)
Lemma runRow_spec (i jS n : nat) (old : OuterState) :
  (1 <= n)%nat ->
  rowPre a b lenDiff M i jS (jS + n) old ->
  rowPost a b lenDiff M i jS (jS + n) old
    (runRow string1 string2 start i (seq jS n) old).
Proof.
  intros Hn Hpre. unfold runRow. cbv zeta.
  rewrite <- (lookup_drop string1 start i).
  destruct n as [|n]; [lia|]. cbn [seq fold_left].
  pose proof (innerBody_first i jS (jS + S n) old (o_currentCost old) (o_char1 old)
                Hpre ltac:(lia)) as Hfirst.
  pose proof (innerLoop_spec i jS (jS + S n) old (o_char1 old) n Hpre
                (pre_char1 _ _ _ _ _ _ _ _ Hpre) (S jS) _ ltac:(lia) ltac:(lia) Hfirst)
    as Hinv.
  replace (S jS + n)%nat with (jS + S n)%nat in Hinv by lia.
  set (fin := fold_left _ _ _) in *.
  constructor; cbn [o_char1 o_currentCost o_char1Costs o_prevChar1Costs].
  - apply (inv_costs_new _ _ _ _ _ _ _ _ _ _ Hinv).
  - apply (inv_costs_old _ _ _ _ _ _ _ _ _ _ Hinv).
  - apply (inv_prev_new _ _ _ _ _ _ _ _ _ _ Hinv).
  - rewrite (inv_current _ _ _ _ _ _ _ _ _ _ Hinv).
    apply (inv_above_cell _ _ _ _ _ _ _ _ _ _ Hinv).
  - reflexivity.
Qed.

End Row.

(** ** The rows of [_distance] *)

Section Unbanded.

Variables (string1 string2 : jsstring) (start len1 len2 : nat).

Local Abbreviation a := (drop start string1).
Local Abbreviation b := (drop start string2).
Local Abbreviation lenDiff := (Z.of_nat len2 - Z.of_nat len1).
Local Abbreviation M := (Z.of_nat len2).
Local Abbreviation approxAt := (approxAt a b lenDiff M).

Hypothesis len2_pos : (1 <= len2)%nat.

Local Abbreviation rowsInv := (fullInv a b len1 len2).

Lemma fullInv_row (i : nat) (st : OuterState) :
  rowsInv i st ->
  rowsInv (S i) (runRow string1 string2 start i (seq 0 len2) st).
Proof.
  unfold fullInv. cbv zeta. intros (Hcosts & Hprev & Hchar & Hcur).
  assert (Hpre : rowPre a b lenDiff M i 0 (0 + len2) st).
  { constructor.
    - by left.
    - intros c Hc. apply Hcosts. lia.
    - intros Hi c _ Hc. apply Hprev; [done|lia].
    - exact Hchar. }
  pose proof (runRow_spec string1 string2 start lenDiff M ltac:(lia) i 0 len2 st
                len2_pos Hpre) as Hpost.
  repeat split.
  - intros c Hc. apply (post_costs _ _ _ _ _ _ _ _ _ Hpost). lia.
  - intros _ c Hc. replace (S i - 1)%nat with i by lia.
    apply (post_prev _ _ _ _ _ _ _ _ _ Hpost). lia.
  - intros _. replace (S i - 1)%nat with i by lia.
    apply (post_char1 _ _ _ _ _ _ _ _ _ Hpost).
  - intros _. apply (post_current _ _ _ _ _ _ _ _ _ Hpost).
Qed.

Lemma fullInv_rows (n : nat) :
  forall (i : nat) (st : OuterState),
    rowsInv i st ->
    rowsInv (i + n)
      (fold_left (fun st i => runRow string1 string2 start i (seq 0 len2) st) (seq i n) st).
Proof.
  induction n as [|n IH]; intros i st Hinv; simpl.
  - by rewrite Nat.add_0_r.
  - replace (i + S n)%nat with (S i + n)%nat by lia.
    apply IH. by apply fullInv_row.
Qed.

(** [_distance] returns the cell [(len1, len2)] of the reference matrix. *)
Lemma _distance_spec (prevChar1Costs : jsarray) :
  (1 <= len1 <= len2)%nat ->
  fst (_distance string1 string2 len1 len2 start prevChar1Costs)
  = Some (osa_dp a b len1 len2).
Proof.
  intros Hlen. unfold _distance. cbv zeta. cbn [fst].
  set (init := mkOuter _ _ _ _).
  assert (Hinit : rowsInv 0 init).
  { repeat split; try (intros; lia).
    intros c Hc. unfold init. cbn [o_char1Costs].
    rewrite (arrGet_fill (fun j => Some (Z.of_nat j + 1))).
    destruct (decide _) as [_|]; [|lia].
    eexists; split; [reflexivity|].
    pose proof (approx_exact a b lenDiff M 0 (S c)) as He.
    pose proof (osa_dp_0_l a b (S c)) as H0. rewrite H0 in He.
    by replace (Z.of_nat c + 1) with (Z.of_nat (S c)) by lia. }
  pose proof (fullInv_rows len1 0 init Hinit) as (Hcosts & _ & _ & Hcur).
  cbn [Nat.add] in *. rewrite Hcur by lia.
  destruct (Hcosts (len2 - 1)%nat ltac:(lia)) as (v & -> & Hv0 & Hv).
  replace (S (len2 - 1)) with len2 in Hv by lia.
  f_equal. unfold remaining in Hv.
  pose proof (osa_dp_upper a b len1 len2). pose proof (osa_dp_nonneg a b len1 len2).
  replace (lenDiff + Z.of_nat len1 - Z.of_nat len2) with 0 in Hv by lia.
  change (Z.abs 0) with 0 in Hv. lia.
Qed.

End Unbanded.

(** ** The rows of [_distanceMax] *)

Section Banded.

Variables (string1 string2 : jsstring) (start len1 len2 : nat) (M : Z).

Local Abbreviation a := (drop start string1).
Local Abbreviation b := (drop start string2).
Local Abbreviation lenDiff := (Z.of_nat len2 - Z.of_nat len1).
Local Abbreviation approxAt := (approxAt a b lenDiff M).
Local Abbreviation windowInv := (bandInv a b len1 len2 M).

Hypothesis lengths : (1 <= len1 <= len2)%nat.
Hypothesis M_pos : 0 < M.
Hypothesis M_diff : lenDiff <= M.
Hypothesis M_short : M < Z.of_nat len2.
Hypothesis first_differ : a !! 0%nat <> b !! 0%nat.

(** A cell on the final diagonal holds the reference value, if that is at
    most [M], and a value above [M] otherwise. *)
Lemma approx_final (v : Z) (i : nat) :
  approx a b lenDiff M v i (i + (len2 - len1)) ->
  (v <=? M) = (osa_dp a b i (i + (len2 - len1)) <=? M) /\
  (v <= M -> v = osa_dp a b i (i + (len2 - len1))).
Proof.
  intros (Hv0 & Hv). unfold remaining in Hv.
  replace (lenDiff + Z.of_nat i - Z.of_nat (i + (len2 - len1))) with 0 in Hv by lia.
  change (Z.abs 0) with 0 in Hv.
  pose proof (osa_dp_nonneg a b i (i + (len2 - len1))).
  split; [|lia].
  destruct (Z.leb_spec v M), (Z.leb_spec (osa_dp a b i (i + (len2 - len1))) M);
    try reflexivity; lia.
Qed.

(** One row of the band, and the state it leaves for the next. *)
Lemma windowInv_row (i jStart : nat) (jEnd : Z) (st : OuterState) :
  (i < len1)%nat ->
  windowInv i jStart jEnd st ->
  let jStart' := (jStart + (if Z.of_nat i >? M - lenDiff then 1 else 0))%nat in
  let jEnd' := jEnd + (if jEnd <? Z.of_nat len2 then 1 else 0) in
  let st' := runRow string1 string2 start i
               (seq jStart' (Z.to_nat (jEnd' - Z.of_nat jStart'))) st in
  windowInv (S i) jStart' jEnd' st' /\
  approxAt (arrGet (o_char1Costs st') (i + (len2 - len1))) (S i) (S i + (len2 - len1)).
Proof.
  intros Hi. unfold bandInv. cbv zeta.
  intros (HjS & HjE & Hcosts & Hright & Hprev & Hchar & Hcur).
  set (jS := (jStart + _)%nat). set (jE := jEnd + _).
  assert (HjS' : jS = Z.to_nat (Z.of_nat (S i) - 1 - (M - lenDiff))).
  { unfold jS. destruct (Z.gtb_spec (Z.of_nat i) (M - lenDiff)); lia. }
  assert (HjE' : jE = Z.min (Z.of_nat len2) (M + Z.of_nat (S i))).
  { unfold jE. destruct (Z.ltb_spec jEnd (Z.of_nat len2)); lia. }
  assert (Hwin : exists n, Z.to_nat (jE - Z.of_nat jS) = n /\ (1 <= n)%nat /\
                           Z.of_nat (jS + n) = jE).
  { eexists; split; [reflexivity|]. lia. }
  destruct Hwin as (n & -> & Hn & HjEn).
  assert (Hpre : rowPre a b lenDiff M i jS (jS + n) st).
  { constructor.
    - destruct (decide (jS = O)) as [|Hne]; [by left|right].
      repeat split; [lia|lia|lia|exact first_differ].
    - intros c Hc. destruct (Z.lt_ge_cases (Z.of_nat c) jEnd) as [Hlt|Hge].
      + apply Hcosts; lia.
      + rewrite Hright by lia. eexists; split; [reflexivity|].
        pose proof (osa_dp_lower a b i (S c)) as Hlow.
        split; [lia|]. unfold remaining. lia.
    - intros Hi1 c Hc1 Hc2. apply Hprev; [done|lia|lia].
    - exact Hchar. }
  pose proof (runRow_spec string1 string2 start lenDiff M ltac:(lia) i jS n st Hn Hpre)
    as Hpost.
  split; [repeat split|].
  - exact HjS'.
  - exact HjE'.
  - intros c Hc1 Hc2. apply (post_costs _ _ _ _ _ _ _ _ _ Hpost). lia.
  - intros c Hc1 Hc2. rewrite (post_costs_old _ _ _ _ _ _ _ _ _ Hpost) by lia.
    apply Hright; lia.
  - intros _ c Hc1 Hc2. replace (S i - 1)%nat with i by lia.
    apply (post_prev _ _ _ _ _ _ _ _ _ Hpost). lia.
  - intros _. replace (S i - 1)%nat with i by lia.
    apply (post_char1 _ _ _ _ _ _ _ _ _ Hpost).
  - intros _. rewrite (post_current _ _ _ _ _ _ _ _ _ Hpost). f_equal. lia.
  - replace (S i + (len2 - len1))%nat with (S (i + (len2 - len1))) by lia.
    apply (post_costs _ _ _ _ _ _ _ _ _ Hpost). lia.
Qed.

(** The rows from [i] on give the banded result. *)
Lemma distanceMaxRows_spec (n : nat) :
  forall (i jStart : nat) (jEnd : Z) (st : OuterState),
    (i + n = len1)%nat ->
    windowInv i jStart jEnd st ->
    fst (distanceMaxRows string1 string2 len1 len2 start M n i jStart jEnd st)
    = Some (if osa_dp a b len1 len2 <=? M then osa_dp a b len1 len2 else -1).
Proof.
  induction n as [|n IH]; intros i jStart jEnd st Hin Hinv.
  - cbn [distanceMaxRows fst].
    destruct Hinv as (HjS & HjE & Hcosts & _ & _ & _ & Hcur).
    rewrite Hcur by lia.
    destruct (Hcosts (Z.to_nat jEnd - 1)%nat ltac:(lia) ltac:(lia)) as (v & -> & Hv).
    replace (S (Z.to_nat jEnd - 1)) with (i + (len2 - len1))%nat in Hv by lia.
    destruct (approx_final v i Hv) as (Hle & Heq).
    replace (i + (len2 - len1))%nat with len2 in * by lia.
    replace i with len1 in * by lia.
    cbn [js_le]. rewrite <- Hle.
    destruct (Z.leb_spec v M); [by rewrite Heq|reflexivity].
  - cbn [distanceMaxRows]. cbv zeta.
    destruct (windowInv_row i jStart jEnd st ltac:(lia) Hinv) as (Hnext & Hcell).
    cbv zeta in Hnext, Hcell.
    set (jS := (jStart + _)%nat) in *. set (jE := jEnd + _) in *.
    set (st' := runRow _ _ _ _ _ _) in *.
    unfold arrGetZ. destruct (Z.ltb_spec (Z.of_nat i + lenDiff) 0) as [|_]; [lia|].
    replace (Z.to_nat (Z.of_nat i + lenDiff)) with (i + (len2 - len1))%nat by lia.
    destruct Hcell as (v & -> & Hv).
    destruct (approx_final v (S i) Hv) as (Hle & Heq).
    unfold js_gt. cbn [js_lt].
    destruct (Z.ltb_spec M v) as [Hgt|Hok].
    + cbn [fst].
      pose proof (osa_dp_diag_mono_n a b n (S i) (S i + (len2 - len1))) as Hmono.
      replace (S i + n)%nat with len1 in Hmono by lia.
      replace (S i + (len2 - len1) + n)%nat with len2 in Hmono by lia.
      destruct (Z.leb_spec v M); [lia|].
      destruct (Z.leb_spec (osa_dp a b (S i) (S i + (len2 - len1))) M); [discriminate|].
      destruct (Z.leb_spec (osa_dp a b len1 len2) M); [lia|reflexivity].
    + apply IH; [lia|exact Hnext].
Qed.

(** [_distanceMax] returns the cell [(len1, len2)] of the reference matrix
    if it is at most [M], and [-1] otherwise. *)
Lemma _distanceMax_spec (prevChar1Costs : jsarray) :
  fst (_distanceMax string1 string2 len1 len2 start M prevChar1Costs)
  = Some (if osa_dp a b len1 len2 <=? M then osa_dp a b len1 len2 else -1).
Proof.
  unfold _distanceMax. cbv zeta.
  apply distanceMaxRows_spec; [lia|].
  unfold bandInv. cbv zeta. cbn [o_char1Costs o_prevChar1Costs o_char1 o_currentCost].
  assert (Hfill : forall c, (c < len2)%nat ->
            arrGet (fold_left
                      (fun a j => if Z.of_nat j <? M then arrSet a j (Some (Z.of_nat j + 1))
                                  else arrSet a j (Some (M + 1)))
                      (seq 0 len2) (newArray 0)) c
            = Some (if Z.of_nat c <? M then Z.of_nat c + 1 else M + 1)).
  { intros c Hc.
    rewrite (fold_left_ext_in _
               (fun a j => arrSet a j (Some (if Z.of_nat j <? M then Z.of_nat j + 1 else M + 1)))).
    - rewrite (arrGet_fill (fun j => Some (if Z.of_nat j <? M then Z.of_nat j + 1 else M + 1))).
      destruct (decide _); [reflexivity|lia].
    - intros x y _. by destruct (Z.of_nat y <? M). }
  repeat split; try (intros; lia).
  - intros c _ Hc. rewrite Hfill by lia.
    destruct (Z.ltb_spec (Z.of_nat c) M); [|lia].
    eexists; split; [reflexivity|].
    pose proof (approx_exact a b lenDiff M 0 (S c)) as He.
    pose proof (osa_dp_0_l a b (S c)) as H0. rewrite H0 in He.
    by replace (Z.of_nat c + 1) with (Z.of_nat (S c)) by lia.
  - intros c Hc1 Hc2. rewrite Hfill by lia.
    destruct (Z.ltb_spec (Z.of_nat c) M); [lia|reflexivity].
Qed.

End Banded.

(** ** [distance] *)

Lemma MAX_SAFE_INTEGER_pos : 0 < MAX_SAFE_INTEGER.
Proof. reflexivity. Qed.

(** With the shorter string first. *)
Lemma distance_ordered (this : EditDistance) (s1 s2 : jsstring) (m : Z) :
  0 < m ->
  (length s1 <= length s2)%nat ->
  fst (if Z.of_nat (length s2) - Z.of_nat (length s1) >? m then (Some (-1), this)
       else
         let '(len1, len2, start) := prefixSuffixPrep s1 s2 in
         if (len1 =? 0)%nat then
           ((if Z.of_nat len2 <=? m then Some (Z.of_nat len2) else Some (-1)), this)
         else
           let this :=
             if (arrLength (baseChar1Costs this) <? len2)%nat
             then mkEditDistance (newArray len2) (newArray len2)
             else this in
           if m <? Z.of_nat len2 then
             let '(r, prev) :=
               _distanceMax s1 s2 len1 len2 start m (basePrevChar1Costs this) in
             (r, mkEditDistance (baseChar1Costs this) prev)
           else
             let '(r, prev) := _distance s1 s2 len1 len2 start (basePrevChar1Costs this) in
             (r, mkEditDistance (baseChar1Costs this) prev))
  = Some (if osa_ref s1 s2 <=? m then osa_ref s1 s2 else -1).
Proof.
  intros Hm Hlen.
  pose proof (osa_dp_lower s1 s2 (length s1) (length s2)) as Hlow.
  fold (osa_ref s1 s2) in Hlow.
  destruct (Z.gtb_spec (Z.of_nat (length s2) - Z.of_nat (length s1)) m) as [Hfar|Hnear].
  { cbn [fst]. destruct (Z.leb_spec (osa_ref s1 s2) m); [lia|reflexivity]. }
  pose proof (prefixSuffixPrep_spec s1 s2 Hlen) as Hprep.
  destruct (prefixSuffixPrep s1 s2) as [[len1 len2] start].
  destruct Hprep as (H1 & H2 & H12 & Hdiff & -> & Hfirst).
  destruct (Nat.eqb_spec len1 0) as [->|Hpos].
  { cbn [fst]. pose proof (osa_dp_0_l (drop start s1) (drop start s2) len2) as H0.
    rewrite H0. by destruct (Z.of_nat len2 <=? m). }
  set (this' := if (arrLength (baseChar1Costs this) <? len2)%nat then _ else _).
  cbv zeta.
  destruct (Z.ltb_spec m (Z.of_nat len2)) as [Hband|Hfull].
  - pose proof (_distanceMax_spec s1 s2 start len1 len2 m ltac:(lia) Hm ltac:(lia) Hband
                  (Hfirst ltac:(lia)) (basePrevChar1Costs this')) as Hspec.
    destruct (_distanceMax _ _ _ _ _ _ _) as [r prev]. exact Hspec.
  - pose proof (_distance_spec s1 s2 start len1 len2 ltac:(lia)
                  (basePrevChar1Costs this') ltac:(lia)) as Hspec.
    destruct (_distance _ _ _ _ _ _) as [r prev]. cbn [fst] in *. rewrite Hspec.
    pose proof (osa_dp_upper (drop start s1) (drop start s2) len1 len2).
    destruct (Z.leb_spec (osa_dp (drop start s1) (drop start s2) len1 len2) m);
      [reflexivity|lia].
Qed.

(** The result of [distance] for a positive bound: the reference distance if
    it is at most the bound (cut at [Number.MAX_SAFE_INTEGER]), [-1]
    otherwise; whatever the buffers of the object hold. *)
Lemma distance_spec (this : EditDistance) (s1 s2 : jsstring) (k : Z) :
  0 < k ->
  fst (EditDistance_distance this (Some s1) (Some s2) k)
  = Some (if osa_ref s1 s2 <=? Z.min k MAX_SAFE_INTEGER then osa_ref s1 s2 else -1).
Proof.
  intros Hk. unfold EditDistance_distance.
  destruct (Z.leb_spec k 0) as [|_]; [lia|]. cbv zeta.
  pose proof MAX_SAFE_INTEGER_pos as HM.
  assert (Hmin : (if k <=? MAX_SAFE_INTEGER then k else MAX_SAFE_INTEGER)
                 = Z.min k MAX_SAFE_INTEGER).
  { destruct (Z.leb_spec k MAX_SAFE_INTEGER); lia. }
  rewrite Hmin. set (m := Z.min k MAX_SAFE_INTEGER). assert (Hm : 0 < m) by lia.
  destruct (Nat.ltb_spec (length s2) (length s1)) as [Hswap|Hkeep].
  - rewrite (osa_ref_sym s1 s2). apply distance_ordered; [done|lia].
  - by apply distance_ordered.
Qed.

(** The bound [0]: only equal strings are accepted. *)
Lemma distance_zero (this : EditDistance) (s1 s2 : jsstring) (k : Z) :
  k <= 0 ->
  fst (EditDistance_distance this (Some s1) (Some s2) k)
  = Some (if decide (s1 = s2) then 0 else -1).
Proof.
  intros Hk. unfold EditDistance_distance.
  destruct (Z.leb_spec k 0) as [_|]; [|lia]. cbn [fst].
  by destruct (decide (s1 = s2)).
Qed.

(** The reference distance is at most the length of the longer string. *)
Lemma osa_ref_upper (s1 s2 : jsstring) :
  osa_ref s1 s2 <= Z.max (Z.of_nat (length s1)) (Z.of_nat (length s2)).
Proof. apply osa_dp_upper. Qed.

(** C1: for strings [a] and [b] (of a length a JavaScript string can have)
    and an integer [maxDistance >= 0], [distance(a, b, maxDistance)] returns
    [0] when [a = b], the reference OSA distance whenever that is at most
    [maxDistance], and [-1] exactly when the reference distance exceeds
    [maxDistance]; so a non-negative result is the reference distance, on the
    banded and on the unbanded path alike, and whatever earlier calls left in
    the buffers of the object. *)
Theorem distance_agrees_with_reference (this : EditDistance) (a b : jsstring) (k : Z) :
  0 <= k ->
  Z.of_nat (length a) <= MAX_SAFE_INTEGER ->
  Z.of_nat (length b) <= MAX_SAFE_INTEGER ->
  let r := fst (EditDistance_distance this (Some a) (Some b) k) in
  (a = b -> r = Some 0) /\
  (osa_ref a b <= k -> r = Some (osa_ref a b)) /\
  (r = Some (-1) <-> k < osa_ref a b) /\
  (forall v, r = Some v -> 0 <= v -> v = osa_ref a b).
Proof.
  intros Hk Ha Hb. cbv zeta.
  pose proof (osa_ref_nonneg a b) as H0.
  pose proof (osa_ref_upper a b) as Hup.
  pose proof (osa_ref_zero_iff a b) as Hz.
  assert (Hr : fst (EditDistance_distance this (Some a) (Some b) k)
               = Some (if osa_ref a b <=? k then osa_ref a b else -1)).
  { destruct (Z.eq_dec k 0) as [->|Hne].
    - rewrite distance_zero by lia.
      destruct (decide (a = b)) as [Heq|Hneq].
      + apply Hz in Heq. by rewrite Heq.
      + destruct (Z.leb_spec (osa_ref a b) 0) as [Hle|]; [|reflexivity].
        exfalso. apply Hneq, Hz. lia.
    - rewrite distance_spec by lia.
      destruct (Z.leb_spec (osa_ref a b) (Z.min k MAX_SAFE_INTEGER)),
               (Z.leb_spec (osa_ref a b) k); try reflexivity; lia. }
  rewrite Hr. clear Hr.
  destruct (Z.leb_spec (osa_ref a b) k) as [Hle|Hgt].
  - split; [|split; [|split; [split|]]].
    + intros Heq. apply Hz in Heq. by rewrite Heq.
    + reflexivity.
    + intros [= ?]. lia.
    + lia.
    + by intros v [= <-] _.
  - split; [|split; [|split; [split|]]].
    + intros Heq. apply Hz in Heq. lia.
    + lia.
    + done.
    + reflexivity.
    + intros v [= <-] ?. lia.
Qed.

Lemma distance_agrees_with_reference_witness :
  let r := fst (EditDistance_distance newEditDistance (Some (js "steems")) (Some (js "steam")) 2)
  in
  (js "steems" = js "steam" -> r = Some 0) /\
  (osa_ref (js "steems") (js "steam") <= 2 -> r = Some (osa_ref (js "steems") (js "steam"))) /\
  (r = Some (-1) <-> 2 < osa_ref (js "steems") (js "steam")) /\
  (forall v, r = Some v -> 0 <= v -> v = osa_ref (js "steems") (js "steam")).
Proof.
  apply (distance_agrees_with_reference newEditDistance (js "steems") (js "steam") 2).
  - lia.
  - vm_compute. discriminate.
  - vm_compute. discriminate.
Defined.

(** The two paths on examples: "steam"/"steems" leaves the lengths 2 and 3
    after the common prefix, which a bound of 2 sends to [_distanceMax] and
    a bound of 3 to [_distance]; a second call on the same object reuses the
    buffers of the first. *)
Example distance_banded_example :
  fst (EditDistance_distance newEditDistance (Some (js "steems")) (Some (js "steam")) 2)
  = Some 2.
Proof. vm_compute. reflexivity. Qed.

Example distance_unbanded_example :
  fst (EditDistance_distance newEditDistance (Some (js "steems")) (Some (js "steam")) 3)
  = Some 2.
Proof. vm_compute. reflexivity. Qed.

Example distance_exceeded_example :
  fst (EditDistance_distance newEditDistance (Some (js "abcdefgh")) (Some (js "badcfehg")) 3)
  = Some (-1) /\
  osa_ref (js "abcdefgh") (js "badcfehg") = 4.
Proof. split; vm_compute; reflexivity. Qed.

Example distance_reused_example :
  let first := EditDistance_distance newEditDistance (Some (js "kitten")) (Some (js "sitting")) 5 in
  fst first = Some 3 /\
  fst (EditDistance_distance (snd first) (Some (js "ab")) (Some (js "ba")) 1) = Some 1.
Proof. cbv zeta. split; vm_compute; reflexivity. Qed.

(* ===================================================================== *)
(** * Part VI. [lookupCompound] and [wordSegmentation]                    *)
(* ===================================================================== *)

Section HostProperties.

Variable num : Type.
Variable num_of_Z : Z -> num.
Variables nadd nmul ndiv nmin nmax npow : num -> num -> num.
Variables nfloor nlog10 : num -> num.
Variable nlt : num -> num -> bool.
Variable nfalsy : num -> bool.
Variable parseWordsCase : jsstring -> bool -> list jsstring.
Variable isAcronym : jsstring -> bool.
Variable parseIntTruthy : jsstring -> bool.
Variable toLowerCase : jsstring -> jsstring.
Variable transferCasingSimilar : jsstring -> jsstring -> jsstring.

Local Abbreviation wordSegmentation :=
  (wordSegmentation num num_of_Z nadd ndiv npow nlog10 nlt nfalsy toLowerCase
     transferCasingSimilar).
Local Abbreviation segmentationLoop :=
  (segmentationLoop num num_of_Z nadd ndiv npow nlog10 nlt nfalsy toLowerCase
     transferCasingSimilar).
Local Abbreviation tokenBody :=
  (tokenBody num num_of_Z nadd nmul ndiv nmin nmax npow nfloor nlt toLowerCase
     transferCasingSimilar).
Local Abbreviation tokenLoop :=
  (tokenLoop num num_of_Z nadd nmul ndiv nmin nmax npow nfloor nlt isAcronym parseIntTruthy
     toLowerCase transferCasingSimilar).
Local Abbreviation compoundParts :=
  (compoundParts num num_of_Z nadd nmul ndiv nmin nmax npow nfloor nlt parseWordsCase
     isAcronym parseIntTruthy toLowerCase transferCasingSimilar).
Local Abbreviation lookupCompound :=
  (lookupCompound num num_of_Z nadd nmul ndiv nmin nmax npow nfloor nlt parseWordsCase
     isAcronym parseIntTruthy toLowerCase transferCasingSimilar).
Local Abbreviation productCount := (productCount num num_of_Z nmul ndiv).
Local Abbreviation joinParts := (joinParts num).

(** ** [wordSegmentation] *)

(** C9: for the empty input, and a maximum word length that is not negative
    (as the one of the dictionary is), the loops of [wordSegmentation] run
    no iteration: they leave [circularIndex] at [-1] and [compositions]
    without an entry, and the function returns [compositions[-1]], which is
    [undefined], and no composition. *)
Theorem wordSegmentation_empty (this : SymSpell) (opts : SegmentationOptions) :
  0 <= default (maxDictionaryWordLength this) (seg_maxSegmentationWordLength opts) ->
  segmentationLoop this [] (default (maxDictionaryEditDistance this) (seg_maxEditDistance opts))
    (default (maxDictionaryWordLength this) (seg_maxSegmentationWordLength opts))
    (seg_ignoreToken opts) 0 (length (@nil N)) 0 (-1) ∅
  = Some (-1, ∅) /\
  wordSegmentation this [] opts = Returned None.
Proof.
  intros Hlen. split; [reflexivity|].
  unfold wordSegmentation. cbv zeta.
  change (Z.of_nat (length (@nil N))) with 0.
  rewrite Z.min_r by exact Hlen.
  reflexivity.
Qed.

(** ** [lookupCompound] *)

Local Ltac bind_some :=
  match goal with
  | |- context [Some ?x ≫= ?f] => change (Some x ≫= f) with (f x); cbv beta
  end.









(** Conversely, the loop over the tokens throws when non-words are ignored
    and a token that [parseInt] does not read as a number other than zero
    has no entry at its index in the case-preserving token list. *)
Lemma tokenLoop_none (this : SymSpell) (maxEditDistance : Z) (opts : CompoundOptions)
    (termList1 termList2 : list jsstring) (rest : list jsstring) :
  ignoreNonWords opts = true ->
  forall (i : nat) (st : CompoundState num) (j : nat) (token : jsstring),
    rest !! j = Some token -> parseIntTruthy token = false ->
    termList2 !! (i + j)%nat = None ->
    tokenLoop this maxEditDistance opts termList1 termList2 i rest st = None.
Proof.
  intros Hign. induction rest as [|t rest IH]; intros i st j token Hj Hint Hnone; [done|].
  cbn [tokenLoop]. cbv zeta. rewrite Hign.
  destruct j as [|j].
  - injection Hj as ->. rewrite Hint. rewrite Nat.add_0_r in Hnone. by rewrite Hnone.
  - assert (Hrest : forall st', tokenLoop this maxEditDistance opts termList1 termList2 (S i)
                                  rest st' = None).
    { intros st'. apply (IH (S i) st' j token Hj Hint).
      by replace (S i + j)%nat with (i + S j)%nat by lia. }
    destruct (parseIntTruthy t); [apply Hrest|].
    destruct (termList2 !! i) as [original|]; [|reflexivity]. bind_some.
    destruct (isAcronym original); [apply Hrest|].
    destruct (tokenBody this maxEditDistance termList1 i t st) as [st'|]; [|reflexivity].
    bind_some. apply Hrest.
Qed.

Lemma lookupCompound_throws (this : SymSpell) (input : jsstring)
    (maxEditDistance : option Z) (opts : CompoundOptions) (i : nat) (token : jsstring) :
  ignoreNonWords opts = true ->
  parseWordsCase input false !! i = Some token ->
  parseIntTruthy token = false ->
  parseWordsCase input true !! i = None ->
  lookupCompound this input maxEditDistance opts = Thrown.
Proof.
  intros Hign Hi Hint Hnone. unfold lookupCompound, compoundParts. cbv zeta.
  rewrite (tokenLoop_none this _ opts _ _ _ Hign 0%nat _ i token Hi Hint); [reflexivity|].
  by rewrite Hign.
Qed.

End HostProperties.


Lemma wordSegmentation_empty_witness :
  0 <= default (maxDictionaryWordLength (createEntries defaultSymSpell [(js "steam", 1)]))
               (seg_maxSegmentationWordLength (mkSegmentationOptions None None None)) /\
  segmentationLoop Z (fun z => z) Z.add Z.div Z.pow IntegerHost.log10 Z.ltb (Z.eqb 0)
    (fun s => s) (fun _ s => s)
    (createEntries defaultSymSpell [(js "steam", 1)]) []
    (default (maxDictionaryEditDistance (createEntries defaultSymSpell [(js "steam", 1)]))
             (seg_maxEditDistance (mkSegmentationOptions None None None)))
    (default (maxDictionaryWordLength (createEntries defaultSymSpell [(js "steam", 1)]))
             (seg_maxSegmentationWordLength (mkSegmentationOptions None None None)))
    (seg_ignoreToken (mkSegmentationOptions None None None)) 0 (length (@nil N)) 0 (-1) ∅
  = Some (-1, ∅) /\
  IntegerHost.wordSegmentation (createEntries defaultSymSpell [(js "steam", 1)]) []
    (mkSegmentationOptions None None None)
  = Returned None.
Proof.
  assert (H : 0 <= default (maxDictionaryWordLength
                              (createEntries defaultSymSpell [(js "steam", 1)]))
                           (seg_maxSegmentationWordLength
                              (mkSegmentationOptions None None None))).
  { vm_compute. discriminate. }
  split; [exact H|].
  exact (wordSegmentation_empty Z (fun z => z) Z.add Z.div Z.pow IntegerHost.log10 Z.ltb
           (Z.eqb 0) (fun s => s) (fun _ s => s)
           (createEntries defaultSymSpell [(js "steam", 1)])
           (mkSegmentationOptions None None None) H).
Defined.



(** The numbers of the example above: the double [4 / N], its product with
    [N], which is [2^53 - 1] times [2^-51] and so the double below 4, and
    the floor of that. *)
Example count_of_steam :
  Double.div (Double.of_Z 4) (Double.of_Z SymSpell_N) = S754_finite false 4831417908774782 (-90) /\
  Double.mul (Double.of_Z SymSpell_N) (Double.div (Double.of_Z 4) (Double.of_Z SymSpell_N))
  = S754_finite false 9007199254740991 (-51) /\
  Double.floor (S754_finite false 9007199254740991 (-51)) = Double.of_Z 3.
Proof. repeat split; vm_compute; reflexivity. Qed.

(** An input with a number and an acronym, non-words being ignored: both are
    kept as they are, as parts of count 0. *)
Example lookupCompound_keeps_non_words :
  DoubleHost.lookupCompound Helpers.toLowerCaseLatin (fun _ s => s)
    (createEntries defaultSymSpell [(js "steam", 2000000); (js "engine", 3000000)])
    (js "Steem 42 NASA engine") None (mkCompoundOptions true false)
  = Returned [mkCompoundItem Double.double (js "steam 42 NASA engine") (Some 2)
                             (Double.of_Z 0)].
Proof. vm_compute. reflexivity. Qed.

(* ===================================================================== *)
(** * Part VII. Further properties of the distance kernel                 *)
(* ===================================================================== *)

(** The result of [distance] on two strings, for every bound. *)
Lemma distance_result (this : EditDistance) (a b : jsstring) (k : Z) :
  fst (EditDistance_distance this (Some a) (Some b) k)
  = Some (if k <=? 0 then (if decide (a = b) then 0 else -1)
          else if osa_ref a b <=? Z.min k MAX_SAFE_INTEGER then osa_ref a b else -1).
Proof.
  destruct (Z.leb_spec k 0).
  - by apply distance_zero.
  - by apply distance_spec.
Qed.

Lemma distance_result_sym (this this' : EditDistance) (a b : jsstring) (k : Z) :
  fst (EditDistance_distance this (Some a) (Some b) k)
  = fst (EditDistance_distance this' (Some b) (Some a) k).
Proof.
  rewrite !distance_result, (osa_ref_sym a b).
  destruct (decide (a = b)), (decide (b = a)); congruence.
Qed.

(** [distance] is symmetric in its two strings, [null] included, whatever
    the bound and the buffers of the two objects. *)
Theorem distance_symmetric (this this' : EditDistance) (s1 s2 : option jsstring) (k : Z) :
  fst (EditDistance_distance this s1 s2 k) = fst (EditDistance_distance this' s2 s1 k).
Proof.
  destruct s1 as [a|], s2 as [b|]; try reflexivity.
  apply distance_result_sym.
Qed.

(** The result of [distance] does not depend on what earlier calls left in
    the buffers [baseChar1Costs] and [basePrevChar1Costs] of the object: a
    used object answers as a new one. *)
Theorem distance_ignores_buffers (this : EditDistance) (s1 s2 : option jsstring) (k : Z) :
  fst (EditDistance_distance this s1 s2 k)
  = fst (EditDistance_distance newEditDistance s1 s2 k).
Proof.
  destruct s1 as [a|], s2 as [b|]; try reflexivity.
  by rewrite !distance_result.
Qed.

(** For a bound that is not negative, [null] is treated as the empty string:
    the result is the length of the other string if that is within the
    bound, and [-1] otherwise. *)
Theorem distance_null_as_empty (this : EditDistance) (s : jsstring) (k : Z) :
  0 <= k ->
  Z.of_nat (length s) <= MAX_SAFE_INTEGER ->
  let r := Some (if Z.of_nat (length s) <=? k then Z.of_nat (length s) else -1) in
  fst (EditDistance_distance this None (Some s) k) = r /\
  fst (EditDistance_distance this (Some s) None k) = r /\
  fst (EditDistance_distance this (Some []) (Some s) k) = r /\
  fst (EditDistance_distance this (Some s) (Some []) k) = r /\
  fst (EditDistance_distance this None None k) = Some 0.
Proof.
  intros Hk Hlen. cbv zeta.
  assert (Hempty : fst (EditDistance_distance this (Some []) (Some s) k)
                   = Some (if Z.of_nat (length s) <=? k then Z.of_nat (length s) else -1)).
  { rewrite distance_result.
    assert (Hosa : osa_ref [] s = Z.of_nat (length s)) by apply osa_dp_0_l.
    rewrite Hosa. f_equal.
    destruct (Z.leb_spec k 0).
    - assert (k = 0) as -> by lia.
      destruct (decide ([] = s)) as [<-|Hne]; [reflexivity|].
      destruct s; [done|]. cbn [length] in *.
      destruct (Z.leb_spec (Z.of_nat (S (length s))) 0); [lia|reflexivity].
    - destruct (Z.leb_spec (Z.of_nat (length s)) (Z.min k MAX_SAFE_INTEGER)),
               (Z.leb_spec (Z.of_nat (length s)) k); try reflexivity; lia. }
  split; [reflexivity|]. split; [reflexivity|]. split; [exact Hempty|].
  split; [|reflexivity].
  by rewrite (distance_result_sym this this s [] k).
Qed.

Lemma distance_null_as_empty_witness :
  let r := Some (if Z.of_nat (length (js "pipe")) <=? 5
                 then Z.of_nat (length (js "pipe")) else -1) in
  fst (EditDistance_distance newEditDistance None (Some (js "pipe")) 5) = r /\
  fst (EditDistance_distance newEditDistance (Some (js "pipe")) None 5) = r /\
  fst (EditDistance_distance newEditDistance (Some []) (Some (js "pipe")) 5) = r /\
  fst (EditDistance_distance newEditDistance (Some (js "pipe")) (Some []) 5) = r /\
  fst (EditDistance_distance newEditDistance None None 5) = Some 0.
Proof.
  apply (distance_null_as_empty newEditDistance (js "pipe") 5).
  - lia.
  - vm_compute. discriminate.
Defined.

(** [distance] on two strings always returns an integer, never [undefined]:
    [-1], or a value from [0] up to the bound that lies between the
    difference of the two lengths and the greater length; and it returns [0]
    exactly when the two strings are equal. *)
Theorem distance_range (this : EditDistance) (a b : jsstring) (k : Z) :
  exists v,
    fst (EditDistance_distance this (Some a) (Some b) k) = Some v /\
    (v = 0 <-> a = b) /\
    (v = -1 \/
     (0 <= v <= Z.max k 0 /\
      Z.abs (Z.of_nat (length a) - Z.of_nat (length b)) <= v
        <= Z.max (Z.of_nat (length a)) (Z.of_nat (length b)))).
Proof.
  rewrite distance_result. eexists. split; [reflexivity|].
  pose proof (osa_ref_nonneg a b) as H0.
  pose proof (osa_ref_upper a b) as Hup.
  pose proof (osa_dp_lower a b (length a) (length b)) as Hlow.
  fold (osa_ref a b) in Hlow.
  pose proof (osa_ref_zero_iff a b) as Hz.
  pose proof MAX_SAFE_INTEGER_pos as HM.
  destruct (Z.leb_spec k 0).
  - destruct (decide (a = b)) as [->|Hne].
    + split; [done|]. right. lia.
    + split; [split; [lia|done]|]. by left.
  - destruct (Z.leb_spec (osa_ref a b) (Z.min k MAX_SAFE_INTEGER)).
    + split; [exact Hz|]. right. lia.
    + split; [|by left]. split; [lia|]. intros Heq. apply Hz in Heq. lia.
Qed.

(** A greater bound does not change a result that is not [-1], and a
    smaller bound does not change the result [-1]. *)
Theorem distance_monotone_in_bound (this this' : EditDistance) (a b : jsstring) (k k' : Z) :
  k <= k' ->
  (forall v, fst (EditDistance_distance this (Some a) (Some b) k) = Some v -> 0 <= v ->
             fst (EditDistance_distance this' (Some a) (Some b) k') = Some v) /\
  (fst (EditDistance_distance this' (Some a) (Some b) k') = Some (-1) ->
   fst (EditDistance_distance this (Some a) (Some b) k) = Some (-1)).
Proof.
  intros Hk. rewrite !distance_result.
  pose proof (osa_ref_nonneg a b) as H0.
  pose proof (osa_ref_zero_iff a b) as Hz.
  pose proof MAX_SAFE_INTEGER_pos as HM.
  destruct (Z.leb_spec k 0), (Z.leb_spec k' 0); try lia.
  - split; [by intros v ? ?|done].
  - destruct (decide (a = b)) as [Heq|Hne].
    + apply Hz in Heq. rewrite Heq.
      destruct (Z.leb_spec 0 (Z.min k' MAX_SAFE_INTEGER)); [|lia].
      split; [by intros v ? ?|discriminate].
    + split; [intros v [= <-] ?; lia|done].
  - destruct (Z.leb_spec (osa_ref a b) (Z.min k MAX_SAFE_INTEGER)),
             (Z.leb_spec (osa_ref a b) (Z.min k' MAX_SAFE_INTEGER)); try lia.
    + split; [by intros v ? ?|]. intros [= ?]. lia.
    + split; [intros v [= <-] ?; lia|]. intros [= ?]. lia.
    + split; [intros v [= <-] ?; lia|done].
Qed.

Lemma distance_monotone_in_bound_witness :
  (forall v, fst (EditDistance_distance newEditDistance (Some (js "kitten"))
                    (Some (js "sitting")) 3) = Some v -> 0 <= v ->
             fst (EditDistance_distance newEditDistance (Some (js "kitten"))
                    (Some (js "sitting")) 9) = Some v) /\
  (fst (EditDistance_distance newEditDistance (Some (js "kitten")) (Some (js "sitting")) 9)
   = Some (-1) ->
   fst (EditDistance_distance newEditDistance (Some (js "kitten")) (Some (js "sitting")) 3)
   = Some (-1)).
Proof.
  apply (distance_monotone_in_bound newEditDistance newEditDistance
           (js "kitten") (js "sitting") 3 9).
  lia.
Defined.

(** ** [prefixSuffixPrep] *)

(** The first loop of [prefixSuffixPrep] stops at the start of [string1] or
    at two different characters. *)
Lemma suffixLoop_stop (s1 s2 : jsstring) :
  forall len1 len2 : nat,
    (len1 <= len2)%nat ->
    let r := suffixLoop s1 s2 len1 len2 in
    r.1 = O \/ s1 !! (r.1 - 1)%nat <> s2 !! (r.2 - 1)%nat.
Proof.
  induction len1 as [|l IH]; intros len2 Hle; simpl; [by left|].
  destruct len2 as [|l2]; [lia|].
  rewrite charAt_pred.
  destruct (decide (s1 !! l = s2 !! l2)) as [Heq|Hne]; simpl.
  - replace (l2 - 0)%nat with l2 by lia. apply IH. lia.
  - right. by replace (l - 0)%nat with l by lia; replace (l2 - 0)%nat with l2 by lia.
Qed.

(** For [string1] no longer than [string2], [prefixSuffixPrep] cuts the two
    strings into a common prefix of [start] characters, middle parts of
    [len1] and [len2] characters, and a common suffix; and the middle parts,
    when that of [string1] is not empty, begin with different characters and
    end with different characters. *)
Theorem prefixSuffixPrep_trims (s1 s2 : jsstring) :
  (length s1 <= length s2)%nat ->
  let '(len1, len2, start) := prefixSuffixPrep s1 s2 in
  (start + len1 <= length s1)%nat /\
  (start + len2 <= length s2)%nat /\
  take start s1 = take start s2 /\
  drop (start + len1) s1 = drop (start + len2) s2 /\
  ((0 < len1)%nat ->
   s1 !! start <> s2 !! start /\
   s1 !! (start + len1 - 1)%nat <> s2 !! (start + len2 - 1)%nat).
Proof.
  intros Hle. unfold prefixSuffixPrep.
  pose proof (suffixLoop_spec s1 s2 (length s1) (length s2) Hle) as Hsuf.
  pose proof (suffixLoop_stop s1 s2 (length s1) (length s2) Hle) as Hstop.
  destruct (suffixLoop s1 s2 (length s1) (length s2)) as [l1 l2]. simpl in Hsuf, Hstop.
  destruct Hsuf as (H1 & H2 & H3 & H4).
  pose proof (prefixLoop_spec s1 s2 l1 0 ltac:(intros; lia)) as Hpre.
  set (start := prefixLoop s1 s2 l1 0) in *. simpl in Hpre.
  destruct Hpre as (H5 & H6 & H7).
  replace (start + (l1 - start))%nat with l1 by lia.
  replace (start + (l2 - start))%nat with l2 by lia.
  split; [lia|]. split; [lia|]. split; [|split].
  - apply list_eq. intros i. destruct (decide (i < start)%nat) as [Hi|Hi].
    + rewrite !lookup_take_lt by exact Hi. by apply H6.
    + rewrite !lookup_take_ge by lia. reflexivity.
  - apply list_eq. intros i. rewrite !lookup_drop.
    destruct (decide (i < length s1 - l1)%nat) as [Hi|Hi].
    + by apply H4.
    + rewrite !lookup_ge_None_2 by lia. reflexivity.
  - intros Hpos. split.
    + destruct H7 as [H7|H7]; [lia|exact H7].
    + destruct Hstop as [Hstop|Hstop]; [lia|exact Hstop].
Qed.

Lemma prefixSuffixPrep_trims_witness :
  let '(len1, len2, start) := prefixSuffixPrep (js "steam") (js "steems") in
  (start + len1 <= length (js "steam"))%nat /\
  (start + len2 <= length (js "steems"))%nat /\
  take start (js "steam") = take start (js "steems") /\
  drop (start + len1) (js "steam") = drop (start + len2) (js "steems") /\
  ((0 < len1)%nat ->
   js "steam" !! start <> js "steems" !! start /\
   js "steam" !! (start + len1 - 1)%nat <> js "steems" !! (start + len2 - 1)%nat).
Proof.
  apply (prefixSuffixPrep_trims (js "steam") (js "steems")).
  vm_compute. lia.
Defined.

(** ** Common prefixes and suffixes *)

Lemma osa_ref_affixes (p s a b : jsstring) :
  osa_ref (p ++ a ++ s) (p ++ b ++ s) = osa_ref a b.
Proof.
  unfold osa_ref. rewrite !length_app.
  replace (length p + (length a + length s))%nat
    with ((length p + length a) + length s)%nat by lia.
  replace (length p + (length b + length s))%nat
    with ((length p + length b) + length s)%nat by lia.
  rewrite osa_dp_suffix; cycle 1.
  { intros k Hk. rewrite !app_assoc.
    rewrite !lookup_app_r by (rewrite length_app; lia).
    rewrite !length_app. f_equal. lia. }
  rewrite osa_dp_prefix; cycle 1.
  { rewrite length_app. lia. }
  { rewrite length_app. lia. }
  { intros k Hk. by rewrite !lookup_app_l by lia. }
  rewrite !drop_app_length.
  apply osa_dp_ext; intros k Hk; by rewrite lookup_app_l by lia.
Qed.

(** A prefix and a suffix that the two strings have in common do not
    change the result of [distance]. *)
Theorem distance_ignores_common_affixes (this this' : EditDistance)
    (p s a b : jsstring) (k : Z) :
  fst (EditDistance_distance this (Some (p ++ a ++ s)) (Some (p ++ b ++ s)) k)
  = fst (EditDistance_distance this' (Some a) (Some b) k).
Proof.
  rewrite !distance_result, osa_ref_affixes.
  destruct (decide (p ++ a ++ s = p ++ b ++ s)) as [Heq|Hne], (decide (a = b)) as [Hab|Hab];
    try reflexivity.
  - apply app_inv_head, app_inv_tail in Heq. done.
  - subst. done.
Qed.

(* ===================================================================== *)
(** * Part VIII. Further properties of the index                          *)
(* ===================================================================== *)

(** ** The two tables *)

(** A count that is not positive is ignored when the threshold is positive. *)
Lemma createDictionaryEntry_ignored (this : SymSpell) (key : jsstring) (c : Z) :
  c <= 0 -> countThreshold this > 0 ->
  createDictionaryEntry this key c = (false, this).
Proof.
  intros Hc Hct. unfold createDictionaryEntry.
  destruct (Z.leb_spec c 0); [|lia].
  destruct (Z.gtb_spec (countThreshold this) 0); [reflexivity|lia].
Qed.

(** The outcome of a call that is not ignored: the count as it is used is
    not below the threshold unless the threshold is above 1. *)
Lemma createDictionaryEntry_cases (this : SymSpell) (key : jsstring) (c : Z) :
  createDictionaryEntry this key c = (false, this) \/
  ((Z.max c 0 < countThreshold this -> countThreshold this > 1) /\
   entryOutcome this key c (createDictionaryEntry this key c)).
Proof.
  destruct (Z.le_gt_cases c 0) as [Hc|Hc].
  - destruct (Z.lt_ge_cases 0 (countThreshold this)) as [Hct|Hct].
    + left. apply createDictionaryEntry_ignored; lia.
    + right. split; [lia|apply createDictionaryEntry_outcome].
  - right. split; [lia|apply createDictionaryEntry_outcome].
Qed.

Lemma accumulate_min (previous c : Z) :
  accumulate previous c = Z.min (previous + c) MAX_SAFE_INTEGER.
Proof.
  unfold accumulate. destruct (Z.gtb_spec (MAX_SAFE_INTEGER - previous) c); lia.
Qed.

Lemma stagingInv_new (med pl ct : Z) : stagingInv (newSymSpell med pl ct).
Proof. intros t [c Hc]. simpl in Hc. by rewrite lookup_empty in Hc. Qed.

Lemma stagingInv_step (this : SymSpell) (key : jsstring) (c : Z) :
  stagingInv this -> stagingInv (createDictionaryEntry this key c).2.
Proof.
  intros Hinv.
  destruct (createDictionaryEntry_cases this key c) as [->|[Hct Hout]]; [exact Hinv|].
  destruct Hout as [ | p Hgt Hb Hacc | p Hgt Hb Hacc | p Hb Hw | Hb Hw Hlt | Hb Hw Hge ];
    cbn [snd].
  - exact Hinv.
  - destruct (promote_spec (set_belowThresholdWords (delete key) this) key
                (accumulate p (Z.max c 0))) as (_ & _ & _ & Hct' & Hw' & Hb' & _).
    intros t Ht. rewrite Hct', Hw'. rewrite Hb' in Ht. simpl in *.
    destruct (decide (key = t)) as [->|Hne].
    + rewrite lookup_delete_eq in Ht. by destruct Ht.
    + rewrite lookup_delete_ne in Ht by done. rewrite lookup_insert_ne by done.
      by apply Hinv.
  - intros t Ht. simpl in *. destruct (decide (key = t)) as [->|Hne].
    + apply Hinv. by eexists.
    + rewrite lookup_insert_ne in Ht by done. by apply Hinv.
  - intros t Ht. simpl in *. destruct (Hinv t Ht) as [Hwt Hgt]. split; [|exact Hgt].
    destruct (decide (key = t)) as [->|Hne]; [congruence|].
    by rewrite lookup_insert_ne.
  - intros t Ht. simpl in *. destruct (decide (key = t)) as [->|Hne].
    + split; [exact Hw|]. by apply Hct.
    + rewrite lookup_insert_ne in Ht by done. by apply Hinv.
  - destruct (promote_spec this key (Z.max c 0)) as (_ & _ & _ & Hct' & Hw' & Hb' & _).
    intros t Ht. rewrite Hct', Hw'. rewrite Hb' in Ht.
    destruct (Hinv t Ht) as [Hwt Hgt]. split; [|exact Hgt].
    destruct (decide (key = t)) as [->|Hne].
    + destruct Ht as [x Hx]. rewrite (Hb Hgt) in Hx. discriminate.
    + by rewrite lookup_insert_ne.
Qed.

Lemma stagingInv_createEntries (es : list (jsstring * Z)) :
  forall this, stagingInv this -> stagingInv (createEntries this es).
Proof.
  induction es as [|e es IH]; intros this Hinv; [exact Hinv|].
  rewrite createEntries_cons. apply IH. by apply stagingInv_step.
Qed.

(** The flag returned by a call on an index in which [key] is not in both
    tables. *)
Lemma createDictionaryEntry_flag (this : SymSpell) (key : jsstring) (c : Z) :
  stagingInv this ->
  let r := createDictionaryEntry this key c in
  r.1 = true <-> (words this !! key = None /\ is_Some (words r.2 !! key)).
Proof.
  intros Hinv. cbv zeta.
  destruct (createDictionaryEntry_cases this key c) as [->|[Hct Hout]].
  { cbn [fst snd]. split; [discriminate|]. intros [-> [x Hx]]. discriminate. }
  destruct Hout as [ | p Hgt Hb Hacc | p Hgt Hb Hacc | p Hb Hw | Hb Hw Hlt | Hb Hw Hge ];
    cbn [fst snd].
  - split; [discriminate|]. intros [-> [x Hx]]. discriminate.
  - destruct (promote_spec (set_belowThresholdWords (delete key) this) key
                (accumulate p (Z.max c 0))) as (-> & _ & _ & _ & -> & _).
    simpl. rewrite lookup_insert_eq. split; [|done]. intros _.
    split; [|by eexists]. apply Hinv. by eexists.
  - simpl. split; [discriminate|]. intros [-> [x Hx]]. discriminate.
  - simpl. split; [discriminate|]. intros [Hnone _]. congruence.
  - simpl. split; [discriminate|]. intros [-> [x Hx]]. discriminate.
  - destruct (promote_spec this key (Z.max c 0)) as (-> & _ & _ & _ & -> & _).
    rewrite lookup_insert_eq. split; [|done]. intros _. split; [exact Hw|by eexists].
Qed.

(** [createDictionaryEntry] returns [true] exactly when the call makes the
    term a word: it was not in Words before the call and it is after it. *)
Theorem createDictionaryEntry_true_iff_new_word (med pl ct : Z)
    (entries : list (jsstring * Z)) (key : jsstring) (c : Z) :
  let this := createEntries (newSymSpell med pl ct) entries in
  let r := createDictionaryEntry this key c in
  r.1 = true <-> (words this !! key = None /\ is_Some (words r.2 !! key)).
Proof.
  cbv zeta. apply createDictionaryEntry_flag, stagingInv_createEntries, stagingInv_new.
Qed.

(** ** The counts *)

Lemma totalCount_snoc (t : jsstring) (es : list (jsstring * Z)) (e : jsstring * Z) :
  totalCount t (es ++ [e])
  = totalCount t es + (if decide (e.1 = t) then Z.max e.2 0 else 0).
Proof.
  unfold totalCount. induction es as [|x es IH]; simpl.
  - destruct (decide (e.1 = t)); lia.
  - rewrite IH. destruct (decide (x.1 = t)), (decide (e.1 = t)); lia.
Qed.

Lemma totalCount_nonneg (t : jsstring) (es : list (jsstring * Z)) : 0 <= totalCount t es.
Proof.
  unfold totalCount. induction es as [|x es IH]; simpl; [lia|].
  destruct (decide (x.1 = t)); lia.
Qed.

(** One call, seen from the term [t]. *)
Lemma tallied_step (this : SymSpell) (key t : jsstring) (c s : Z) :
  1 <= countThreshold this ->
  0 <= s <= MAX_SAFE_INTEGER ->
  c <= MAX_SAFE_INTEGER ->
  tallied this t s ->
  tallied (createDictionaryEntry this key c).2 t
    (if decide (key = t) then Z.min (s + Z.max c 0) MAX_SAFE_INTEGER else s).
Proof.
  intros Hct Hs Hc [Hw Hb]. unfold tallied.
  destruct (createDictionaryEntry_config this key c) as (_ & _ & Hct'). cbv zeta in Hct'.
  rewrite Hct'.
  destruct (decide (key = t)) as [->|Hne]; cycle 1.
  { destruct (createDictionaryEntry_other this key t c Hne) as [-> ->]. done. }
  destruct (Z.le_gt_cases c 0) as [Hc0|Hc0].
  { rewrite createDictionaryEntry_ignored by lia. cbn [snd].
    replace (Z.min (s + Z.max c 0) MAX_SAFE_INTEGER) with s by lia. done. }
  replace (Z.max c 0) with c in * by lia.
  set (ct := countThreshold this) in *.
  destruct (createDictionaryEntry_outcome this t c)
    as [ | p Hgt Hbp Hacc | p Hgt Hbp Hacc | p Hbn Hwp | Hbn Hwn Hlt | Hbn Hwn Hge ];
    cbn [snd]; try lia; replace (Z.max c 0) with c in * by lia;
    try rewrite accumulate_min in *.
  - (* staged, now promoted *)
    rewrite Hbp in Hb.
    destruct ((0 <? s) && (s <? ct)) eqn:Hcond; [|discriminate].
    injection Hb as ->.
    destruct (promote_spec (set_belowThresholdWords (delete t) this) t
                (Z.min (s + c) MAX_SAFE_INTEGER)) as (_ & _ & _ & _ & -> & -> & _).
    simpl. rewrite lookup_insert_eq, lookup_delete_eq.
    destruct (Z.leb_spec ct (Z.min (s + c) MAX_SAFE_INTEGER)); [|lia].
    split; [reflexivity|].
    destruct (Z.ltb_spec (Z.min (s + c) MAX_SAFE_INTEGER) ct); [lia|].
    by rewrite andb_false_r.
  - (* staged, still below *)
    rewrite Hbp in Hb.
    destruct ((0 <? s) && (s <? ct)) eqn:Hcond; [|discriminate].
    injection Hb as ->. apply andb_true_iff in Hcond as [Hpos Hlt].
    apply Z.ltb_lt in Hpos, Hlt.
    simpl. rewrite lookup_insert_eq, Hw.
    destruct (Z.leb_spec ct s); [lia|].
    destruct (Z.leb_spec ct (Z.min (s + c) MAX_SAFE_INTEGER)); [lia|].
    split; [reflexivity|].
    destruct (Z.ltb_spec 0 (Z.min (s + c) MAX_SAFE_INTEGER)); [|lia].
    destruct (Z.ltb_spec (Z.min (s + c) MAX_SAFE_INTEGER) ct); [reflexivity|lia].
  - (* a word already *)
    rewrite Hwp in Hw.
    destruct (Z.leb_spec ct s); [|discriminate]. injection Hw as ->.
    simpl. rewrite lookup_insert_eq, Hb.
    destruct (Z.leb_spec ct (Z.min (s + c) MAX_SAFE_INTEGER)); [|lia].
    split; [reflexivity|].
    destruct (Z.ltb_spec s ct); [lia|].
    destruct (Z.ltb_spec (Z.min (s + c) MAX_SAFE_INTEGER) ct); [lia|].
    by rewrite !andb_false_r.
  - (* new, below the threshold *)
    assert (s = 0) as ->.
    { rewrite Hwn in Hw. destruct (Z.leb_spec ct s); [discriminate|].
      assert (Hbnone : belowThresholdWords this !! t = None).
      { destruct (Z.lt_ge_cases 1 ct) as [H1|H1]; [apply Hbn; lia|].
        rewrite Hb. destruct (Z.ltb_spec 0 s); [lia|reflexivity]. }
      rewrite Hbnone in Hb.
      destruct (Z.ltb_spec 0 s), (Z.ltb_spec s ct); try discriminate; lia. }
    simpl. rewrite lookup_insert_eq, Hwn.
    replace (Z.min (0 + c) MAX_SAFE_INTEGER) with c by lia.
    destruct (Z.leb_spec ct c); [lia|]. split; [reflexivity|].
    destruct (Z.ltb_spec 0 c), (Z.ltb_spec c ct); try reflexivity; lia.
  - (* new, promoted *)
    assert (s = 0) as ->.
    { rewrite Hwn in Hw. destruct (Z.leb_spec ct s); [discriminate|].
      assert (Hbnone : belowThresholdWords this !! t = None).
      { destruct (Z.lt_ge_cases 1 ct) as [H1|H1]; [apply Hbn; lia|].
        rewrite Hb. destruct (Z.ltb_spec 0 s); [lia|reflexivity]. }
      rewrite Hbnone in Hb.
      destruct (Z.ltb_spec 0 s), (Z.ltb_spec s ct); try discriminate; lia. }
    destruct (promote_spec this t c) as (_ & _ & _ & _ & -> & -> & _).
    rewrite lookup_insert_eq.
    replace (Z.min (0 + c) MAX_SAFE_INTEGER) with c by lia.
    destruct (Z.leb_spec ct c); [|lia]. split; [reflexivity|].
    rewrite Hb. destruct (Z.ltb_spec c ct); [lia|]. by rewrite andb_false_r.
Qed.

Lemma tallied_createEntries (med pl ct : Z) (t : jsstring) (es : list (jsstring * Z)) :
  1 <= ct ->
  Forall (fun e => e.2 <= MAX_SAFE_INTEGER) es ->
  tallied (createEntries (newSymSpell med pl ct) es) t
    (Z.min (totalCount t es) MAX_SAFE_INTEGER).
Proof.
  intros Hct. induction es as [|e es IH] using rev_ind; intros Hall.
  - unfold tallied. simpl. rewrite !lookup_empty.
    destruct (Z.leb_spec ct (Z.min 0 MAX_SAFE_INTEGER)); [lia|]. done.
  - apply Forall_app in Hall as [Hes He]. apply Forall_inv in He.
    rewrite createEntries_app, totalCount_snoc. cbn [createEntries fold_left].
    pose proof (totalCount_nonneg t es) as Hnn.
    pose proof MAX_SAFE_INTEGER_pos as HM.
    pose proof (tallied_step (createEntries (newSymSpell med pl ct) es) e.1 t e.2
                  (Z.min (totalCount t es) MAX_SAFE_INTEGER)) as Hstep.
    destruct (createEntries_config es (newSymSpell med pl ct)) as (_ & _ & Hcfg).
    rewrite Hcfg in Hstep. simpl in Hstep.
    specialize (Hstep Hct ltac:(lia) He (IH Hes)).
    destruct (decide (e.1 = t)).
    + replace (Z.min (totalCount t es + Z.max e.2 0) MAX_SAFE_INTEGER)
        with (Z.min (Z.min (totalCount t es) MAX_SAFE_INTEGER + Z.max e.2 0) MAX_SAFE_INTEGER)
        by lia.
      exact Hstep.
    + by rewrite Z.add_0_r.
Qed.

(** After any sequence of calls on a new index with a threshold of at least
    1 (counts at most [Number.MAX_SAFE_INTEGER]), a term is recorded with
    the sum of its positive counts, cut at [Number.MAX_SAFE_INTEGER]: in
    Words if that total reaches the threshold, otherwise in the
    below-threshold table if it is positive, and in no table if it is 0.
    So the tables are disjoint, a word has a count between the threshold
    and [Number.MAX_SAFE_INTEGER], and the order of the calls does not
    matter. *)
Theorem counts_are_totals (med pl ct : Z) (entries : list (jsstring * Z)) (t : jsstring) :
  1 <= ct ->
  Forall (fun e => e.2 <= MAX_SAFE_INTEGER) entries ->
  let this := createEntries (newSymSpell med pl ct) entries in
  let s := Z.min (totalCount t entries) MAX_SAFE_INTEGER in
  words this !! t = (if ct <=? s then Some s else None) /\
  belowThresholdWords this !! t = (if (0 <? s) && (s <? ct) then Some s else None).
Proof.
  intros Hct Hall. cbv zeta.
  pose proof (tallied_createEntries med pl ct t entries Hct Hall) as [Hw Hb].
  destruct (createEntries_config entries (newSymSpell med pl ct)) as (_ & _ & Hcfg).
  rewrite Hcfg in Hw, Hb. simpl in Hw, Hb. by split.
Qed.

Lemma counts_are_totals_witness :
  let entries := [(js "pipe", 2); (js "pips", 7); (js "pipe", 4); (js "pip", 1)] in
  let this := createEntries (newSymSpell 2 7 5) entries in
  let s := Z.min (totalCount (js "pipe") entries) MAX_SAFE_INTEGER in
  words this !! js "pipe" = (if 5 <=? s then Some s else None) /\
  belowThresholdWords this !! js "pipe" = (if (0 <? s) && (s <? 5) then Some s else None).
Proof.
  apply (counts_are_totals 2 7 5
           [(js "pipe", 2); (js "pips", 7); (js "pipe", 4); (js "pip", 1)] (js "pipe")).
  - lia.
  - repeat constructor; vm_compute; discriminate.
Defined.

(** ** [maxDictionaryWordLength] *)

Lemma lengthInv_new (med pl ct : Z) : lengthInv (newSymSpell med pl ct).
Proof.
  split; [|by left]. intros t [c Hc]. simpl in Hc. by rewrite lookup_empty in Hc.
Qed.

Lemma lengthInv_promote (this : SymSpell) (key : jsstring) (c : Z) :
  lengthInv this -> lengthInv (promote this key c).2.
Proof.
  intros [Hle Hmax].
  destruct (promote_spec this key c) as (_ & _ & _ & _ & Hw & _ & Hlen & _).
  split.
  - intros t Ht. rewrite Hw in Ht. rewrite Hlen.
    destruct (decide (key = t)) as [->|Hne]; [lia|].
    rewrite lookup_insert_ne in Ht by done. specialize (Hle t Ht). lia.
  - rewrite Hw, Hlen.
    destruct (Z.le_gt_cases (Z.of_nat (length key)) (maxDictionaryWordLength this)) as [H|H].
    + destruct Hmax as [H0|(t & Ht & Heq)].
      * destruct key; simpl in *; [left; lia|lia].
      * right. exists t. split; [|lia].
        destruct (decide (key = t)) as [->|Hne];
          [rewrite lookup_insert_eq; by eexists|by rewrite lookup_insert_ne].
    + right. exists key. split; [rewrite lookup_insert_eq; by eexists|lia].
Qed.

Lemma lengthInv_step (this : SymSpell) (key : jsstring) (c : Z) :
  lengthInv this -> lengthInv (createDictionaryEntry this key c).2.
Proof.
  intros Hinv.
  destruct (createDictionaryEntry_outcome this key c)
    as [ | p Hgt Hb Hacc | p Hgt Hb Hacc | p Hb Hw | Hb Hw Hlt | Hb Hw Hge ]; cbn [snd].
  - exact Hinv.
  - by apply lengthInv_promote.
  - exact Hinv.
  - destruct Hinv as [Hle Hmax]. split; simpl.
    + intros t Ht. apply Hle. destruct (decide (key = t)) as [->|Hne].
      * by eexists.
      * by rewrite lookup_insert_ne in Ht.
    + destruct Hmax as [H0|(t & Ht & Heq)]; [by left|right].
      exists t. split; [|exact Heq].
      destruct (decide (key = t)) as [->|Hne];
        [rewrite lookup_insert_eq; by eexists|by rewrite lookup_insert_ne].
  - exact Hinv.
  - by apply lengthInv_promote.
Qed.

Lemma lengthInv_createEntries (es : list (jsstring * Z)) :
  forall this, lengthInv this -> lengthInv (createEntries this es).
Proof.
  induction es as [|e es IH]; intros this Hinv; [exact Hinv|].
  rewrite createEntries_cons. apply IH. by apply lengthInv_step.
Qed.

(** After any sequence of calls on a new index, [maxDictionaryWordLength] is
    the length of a longest word of Words (and 0 when there is none): no
    word is longer, and some word has that length unless it is 0. *)
Theorem maxDictionaryWordLength_is_longest (med pl ct : Z) (entries : list (jsstring * Z)) :
  let this := createEntries (newSymSpell med pl ct) entries in
  (forall t, is_Some (words this !! t) ->
             Z.of_nat (length t) <= maxDictionaryWordLength this) /\
  (maxDictionaryWordLength this = 0 \/
   exists t, is_Some (words this !! t) /\
             Z.of_nat (length t) = maxDictionaryWordLength this).
Proof. apply lengthInv_createEntries, lengthInv_new. Qed.

(** ** The Deletes map holds nothing but delete variants of words *)

Section EditsSound.

Variable med : Z.

(** What [edits] adds are non-empty subsequences of the word, short of it by
    at most [med - editDistance] characters, or by one. *)
Lemma edits_fuel_sound (fuel : nat) :
  forall (word : jsstring) (e : Z) (S0 : list jsstring) (x : jsstring),
    x ∈ edits_fuel fuel med word e S0 ->
    x ∈ S0 \/
    (x `sublist_of` word /\
     Z.of_nat (length word) - Z.of_nat (length x) <= Z.max 1 (med - e)).
Proof.
  induction fuel as [|fuel IH]; intros word e S0 x Hx; [by left|].
  rewrite edits_fuel_S in Hx.
  destruct (1 <? length word)%nat; [|by left].
  unfold editsLoop in Hx.
  assert (Hloop : forall (idxs : list nat) (S1 : list jsstring),
             (forall i, i ∈ idxs -> (i < length word)%nat) ->
             x ∈ fold_left
                   (fun deleteWords i =>
                      let del := deleteAt word i in
                      if decide (del ∈ deleteWords) then deleteWords
                      else
                        let deleteWords := deleteWords ++ [del] in
                        if e + 1 <? med
                        then edits_fuel fuel med del (e + 1) deleteWords
                        else deleteWords) idxs S1 ->
             x ∈ S1 \/
             (x `sublist_of` word /\
              Z.of_nat (length word) - Z.of_nat (length x) <= Z.max 1 (med - e))).
  { induction idxs as [|i idxs IHis]; intros S1 His Hin; simpl in Hin; [by left|].
    assert (Hi : (i < length word)%nat) by (apply His; left).
    apply IHis in Hin; [|intros j Hj; apply His; by right].
    destruct Hin as [Hin|Hin]; [|by right].
    destruct (decide (deleteAt word i ∈ S1)); [by left|].
    assert (Hdel : deleteAt word i `sublist_of` word) by apply deleteAt_sublist.
    pose proof (deleteAt_length word i Hi) as Hlen.
    destruct (Z.ltb_spec (e + 1) med) as [Hdeep|Hshallow].
    - apply IH in Hin as [Hin|[Hsub Hd]].
      + apply elem_of_app in Hin as [Hin|Hin]; [by left|].
        apply list_elem_of_singleton in Hin. subst x. right. split; [exact Hdel|lia].
      + right. split; [by etrans|lia].
    - apply elem_of_app in Hin as [Hin|Hin]; [by left|].
      apply list_elem_of_singleton in Hin. subst x. right. split; [exact Hdel|lia]. }
  apply (Hloop (seq 0 (length word))); [|exact Hx].
  intros i Hi. apply elem_of_seq in Hi. lia.
Qed.

End EditsSound.

(** The prefix of a term is made of its first characters. *)
Lemma termPrefix_take (this : SymSpell) (key : jsstring) :
  exists n, termPrefix this key = take n key.
Proof.
  unfold termPrefix. destruct (Z.of_nat (length key) >? prefixLength this).
  - unfold substr. eexists.
    destruct (0 <? 0) eqn:H0; [discriminate|].
    replace (Z.to_nat (Z.min 0 (Z.of_nat (length key)))) with O by lia.
    by rewrite drop_0.
  - exists (length key). by rewrite firstn_all.
Qed.

(** Every string of [editsPrefix(key)] is a subsequence of the prefix of
    [key], short of it by at most [maxDictionaryEditDistance] characters, or
    by one. *)
Lemma editsPrefix_sound (this : SymSpell) (key x : jsstring) :
  x ∈ editsPrefix this key ->
  deletedFrom (Z.max 1 (maxDictionaryEditDistance this)) (termPrefix this key) x.
Proof.
  rewrite editsPrefix_eq. unfold edits. intros Hx.
  apply edits_fuel_sound in Hx as [Hx|[Hsub Hlen]].
  - apply elem_of_setAdd in Hx as [->|Hx]; [split; [done|lia]|].
    destruct (Z.leb_spec (Z.of_nat (length key)) (maxDictionaryEditDistance this)) as [Hle|];
      [|by apply elem_of_nil in Hx].
    apply elem_of_setAdd in Hx as [->|Hx]; [|by apply elem_of_nil in Hx].
    split; [apply sublist_nil_l|].
    destruct (termPrefix_take this key) as (n & ->). rewrite length_take. simpl. lia.
  - split; [exact Hsub|]. by rewrite Z.sub_0_r in Hlen.
Qed.

(** After any sequence of calls on a new index, every term [t] in the bucket
    of a key [x] of the Deletes map is a word of Words, and [x] is obtained
    from the prefix of [t] by deleting at most [maxDictionaryEditDistance]
    characters (at most one when that is 0). *)
Theorem deletes_only_variants_of_words (med pl ct : Z) (entries : list (jsstring * Z))
    (x t : jsstring) :
  let this := createEntries (newSymSpell med pl ct) entries in
  inBucket this x t ->
  is_Some (words this !! t) /\
  deletedFrom (Z.max 1 med) (termPrefix this t) x.
Proof.
  cbv zeta. intros Hin.
  pose proof (deletesInv_createEntries entries _ (deletesInv_new med pl ct)) as Hinv.
  apply Hinv in Hin as [Hw Hx]. split; [exact Hw|].
  apply editsPrefix_sound in Hx.
  destruct (createEntries_config entries (newSymSpell med pl ct)) as (Hmed & _).
  by rewrite Hmed in Hx.
Qed.

Lemma deletes_only_variants_of_words_witness :
  let this := createEntries (newSymSpell 2 7 1) [(js "steam", 3); (js "team", 2)] in
  inBucket this (js "tem") (js "steam") /\
  is_Some (words this !! js "steam") /\
  deletedFrom (Z.max 1 2) (termPrefix this (js "steam")) (js "tem").
Proof.
  assert (H : inBucket (createEntries (newSymSpell 2 7 1) [(js "steam", 3); (js "team", 2)])
                (js "tem") (js "steam")).
  { eexists. split; [vm_compute; reflexivity|]. vm_compute. left. }
  split; [exact H|].
  exact (deletes_only_variants_of_words 2 7 1 [(js "steam", 3); (js "team", 2)]
           (js "tem") (js "steam") H).
Defined.

(** ** No bucket lists a term twice *)

Lemma setAdd_NoDup (x : jsstring) (s : list jsstring) : NoDup s -> NoDup (setAdd x s).
Proof.
  intros Hs. unfold setAdd. destruct (decide (x ∈ s)); [exact Hs|].
  apply NoDup_app. split; [exact Hs|]. split; [|apply NoDup_singleton].
  intros y Hy Hy'. apply list_elem_of_singleton in Hy'. by subst y.
Qed.

Lemma edits_fuel_NoDup (med : Z) (fuel : nat) :
  forall (word : jsstring) (e : Z) (S0 : list jsstring),
    NoDup S0 -> NoDup (edits_fuel fuel med word e S0).
Proof.
  induction fuel as [|fuel IH]; intros word e S0 Hnd; [exact Hnd|].
  rewrite edits_fuel_S. destruct (1 <? length word)%nat; [|exact Hnd].
  unfold editsLoop. generalize (seq 0 (length word)). intros idxs.
  revert S0 Hnd. induction idxs as [|i idxs IHis]; intros S0 Hnd; simpl; [exact Hnd|].
  apply IHis. destruct (decide (deleteAt word i ∈ S0)) as [|Hnin]; [exact Hnd|].
  assert (Hnd' : NoDup (S0 ++ [deleteAt word i])).
  { apply NoDup_app. split; [exact Hnd|]. split; [|apply NoDup_singleton].
    intros y Hy Hy'. apply list_elem_of_singleton in Hy'. by subst y. }
  destruct (e + 1 <? med); [by apply IH|exact Hnd'].
Qed.

Lemma editsPrefix_NoDup (this : SymSpell) (key : jsstring) : NoDup (editsPrefix this key).
Proof.
  rewrite editsPrefix_eq. unfold edits. apply edits_fuel_NoDup, setAdd_NoDup.
  destruct (Z.of_nat (length key) <=? maxDictionaryEditDistance this);
    [apply setAdd_NoDup|]; apply NoDup_nil_2.
Qed.

(** The buckets after the [forEach] of [createDictionaryEntry] over a list
    without repetition. *)
Lemma pushDelete_fold_lookup (key : jsstring) (es : list jsstring) :
  NoDup es ->
  forall (d : gmap jsstring (list jsstring)) (x : jsstring),
    fold_left (pushDelete key) es d !! x
    = if decide (x ∈ es) then Some (default [] (d !! x) ++ [key]) else d !! x.
Proof.
  induction es as [|del es IH]; intros Hnd d x; simpl.
  - destruct (decide (x ∈ [])) as [H|]; [by apply elem_of_nil in H|done].
  - apply NoDup_cons in Hnd as [Hdel Hnd]. rewrite (IH Hnd). unfold pushDelete.
    destruct (decide (x = del)) as [->|Hne].
    + destruct (decide (del ∈ es)); [done|].
      destruct (decide (del ∈ del :: es)) as [|Hn]; [|exfalso; apply Hn; by left].
      by rewrite lookup_insert_eq.
    + rewrite lookup_insert_ne by done.
      destruct (decide (x ∈ es)) as [Hin|Hnin].
      * destruct (decide (x ∈ del :: es)) as [|Hn]; [done|exfalso; apply Hn; by right].
      * destruct (decide (x ∈ del :: es)) as [Hin|]; [|done].
        apply elem_of_cons in Hin as [?|?]; done.
Qed.

Lemma bucketsNoDup_promote (this : SymSpell) (key : jsstring) (c : Z) :
  deletesInv this -> words this !! key = None ->
  bucketsNoDup this -> bucketsNoDup (promote this key c).2.
Proof.
  intros Hdel Hw Hnd x bucket.
  destruct (promote_spec this key c) as (_ & _ & _ & _ & _ & _ & _ & ->).
  rewrite (pushDelete_fold_lookup key _ (editsPrefix_NoDup this key)).
  destruct (decide (x ∈ editsPrefix this key)); [|apply Hnd].
  intros [= <-]. apply NoDup_app.
  assert (Hfresh : key ∉ default [] (deletes this !! x)).
  { intros Hin. destruct (deletes this !! x) as [b|] eqn:Hb; [|by apply elem_of_nil in Hin].
    assert (Hbucket : inBucket this x key) by by exists b.
    apply Hdel in Hbucket as [[? Hsome] _]. congruence. }
  split; [|split; [|apply NoDup_singleton]].
  - destruct (deletes this !! x) as [b|] eqn:Hb; [by apply (Hnd x)|apply NoDup_nil_2].
  - intros y Hy Hy'. apply list_elem_of_singleton in Hy'. by subst y.
Qed.

Lemma bucketsNoDup_step (this : SymSpell) (key : jsstring) (c : Z) :
  deletesInv this -> stagingInv this ->
  bucketsNoDup this -> bucketsNoDup (createDictionaryEntry this key c).2.
Proof.
  intros Hdel Hst Hnd.
  destruct (createDictionaryEntry_outcome this key c)
    as [ | p Hgt Hb Hacc | p Hgt Hb Hacc | p Hb Hw | Hb Hw Hlt | Hb Hw Hge ]; cbn [snd];
    try exact Hnd.
  - apply bucketsNoDup_promote; [exact Hdel| |exact Hnd].
    simpl. apply Hst. by eexists.
  - by apply bucketsNoDup_promote.
Qed.

(** After any sequence of calls on a new index, no bucket of the Deletes
    map lists a term twice: a term is entered in the buckets when it becomes
    a word, which happens once, and [editsPrefix] yields each variant
    once. *)
Theorem deletes_buckets_have_no_duplicates (med pl ct : Z) (entries : list (jsstring * Z))
    (x : jsstring) (bucket : list jsstring) :
  deletes (createEntries (newSymSpell med pl ct) entries) !! x = Some bucket ->
  NoDup bucket.
Proof.
  assert (Hall : forall es this,
             deletesInv this -> stagingInv this -> bucketsNoDup this ->
             bucketsNoDup (createEntries this es)).
  { induction es as [|e es IH]; intros this Hdel Hst Hnd; [exact Hnd|].
    rewrite createEntries_cons. apply IH.
    - by apply deletesInv_step.
    - by apply stagingInv_step.
    - by apply bucketsNoDup_step. }
  apply (Hall entries (newSymSpell med pl ct)).
  - apply deletesInv_new.
  - apply stagingInv_new.
  - intros y b Hb. simpl in Hb. by rewrite lookup_empty in Hb.
Qed.

Lemma deletes_buckets_have_no_duplicates_witness :
  deletes (createEntries (newSymSpell 2 7 1)
             [(js "steam", 3); (js "team", 2); (js "steam", 1)]) !! js "tem"
  = Some [js "steam"; js "team"] /\
  NoDup [js "steam"; js "team"].
Proof.
  assert (H : deletes (createEntries (newSymSpell 2 7 1)
                         [(js "steam", 3); (js "team", 2); (js "steam", 1)]) !! js "tem"
              = Some [js "steam"; js "team"]).
  { vm_compute. reflexivity. }
  split; [exact H|].
  exact (deletes_buckets_have_no_duplicates 2 7 1
           [(js "steam", 3); (js "team", 2); (js "steam", 1)] (js "tem") _ H).
Defined.

(** ** [deleteInSuggestionPrefix] *)

Section DeleteInSuggestionPrefix.

Variables (suggestion : jsstring) (n : nat).
Hypothesis n_le : (n <= length suggestion)%nat.

Local Abbreviation sl := (Z.of_nat n).
Local Abbreviation l := (take n suggestion).

(** The [while] loop stops at the first position from [j] on that holds
    [c], or at [n]. *)
Lemma scanSuggestion_spec (c : N) (fuel : nat) :
  forall j : nat,
    (j <= n)%nat -> (n - j <= fuel)%nat ->
    let j' := scanSuggestion suggestion sl (Some c) fuel j in
    (j <= j' <= n)%nat /\
    (forall i, (j <= i < j')%nat -> suggestion !! i <> Some c) /\
    ((j' < n)%nat -> suggestion !! j' = Some c).
Proof.
  induction fuel as [|fuel IH]; intros j Hj Hfuel; simpl.
  - split; [lia|]. split; intros; lia.
  - destruct (Z.ltb_spec (Z.of_nat j) sl) as [Hlt|Hge]; simpl.
    + destruct (bool_decide_reflect (Some c = suggestion !! j)) as [Heq|Hne]; simpl.
      * split; [lia|]. split; [intros; lia|done].
      * destruct (IH (S j) ltac:(lia) ltac:(lia)) as (H1 & H2 & H3).
        split; [lia|]. split; [|exact H3].
        intros i Hi. destruct (decide (i = j)) as [->|]; [congruence|]. apply H2. lia.
    + split; [lia|]. split; intros; lia.
Qed.

Local Abbreviation scan := (fun c j => scanSuggestion suggestion sl (Some c) (Z.to_nat (sl - Z.of_nat j)) j).
Local Abbreviation loop := (deleteInSuggestionPrefixLoop suggestion sl).

Lemma loop_cons (c : N) (d : jsstring) (j : nat) :
  (j <= n)%nat ->
  loop (c :: d) j = true <->
  ((scan c j < n)%nat /\ loop d (scan c j) = true).
Proof.
  intros Hj. cbn [deleteInSuggestionPrefixLoop]. cbv zeta.
  destruct (scanSuggestion_spec c (Z.to_nat (sl - Z.of_nat j)) j Hj ltac:(lia)) as (H1 & _).
  cbv zeta in H1. destruct (Z.eqb_spec (Z.of_nat (scan c j)) sl) as [Heq|Hne].
  - split; [discriminate|]. intros [Hlt _]. lia.
  - split; [intros H; split; [lia|exact H]|by intros [_ H]].
Qed.

Lemma scan_mono (c : N) (j j2 : nat) :
  (j <= j2 <= n)%nat -> (scan c j <= scan c j2)%nat.
Proof.
  intros Hj.
  destruct (scanSuggestion_spec c (Z.to_nat (sl - Z.of_nat j)) j ltac:(lia) ltac:(lia))
    as (A1 & A2 & A3).
  destruct (scanSuggestion_spec c (Z.to_nat (sl - Z.of_nat j2)) j2 ltac:(lia) ltac:(lia))
    as (B1 & B2 & B3).
  cbv zeta in *. destruct (Nat.le_gt_cases (scan c j) (scan c j2)) as [|Hgt]; [done|].
  exfalso. apply (A2 (scan c j2)); [lia|]. apply B3. lia.
Qed.

(** Starting further left can only help. *)
Lemma loop_antitone (d : jsstring) :
  forall j j2 : nat, (j <= j2 <= n)%nat -> loop d j2 = true -> loop d j = true.
Proof.
  induction d as [|c d IH]; intros j j2 Hj H; [reflexivity|].
  apply loop_cons in H as [Hlt Hrest]; [|lia]. apply loop_cons; [lia|].
  pose proof (scan_mono c j j2 Hj). split; [lia|].
  apply (IH _ (scan c j2)); [lia|exact Hrest].
Qed.

Lemma looselyEmbedded_drop (d : jsstring) (j j2 : nat) :
  (j <= j2)%nat -> looselyEmbedded d (drop j2 l) -> looselyEmbedded d (drop j l).
Proof.
  intros Hj. induction Hj as [|j2 Hj IH]; [done|]. intros H. apply IH.
  destruct (l !! j2) as [x|] eqn:Hx.
  - rewrite (drop_S _ _ _ Hx). by apply loose_skip.
  - apply lookup_ge_None in Hx. rewrite drop_ge in H by lia. by rewrite drop_ge by lia.
Qed.

Lemma loop_embedded (d : jsstring) :
  forall j : nat, (j <= n)%nat -> loop d j = true -> looselyEmbedded d (drop j l).
Proof.
  induction d as [|c d IH]; intros j Hj H; [apply loose_nil|].
  apply loop_cons in H as [Hlt Hrest]; [|lia].
  destruct (scanSuggestion_spec c (Z.to_nat (sl - Z.of_nat j)) j Hj ltac:(lia))
    as (H1 & _ & H3). cbv zeta in *.
  apply (looselyEmbedded_drop _ j (scan c j)); [lia|].
  assert (Hc : l !! scan c j = Some c).
  { rewrite lookup_take_lt by lia. by apply H3. }
  rewrite (drop_S _ _ _ Hc). apply loose_match. rewrite <- (drop_S _ _ _ Hc).
  apply IH; [lia|exact Hrest].
Qed.

Lemma embedded_loop (d l' : jsstring) :
  looselyEmbedded d l' ->
  forall j : nat, (j <= n)%nat -> l' = drop j l -> loop d j = true.
Proof.
  induction 1 as [l0|c d l0 _ IH|d x l0 _ IH]; intros j Hj Heq; [reflexivity| |].
  - assert (Hc : l !! j = Some c).
    { rewrite <- (Nat.add_0_r j), <- lookup_drop, <- Heq. reflexivity. }
    assert (Hjn : (j < n)%nat).
    { apply lookup_lt_Some in Hc. rewrite length_take in Hc. lia. }
    rewrite lookup_take_lt in Hc by lia.
    destruct (scanSuggestion_spec c (Z.to_nat (sl - Z.of_nat j)) j Hj ltac:(lia))
      as (H1 & H2 & _). cbv zeta in *.
    assert (Hstay : scan c j = j).
    { destruct (decide (scan c j = j)) as [|Hne]; [done|].
      exfalso. apply (H2 j); [lia|exact Hc]. }
    apply loop_cons; [lia|]. rewrite Hstay. split; [lia|]. by apply IH.
  - assert (Hx : l !! j = Some x).
    { rewrite <- (Nat.add_0_r j), <- lookup_drop, <- Heq. reflexivity. }
    assert (Hjn : (j < n)%nat).
    { apply lookup_lt_Some in Hx. rewrite length_take in Hx. lia. }
    apply (loop_antitone d j (S j)); [lia|]. apply IH; [lia|].
    rewrite (drop_S _ _ _ Hx) in Heq. congruence.
Qed.

End DeleteInSuggestionPrefix.

Lemma sublist_looselyEmbedded (d l : jsstring) :
  d `sublist_of` l -> looselyEmbedded d l.
Proof.
  induction 1 as [|c d l _ IH|x d l _ IH].
  - apply loose_nil.
  - apply loose_match, loose_skip, IH.
  - apply loose_skip, IH.
Qed.

(** As [lookup] calls it (with the lengths of the two strings), and for a
    prefix length that is not negative, [deleteInSuggestionPrefix] accepts
    exactly the deletes that can be read off the first [prefixLength]
    characters of the suggestion from left to right, a character of the
    suggestion being allowed to serve for several equal characters in a row;
    so it accepts every delete that is a subsequence of that prefix. *)
Theorem deleteInSuggestionPrefix_accepts (this : SymSpell) (del suggestion : jsstring) :
  0 <= prefixLength this ->
  let r := deleteInSuggestionPrefix this del (Z.of_nat (length del))
             suggestion (Z.of_nat (length suggestion)) in
  let prefix := take (Z.to_nat (prefixLength this)) suggestion in
  (r = true <-> looselyEmbedded del prefix) /\
  (del `sublist_of` prefix -> r = true).
Proof.
  intros Hpl. cbv zeta.
  assert (Hiff : deleteInSuggestionPrefix this del (Z.of_nat (length del))
                   suggestion (Z.of_nat (length suggestion)) = true
                 <-> looselyEmbedded del (take (Z.to_nat (prefixLength this)) suggestion)).
  { unfold deleteInSuggestionPrefix.
    destruct (Z.eqb_spec (Z.of_nat (length del)) 0) as [H0|Hpos].
    { destruct del; [|simpl in H0; lia]. split; [intros; apply loose_nil|done]. }
    rewrite Nat2Z.id, firstn_all.
    set (n := Nat.min (Z.to_nat (prefixLength this)) (length suggestion)).
    assert (Hsl : (if prefixLength this <? Z.of_nat (length suggestion)
                   then prefixLength this else Z.of_nat (length suggestion)) = Z.of_nat n).
    { destruct (Z.ltb_spec (prefixLength this) (Z.of_nat (length suggestion))); lia. }
    rewrite Hsl.
    assert (Htake : take (Z.to_nat (prefixLength this)) suggestion = take n suggestion).
    { unfold n. destruct (Nat.le_gt_cases (Z.to_nat (prefixLength this)) (length suggestion)).
      - by rewrite Nat.min_l.
      - rewrite Nat.min_r by lia. by rewrite !take_ge by lia. }
    rewrite Htake. split.
    - intros H. rewrite <- (drop_0 (take n suggestion)).
      apply (loop_embedded suggestion n); [lia|lia|exact H].
    - intros H. apply (embedded_loop suggestion n ltac:(lia) del _ H 0%nat); [lia|].
      by rewrite drop_0. }
  split; [exact Hiff|]. intros Hsub. apply Hiff. by apply sublist_looselyEmbedded.
Qed.

Lemma deleteInSuggestionPrefix_accepts_witness :
  let this := defaultSymSpell in
  let r := deleteInSuggestionPrefix this (js "tem") (Z.of_nat (length (js "tem")))
             (js "steam") (Z.of_nat (length (js "steam"))) in
  let prefix := take (Z.to_nat (prefixLength this)) (js "steam") in
  (r = true <-> looselyEmbedded (js "tem") prefix) /\
  (js "tem" `sublist_of` prefix -> r = true).
Proof.
  apply (deleteInSuggestionPrefix_accepts defaultSymSpell (js "tem") (js "steam")).
  vm_compute. discriminate.
Defined.

(** The loop does not move past a matched character: "aa" is accepted for
    the suggestion "ab", of which it is not a subsequence. *)
Example deleteInSuggestionPrefix_repeats :
  deleteInSuggestionPrefix defaultSymSpell (js "aa") 2 (js "ab") 2 = true /\
  ~ js "aa" `sublist_of` js "ab".
Proof.
  split; [vm_compute; reflexivity|].
  change (js "aa") with [97; 97]%N. change (js "ab") with [97; 98]%N.
  intros H.
  repeat match goal with
         | H : _ `sublist_of` _ |- _ => inversion H; clear H; subst
         end.
Qed.

(* ===================================================================== *)
(** * Part IX. Further properties of [lookup]                             *)
(* ===================================================================== *)

(** ** The distance to a string of one character *)

Lemma osa_dp_column_one (a b : jsstring) (p : nat) :
  a !! p = b !! 0%nat ->
  forall n : nat, osa_dp a b (S p + n) 1 <= Z.of_nat (p + n).
Proof.
  intros Hp. induction n as [|n IH].
  - rewrite !Nat.add_0_r, (osa_dp_equal a b p 0 Hp).
    pose proof (osa_dp_0_r a b p) as H0. lia.
  - replace (S p + S n)%nat with (S (S p + n)) by lia.
    pose proof (osa_dp_step_down a b (S p + n) 1). lia.
Qed.

Lemma osa_ref_single_in (input : jsstring) (c : N) :
  c ∈ input -> osa_ref input [c] <= Z.of_nat (length input) - 1.
Proof.
  intros Hin. apply list_elem_of_lookup in Hin as [p Hp].
  pose proof (lookup_lt_Some _ _ _ Hp) as Hlt.
  unfold osa_ref. replace (length input) with (S p + (length input - S p))%nat by lia.
  change (length [c]) with 1%nat.
  etrans; [apply osa_dp_column_one; by rewrite Hp|lia].
Qed.

(** ** Invariants of the candidate loop *)

Section LoopInvariant.

Variables (this : SymSpell) (verbosity : Verbosity) (maxEditDistance : Z)
          (input : jsstring) (inputLen inputPrefixLen : Z).

(** [exact]: the lengths that the loop works with are those of [input]
    (they are not when the casing is transferred and lower-casing changes
    the length). *)
Variable exact : Prop.
Hypothesis exact_len : exact -> inputLen = Z.of_nat (length input).

Variable P : LoopState -> Prop.

Hypothesis P_ext : forall st st',
  ls_suggestions st' = ls_suggestions st ->
  ls_maxEditDistance2 st' = ls_maxEditDistance2 st ->
  P st -> P st'.

Hypothesis P_record : forall candidate bucket suggestion distance st,
  deletes this !! candidate = Some bucket -> suggestion ∈ bucket ->
  suggestion <> input ->
  (exact -> 0 <= distance /\ osa_ref input suggestion <= distance) ->
  distance <= ls_maxEditDistance2 st ->
  P st -> P (recordSuggestion this verbosity suggestion distance st).

Lemma recordSuggestion_P candidate bucket suggestion distance st :
  deletes this !! candidate = Some bucket -> suggestion ∈ bucket ->
  suggestion <> input ->
  (exact -> 0 <= distance /\ osa_ref input suggestion <= distance) ->
  P st -> P (recordSuggestion this verbosity suggestion distance st).
Proof.
  intros Hb Hin Hne Hd HP.
  destruct (Z.leb_spec distance (ls_maxEditDistance2 st)) as [Hle|Hgt].
  - by apply (P_record candidate bucket).
  - unfold recordSuggestion. destruct (Z.leb_spec distance (ls_maxEditDistance2 st)); [lia|done].
Qed.

Lemma suggestionBody_P candidate bucket st suggestion :
  deletes this !! candidate = Some bucket -> suggestion ∈ bucket ->
  (exact -> (length candidate <= length input)%nat) ->
  P st ->
  P (suggestionBody this verbosity maxEditDistance input inputLen inputPrefixLen
       candidate st suggestion).
Proof.
  intros Hb Hin Hcand HP. unfold suggestionBody. cbv zeta.
  destruct (decide (suggestion = input)) as [|Hne]; [exact HP|].
  destruct (_ || _ || _); [exact HP|].
  destruct (_ && _); [exact HP|].
  destruct (Z.eqb_spec (Z.of_nat (length candidate)) 0) as [Hc0|Hc0].
  { destruct (_ || _); [exact HP|].
    apply (recordSuggestion_P candidate bucket); auto.
    intros Hex. rewrite (exact_len Hex).
    pose proof (osa_ref_upper input suggestion). lia. }
  destruct (Z.eqb_spec (Z.of_nat (length suggestion)) 1) as [Hs1|Hs1].
  { destruct (_ || _); [exact HP|].
    apply (recordSuggestion_P candidate bucket); auto.
    intros Hex. rewrite (exact_len Hex). specialize (Hcand Hex).
    destruct suggestion as [|c [|c' s']]; try (simpl in Hs1; lia).
    cbn [lookup list_lookup notIn].
    pose proof (osa_ref_upper input [c]) as Hup. simpl in Hup.
    destruct (bool_decide_reflect (c ∈ input)) as [Hcin|Hcin]; simpl.
    - pose proof (osa_ref_single_in input c Hcin). lia.
    - lia. }
  match goal with
  | |- context [if ?c then st else _] => destruct c; [exact HP|]
  end.
  match goal with
  | |- context [if ?c then st else _] => destruct c; [exact HP|]
  end.
  unfold EditDistance_compare.
  pose proof (distance_result (ls_distanceComparer st) input suggestion
                (ls_maxEditDistance2 st)) as Hd.
  destruct (EditDistance_distance _ _ _ _) as [d comparer]. cbn [fst] in Hd. subst d.
  set (st1 := mkLoop _ _ _ _ _).
  assert (HP1 : P st1) by (by apply (P_ext st)).
  match goal with
  | |- context [if ?v <? 0 then _ else _] => set (d := v)
  end.
  destruct (Z.ltb_spec d 0) as [Hneg|Hpos]; [exact HP1|].
  apply (recordSuggestion_P candidate bucket); auto.
  intros _. split; [exact Hpos|]. unfold d in *.
  destruct (ls_maxEditDistance2 st <=? 0).
  - destruct (decide (input = suggestion)); [congruence|lia].
  - destruct (osa_ref input suggestion <=? _); lia.
Qed.

Lemma pushDeletes_P candidate queue st :
  P st -> P (pushDeletes candidate queue st).2.
Proof.
  unfold pushDeletes. generalize (seq 0 (length candidate)). intros idxs.
  revert queue st. induction idxs as [|i idxs IH]; intros queue st HP; [exact HP|].
  simpl. destruct (bool_decide _); [by apply IH|]. apply IH. by apply (P_ext st).
Qed.

Lemma pushDeletes_lengths candidate queue st (n : nat) :
  (length candidate <= n)%nat ->
  Forall (fun c => (length c <= n)%nat) queue ->
  Forall (fun c => (length c <= n)%nat) (pushDeletes candidate queue st).1.
Proof.
  intros Hc. unfold pushDeletes.
  assert (Hidx : forall i, i ∈ seq 0 (length candidate) -> (i < length candidate)%nat).
  { intros i Hi. apply elem_of_seq in Hi. lia. }
  revert Hidx. generalize (seq 0 (length candidate)). intros idxs.
  revert queue st. induction idxs as [|i idxs IH]; intros queue st Hidx Hq; [exact Hq|].
  simpl. destruct (bool_decide _).
  - apply IH; [|exact Hq]. intros j Hj. apply Hidx. by right.
  - apply IH; [intros j Hj; apply Hidx; by right|].
    apply Forall_app. split; [exact Hq|]. apply Forall_singleton.
    rewrite deleteAt_length; [lia|]. apply Hidx. by left.
Qed.

Lemma lookupLoop_P (fuel : nat) :
  forall queue st st',
    (exact -> Forall (fun c => (length c <= length input)%nat) queue) ->
    P st ->
    lookupLoop fuel this verbosity maxEditDistance input inputLen inputPrefixLen queue st
    = Some st' ->
    P st'.
Proof.
  induction fuel as [|fuel IH]; intros [|candidate queue] st st' Hq HP Hrun;
    simpl in Hrun; try (by injection Hrun as <-); try discriminate.
  assert (Hq' : exact -> Forall (fun c => (length c <= length input)%nat) queue).
  { intros Hex. specialize (Hq Hex). by apply Forall_cons in Hq as [_ ?]. }
  assert (Hc : exact -> (length candidate <= length input)%nat).
  { intros Hex. specialize (Hq Hex). by apply Forall_cons in Hq as [? _]. }
  destruct (inputPrefixLen - Z.of_nat (length candidate) >? ls_maxEditDistance2 st).
  { destruct (Verbosity_eqb verbosity ALL); [by apply (IH queue st)|by injection Hrun as <-]. }
  set (st1 := match deletes this !! candidate with Some _ => _ | None => _ end) in Hrun.
  assert (HP1 : P st1).
  { unfold st1. destruct (deletes this !! candidate) as [bucket|] eqn:Hb; [|exact HP].
    assert (Hfold : forall (l : list jsstring) s,
               (forall x, x ∈ l -> x ∈ bucket) -> P s ->
               P (fold_left (suggestionBody this verbosity maxEditDistance input inputLen
                               inputPrefixLen candidate) l s)).
    { induction l as [|x l IHl]; intros s Hl Hs; [exact Hs|]. simpl. apply IHl.
      - intros y Hy. apply Hl. by right.
      - apply (suggestionBody_P candidate bucket); auto. apply Hl. by left. }
    by apply Hfold. }
  clearbody st1.
  destruct (_ && _); [|by apply (IH queue st1)].
  destruct (_ && _); [by apply (IH queue st1)|].
  pose proof (pushDeletes_P candidate queue st1 HP1) as HP2.
  assert (Hq2 : exact -> Forall (fun c => (length c <= length input)%nat)
                           (pushDeletes candidate queue st1).1).
  { intros Hex. apply pushDeletes_lengths; auto. }
  destruct (pushDeletes candidate queue st1) as [queue2 st2].
  by apply (IH queue2 st2).
Qed.

End LoopInvariant.

(** ** What [recordSuggestion] does to the list *)

Lemma recordSuggestion_elems (this : SymSpell) (verbosity : Verbosity)
    (suggestion : jsstring) (distance : Z) (st : LoopState) (s : SuggestItem) :
  s ∈ ls_suggestions (recordSuggestion this verbosity suggestion distance st) ->
  s ∈ ls_suggestions st \/
  s = mkSuggestItem suggestion distance (default 0 (words this !! suggestion)).
Proof.
  unfold recordSuggestion. destruct (distance <=? ls_maxEditDistance2 st); [|by left].
  cbv zeta. destruct (ls_suggestions st) as [|s0 rest] eqn:Hl, verbosity; simpl;
    repeat match goal with |- context [if ?c then _ else _] => destruct c end;
    simpl; rewrite ?Hl; intros H;
    repeat (apply elem_of_app in H as [H|H] || apply elem_of_cons in H as [H|H]);
    try (by apply elem_of_nil in H); try subst s;
    first [by right | left; by right | left; by left | by left].
Qed.

Lemma recordSuggestion_bound (this : SymSpell) (verbosity : Verbosity)
    (suggestion : jsstring) (distance : Z) (st : LoopState) :
  ls_maxEditDistance2 (recordSuggestion this verbosity suggestion distance st)
  <= ls_maxEditDistance2 st.
Proof.
  unfold recordSuggestion.
  destruct (Z.leb_spec distance (ls_maxEditDistance2 st)); [|lia].
  cbv zeta. destruct (ls_suggestions st) as [|s0 rest], verbosity; simpl;
    repeat match goal with |- context [if ?c then _ else _] => destruct c end;
    simpl; lia.
Qed.

(** ** The paths of [lookup] *)

Lemma elem_of_sortSuggestions (s : SuggestItem) (l : list SuggestItem) :
  s ∈ sortSuggestions l <-> s ∈ l.
Proof.
  induction l as [|x l IH]; simpl; [done|].
  rewrite sortInsert_elem, elem_of_cons, IH. tauto.
Qed.

Lemma elem_of_rev_sort (s : SuggestItem) (l : list SuggestItem) :
  s ∈ rev (sortSuggestions l) <-> s ∈ l.
Proof.
  rewrite rev_alt. change (rev_append (sortSuggestions l) []) with (reverse (sortSuggestions l)).
  by rewrite elem_of_reverse, elem_of_sortSuggestions.
Qed.

Section LookupPaths.

Variable toLowerCase : jsstring -> jsstring.
Variable transferCasingSimilar : jsstring -> jsstring -> jsstring.

Local Abbreviation lookup := (SymSpell_lookup toLowerCase transferCasingSimilar).

(** The list that [lookup] hands to [earlyExit], path by path. *)
Lemma lookup_shape (this : SymSpell) (input : jsstring) (verbosity : Verbosity)
    (maxEditDistance : option Z) (opts : LookupOptions) :
  let med := default (maxDictionaryEditDistance this) maxEditDistance in
  let inp := if transferCasing opts then toLowerCase input else input in
  let original := if transferCasing opts then input else [] in
  let inputLen := Z.of_nat (length input) in
  let inputPrefixLen :=
    if inputLen >? prefixLength this then prefixLength this else inputLen in
  let candidate :=
    if inputLen >? prefixLength this then substr inp 0 inputPrefixLen else inp in
  let init := initialSuggestions this opts inp in
  exists l,
    lookup this input verbosity maxEditDistance opts = earlyExit opts inp med l /\
    ((l = [] /\ inputLen - med > maxDictionaryWordLength this) \/
     (verbosity <> ALL /\ init <> [] /\ l = take 1 init) \/
     ((verbosity = ALL \/ init = []) /\ med = 0 /\ l = init) \/
     ((verbosity = ALL \/ init = []) /\ med <> 0 /\
      exists st,
        lookupLoop (lookupFuel (length candidate)) this verbosity med inp inputLen
          inputPrefixLen [candidate] (mkLoop init med ∅ {[inp]} newEditDistance) = Some st /\
        l = finishSuggestions transferCasingSimilar opts original (ls_suggestions st))).
Proof.
  cbv zeta. unfold SymSpell_lookup, initialSuggestions.
  set (med := default (maxDictionaryEditDistance this) maxEditDistance).
  set (inp := if transferCasing opts then toLowerCase input else input).
  set (original := if transferCasing opts then input else []).
  set (inputLen := Z.of_nat (length input)).
  destruct (Z.gtb_spec (inputLen - med) (maxDictionaryWordLength this)) as [Hlong|_].
  { exists []. split; [reflexivity|]. left. split; [reflexivity|lia]. }
  set (ignored := match ignoreToken opts with Some m => m inp | None => false end).
  set (candidate := if inputLen >? prefixLength this then _ else inp).
  set (inputPrefixLen := if inputLen >? prefixLength this then prefixLength this else inputLen).
  assert (Hloop : forall init,
             exists st,
               lookupLoop (lookupFuel (length candidate)) this verbosity med inp inputLen
                 inputPrefixLen [candidate] (mkLoop init med ∅ {[inp]} newEditDistance)
               = Some st).
  { intros init. apply lookupLoop_total. simpl. lia. }
  destruct (words this !! inp) as [c|] eqn:Hfound; cbn [app bool_decide].
  - replace (bool_decide (is_Some (Some c))) with true
      by (symmetry; apply bool_decide_eq_true; by eexists).
    destruct verbosity; cbn [Verbosity_eqb negb andb].
    + eexists. split; [reflexivity|]. right. left.
      split; [done|]. by destruct ignored.
    + eexists. split; [reflexivity|]. right. left.
      split; [done|]. by destruct ignored.
    + rewrite andb_false_r.
      destruct (Z.eqb_spec med 0) as [Hmed|Hmed].
      * eexists. split; [reflexivity|]. right. right. left.
        split; [by left|]. split; [done|]. by destruct ignored.
      * destruct (Hloop (if ignored then [mkSuggestItem inp 0 c; mkSuggestItem inp 0 1]
                         else [mkSuggestItem inp 0 c])) as (st & Hst).
        eexists. split; [|right; right; right; split; [by left|split; [done|]]].
        -- destruct ignored; cbn [app]; rewrite Hst; reflexivity.
        -- exists st. by destruct ignored.
  - replace (bool_decide (is_Some (@None Z))) with false
      by (symmetry; apply bool_decide_eq_false; by intros [? ?]).
    cbn [andb app].
    destruct ignored eqn:Hig.
    + destruct verbosity; cbn [Verbosity_eqb negb andb].
      * eexists. split; [reflexivity|]. right. left. by split.
      * eexists. split; [reflexivity|]. right. left. by split.
      * destruct (Z.eqb_spec med 0) as [Hmed|Hmed].
        -- eexists. split; [reflexivity|]. right. right. left. split; [by left|done].
        -- destruct (Hloop [mkSuggestItem inp 0 1]) as (st & Hst).
           eexists. split; [rewrite Hst; reflexivity|].
           right; right; right. split; [by left|]. split; [done|]. by exists st.
    + destruct (Z.eqb_spec med 0) as [Hmed|Hmed].
      * eexists. split; [reflexivity|]. right. right. left. split; [by right|done].
      * destruct (Hloop []) as (st & Hst).
        eexists. split; [rewrite Hst; reflexivity|].
        right; right; right. split; [by right|]. split; [done|]. by exists st.
Qed.

End LookupPaths.

(** ** What [lookup] guarantees *)

Lemma earlyExit_cases (opts : LookupOptions) (input : jsstring) (med : Z)
    (l : list SuggestItem) :
  earlyExit opts input med l = l \/
  (includeUnknown opts = true /\ l = [] /\
   earlyExit opts input med l = [mkSuggestItem input (med + 1) 0]).
Proof.
  unfold earlyExit. destruct (includeUnknown opts); [|by left].
  destruct l; [right; by split|by left].
Qed.

Lemma finishSuggestions_length tcs opts original (l : list SuggestItem) :
  length (finishSuggestions tcs opts original l) = length l.
Proof.
  unfold finishSuggestions. cbv zeta.
  destruct (transferCasing opts); rewrite ?length_fmap;
    (destruct (1 <? length l)%nat; [by rewrite length_rev, sortSuggestions_length|done]).
Qed.

Lemma finishSuggestions_elem tcs opts original (l : list SuggestItem) (s : SuggestItem) :
  s ∈ finishSuggestions tcs opts original l ->
  exists s0, s0 ∈ l /\ distance s = distance s0 /\ count s = count s0 /\
             (transferCasing opts = false -> s = s0).
Proof.
  unfold finishSuggestions. cbv zeta.
  assert (Hsort : forall x, x ∈ (if (1 <? length l)%nat then rev (sortSuggestions l) else l)
                            -> x ∈ l).
  { intros x. destruct (1 <? length l)%nat; [by rewrite elem_of_rev_sort|done]. }
  destruct (transferCasing opts).
  - intros Hs. apply list_elem_of_fmap in Hs as (s0 & -> & Hs0).
    exists s0. split; [by apply Hsort|]. by repeat split.
  - intros Hs. exists s. split; [by apply Hsort|]. by repeat split.
Qed.

Lemma sorted_head_least (l : list SuggestItem) (x : SuggestItem) :
  sortedSuggestions l -> x ∈ l ->
  (forall y, y ∈ l -> y = x \/ distance x < distance y) ->
  head l = Some x.
Proof.
  intros Hs Hx Hleast. destruct l as [|h tl]; [by apply elem_of_nil in Hx|].
  simpl. f_equal. destruct (Hleast h ltac:(left)) as [->|Hlt]; [done|].
  apply elem_of_cons in Hx as [->|Hx]; [done|].
  apply list_elem_of_lookup in Hx as [j Hj].
  specialize (Hs 0%nat (S j) h x ltac:(lia) eq_refl Hj). unfold precedes in Hs. lia.
Qed.

Lemma substr_0_le (s : jsstring) (n : Z) : (length (substr s 0 n) <= length s)%nat.
Proof. unfold substr. rewrite length_take, length_drop. lia. Qed.

Section LookupGuarantees.

Variable toLowerCase : jsstring -> jsstring.
Variable transferCasingSimilar : jsstring -> jsstring -> jsstring.

Local Abbreviation lookup := (SymSpell_lookup toLowerCase transferCasingSimilar).

(** Under [Verbosity.TOP], [lookup] returns at most one suggestion, for
    every index, input, distance and options. *)
Theorem lookup_top_at_most_one (this : SymSpell) (input : jsstring)
    (maxEditDistance : option Z) (opts : LookupOptions) :
  (length (lookup this input TOP maxEditDistance opts) <= 1)%nat.
Proof.
  destruct (lookup_shape toLowerCase transferCasingSimilar this input TOP maxEditDistance opts)
    as (l & -> & Hl). cbv zeta in Hl.
  assert (Hlen : (length l <= 1)%nat).
  { destruct Hl as [[-> _]|[(_ & _ & ->)|[([|Hinit] & _ & ->)|([|Hinit] & _ & st & Hst & ->)]]];
      try discriminate.
    - simpl. lia.
    - rewrite length_take. lia.
    - rewrite Hinit. simpl. lia.
    - rewrite finishSuggestions_length. rewrite Hinit in Hst.
      refine (lookupLoop_P this TOP _ _ _ _ False (False_ind _)
                (fun st => (length (ls_suggestions st) <= 1)%nat) _ _ _ _ _ _ _ _ Hst).
      + intros st1 st2 Heq _. by rewrite Heq.
      + intros candidate bucket suggestion d st1 _ _ _ _ Hd Hlen.
        unfold recordSuggestion. destruct (d <=? ls_maxEditDistance2 st1); [|exact Hlen].
        destruct (ls_suggestions st1) as [|s0 rest] eqn:Hs; simpl.
        * rewrite Hs. simpl. lia.
        * destruct (_ || _); simpl; [|by rewrite Hs]. simpl in Hlen. lia.
      + done.
      + simpl. lia. }
  destruct (earlyExit_cases opts (if transferCasing opts then toLowerCase input else input)
              (default (maxDictionaryEditDistance this) maxEditDistance) l)
    as [->|(_ & _ & ->)]; [exact Hlen|simpl; lia].
Qed.

(** Under [Verbosity.CLOSEST], all the suggestions that [lookup] returns
    have the same distance, for every index, input, distance and options. *)
Theorem lookup_closest_same_distance (this : SymSpell) (input : jsstring)
    (maxEditDistance : option Z) (opts : LookupOptions) (a b : SuggestItem) :
  a ∈ lookup this input CLOSEST maxEditDistance opts ->
  b ∈ lookup this input CLOSEST maxEditDistance opts ->
  distance a = distance b.
Proof.
  destruct (lookup_shape toLowerCase transferCasingSimilar this input CLOSEST maxEditDistance
              opts) as (l & -> & Hl). cbv zeta in Hl.
  assert (Hsame : forall x y, x ∈ l -> y ∈ l -> distance x = distance y).
  { assert (Hshort : (length l <= 1)%nat ->
                     forall x y, x ∈ l -> y ∈ l -> distance x = distance y).
    { intros Hlen x y Hx Hy. destruct l as [|z [|z' l']]; simpl in Hlen; try lia.
      - by apply elem_of_nil in Hx.
      - apply list_elem_of_singleton in Hx, Hy. by subst. }
    destruct Hl as [[-> _]|[(_ & _ & ->)|[([|Hinit] & _ & ->)|([|Hinit] & _ & st & Hst & ->)]]];
      try discriminate.
    - apply Hshort. simpl. lia.
    - apply Hshort. rewrite length_take. lia.
    - apply Hshort. rewrite Hinit. simpl. lia.
    - rewrite Hinit in Hst.
      assert (Hinv : forall s, s ∈ ls_suggestions st -> distance s = ls_maxEditDistance2 st).
      { refine (lookupLoop_P this CLOSEST _ _ _ _ False (False_ind _)
                  (fun st => forall s, s ∈ ls_suggestions st ->
                                       distance s = ls_maxEditDistance2 st)
                  _ _ _ _ _ _ _ _ Hst).
        - intros st1 st2 Hs Hm Hinv. rewrite Hs, Hm. exact Hinv.
        - intros candidate bucket suggestion d st1 _ _ _ _ Hd Hinv s.
          unfold recordSuggestion.
          destruct (Z.leb_spec d (ls_maxEditDistance2 st1)); [|lia].
          destruct (ls_suggestions st1) as [|s0 rest] eqn:Hs; simpl.
          + rewrite Hs. simpl. intros Hin. apply list_elem_of_singleton in Hin. by subst s.
          + destruct (Z.ltb_spec d (ls_maxEditDistance2 st1)); simpl.
            * intros Hin. apply list_elem_of_singleton in Hin. by subst s.
            * rewrite Hs. intros Hin. apply elem_of_app in Hin as [Hin|Hin].
              -- rewrite (Hinv s Hin). lia.
              -- apply list_elem_of_singleton in Hin. by subst s.
        - done.
        - intros s Hs. by apply elem_of_nil in Hs. }
      intros x y Hx Hy.
      apply finishSuggestions_elem in Hx as (x0 & Hx0 & -> & _).
      apply finishSuggestions_elem in Hy as (y0 & Hy0 & -> & _).
      by rewrite (Hinv x0 Hx0), (Hinv y0 Hy0). }
  destruct (earlyExit_cases opts (if transferCasing opts then toLowerCase input else input)
              (default (maxDictionaryEditDistance this) maxEditDistance) l)
    as [->|(_ & _ & ->)]; [apply Hsame|].
  intros Ha Hb. apply list_elem_of_singleton in Ha, Hb. by subst.
Qed.


Lemma initialSuggestions_noOptions (this : SymSpell) (input : jsstring) (s : SuggestItem) :
  s ∈ initialSuggestions this noOptions input ->
  exists c, words this !! input = Some c /\ s = mkSuggestItem input 0 c.
Proof.
  unfold initialSuggestions. simpl. rewrite app_nil_r.
  destruct (words this !! input) as [c|]; [|intros H; by apply elem_of_nil in H].
  intros H. apply list_elem_of_singleton in H. by exists c.
Qed.

Lemma recordSuggestion_ALL (this : SymSpell) (suggestion : jsstring) (d : Z)
    (st : LoopState) :
  d <= ls_maxEditDistance2 st ->
  ls_suggestions (recordSuggestion this ALL suggestion d st)
  = ls_suggestions st
    ++ [mkSuggestItem suggestion d (default 0 (words this !! suggestion))].
Proof.
  intros Hd. unfold recordSuggestion.
  destruct (Z.leb_spec d (ls_maxEditDistance2 st)); [|lia].
  destruct (ls_suggestions st) eqn:Hs; simpl; by rewrite Hs.
Qed.

(** On an index built by calls of [createDictionaryEntry], and without
    options, every suggestion that [lookup] returns for a distance that is
    not negative is a word of the dictionary, with the count it has there and
    a distance between 0 and the requested maximum; and the reference OSA
    distance between the input and the word is not above the distance that
    the suggestion reports: [lookup] returns no word beyond the requested
    distance. *)
Theorem lookup_returns_words_within_distance (med pl ct : Z)
    (entries : list (jsstring * Z)) (input : jsstring) (verbosity : Verbosity)
    (maxEditDistance : option Z) (s : SuggestItem) :
  let this := createEntries (newSymSpell med pl ct) entries in
  let k := default med maxEditDistance in
  0 <= k ->
  s ∈ lookup this input verbosity maxEditDistance noOptions ->
  words this !! term s = Some (count s) /\
  osa_ref input (term s) <= distance s /\
  0 <= distance s <= k.
Proof.
  intros this k Hk.
  pose proof (deletesInv_createEntries entries _ (deletesInv_new med pl ct)) as Hdel.
  fold this in Hdel.
  assert (Hmed : maxDictionaryEditDistance this = med).
  { exact (proj1 (createEntries_config entries (newSymSpell med pl ct))). }
  set (good := fun s : SuggestItem =>
                 words this !! term s = Some (count s) /\
                 osa_ref input (term s) <= distance s /\
                 0 <= distance s <= k).
  assert (Hinit : forall x, x ∈ initialSuggestions this noOptions input -> good x).
  { intros x Hx. apply initialSuggestions_noOptions in Hx as (c & Hc & ->).
    unfold good. simpl. split; [exact Hc|].
    pose proof (proj2 (osa_ref_zero_iff input input) eq_refl). lia. }
  destruct (lookup_shape toLowerCase transferCasingSimilar this input verbosity
              maxEditDistance noOptions) as (l & -> & Hl).
  cbv zeta in Hl. cbn [transferCasing noOptions] in Hl. rewrite Hmed in Hl. fold k in Hl.
  unfold earlyExit. cbn [includeUnknown noOptions andb]. fold (good s).
  destruct Hl as [[-> _]|[(_ & _ & ->)|[(_ & _ & ->)|(_ & _ & st & Hst & ->)]]].
  - intros H. by apply elem_of_nil in H.
  - intros H. apply Hinit. by apply (subseteq_take 1).
  - apply Hinit.
  - intros Hs. apply finishSuggestions_elem in Hs as (s0 & Hs0 & _ & _ & Heq).
    rewrite (Heq eq_refl). clear Heq s. revert s0 Hs0.
    refine (proj2 (lookupLoop_P this verbosity _ _ _ _ True (fun _ => eq_refl)
              (fun st => ls_maxEditDistance2 st <= k /\
                         forall x, x ∈ ls_suggestions st -> good x)
              _ _ _ _ _ _ _ _ Hst)).
    + intros st1 st2 Hs Hm Hinv. by rewrite Hs, Hm.
    + intros candidate bucket suggestion d st1 Hb Hin Hne Hd Hle [Hmax Hall].
      destruct (Hd I) as [Hd0 Hosa].
      split; [etrans; [apply recordSuggestion_bound|exact Hmax]|].
      intros x Hx. apply recordSuggestion_elems in Hx as [Hx| ->]; [by apply Hall|].
      assert (Hword : is_Some (words this !! suggestion)).
      { apply (Hdel candidate suggestion). by exists bucket. }
      destruct Hword as [c Hc]. unfold good. simpl. rewrite Hc. simpl.
      split; [reflexivity|]. lia.
    + intros _. apply Forall_singleton.
      destruct (_ >? _); [apply substr_0_le|done].
    + split; [simpl; lia|]. exact Hinit.
Qed.

(** On an index built by calls of [createDictionaryEntry], and without
    options, [lookup] of a word of the dictionary, for a distance that is not
    negative, returns the word first, with distance 0 and its count,
    whatever the verbosity. *)
Theorem lookup_word_comes_first (med pl ct : Z) (entries : list (jsstring * Z))
    (t : jsstring) (c : Z) (verbosity : Verbosity) (maxEditDistance : option Z) :
  let this := createEntries (newSymSpell med pl ct) entries in
  0 <= default med maxEditDistance ->
  words this !! t = Some c ->
  head (lookup this t verbosity maxEditDistance noOptions) = Some (mkSuggestItem t 0 c).
Proof.
  intros this Hk Hw.
  assert (Hmed : maxDictionaryEditDistance this = med).
  { exact (proj1 (createEntries_config entries (newSymSpell med pl ct))). }
  pose proof (lengthInv_createEntries entries _ (lengthInv_new med pl ct)) as [Hlen _].
  fold this in Hlen. specialize (Hlen t ltac:(by eexists)).
  assert (Hinit : initialSuggestions this noOptions t = [mkSuggestItem t 0 c]).
  { unfold initialSuggestions. by rewrite Hw. }
  destruct (lookup_shape toLowerCase transferCasingSimilar this t verbosity
              maxEditDistance noOptions) as (l & -> & Hl).
  cbv zeta in Hl. cbn [transferCasing noOptions] in Hl. rewrite Hmed, Hinit in Hl.
  unfold earlyExit. cbn [includeUnknown noOptions andb].
  destruct Hl as [[_ Hlong]|[(_ & _ & ->)|[(_ & _ & ->)|([->|] & _ & st & Hst & ->)]]];
    try done; [lia|].
  assert (Hinv : exists rest, ls_suggestions st = mkSuggestItem t 0 c :: rest /\
                              forall x, x ∈ rest -> 1 <= distance x).
  { refine (lookupLoop_P this ALL _ _ _ _ True (fun _ => eq_refl)
              (fun st => exists rest, ls_suggestions st = mkSuggestItem t 0 c :: rest /\
                                      forall x, x ∈ rest -> 1 <= distance x)
              _ _ _ _ _ _ _ _ Hst).
    - intros st1 st2 Hs Hm Hinv. by rewrite Hs.
    - intros candidate bucket suggestion d st1 _ _ Hne Hd Hle (rest & Hrest & Hall).
      destruct (Hd I) as [Hd0 Hosa].
      rewrite recordSuggestion_ALL by exact Hle. rewrite Hrest.
      eexists. split; [reflexivity|].
      intros x Hx. apply elem_of_app in Hx as [Hx|Hx]; [by apply Hall|].
      apply list_elem_of_singleton in Hx. subst x. simpl.
      pose proof (osa_ref_nonneg t suggestion).
      destruct (decide (osa_ref t suggestion = 0)) as [H0|H0]; [|lia].
      apply osa_ref_zero_iff in H0. congruence.
    - intros _. apply Forall_singleton.
      destruct (_ >? _); [apply substr_0_le|done].
    - exists []. split; [reflexivity|]. intros x Hx. by apply elem_of_nil in Hx. }
  destruct Hinv as (rest & Hrest & Hall). rewrite Hrest.
  unfold finishSuggestions. cbn [transferCasing noOptions].
  destruct (1 <? length (mkSuggestItem t 0 c :: rest))%nat; [|reflexivity].
  apply sorted_head_least.
  - apply rev_sort_sorted.
  - apply elem_of_rev_sort. by left.
  - intros y Hy. apply (proj1 (elem_of_rev_sort _ _)) in Hy.
    apply elem_of_cons in Hy as [->|Hy]; [by left|].
    right. simpl. specialize (Hall y Hy). lia.
Qed.

(** With [includeUnknown], [lookup] never returns an empty list. *)
Theorem lookup_includeUnknown_nonempty (this : SymSpell) (input : jsstring)
    (verbosity : Verbosity) (maxEditDistance : option Z) (opts : LookupOptions) :
  includeUnknown opts = true ->
  lookup this input verbosity maxEditDistance opts <> [].
Proof.
  intros Hinc.
  destruct (lookup_shape toLowerCase transferCasingSimilar this input verbosity
              maxEditDistance opts) as (l & -> & _).
  unfold earlyExit. rewrite Hinc. destruct l; simpl; discriminate.
Qed.

(** Without [ignoreToken], every list that [lookup] returns is sorted by
    distance ascending, then by count descending. *)
Theorem lookup_sorted_without_ignoreToken (this : SymSpell) (input : jsstring)
    (verbosity : Verbosity) (maxEditDistance : option Z) (opts : LookupOptions) :
  ignoreToken opts = None ->
  sortedSuggestions (lookup this input verbosity maxEditDistance opts).
Proof.
  intros Hig.
  destruct (lookup_sorted toLowerCase transferCasingSimilar this input verbosity
              maxEditDistance opts) as [H|(_ & _ & _ & m & Hm & _)]; [exact H|congruence].
Qed.

End LookupGuarantees.
Lemma lookup_closest_same_distance_witness :
  mkSuggestItem (js "steem") 1 3
    ∈ SymSpell_lookup (fun s => s) (fun _ s => s)
        (createEntries defaultSymSpell [(js "steam", 1); (js "steams", 2); (js "steem", 3)])
        (js "steems") CLOSEST (Some 2) noOptions /\
  mkSuggestItem (js "steams") 1 2
    ∈ SymSpell_lookup (fun s => s) (fun _ s => s)
        (createEntries defaultSymSpell [(js "steam", 1); (js "steams", 2); (js "steem", 3)])
        (js "steems") CLOSEST (Some 2) noOptions /\
  distance (mkSuggestItem (js "steem") 1 3) = distance (mkSuggestItem (js "steams") 1 2).
Proof.
  assert (H1 : mkSuggestItem (js "steem") 1 3
    ∈ SymSpell_lookup (fun s => s) (fun _ s => s)
        (createEntries defaultSymSpell [(js "steam", 1); (js "steams", 2); (js "steem", 3)])
        (js "steems") CLOSEST (Some 2) noOptions).
  { vm_compute. left. }
  assert (H2 : mkSuggestItem (js "steams") 1 2
    ∈ SymSpell_lookup (fun s => s) (fun _ s => s)
        (createEntries defaultSymSpell [(js "steam", 1); (js "steams", 2); (js "steem", 3)])
        (js "steems") CLOSEST (Some 2) noOptions).
  { vm_compute. right. left. }
  split; [exact H1|]. split; [exact H2|].
  exact (lookup_closest_same_distance (fun s => s) (fun _ s => s) _ _ _ _ _ _ H1 H2).
Defined.

Lemma lookup_returns_words_within_distance_witness :
  let this :=
    createEntries (newSymSpell 2 7 1) [(js "steam", 1); (js "steams", 2); (js "steem", 3)] in
  let k := default 2 (Some 2) in
  0 <= k /\
  mkSuggestItem (js "steam") 2 1
    ∈ SymSpell_lookup (fun s => s) (fun _ s => s) this (js "steems") ALL (Some 2) noOptions /\
  words this !! term (mkSuggestItem (js "steam") 2 1)
    = Some (count (mkSuggestItem (js "steam") 2 1)) /\
  osa_ref (js "steems") (term (mkSuggestItem (js "steam") 2 1))
    <= distance (mkSuggestItem (js "steam") 2 1) /\
  0 <= distance (mkSuggestItem (js "steam") 2 1) <= k.
Proof.
  cbv zeta.
  assert (H1 : 0 <= default 2 (Some 2)) by (simpl; lia).
  assert (H2 : mkSuggestItem (js "steam") 2 1
    ∈ SymSpell_lookup (fun s => s) (fun _ s => s)
        (createEntries (newSymSpell 2 7 1)
           [(js "steam", 1); (js "steams", 2); (js "steem", 3)])
        (js "steems") ALL (Some 2) noOptions).
  { vm_compute. right. right. left. }
  split; [exact H1|]. split; [exact H2|].
  exact (lookup_returns_words_within_distance (fun s => s) (fun _ s => s) 2 7 1
           [(js "steam", 1); (js "steams", 2); (js "steem", 3)] (js "steems") ALL (Some 2)
           _ H1 H2).
Defined.

Lemma lookup_word_comes_first_witness :
  let this :=
    createEntries (newSymSpell 2 7 1) [(js "steam", 1); (js "steams", 2); (js "steem", 3)] in
  0 <= default 2 None /\
  words this !! js "steam" = Some 1 /\
  head (SymSpell_lookup (fun s => s) (fun _ s => s) this (js "steam") ALL None noOptions)
  = Some (mkSuggestItem (js "steam") 0 1).
Proof.
  cbv zeta.
  assert (H1 : 0 <= default 2 None) by (simpl; lia).
  assert (H2 : words (createEntries (newSymSpell 2 7 1)
                        [(js "steam", 1); (js "steams", 2); (js "steem", 3)]) !! js "steam"
               = Some 1).
  { vm_compute. reflexivity. }
  split; [exact H1|]. split; [exact H2|].
  exact (lookup_word_comes_first (fun s => s) (fun _ s => s) 2 7 1
           [(js "steam", 1); (js "steams", 2); (js "steem", 3)] (js "steam") 1 ALL None
           H1 H2).
Defined.

Lemma lookup_includeUnknown_nonempty_witness :
  includeUnknown (mkLookupOptions true None false) = true /\
  SymSpell_lookup (fun s => s) (fun _ s => s)
    (createEntries defaultSymSpell [(js "steam", 1)]) (js "qwertyuiop") TOP None
    (mkLookupOptions true None false) <> [].
Proof.
  split; [reflexivity|].
  apply (lookup_includeUnknown_nonempty (fun s => s) (fun _ s => s)).
  reflexivity.
Defined.

Lemma lookup_sorted_without_ignoreToken_witness :
  ignoreToken noOptions = None /\
  sortedSuggestions
    (SymSpell_lookup (fun s => s) (fun _ s => s)
       (createEntries defaultSymSpell [(js "pipe", 5); (js "pips", 10)])
       (js "pip") ALL (Some 1) noOptions).
Proof.
  split; [reflexivity|].
  apply (lookup_sorted_without_ignoreToken (fun s => s) (fun _ s => s)).
  reflexivity.
Defined.

(* ===================================================================== *)
(** * Part X. Further properties of [wordSegmentation] and [lookupCompound] *)
(* ===================================================================== *)

(** ** The circular array *)

Lemma slotOf_range (A : Z) (p : nat) : 0 < A -> 0 <= slotOf A p < A.
Proof. intros HA. unfold slotOf. by apply Z.mod_pos_bound. Qed.

Lemma slotOf_small (A : Z) (p : nat) :
  (1 <= p)%nat -> Z.of_nat p <= A -> slotOf A p = Z.of_nat p - 1.
Proof. intros Hp HA. unfold slotOf. apply Z.mod_small. lia. Qed.

Lemma slotOf_add (A : Z) (p i : nat) :
  0 < A -> (1 <= p)%nat ->
  Z.rem (Z.of_nat i + slotOf A p) A = slotOf A (p + i).
Proof.
  intros HA Hp. pose proof (slotOf_range A p HA).
  rewrite Z.rem_mod_nonneg by lia. unfold slotOf.
  rewrite Zplus_mod_idemp_r. f_equal. lia.
Qed.

Lemma slotOf_next (A : Z) (p : nat) :
  0 < A -> (1 <= p)%nat ->
  (if slotOf A p + 1 =? A then 0 else slotOf A p + 1) = slotOf A (S p).
Proof.
  intros HA Hp. pose proof (slotOf_range A p HA) as Hr. unfold slotOf in *.
  pose proof (Z.div_mod (Z.of_nat p - 1) A ltac:(lia)) as Hdm.
  set (q := (Z.of_nat p - 1) / A) in *. set (r := (Z.of_nat p - 1) mod A) in *.
  destruct (Z.eqb_spec (r + 1) A) as [Heq|Hne].
  - apply (Z.mod_unique _ _ (q + 1)); [lia|]. nia.
  - apply (Z.mod_unique _ _ q); [lia|]. nia.
Qed.

Lemma slotOf_inj (A : Z) (p p' : nat) :
  0 < A -> Z.abs (Z.of_nat p - Z.of_nat p') < A ->
  slotOf A p = slotOf A p' -> p = p'.
Proof.
  intros HA Hclose Heq. unfold slotOf in Heq.
  pose proof (Z.div_mod (Z.of_nat p - 1) A ltac:(lia)) as H1.
  pose proof (Z.div_mod (Z.of_nat p' - 1) A ltac:(lia)) as H2.
  rewrite Heq in H1.
  set (q := (Z.of_nat p - 1) / A) in *. set (q' := (Z.of_nat p' - 1) / A) in *.
  assert (q = q') by nia. nia.
Qed.

(** ** White space *)

Lemma removeWhitespace_app (x y : jsstring) :
  removeWhitespace (x ++ y) = removeWhitespace x ++ removeWhitespace y.
Proof. apply filter_app. Qed.

Lemma removeWhitespace_idem (x : jsstring) :
  removeWhitespace (removeWhitespace x) = removeWhitespace x.
Proof.
  unfold removeWhitespace. induction x as [|c x IH]; [reflexivity|].
  rewrite filter_cons. destruct (decide (isWhitespace c = false)) as [Hc|Hc].
  - rewrite filter_cons. destruct (decide (isWhitespace c = false)); [|done]. by rewrite IH.
  - exact IH.
Qed.

Lemma substrFrom_tail (c : N) (rest : jsstring) : substrFrom (c :: rest) 1 = rest.
Proof.
  unfold substrFrom, substr. cbn [length].
  destruct (1 <? 0) eqn:H; [discriminate|].
  replace (Z.to_nat (Z.min 1 (Z.of_nat (S (length rest))))) with 1%nat by lia.
  cbn [drop]. rewrite drop_0. apply take_ge. lia.
Qed.

(** The part of the input that enters a composition: without its white
    space, whether or not a leading white space was cut off first. *)
Lemma part_normalized (part : jsstring) (c0 : N) :
  part !! 0%nat = Some c0 ->
  removeWhitespace
    (removeWhitespace (if isWhitespace c0 then substrFrom part 1 else part))
  = removeWhitespace part.
Proof.
  intros Hc0. rewrite removeWhitespace_idem.
  destruct part as [|c rest]; [discriminate|]. injection Hc0 as ->.
  destruct (isWhitespace c0) eqn:Hws; [|reflexivity].
  rewrite substrFrom_tail. unfold removeWhitespace. rewrite filter_cons.
  destruct (decide (isWhitespace c0 = false)); [congruence|reflexivity].
Qed.

Lemma substr_take_drop (s : jsstring) (j i : nat) :
  (j + i <= length s)%nat ->
  substr s (Z.of_nat j) (Z.of_nat i) = take i (drop j s).
Proof.
  intros Hle. unfold substr.
  destruct (Z.ltb_spec (Z.of_nat j) 0); [lia|].
  replace (Z.to_nat (Z.min (Z.of_nat j) (Z.of_nat (length s)))) with j by lia.
  f_equal. lia.
Qed.

Lemma removeWhitespace_extend (s : jsstring) (j i : nat) (seg part : jsstring) :
  removeWhitespace seg = removeWhitespace (take j s) ->
  removeWhitespace part = removeWhitespace (take i (drop j s)) ->
  removeWhitespace (seg ++ [SPACE] ++ part) = removeWhitespace (take (j + i) s).
Proof.
  intros Hseg Hpart.
  rewrite (removeWhitespace_app seg), (removeWhitespace_app [SPACE] part), Hseg, Hpart.
  change (removeWhitespace [SPACE]) with (@nil N). cbn [app].
  by rewrite <- removeWhitespace_app, take_take_drop.
Qed.

(** ** The loops of [wordSegmentation] *)

Local Ltac bind_some :=
  match goal with
  | |- context [Some ?x ≫= ?f] => change (Some x ≫= f) with (f x); cbv beta
  end.

Section Segmentation.

Variable num : Type.
Variable num_of_Z : Z -> num.
Variables nadd ndiv npow : num -> num -> num.
Variable nlog10 : num -> num.
Variable nlt : num -> num -> bool.
Variable nfalsy : num -> bool.
Variable toLowerCase : jsstring -> jsstring.
Variable transferCasingSimilar : jsstring -> jsstring -> jsstring.

Local Abbreviation wordSegmentation :=
  (wordSegmentation num num_of_Z nadd ndiv npow nlog10 nlt nfalsy toLowerCase
     transferCasingSimilar).
Local Abbreviation segmentationLoop :=
  (segmentationLoop num num_of_Z nadd ndiv npow nlog10 nlt nfalsy toLowerCase
     transferCasingSimilar).
Local Abbreviation segmentationBody :=
  (segmentationBody num num_of_Z nadd ndiv npow nlog10 nlt nfalsy toLowerCase
     transferCasingSimilar).

Section Loops.

Variables (this : SymSpell) (input : jsstring) (med msl : Z)
          (ignoreToken : option (jsstring -> bool)).

Local Abbreviation n := (length input).
Local Abbreviation A := (Z.min msl (Z.of_nat n)).
Local Abbreviation holds := (holdsPrefix num input A).
Local Abbreviation window := (windowHolds num input A).
Local Abbreviation body := (segmentationBody this input med msl ignoreToken A).

Hypothesis msl_pos : 1 <= msl.
Hypothesis input_nonempty : (1 <= n)%nat.

(** One iteration of the inner loop: the composition that it may write. *)
Lemma segmentationBody_spec (c : Z) (j i : nat) (comps : gmap Z (Composition num)) :
  (1 <= i)%nat -> (j + i <= n)%nat ->
  exists part',
    removeWhitespace part' = removeWhitespace (take i (drop j input)) /\
    let dest := Z.rem (Z.of_nat i + c) A in
    if (j =? 0)%nat then
      exists x y z,
        body c j comps i = Some (<[dest := mkComposition num part' x y z]> comps)
    else
      forall prev, comps !! c = Some prev ->
        (Z.of_nat i = msl ->
         exists x y z,
           body c j comps i
           = Some (<[dest := mkComposition num (segmentedString num prev ++ [SPACE] ++ part')
                               x y z]> comps)) /\
        (is_Some (comps !! dest) ->
         body c j comps i = Some comps \/
         exists x y z,
           body c j comps i
           = Some (<[dest := mkComposition num (segmentedString num prev ++ [SPACE] ++ part')
                               x y z]> comps)).
Proof.
  intros Hi Hji. unfold segmentationBody. cbv zeta.
  rewrite substr_take_drop by exact Hji.
  set (part := take i (drop j input)).
  assert (Hc0 : exists c0, part !! 0%nat = Some c0).
  { apply lookup_lt_is_Some_2. unfold part. rewrite length_take, length_drop. lia. }
  destruct Hc0 as [c0 Hc0]. rewrite Hc0. bind_some.
  exists (removeWhitespace (if isWhitespace c0 then substrFrom part 1 else part)).
  split; [by apply part_normalized|].
  set (part' := removeWhitespace (if isWhitespace c0 then substrFrom part 1 else part)).
  destruct (SymSpell_lookup _ _ this part' TOP (Some med) _) as [|r rs];
    (destruct (j =? 0)%nat; [by eexists _, _, _|]);
    intros prev Hprev;
    (destruct (Z.eqb_spec (Z.of_nat i) msl) as [Heq|Hne];
     [rewrite Hprev; repeat bind_some; split;
      [intros _; by eexists _, _, _|intros _; right; by eexists _, _, _]
     |split; [intros; lia|]; intros [d Hd];
      rewrite Hprev, Hd; repeat bind_some;
      match goal with |- context [if ?b then _ else Some comps] => destruct b end;
      [right; by eexists _, _, _|by left]]).
Qed.

Local Abbreviation a := (Z.to_nat A).

Lemma arraySize_nat : Z.of_nat a = A /\ (1 <= a <= n)%nat.
Proof. lia. Qed.

(** The first column ([j = 0]) fills the slots of the prefixes of lengths
    [1 .. arraySize]. *)
Lemma firstColumn_spec (k : nat) :
  (k <= a)%nat ->
  forall comps : gmap Z (Composition num),
    exists comps',
      foldl (fun acc i => compositions ← acc; body (-1) 0%nat compositions i)
            (Some comps) (seq 1 k) = Some comps' /\
      window comps' 1 k.
Proof.
  destruct arraySize_nat as [Ha Han].
  induction k as [|k IH]; intros Hk comps.
  - exists comps. split; [reflexivity|]. intros p Hp. lia.
  - destruct (IH ltac:(lia) comps) as (comps1 & Hfold & Hwin).
    rewrite seq_S, foldl_app, Hfold. cbn [foldl Nat.add]. bind_some.
    destruct (segmentationBody_spec (-1) 0 (S k) comps1 ltac:(lia) ltac:(lia))
      as (part' & Hpart & Hbody).
    cbv zeta in Hbody. cbn [Nat.eqb] in Hbody. destruct Hbody as (x & y & z & ->).
    eexists. split; [reflexivity|].
    assert (Hdest : Z.rem (Z.of_nat (S k) + -1) A = slotOf A (S k)).
    { rewrite slotOf_small by lia. rewrite Z.rem_mod_nonneg by lia.
      apply Z.mod_small. lia. }
    rewrite Hdest. intros p Hp. destruct (decide (p = S k)) as [->|Hne].
    + eexists. split; [apply lookup_insert_eq|]. simpl. by rewrite drop_0 in Hpart.
    + destruct (Hwin p ltac:(lia)) as (comp & Hcomp & Hseg).
      exists comp. split; [|exact Hseg].
      rewrite lookup_insert_ne; [exact Hcomp|].
      rewrite !slotOf_small by lia. lia.
Qed.

(** A later column ([j >= 1]) keeps the window of valid slots, and moves it
    by one when it reaches the part length [arraySize]. *)
Lemma laterColumn_spec (j : nat) (comps : gmap Z (Composition num)) (k : nat) :
  (1 <= j < n)%nat ->
  window comps j (Nat.min n (j + a - 1)) ->
  (Z.of_nat k <= Z.min (Z.of_nat n - Z.of_nat j) msl) ->
  exists comps',
    foldl (fun acc i => compositions ← acc; body (slotOf A j) j compositions i)
          (Some comps) (seq 1 k) = Some comps' /\
    if (k <? a)%nat then window comps' j (Nat.min n (j + a - 1))
    else window comps' (S j) (j + a).
Proof.
  destruct arraySize_nat as [Ha Han]. intros Hj Hwin.
  induction k as [|k IH]; intros Hk.
  - exists comps. split; [reflexivity|].
    destruct (Nat.ltb_spec 0 a); [exact Hwin|lia].
  - destruct (IH ltac:(lia)) as (comps1 & Hfold & Hwin1).
    destruct (Nat.ltb_spec k a) as [Hka|]; [|lia].
    rewrite seq_S, foldl_app, Hfold. cbn [foldl Nat.add]. bind_some.
    destruct (segmentationBody_spec (slotOf A j) j (S k) comps1 ltac:(lia) ltac:(lia))
      as (part' & Hpart & Hbody).
    cbv zeta in Hbody.
    destruct (Nat.eqb_spec j 0) as [|_]; [lia|].
    destruct (Hwin1 j ltac:(lia)) as (prev & Hprev & Hseg).
    destruct (Hbody prev Hprev) as [Hforced Hfree]. clear Hbody.
    rewrite slotOf_add in Hforced, Hfree by lia.
    assert (Hnew : forall x y z,
               removeWhitespace
                 (segmentedString num
                    (mkComposition num (segmentedString num prev ++ [SPACE] ++ part') x y z))
               = removeWhitespace (take (j + S k) input)).
    { intros x y z. simpl. by apply (removeWhitespace_extend input j (S k)). }
    assert (Hins : forall x y z lo hi,
               (forall p, (lo <= p <= hi)%nat -> p <> (j + S k)%nat ->
                          (j <= p <= Nat.min n (j + a - 1))%nat /\
                          Z.abs (Z.of_nat p - Z.of_nat (j + S k)) < A) ->
               (lo <= hi -> lo <= j + S k)%nat ->
               window (<[slotOf A (j + S k) :=
                          mkComposition num (segmentedString num prev ++ [SPACE] ++ part')
                            x y z]> comps1) lo hi).
    { intros x y z lo hi Hold _ p Hp. destruct (decide (p = (j + S k)%nat)) as [->|Hne].
      - eexists. split; [apply lookup_insert_eq|]. apply Hnew.
      - destruct (Hold p Hp Hne) as [Hin Hclose].
        destruct (Hwin1 p Hin) as (comp & Hcomp & Hs). exists comp. split; [|exact Hs].
        rewrite lookup_insert_ne; [exact Hcomp|].
        intros Heq. apply slotOf_inj in Heq; [lia|lia|lia]. }
    destruct (Nat.ltb_spec (S k) a) as [Hlt|Hge].
    + destruct (Hwin1 (j + S k)%nat ltac:(lia)) as (dcomp & Hdcomp & _).
      destruct (Hfree ltac:(by eexists)) as [->|(x & y & z & ->)].
      * exists comps1. by split.
      * eexists. split; [reflexivity|]. apply Hins; [|lia]. intros p Hp Hne. lia.
    + assert (Hmsl : Z.of_nat (S k) = msl) by lia.
      destruct (Hforced Hmsl) as (x & y & z & ->).
      eexists. split; [reflexivity|]. apply Hins; [|lia]. intros p Hp Hne. lia.
Qed.

(** The rows from [j >= 1] on end with the composition of the whole input
    in the slot that is returned. *)
Lemma laterRows_spec (m : nat) :
  forall (j : nat) (comps : gmap Z (Composition num)),
    (1 <= j)%nat -> (j + m = n)%nat ->
    window comps j (Nat.min n (j + a - 1)) ->
    exists comps',
      segmentationLoop this input med msl ignoreToken A m j (slotOf A j) comps
      = Some (slotOf A n, comps') /\
      holds comps' n.
Proof.
  destruct arraySize_nat as [Ha Han].
  induction m as [|m IH]; intros j comps Hj Hjm Hwin.
  - replace j with n in * by lia. exists comps. split; [reflexivity|]. apply Hwin. lia.
  - cbn [segmentationLoop]. cbv zeta.
    set (imax := Z.min (Z.of_nat n - Z.of_nat j) msl).
    destruct (laterColumn_spec j comps (Z.to_nat imax) ltac:(lia) Hwin ltac:(lia))
      as (comps1 & -> & Hwin1).
    bind_some. rewrite slotOf_next by lia.
    apply IH; [lia|lia|].
    destruct (Nat.ltb_spec (Z.to_nat imax) a) as [Hlt|Hge].
    + intros p Hp. apply Hwin1. lia.
    + intros p Hp. apply Hwin1. lia.
Qed.

(** The loops of [wordSegmentation] on a non-empty input, with a maximum
    word length of at least 1. *)
Lemma segmentationLoop_spec (m : nat) :
  S m = n ->
  exists comps',
    segmentationLoop this input med msl ignoreToken A (S m) 0 (-1) ∅
    = Some (slotOf A n, comps') /\
    holds comps' n.
Proof.
  destruct arraySize_nat as [Ha Han]. intros Hm.
  cbn [segmentationLoop]. cbv zeta.
  replace (Z.to_nat (Z.min (Z.of_nat n - Z.of_nat 0) msl)) with a by lia.
  destruct (firstColumn_spec a ltac:(lia) ∅) as (comps1 & -> & Hwin1).
  bind_some.
  replace (if -1 + 1 =? A then 0 else -1 + 1) with (slotOf A 1)
    by (rewrite slotOf_small by lia; destruct (Z.eqb_spec (-1 + 1) A); lia).
  apply laterRows_spec; [lia|lia|].
  intros p Hp. apply Hwin1. lia.
Qed.

End Loops.

(** Without words to try, the loops do nothing. *)
Lemma segmentationLoop_idle (this : SymSpell) (input : jsstring) (med : Z)
    (ignoreToken : option (jsstring -> bool)) (A : Z) (m : nat) :
  forall (j : nat) (c : Z),
    exists c', segmentationLoop this input med 0 ignoreToken A m j c ∅ = Some (c', ∅).
Proof.
  induction m as [|m IH]; intros j c; [by eexists|].
  cbn [segmentationLoop]. cbv zeta.
  replace (Z.to_nat (Z.min (Z.of_nat (length input) - Z.of_nat j) 0)) with O by lia.
  cbn [seq foldl]. bind_some. apply IH.
Qed.

(** For a non-empty input and a maximum word length of at least 1,
    [wordSegmentation] returns a composition (it neither throws nor returns
    [undefined]), and the segmented string of that composition is the input
    up to white space: segmentation inserts and removes white space only. *)
Theorem wordSegmentation_keeps_characters (this : SymSpell) (input : jsstring)
    (opts : SegmentationOptions) :
  input <> [] ->
  1 <= default (maxDictionaryWordLength this) (seg_maxSegmentationWordLength opts) ->
  exists comp,
    wordSegmentation this input opts = Returned (Some comp) /\
    removeWhitespace (segmentedString num comp) = removeWhitespace input.
Proof.
  intros Hne Hmsl.
  assert (Hn : (1 <= length input)%nat) by (destruct input; [done|simpl; lia]).
  unfold wordSegmentation. cbv zeta.
  set (msl := default (maxDictionaryWordLength this) (seg_maxSegmentationWordLength opts))
    in *.
  destruct (Z.ltb_spec (Z.min msl (Z.of_nat (length input))) 0); [lia|].
  destruct (length input) as [|m] eqn:Hlen; [lia|].
  destruct (segmentationLoop_spec this input
              (default (maxDictionaryEditDistance this) (seg_maxEditDistance opts))
              msl (seg_ignoreToken opts) Hmsl ltac:(lia) m ltac:(lia))
    as (comps & Hloop & comp & Hcomp & Hseg).
  rewrite Hlen in Hloop, Hcomp. rewrite Hloop, Hcomp.
  exists comp. split; [reflexivity|].
  rewrite Hseg. by rewrite firstn_all.
Qed.

(** With a maximum word length of 0, which is that of an index without
    words, [wordSegmentation] returns [undefined] for every input; with a
    negative one it throws ([new Array] of a negative length). *)
Theorem wordSegmentation_without_word_length (this : SymSpell) (input : jsstring)
    (opts : SegmentationOptions) :
  default (maxDictionaryWordLength this) (seg_maxSegmentationWordLength opts) <= 0 ->
  wordSegmentation this input opts
  = if default (maxDictionaryWordLength this) (seg_maxSegmentationWordLength opts) <? 0
    then Thrown else Returned None.
Proof.
  intros Hmsl. unfold wordSegmentation. cbv zeta.
  set (msl := default (maxDictionaryWordLength this) (seg_maxSegmentationWordLength opts))
    in *.
  destruct (Z.ltb_spec msl 0) as [Hneg|Hzero].
  - destruct (Z.ltb_spec (Z.min msl (Z.of_nat (length input))) 0); [reflexivity|lia].
  - assert (msl = 0) as -> by lia.
    destruct (Z.ltb_spec (Z.min 0 (Z.of_nat (length input))) 0); [lia|].
    destruct (segmentationLoop_idle this input
                (default (maxDictionaryEditDistance this) (seg_maxEditDistance opts))
                (seg_ignoreToken opts) (Z.min 0 (Z.of_nat (length input)))
                (length input) 0 (-1)) as (c' & ->).
    by rewrite lookup_empty.
Qed.

End Segmentation.

Lemma wordSegmentation_keeps_characters_witness :
  js "the pipe" <> [] /\
  1 <= default (maxDictionaryWordLength
                  (createEntries defaultSymSpell [(js "the", 9); (js "pipe", 5)]))
               (seg_maxSegmentationWordLength (mkSegmentationOptions None None None)) /\
  exists comp,
    IntegerHost.wordSegmentation
      (createEntries defaultSymSpell [(js "the", 9); (js "pipe", 5)]) (js "the pipe")
      (mkSegmentationOptions None None None) = Returned (Some comp) /\
    removeWhitespace (segmentedString Z comp) = removeWhitespace (js "the pipe").
Proof.
  assert (H1 : js "the pipe" <> []) by discriminate.
  assert (H2 : 1 <= default (maxDictionaryWordLength
                               (createEntries defaultSymSpell [(js "the", 9); (js "pipe", 5)]))
                            (seg_maxSegmentationWordLength
                               (mkSegmentationOptions None None None))).
  { vm_compute. discriminate. }
  split; [exact H1|]. split; [exact H2|].
  exact (wordSegmentation_keeps_characters Z (fun z => z) Z.add Z.div Z.pow IntegerHost.log10
           Z.ltb (Z.eqb 0) (fun s => s) (fun _ s => s) _ _ _ H1 H2).
Defined.

Lemma wordSegmentation_without_word_length_witness :
  default (maxDictionaryWordLength defaultSymSpell)
          (seg_maxSegmentationWordLength (mkSegmentationOptions None None None)) <= 0 /\
  IntegerHost.wordSegmentation defaultSymSpell (js "the pipe")
    (mkSegmentationOptions None None None)
  = if default (maxDictionaryWordLength defaultSymSpell)
               (seg_maxSegmentationWordLength (mkSegmentationOptions None None None)) <? 0
    then Thrown else Returned None.
Proof.
  assert (H : default (maxDictionaryWordLength defaultSymSpell)
                      (seg_maxSegmentationWordLength (mkSegmentationOptions None None None))
              <= 0).
  { vm_compute. discriminate. }
  split; [exact H|].
  exact (wordSegmentation_without_word_length Z (fun z => z) Z.add Z.div Z.pow
           IntegerHost.log10 Z.ltb (Z.eqb 0) (fun s => s) (fun _ s => s) _ _ _ H).
Defined.

(** ** [lookupCompound] on an input without words *)

Section CompoundEdge.

Variable num : Type.
Variable num_of_Z : Z -> num.
Variables nadd nmul ndiv nmin nmax npow : num -> num -> num.
Variable nfloor : num -> num.
Variable nlt : num -> num -> bool.
Variable parseWordsCase : jsstring -> bool -> list jsstring.
Variable isAcronym : jsstring -> bool.
Variable parseIntTruthy : jsstring -> bool.
Variable toLowerCase : jsstring -> jsstring.
Variable transferCasingSimilar : jsstring -> jsstring -> jsstring.

Local Abbreviation lookupCompound :=
  (lookupCompound num num_of_Z nadd nmul ndiv nmin nmax npow nfloor nlt parseWordsCase
     isAcronym parseIntTruthy toLowerCase transferCasingSimilar).
Local Abbreviation compoundParts :=
  (compoundParts num num_of_Z nadd nmul ndiv nmin nmax npow nfloor nlt parseWordsCase
     isAcronym parseIntTruthy toLowerCase transferCasingSimilar).

(** When the tokenizer finds no word in the input (the empty input, for
    one), [lookupCompound] returns one suggestion with the empty term, the
    length of the input as its distance, and the count [floor(N)]: the
    product over no part at all. *)
Theorem lookupCompound_without_words (this : SymSpell) (input : jsstring)
    (maxEditDistance : option Z) (opts : CompoundOptions) :
  parseWordsCase input false = [] ->
  cmp_transferCasing opts = false ->
  Z.of_nat (length input) <= MAX_SAFE_INTEGER ->
  lookupCompound this input maxEditDistance opts
  = Returned [mkCompoundItem num [] (Some (Z.of_nat (length input)))
                (nfloor (num_of_Z SymSpell_N))].
Proof.
  intros Hwords Hcasing Hlen.
  unfold lookupCompound, compoundParts. cbv zeta. rewrite Hwords, Hcasing.
  cbn [tokenLoop suggestionParts cs_distanceComparer joinParts productCount foldl].
  change (trimEnd []) with (@nil N).
  unfold EditDistance_compare.
  pose proof (distance_spec newEditDistance input [] MAX_SAFE_INTEGER MAX_SAFE_INTEGER_pos)
    as Hd.
  destruct (EditDistance_distance _ _ _ _) as [d ed]. cbn [fst] in Hd. subst d.
  assert (Hosa : osa_ref input [] = Z.of_nat (length input)) by apply osa_dp_0_r.
  rewrite Hosa, Z.min_id.
  destruct (Z.leb_spec (Z.of_nat (length input)) MAX_SAFE_INTEGER); [reflexivity|lia].
Qed.

End CompoundEdge.

Lemma lookupCompound_without_words_witness :
  IntegerHost.parseWordsCase (js "   ") false = [] /\
  cmp_transferCasing (mkCompoundOptions false false) = false /\
  Z.of_nat (length (js "   ")) <= MAX_SAFE_INTEGER /\
  IntegerHost.lookupCompound (createEntries defaultSymSpell [(js "steam", 4)]) (js "   ")
    None (mkCompoundOptions false false)
  = Returned [mkCompoundItem Z [] (Some (Z.of_nat (length (js "   ")))) SymSpell_N].
Proof.
  assert (H1 : IntegerHost.parseWordsCase (js "   ") false = []) by reflexivity.
  assert (H2 : cmp_transferCasing (mkCompoundOptions false false) = false) by reflexivity.
  assert (H3 : Z.of_nat (length (js "   ")) <= MAX_SAFE_INTEGER)
    by (vm_compute; discriminate).
  split; [exact H1|]. split; [exact H2|]. split; [exact H3|].
  exact (lookupCompound_without_words Z (fun z => z) Z.add Z.mul Z.div Z.min Z.max Z.pow
           (fun z => z) Z.ltb IntegerHost.parseWordsCase (fun _ => false) (fun _ => false)
           (fun s => s) (fun _ s => s) _ _ None _ H1 H2 H3).
Defined.

(* ===================================================================== *)
(** * Part XI. [parseWords] and [createDictionary]                        *)
(* ===================================================================== *)

(** ** The words of a text *)

Section WordRuns.

Variable inClass : N -> bool.

Lemma wordRuns_spec (s : jsstring) :
  forall cur : jsstring,
    Forall (fun c => inClass c = true) cur ->
    let ws := wordRuns inClass cur s in
    Forall (fun w => w <> [] /\ Forall (fun c => inClass c = true) w) ws /\
    concat ws = reverse cur ++ filter (fun c => inClass c = true) s.
Proof.
  induction s as [|c s IH]; intros cur Hcur; simpl.
  - destruct cur as [|x cur]; simpl.
    + split; [constructor|reflexivity].
    + split.
      * constructor; [|constructor]. split.
        -- intros H. apply (f_equal length) in H. rewrite length_reverse in H. discriminate.
        -- by apply Forall_reverse.
      * by rewrite !app_nil_r.
  - rewrite filter_cons. destruct (inClass c) eqn:Hc.
    + destruct (decide (true = true)); [|done].
      destruct (IH (c :: cur) ltac:(by constructor)) as [H1 H2].
      split; [exact H1|]. rewrite H2, reverse_cons, <- app_assoc. reflexivity.
    + destruct (decide (false = true)); [done|].
      destruct (IH [] ltac:(constructor)) as [H1 H2]. simpl in H2.
      destruct cur as [|x cur].
      * split; [exact H1|exact H2].
      * split.
        -- constructor; [|exact H1]. split.
           ++ intros H. apply (f_equal length) in H. rewrite length_reverse in H.
              discriminate.
           ++ by apply Forall_reverse.
        -- simpl. by rewrite H2.
Qed.

End WordRuns.

Section TextProperties.

Variable toLowerCase : jsstring -> jsstring.

Local Abbreviation parseWords := (parseWords toLowerCase).
Local Abbreviation createDictionary := (createDictionary toLowerCase).

(** The words that [parseWords] returns are not empty and are made of
    ASCII letters, digits and apostrophes only; put end to end, they are the
    lower-cased text without its other characters.  So a text without such
    characters has no word. *)
Theorem parseWords_words (text : jsstring) :
  Forall (fun w => w <> [] /\ Forall (fun c => isWordChar c = true) w) (parseWords text) /\
  concat (parseWords text) = filter (fun c => isWordChar c = true) (toLowerCase text).
Proof.
  destruct (wordRuns_spec isWordChar (toLowerCase text) [] ltac:(constructor)) as [H1 H2].
  split; [exact H1|exact H2].
Qed.

(** The index after [createDictionary] is the index after one call of
    [createDictionaryEntry] with the count 1 for each word of the lines, in
    order. *)
Lemma createDictionary_entries (this : SymSpell) (lines : list jsstring) :
  (createDictionary this lines).2
  = createEntries this ((fun key => (key, 1)) <$> concat (parseWords <$> lines)).
Proof.
  unfold createDictionary. cbn [snd]. revert this.
  induction lines as [|line lines IH]; intros this; [reflexivity|].
  cbn [fold_left fmap list_fmap concat]. rewrite fmap_app, createEntries_app, IH. f_equal.
  generalize (parseWords line). intros ws. revert this.
  induction ws as [|w ws IHw]; intros this; [reflexivity|].
  cbn [fold_left fmap list_fmap]. rewrite createEntries_cons. apply IHw.
Qed.

Lemma totalCount_ones (t : jsstring) (ws : list jsstring) :
  totalCount t ((fun key => (key, 1)) <$> ws)
  = Z.of_nat (length (filter (fun w => w = t) ws)).
Proof.
  unfold totalCount. induction ws as [|w ws IH]; [reflexivity|].
  cbn [fmap list_fmap foldr fst snd]. rewrite filter_cons.
  destruct (decide (w = t)); cbn [length]; lia.
Qed.

(** [createDictionary] on a new index with the default threshold 1 counts
    the words of the text: a term is in Words exactly when it occurs among
    the words of the lines, and its count is the number of its occurrences
    (cut at [Number.MAX_SAFE_INTEGER]); the call returns [true]. *)
Theorem createDictionary_counts_occurrences (med pl : Z) (lines : list jsstring)
    (t : jsstring) :
  let r := createDictionary (newSymSpell med pl 1) lines in
  let occurrences :=
    Z.of_nat (length (filter (fun w => w = t) (concat (parseWords <$> lines)))) in
  r.1 = true /\
  words r.2 !! t
  = (if 0 <? occurrences then Some (Z.min occurrences MAX_SAFE_INTEGER) else None).
Proof.
  cbv zeta. split; [reflexivity|].
  rewrite createDictionary_entries.
  pose proof (tallied_createEntries med pl 1 t
                ((fun key => (key, 1)) <$> concat (parseWords <$> lines)) ltac:(lia))
    as [Hw _].
  { apply Forall_fmap, Forall_forall. intros w _. simpl. pose proof MAX_SAFE_INTEGER_pos. lia. }
  rewrite Hw, totalCount_ones.
  destruct (createEntries_config ((fun key => (key, 1)) <$> concat (parseWords <$> lines))
              (newSymSpell med pl 1)) as (_ & _ & ->).
  simpl. pose proof MAX_SAFE_INTEGER_pos.
  set (k := Z.of_nat _).
  destruct (Z.leb_spec 1 (Z.min k MAX_SAFE_INTEGER)), (Z.ltb_spec 0 k); try reflexivity; lia.
Qed.

End TextProperties.

(** The words of "The pipe's end, the PIPE!" when lower-casing is that of
    ASCII letters. *)
Example parseWords_example :
  parseWords (fun s => (fun c => if (65 <=? c) && (c <=? 90) then c + 32 else c)%N <$> s)
    (js "The pipe's end, the PIPE!")
  = [js "the"; js "pipe's"; js "end"; js "the"; js "pipe"].
Proof. vm_compute. reflexivity. Qed.

(* ===================================================================== *)
(** * Part XII. [lookup] finds the words within the distance              *)
(* ===================================================================== *)

(** ** Prefixes and the characters after them *)

Lemma substrFrom_drop (s : jsstring) (start : Z) :
  0 <= start -> substrFrom s start = drop (Z.to_nat start) s.
Proof.
  intros Hs. unfold substrFrom, substr. cbv zeta.
  destruct (Z.ltb_spec start 0) as [|_]; [lia|].
  destruct (Z.le_gt_cases start (Z.of_nat (length s))) as [Hle|Hgt].
  - replace (Z.min start (Z.of_nat (length s))) with start by lia.
    apply take_ge. rewrite length_drop. lia.
  - replace (Z.min start (Z.of_nat (length s))) with (Z.of_nat (length s)) by lia.
    rewrite Nat2Z.id, !drop_ge by lia. apply take_nil.
Qed.

Lemma charAt_app_l (s l : jsstring) (i : Z) :
  i < Z.of_nat (length s) -> charAt (s ++ l) i = charAt s i.
Proof.
  intros Hi. unfold charAt. destruct (Z.ltb_spec i 0); [reflexivity|].
  apply lookup_app_l. lia.
Qed.

Lemma charAt_app_r (s l : jsstring) (i : Z) :
  Z.of_nat (length s) <= i -> charAt (s ++ l) i = l !! Z.to_nat (i - Z.of_nat (length s)).
Proof.
  intros Hi. unfold charAt. destruct (Z.ltb_spec i 0) as [|_]; [lia|].
  rewrite lookup_app_r by lia. f_equal. lia.
Qed.

(** The comparison only fires when both strings are longer than the
    prefix. *)
Lemma suffixMismatch_long (pl : Z) (a b : jsstring) :
  suffixMismatch pl a b = true ->
  pl < Z.of_nat (length a) /\ pl < Z.of_nat (length b).
Proof.
  unfold suffixMismatch. cbv zeta. intros H.
  apply orb_true_iff in H as [H|H].
  - apply andb_true_iff in H as [H _]. apply Z.gtb_lt in H. lia.
  - apply andb_true_iff in H as [H _]. apply andb_true_iff in H as [H _].
    apply Z.gtb_lt in H. lia.
Qed.

(** A common last character does not make the comparison fire. *)
Lemma suffixMismatch_snoc (pl : Z) (a b : jsstring) (x : N) :
  0 <= pl -> pl <= Z.of_nat (length a) -> pl <= Z.of_nat (length b) ->
  suffixMismatch pl (a ++ [x]) (b ++ [x]) = true ->
  suffixMismatch pl a b = true.
Proof.
  intros Hpl Ha Hb. unfold suffixMismatch. cbv zeta.
  rewrite !length_app. cbn [length].
  set (la := Z.of_nat (length a)) in *. set (lb := Z.of_nat (length b)) in *.
  replace (Z.of_nat (length a + 1)) with (la + 1) by lia.
  replace (Z.of_nat (length b + 1)) with (lb + 1) by lia.
  replace (Z.min (la + 1) (lb + 1) - pl) with (Z.min la lb - pl + 1) by lia.
  set (s := Z.min la lb - pl).
  assert (Hs : 0 <= s) by lia.
  replace (la + 1 + 1 - (s + 1)) with (la + 1 - s) by lia.
  replace (lb + 1 + 1 - (s + 1)) with (lb + 1 - s) by lia.
  replace (la + 1 - (s + 1)) with (la - s) by lia.
  replace (lb + 1 - (s + 1)) with (lb - s) by lia.
  destruct (Z.eq_dec s 0) as [Hs0|Hs0].
  { (* the last characters are the ones compared *)
    rewrite Hs0.
    replace (0 + 1 >? 1) with false by reflexivity.
    replace (la - 0) with la by lia. replace (lb - 0) with lb by lia.
    rewrite (charAt_app_r a [x] la), (charAt_app_r b [x] lb) by lia.
    replace (la - Z.of_nat (length a)) with 0 by lia.
    replace (lb - Z.of_nat (length b)) with 0 by lia.
    simpl. rewrite bool_decide_eq_true_2 by done. simpl. discriminate. }
  rewrite !substrFrom_drop by lia.
  rewrite !drop_app_le by lia.
  rewrite !(charAt_app_l a), !(charAt_app_l b) by lia.
  intros H. apply orb_true_iff in H as [H|H]; apply orb_true_iff.
  - left. apply andb_true_iff in H as [_ H]. apply andb_true_iff.
    apply negb_true_iff, bool_decide_eq_false in H.
    destruct (Z.eq_dec s 1) as [Hs1|Hs1].
    + exfalso. apply H. rewrite !drop_ge by lia. reflexivity.
    + split; [apply Z.gtb_lt; lia|].
      apply negb_true_iff, bool_decide_eq_false. intros Heq. apply H. by rewrite Heq.
  - right. apply andb_true_iff in H as [H H3]. apply andb_true_iff in H as [_ H2].
    rewrite H2, H3. replace (s >? 0) with true by (symmetry; apply Z.gtb_lt; lia).
    reflexivity.
Qed.

(** Two transposed characters across the end of the prefix do not make the
    comparison fire. *)
Lemma suffixMismatch_swap (pl : Z) (a b : jsstring) (x y : N) :
  Z.of_nat (length a) = pl - 1 -> Z.of_nat (length b) = pl - 1 ->
  suffixMismatch pl (a ++ [x; y]) (b ++ [y; x]) = false.
Proof.
  intros Ha Hb. unfold suffixMismatch. cbv zeta.
  rewrite !length_app. cbn [length].
  replace (Z.of_nat (length a + 2)) with (pl + 1) by lia.
  replace (Z.of_nat (length b + 2)) with (pl + 1) by lia.
  replace (Z.min (pl + 1) (pl + 1) - pl) with 1 by lia.
  replace (1 >? 1) with false by reflexivity. cbn [andb orb].
  replace (pl + 1 - 1) with pl by lia.
  rewrite (charAt_app_r a [x; y] pl), (charAt_app_r b [y; x] pl) by lia.
  rewrite (charAt_app_r a [x; y] (pl - 1)), (charAt_app_r b [y; x] (pl - 1)) by lia.
  replace (pl - Z.of_nat (length a)) with 1 by lia.
  replace (pl - Z.of_nat (length b)) with 1 by lia.
  replace (pl - 1 - Z.of_nat (length a)) with 0 by lia.
  replace (pl - 1 - Z.of_nat (length b)) with 0 by lia.
  simpl. rewrite (bool_decide_eq_true_2 (Some x = Some x)) by done.
  rewrite (bool_decide_eq_true_2 (Some y = Some y)) by done.
  simpl. apply andb_false_r.
Qed.

(** ** The input and a word within the distance share a candidate *)

Lemma take_sublist_take (l : jsstring) (n m : nat) :
  (n <= m)%nat -> take n l `sublist_of` take m l.
Proof.
  intros Hnm. replace (take n l) with (take n (take m l)).
  - apply sublist_take.
  - rewrite take_take. f_equal. lia.
Qed.

(** The cell [(i, j)] of the reference matrix bounds the number of
    characters to delete from the two prefixes, each cut to [pn]
    characters, to reach a common subsequence; and there is one delete to
    spare when the comparison of the characters after the cut fires. *)
Lemma osa_dp_prefix_delete (pn : nat) (a b : jsstring) :
  forall i j, (i <= length a)%nat -> (j <= length b)%nat ->
  exists d, d `sublist_of` take (i `min` pn) a /\ d `sublist_of` take (j `min` pn) b /\
            Z.of_nat ((i `min` pn) `max` (j `min` pn)) - Z.of_nat (length d)
            + (if suffixMismatch (Z.of_nat pn) (take i a) (take j b) then 1 else 0)
            <= osa_dp a b i j.
Proof.
  apply (dp_induction (fun i j =>
    (i <= length a)%nat -> (j <= length b)%nat ->
    exists d, d `sublist_of` take (i `min` pn) a /\ d `sublist_of` take (j `min` pn) b /\
              Z.of_nat ((i `min` pn) `max` (j `min` pn)) - Z.of_nat (length d)
              + (if suffixMismatch (Z.of_nat pn) (take i a) (take j b) then 1 else 0)
              <= osa_dp a b i j)).
  - intros j _ Hj. exists []. rewrite osa_dp_0_l.
    split; [apply sublist_nil_l|]. split; [apply sublist_nil_l|].
    destruct (suffixMismatch _ _ _) eqn:E; [|simpl; lia].
    apply suffixMismatch_long in E. simpl in E. lia.
  - intros i Hi _. exists []. rewrite osa_dp_0_r.
    split; [apply sublist_nil_l|]. split; [apply sublist_nil_l|].
    destruct (suffixMismatch _ _ _) eqn:E; [|simpl; lia].
    apply suffixMismatch_long in E. rewrite length_take in E. simpl in E. lia.
  - intros i j IH Hi Hj.
    destruct (lookup_lt_is_Some_2 a i ltac:(lia)) as [x Hx].
    destruct (lookup_lt_is_Some_2 b j ltac:(lia)) as [y Hy].
    set (mmS := if suffixMismatch (Z.of_nat pn) (take (S i) a) (take (S j) b)
                then 1 else 0).
    assert (HmmS : mmS = 0 \/ (mmS = 1 /\ (pn < S i)%nat /\ (pn < S j)%nat /\
                    suffixMismatch (Z.of_nat pn) (take (S i) a) (take (S j) b) = true)).
    { unfold mmS. destruct (suffixMismatch _ _ _) eqn:E; [right|by left].
      pose proof (suffixMismatch_long _ _ _ E) as HE. rewrite !length_take in HE.
      repeat split; lia. }
    (* a witness of an earlier cell serves when the cost grows by one *)
    assert (Hplus : forall i' j' d',
               (i' <= S i)%nat -> (j' <= S j)%nat ->
               d' `sublist_of` take (i' `min` pn) a ->
               d' `sublist_of` take (j' `min` pn) b ->
               Z.of_nat (((S i) `min` pn) `max` ((S j) `min` pn)) + mmS
               <= Z.of_nat ((i' `min` pn) `max` (j' `min` pn)) + 1 ->
               forall v,
               Z.of_nat ((i' `min` pn) `max` (j' `min` pn)) - Z.of_nat (length d')
               + (if suffixMismatch (Z.of_nat pn) (take i' a) (take j' b) then 1 else 0)
               <= v ->
               exists d, d `sublist_of` take ((S i) `min` pn) a /\
                         d `sublist_of` take ((S j) `min` pn) b /\
                         Z.of_nat (((S i) `min` pn) `max` ((S j) `min` pn))
                         - Z.of_nat (length d) + mmS <= v + 1).
    { intros i' j' d' Hi' Hj' Ha Hb Harith v Hv. exists d'.
      split; [etrans; [exact Ha|apply take_sublist_take; lia]|].
      split; [etrans; [exact Hb|apply take_sublist_take; lia]|].
      destruct (suffixMismatch (Z.of_nat pn) (take i' a) (take j' b)); lia. }
    destruct (IH i j ltac:(lia) ltac:(lia) ltac:(lia) ltac:(lia) ltac:(lia))
      as (d0 & Ha0 & Hb0 & H0).
    destruct (decide (a !! i = b !! j)) as [Heq|Hne].
    { rewrite (osa_dp_equal a b i j Heq).
      assert (x = y) as <- by congruence.
      destruct (Nat.le_gt_cases (S i) pn) as [Hin|Hout];
        [destruct (Nat.le_gt_cases (S j) pn) as [Hjn|Hjout]|].
      - (* both characters are in the prefixes *)
        exists (d0 ++ [x]).
        rewrite !Nat.min_l in * by lia.
        rewrite (take_S_r a i x Hx), (take_S_r b j x Hy).
        split; [by apply sublist_app|]. split; [by apply sublist_app|].
        rewrite length_app. simpl.
        destruct HmmS as [->|(_ & ? & _)]; [|lia].
        destruct (suffixMismatch (Z.of_nat pn) (take i a) (take j b)); lia.
      - exists d0.
        split; [etrans; [exact Ha0|apply take_sublist_take; lia]|].
        split; [etrans; [exact Hb0|apply take_sublist_take; lia]|].
        fold mmS. destruct HmmS as [->|(_ & ? & _)]; [|lia].
        destruct (suffixMismatch (Z.of_nat pn) (take i a) (take j b)); lia.
      - exists d0.
        split; [etrans; [exact Ha0|apply take_sublist_take; lia]|].
        split; [etrans; [exact Hb0|apply take_sublist_take; lia]|].
        fold mmS. destruct HmmS as [->|(-> & Hpi & Hpj & Hmm)].
        + destruct (suffixMismatch (Z.of_nat pn) (take i a) (take j b)); lia.
        + rewrite (take_S_r a i x Hx), (take_S_r b j x Hy) in Hmm.
          apply suffixMismatch_snoc in Hmm; [|lia|rewrite length_take; lia
                                             |rewrite length_take; lia].
          rewrite Hmm in H0. lia. }
    rewrite (osa_dp_differ a b i j Hne). cbv zeta.
    destruct (IH (S i) j ltac:(lia) ltac:(lia) ltac:(lia) ltac:(lia) ltac:(lia))
      as (d1 & Ha1 & Hb1 & H1).
    destruct (IH i (S j) ltac:(lia) ltac:(lia) ltac:(lia) ltac:(lia) ltac:(lia))
      as (d2 & Ha2 & Hb2 & H2).
    assert (Hbest : exists d, d `sublist_of` take ((S i) `min` pn) a /\
                              d `sublist_of` take ((S j) `min` pn) b /\
              Z.of_nat (((S i) `min` pn) `max` ((S j) `min` pn)) - Z.of_nat (length d) + mmS
              <= 1 + Z.min (Z.min (osa_dp a b i j) (osa_dp a b (S i) j))
                           (osa_dp a b i (S j))).
    { assert (Harith : forall i' j', (i <= i' <= S i)%nat -> (j <= j' <= S j)%nat ->
                 Z.of_nat (((S i) `min` pn) `max` ((S j) `min` pn)) + mmS
                 <= Z.of_nat ((i' `min` pn) `max` (j' `min` pn)) + 1).
      { intros i' j' Hi' Hj'. destruct HmmS as [->|(-> & ? & ? & _)]; lia. }
      destruct (Z.min_spec (Z.min (osa_dp a b i j) (osa_dp a b (S i) j)) (osa_dp a b i (S j)))
        as [[_ ->]|[_ ->]];
        [destruct (Z.min_spec (osa_dp a b i j) (osa_dp a b (S i) j)) as [[_ ->]|[_ ->]]|].
      - destruct (Hplus i j d0 ltac:(lia) ltac:(lia) Ha0 Hb0 (Harith i j ltac:(lia) ltac:(lia))
                    _ H0) as (d & ? & ? & ?).
        exists d. repeat split; try done. lia.
      - destruct (Hplus (S i) j d1 ltac:(lia) ltac:(lia) Ha1 Hb1
                    (Harith (S i) j ltac:(lia) ltac:(lia)) _ H1) as (d & ? & ? & ?).
        exists d. repeat split; try done. lia.
      - destruct (Hplus i (S j) d2 ltac:(lia) ltac:(lia) Ha2 Hb2
                    (Harith i (S j) ltac:(lia) ltac:(lia)) _ H2) as (d & ? & ? & ?).
        exists d. repeat split; try done. lia. }
    destruct (swapped a b i j) eqn:Hsw; [|exact Hbest].
    destruct (Z.min_spec
                (1 + Z.min (Z.min (osa_dp a b i j) (osa_dp a b (S i) j)) (osa_dp a b i (S j)))
                (osa_dp a b (i - 1) (j - 1) + 1)) as [[_ ->]|[_ ->]]; [exact Hbest|].
    destruct i as [|i], j as [|j]; simpl in Hsw; try discriminate.
    apply andb_true_iff in Hsw as [Hs1 Hs2].
    apply bool_decide_eq_true in Hs1, Hs2.
    replace (S i - 1)%nat with i by lia. replace (S j - 1)%nat with j by lia.
    destruct (IH i j ltac:(lia) ltac:(lia) ltac:(lia) ltac:(lia) ltac:(lia))
      as (d3 & Ha3 & Hb3 & H3).
    destruct (lookup_lt_is_Some_2 a i ltac:(lia)) as [x' Hx'].
    destruct (lookup_lt_is_Some_2 b j ltac:(lia)) as [y' Hy'].
    assert (x = y') by congruence. assert (x' = y) by congruence. subst y' y.
    destruct (Nat.le_gt_cases (S (S i)) pn) as [Hin|Hout];
      [destruct (Nat.le_gt_cases (S (S j)) pn) as [Hjn|Hjout]|].
    + (* the transposed characters are in the prefixes *)
      exists (d3 ++ [x]).
      rewrite !Nat.min_l in * by lia.
      rewrite (take_S_r a (S i) x Hx), (take_S_r b (S j) x' Hy).
      rewrite (take_S_r a i x' Hx'), (take_S_r b j x Hy').
      rewrite length_app. simpl.
      split; [|split].
      * rewrite <- app_assoc. apply sublist_app; [exact Ha3|].
        simpl. apply sublist_cons. done.
      * rewrite <- app_assoc. apply sublist_app; [exact Hb3|].
        simpl. apply sublist_skip. apply sublist_nil_l.
      * destruct HmmS as [->|(_ & ? & _)]; [|lia].
        destruct (suffixMismatch (Z.of_nat pn) (take i a) (take j b)); lia.
    + assert (Harith : Z.of_nat ((S (S i) `min` pn) `max` (S (S j) `min` pn)) + mmS
                       <= Z.of_nat ((i `min` pn) `max` (j `min` pn)) + 1).
      { destruct HmmS as [->|(-> & ? & ? & _)]; lia. }
      exact (Hplus i j d3 ltac:(lia) ltac:(lia) Ha3 Hb3 Harith _ H3).
    + assert (Harith : Z.of_nat ((S (S i) `min` pn) `max` (S (S j) `min` pn)) + mmS
                       <= Z.of_nat ((i `min` pn) `max` (j `min` pn)) + 1);
        [|exact (Hplus i j d3 ltac:(lia) ltac:(lia) Ha3 Hb3 Harith _ H3)].
      destruct HmmS as [->|(-> & Hpi & Hpj & Hmm)]; [lia|].
      destruct (Nat.le_gt_cases pn i) as [|Hi0]; [lia|].
      destruct (Nat.le_gt_cases pn j) as [|Hj0]; [lia|].
      exfalso.
      rewrite (take_S_r a (S i) x Hx), (take_S_r b (S j) x' Hy) in Hmm.
      rewrite (take_S_r a i x' Hx'), (take_S_r b j x Hy') in Hmm.
      rewrite <- !app_assoc in Hmm. simpl in Hmm.
      rewrite suffixMismatch_swap in Hmm; [done| |]; rewrite length_take; lia.
Qed.

Lemma inputPrefix_take (this : SymSpell) (input : jsstring) :
  0 <= prefixLength this ->
  inputPrefix this input
  = take (length input `min` Z.to_nat (prefixLength this)) input.
Proof.
  intros Hpl. unfold inputPrefix.
  destruct (Z.gtb_spec (Z.of_nat (length input)) (prefixLength this)) as [Hgt|Hle].
  - unfold substr. cbv zeta. destruct (Z.ltb_spec 0 0) as [|_]; [lia|].
    replace (Z.to_nat (Z.min 0 (Z.of_nat (length input)))) with O by lia.
    rewrite drop_0. f_equal. lia.
  - rewrite Nat.min_l by lia. by rewrite firstn_all.
Qed.

Lemma termPrefix_take_min (this : SymSpell) (w : jsstring) :
  0 <= prefixLength this ->
  termPrefix this w = take (length w `min` Z.to_nat (prefixLength this)) w.
Proof. apply (inputPrefix_take this w). Qed.

Lemma inputPrefix_length (this : SymSpell) (input : jsstring) :
  0 <= prefixLength this ->
  Z.of_nat (length (inputPrefix this input))
  = Z.min (Z.of_nat (length input)) (prefixLength this).
Proof. apply (termPrefix_length this input). Qed.

Lemma termPrefix_sublist (this : SymSpell) (w : jsstring) :
  termPrefix this w `sublist_of` w.
Proof. destruct (termPrefix_take this w) as [n ->]. apply sublist_take. Qed.

(** The meeting point of the input and a word within the distance: a
    candidate that the loop of [lookup] visits, in whose bucket the word is,
    and at which none of the tests of the loop discards the word. *)
Lemma meeting_point (this : SymSpell) (input w : jsstring) (k : Z) :
  0 <= prefixLength this ->
  w <> input -> osa_ref input w <= k ->
  exists d, meets this input k (osa_ref input w) d w.
Proof.
  intros Hpl Hne Hosa.
  destruct (osa_dp_prefix_delete (Z.to_nat (prefixLength this)) input w
              (length input) (length w) ltac:(lia) ltac:(lia)) as (d & Hdi & Hdw & Hbound).
  rewrite <- inputPrefix_take in Hdi by exact Hpl.
  rewrite <- termPrefix_take_min in Hdw by exact Hpl.
  rewrite !firstn_all, Z2Nat.id in Hbound by exact Hpl.
  fold (osa_ref input w) in Hbound.
  pose proof (inputPrefix_length this input Hpl) as Hli.
  pose proof (termPrefix_length this w Hpl) as Hlw.
  exists d. split; [exact Hne|]. split; [exact Hosa|].
  destruct (suffixMismatch (prefixLength this) input w) eqn:Hmm.
  - pose proof (suffixMismatch_long _ _ _ Hmm) as [? ?].
    split; [split; [exact Hdi|lia]|]. split; [split; [exact Hdw|lia]|]. intros Hd. lia.
  - split; [split; [exact Hdi|lia]|]. split; [split; [exact Hdw|lia]|]. done.
Qed.

Lemma meets_mono (this : SymSpell) (input : jsstring) (k b b' : Z) (d w : jsstring) :
  b <= b' -> meets this input k b d w -> meets this input k b' d w.
Proof.
  intros Hb (H1 & H2 & [H3 H3'] & [H4 H4'] & H5).
  split; [done|]. split; [done|]. split; [split; [done|lia]|].
  split; [split; [done|lia]|done].
Qed.

(** A character that does not occur in [a] costs one edit more than the
    deletion of the other characters. *)
Lemma osa_dp_column_absent (a : jsstring) (c : N) (i : nat) :
  c ∉ a -> Z.of_nat i <= osa_dp a [c] i 1.
Proof.
  intros Hc. induction i as [|i IH].
  - rewrite osa_dp_0_l. lia.
  - assert (Hne : a !! i <> [c] !! 0%nat).
    { simpl. intros Heq. apply Hc. by apply list_elem_of_lookup_2 in Heq. }
    rewrite (osa_dp_differ a [c] i 0 Hne). cbv zeta.
    replace (swapped a [c] i 0) with false by (by destruct i).
    rewrite !osa_dp_0_r. lia.
Qed.

(** ** The candidate loop under [Verbosity.ALL] *)

Lemma recordSuggestion_ALL_eq (this : SymSpell) (suggestion : jsstring) (d : Z)
    (st : LoopState) :
  d <= ls_maxEditDistance2 st ->
  recordSuggestion this ALL suggestion d st
  = set_suggestions
      (ls_suggestions st
       ++ [mkSuggestItem suggestion d (default 0 (words this !! suggestion))]) st.
Proof.
  intros Hd. unfold recordSuggestion.
  destruct (Z.leb_spec d (ls_maxEditDistance2 st)); [|lia].
  destruct (ls_suggestions st) eqn:Hs; simpl; unfold set_suggestions; simpl; by rewrite ?Hs.
Qed.

Lemma reported_app_l (this : SymSpell) (l l' : list SuggestItem) (w : jsstring) :
  reported this l w -> reported this (l ++ l') w.
Proof. intros (s & Hs & Ht). exists s. split; [apply elem_of_app; by left|done]. Qed.

(** What [pushDeletes] adds to the queue and to the considered deletes. *)
Lemma pushDeletes_covers (d : jsstring) (queue : list jsstring) (st : LoopState) :
  let r := pushDeletes d queue st in
  ls_suggestions r.2 = ls_suggestions st /\
  ls_maxEditDistance2 r.2 = ls_maxEditDistance2 st /\
  ls_consideredSuggestions r.2 = ls_consideredSuggestions st /\
  (forall x, x ∈ ls_consideredDeletes r.2 <->
             x ∈ ls_consideredDeletes st \/ exists i, (i < length d)%nat /\ x = deleteAt d i) /\
  (forall x, x ∈ r.1 -> x ∈ queue \/ exists i, (i < length d)%nat /\ x = deleteAt d i) /\
  (forall x, x ∈ queue -> x ∈ r.1) /\
  (forall x, x ∈ ls_consideredDeletes r.2 -> x ∈ ls_consideredDeletes st \/ x ∈ r.1).
Proof.
  cbv zeta. unfold pushDeletes.
  assert (Hgen : forall idxs queue st,
    let r := fold_left
      (fun '(queue, st) i =>
         let del := deleteAt d i in
         if bool_decide (del ∈ ls_consideredDeletes st) then (queue, st)
         else (queue ++ [del],
               mkLoop (ls_suggestions st) (ls_maxEditDistance2 st)
                      ({[del]} ∪ ls_consideredDeletes st) (ls_consideredSuggestions st)
                      (ls_distanceComparer st)))
      idxs (queue, st) in
    ls_suggestions r.2 = ls_suggestions st /\
    ls_maxEditDistance2 r.2 = ls_maxEditDistance2 st /\
    ls_consideredSuggestions r.2 = ls_consideredSuggestions st /\
    (forall x, x ∈ ls_consideredDeletes r.2 <->
               x ∈ ls_consideredDeletes st \/ exists i, i ∈ idxs /\ x = deleteAt d i) /\
    (forall x, x ∈ r.1 -> x ∈ queue \/ exists i, i ∈ idxs /\ x = deleteAt d i) /\
    (forall x, x ∈ queue -> x ∈ r.1) /\
    (forall x, x ∈ ls_consideredDeletes r.2 -> x ∈ ls_consideredDeletes st \/ x ∈ r.1)).
  { clear. induction idxs as [|i idxs IH]; intros queue st; cbv zeta.
    { simpl. repeat split; auto.
      - intros [?|(i & Hi & _)]; [done|by apply elem_of_nil in Hi]. }
    simpl. destruct (bool_decide_reflect (deleteAt d i ∈ ls_consideredDeletes st)) as [Hin|Hin].
    - destruct (IH queue st) as (H1 & H2 & H3 & H4 & H5 & H6 & H7).
      repeat split; auto.
      + intros Hx. apply H4 in Hx as [Hx|(j & Hj & ->)]; [by left|].
        right. exists j. split; [by right|done].
      + intros [Hx|(j & Hj & ->)]; apply H4; [by left|].
        apply elem_of_cons in Hj as [->|Hj]; [by left|]. right. by exists j.
      + intros x Hx. apply H5 in Hx as [Hx|(j & Hj & ->)]; [by left|].
        right. exists j. split; [by right|done].
    - match goal with |- context [fold_left _ idxs (?q, ?s)] =>
        destruct (IH q s) as (H1 & H2 & H3 & H4 & H5 & H6 & H7)
      end.
      simpl in H1, H2, H3, H4, H7.
      repeat split; auto.
      + intros Hx. apply H4 in Hx as [Hx|(j & Hj & ->)].
        * apply elem_of_union in Hx as [Hx|Hx]; [|by left].
          apply elem_of_singleton in Hx. subst x. right. exists i. split; [by left|done].
        * right. exists j. split; [by right|done].
      + intros [Hx|(j & Hj & ->)]; apply H4.
        * left. apply elem_of_union. by right.
        * apply elem_of_cons in Hj as [->|Hj].
          -- left. apply elem_of_union. left. by apply elem_of_singleton.
          -- right. by exists j.
      + intros x Hx. apply H5 in Hx as [Hx|(j & Hj & ->)].
        * apply elem_of_app in Hx as [Hx|Hx]; [by left|].
          apply list_elem_of_singleton in Hx. subst x. right. exists i. split; [by left|done].
        * right. exists j. split; [by right|done].
      + intros x Hx. apply H6. apply elem_of_app. by left.
      + intros x Hx. apply H7 in Hx as [Hx|Hx]; [|by right].
        apply elem_of_union in Hx as [Hx|Hx]; [|by left].
        apply elem_of_singleton in Hx. subst x. right. apply H6.
        apply elem_of_app. right. by left. }
  destruct (Hgen (seq 0 (length d)) queue st) as (H1 & H2 & H3 & H4 & H5 & H6 & H7).
  assert (Hseq : forall x, (exists i, i ∈ seq 0 (length d) /\ x = deleteAt d i) <->
                           (exists i, (i < length d)%nat /\ x = deleteAt d i)).
  { intros x. split; intros (i & Hi & ->); exists i; (split; [|done]).
    - apply elem_of_seq in Hi. lia.
    - apply elem_of_seq. lia. }
  repeat split; auto.
  - intros Hx. apply H4 in Hx as [Hx|Hx]; [by left|]. right. by apply Hseq.
  - intros [Hx|Hx]; apply H4; [by left|]. right. by apply Hseq.
  - intros x Hx. apply H5 in Hx as [Hx|Hx]; [by left|]. right. by apply Hseq.
Qed.

Section CandidateLoop.

Variables (this : SymSpell) (input : jsstring) (k : Z).

Hypothesis k_pos : 0 < k.
Hypothesis k_safe : k <= MAX_SAFE_INTEGER.
Hypothesis k_prefix : k < prefixLength this.

Local Abbreviation inputLen := (Z.of_nat (length input)).
Local Abbreviation prefix := (inputPrefix this input).
Local Abbreviation inputPrefixLen := (Z.of_nat (length (inputPrefix this input))).
Local Abbreviation kept := (kept this input k).

Lemma record_covers (st : LoopState) (x : jsstring) (dist : Z) :
  ls_maxEditDistance2 st = k -> dist <= k ->
  (forall w, w ∈ ls_consideredSuggestions st ->
             w = x \/ w = input \/ reported this (ls_suggestions st) w \/ k < osa_ref input w) ->
  let st1 := recordSuggestion this ALL x dist st in
  kept st st1 /\ reported this (ls_suggestions st1) x.
Proof.
  intros Hmax Hd Hcons. cbv zeta.
  rewrite recordSuggestion_ALL_eq by lia. unfold set_suggestions. simpl.
  assert (Hx : reported this (ls_suggestions st
                         ++ [mkSuggestItem x dist (default 0 (words this !! x))]) x).
  { eexists. split; [apply elem_of_app; right; by left|done]. }
  repeat split; try done.
  - intros w. apply reported_app_l.
  - intros w Hw. simpl in Hw.
    destruct (Hcons w Hw) as [->|[->|[Hr|Hfar]]]; auto.
    right. left. by apply reported_app_l.
Qed.

(** The test on the characters after the prefix, as the loop makes it. *)
Lemma suffixGuard_eq (d x : jsstring) :
  (let min :=
     if prefixLength this - k =? Z.of_nat (length d)
     then Z.min inputLen (Z.of_nat (length x)) - prefixLength this else 0 in
   (prefixLength this - k =? Z.of_nat (length d))
   && (((min >? 1)
        && negb (bool_decide (substrFrom input (inputLen + 1 - min)
                              = substrFrom x (Z.of_nat (length x) + 1 - min))))
       || ((min >? 0)
           && negb (bool_decide (charAt input (inputLen - min)
                                 = charAt x (Z.of_nat (length x) - min)))
           && (negb (bool_decide (charAt input (inputLen - min - 1)
                                  = charAt x (Z.of_nat (length x) - min)))
               || negb (bool_decide (charAt input (inputLen - min)
                                     = charAt x (Z.of_nat (length x) - min - 1)))))))
  = (prefixLength this - k =? Z.of_nat (length d))
    && suffixMismatch (prefixLength this) input x.
Proof.
  cbv zeta. unfold suffixMismatch. cbv zeta.
  destruct (prefixLength this - k =? Z.of_nat (length d)); reflexivity.
Qed.

Lemma suggestionBody_covers (d : jsstring) (st : LoopState) (x : jsstring) :
  ls_maxEditDistance2 st = k ->
  deletedFrom k prefix d ->
  consideredInv this input k st ->
  let st1 := suggestionBody this ALL k input inputLen inputPrefixLen d st x in
  kept st st1 /\ (meets this input k k d x -> reported this (ls_suggestions st1) x).
Proof.
  intros Hmax [Hd Hdepth] Hcons. cbv zeta.
  assert (Hstay : kept st st) by done.
  assert (Hseen : x ∈ ls_consideredSuggestions st -> meets this input k k d x ->
                  reported this (ls_suggestions st) x).
  { intros Hx (Hne & Hosa & _). destruct (Hcons x Hx) as [?|[?|?]]; [done|done|lia]. }
  assert (Hrecord : forall st' dist,
             ls_maxEditDistance2 st' = k -> dist <= k ->
             ls_suggestions st' = ls_suggestions st ->
             ls_consideredDeletes st' = ls_consideredDeletes st ->
             (forall w, w ∈ ls_consideredSuggestions st' ->
                        w = x \/ w ∈ ls_consideredSuggestions st) ->
             kept st (recordSuggestion this ALL x dist st') /\
             reported this (ls_suggestions (recordSuggestion this ALL x dist st')) x).
  { intros st' dist Hmax' Hdist Hs' Hd' Hc'.
    destruct (record_covers st' x dist Hmax' Hdist) as ((H1 & H2 & H3 & H4) & H5).
    - intros w Hw. destruct (Hc' w Hw) as [->|Hw']; [by left|].
      right. rewrite Hs'. apply (Hcons w Hw').
    - rewrite Hs', Hd' in *. done. }
  pose proof (osa_dp_lower input x (length input) (length x)) as Hlow.
  fold (osa_ref input x) in Hlow.
  pose proof (inputPrefix_length this input ltac:(lia)) as Hipl.
  pose proof (termPrefix_length this x ltac:(lia)) as Hxpl.
  pose proof (sublist_length _ _ (termPrefix_sublist this x)) as Hxp.
  unfold suggestionBody. cbv zeta. rewrite Hmax.
  destruct (decide (x = input)) as [->|Hne].
  { split; [done|]. by intros [? _]. }
  destruct (_ || _ || _) eqn:Hf.
  { split; [done|]. intros (_ & Hosa & _ & [Hsub Hlen] & _).
    pose proof (sublist_length _ _ Hsub) as Hl.
    apply orb_true_iff in Hf as [Hf|Hf]; [apply orb_true_iff in Hf as [Hf|Hf]|].
    - apply Z.gtb_lt in Hf. lia.
    - apply Z.ltb_lt in Hf. lia.
    - apply andb_true_iff in Hf as [Hf1 Hf2]. apply Z.eqb_eq in Hf1.
      assert (Hdx : d `sublist_of` x) by (etrans; [exact Hsub|apply termPrefix_sublist]).
      apply sublist_same_length in Hdx; [|lia]. subst d.
      by rewrite bool_decide_eq_true_2 in Hf2. }
  clear Hf.
  destruct (_ && _) eqn:Hf.
  { split; [done|]. intros (_ & _ & _ & [Hsub Hlen] & _).
    apply andb_true_iff in Hf as [_ Hf]. apply Z.gtb_lt in Hf. lia. }
  clear Hf.
  destruct (Z.eqb_spec (Z.of_nat (length d)) 0) as [Hd0|Hd0].
  { destruct (_ || _) eqn:Hf.
    - split; [done|]. intros Hm.
      apply orb_true_iff in Hf as [Hf|Hf].
      + apply Z.gtb_lt in Hf. destruct Hm as (_ & _ & _ & [_ Hlen] & _). lia.
      + apply bool_decide_eq_true in Hf. by apply Hseen.
    - apply orb_false_iff in Hf as [Hf _].
      destruct (Hrecord st (Z.max inputLen (Z.of_nat (length x)))) as [H1 H2]; auto.
      destruct (Z.gtb_spec (Z.max inputLen (Z.of_nat (length x))) k); [done|lia]. }
  destruct (Z.eqb_spec (Z.of_nat (length x)) 1) as [Hx1|Hx1].
  { set (dist := if notIn _ _ then _ else _).
    assert (Hdist : dist <= osa_ref input x).
    { unfold dist. destruct x as [|c [|c' x']]; try (simpl in Hx1; lia).
      cbn [lookup list_lookup notIn].
      destruct (bool_decide_reflect (c ∈ input)) as [Hcin|Hcin]; cbn [negb].
      - simpl in Hlow. lia.
      - apply osa_dp_column_absent. exact Hcin. }
    destruct (_ || _) eqn:Hf.
    - split; [done|]. intros Hm.
      apply orb_true_iff in Hf as [Hf|Hf].
      + apply Z.gtb_lt in Hf. destruct Hm as (_ & Hosa & _). lia.
      + apply bool_decide_eq_true in Hf. by apply Hseen.
    - apply orb_false_iff in Hf as [Hf _].
      destruct (Hrecord st dist) as [H1 H2]; auto.
      destruct (Z.gtb_spec dist k); [done|lia]. }
  match goal with |- context [if ?c then st else _] => destruct c eqn:Hguard end.
  { split; [done|]. intros (_ & _ & _ & _ & Hoff). exfalso.
    pose proof (suffixGuard_eq d x) as Heq. cbv zeta in Heq. rewrite Heq in Hguard.
    apply andb_true_iff in Hguard as [Hg1 Hg2]. apply Z.eqb_eq in Hg1.
    rewrite (Hoff Hg1) in Hg2. discriminate. }
  clear Hguard. cbn [Verbosity_eqb negb andb orb].
  destruct (bool_decide_reflect (x ∈ ls_consideredSuggestions st)) as [Hx|Hx].
  { split; [done|]. intros Hm. by apply Hseen. }
  unfold EditDistance_compare.
  pose proof (distance_result (ls_distanceComparer st) input x k) as Hres.
  destruct (EditDistance_distance _ _ _ _) as [r comparer]. cbn [fst] in Hres. subst r.
  destruct (Z.leb_spec k 0) as [|_]; [lia|].
  replace (Z.min k MAX_SAFE_INTEGER) with k by lia.
  set (st' := mkLoop _ _ _ _ _).
  destruct (Z.leb_spec (osa_ref input x) k) as [Hnear|Hfar].
  - pose proof (osa_ref_nonneg input x).
    destruct (Z.ltb_spec (osa_ref input x) 0); [lia|].
    destruct (Hrecord st' (osa_ref input x)) as [H1 H2]; auto.
    intros w Hw. simpl in Hw. apply elem_of_union in Hw as [Hw|Hw]; [|by right].
    left. by apply elem_of_singleton in Hw.
  - change (-1 <? 0) with true. cbv iota. split.
    + repeat split; try done. intros w Hw. simpl in Hw.
      apply elem_of_union in Hw as [Hw|Hw]; [|by apply Hcons].
      apply elem_of_singleton in Hw. subst w. right. right. lia.
    + intros (_ & Hosa & _). lia.
Qed.

Lemma bucket_covers (d : jsstring) (l : list jsstring) :
  deletedFrom k prefix d ->
  forall st,
    ls_maxEditDistance2 st = k ->
    consideredInv this input k st ->
    let st1 := fold_left (suggestionBody this ALL k input inputLen inputPrefixLen d) l st in
    kept st st1 /\
    (forall x, x ∈ l -> meets this input k k d x -> reported this (ls_suggestions st1) x).
Proof.
  intros Hd. induction l as [|x l IH]; intros st Hmax Hcons; cbv zeta.
  { split; [done|]. intros x Hx. by apply elem_of_nil in Hx. }
  simpl.
  destruct (suggestionBody_covers d st x Hmax Hd Hcons)
    as ((Hmax1 & Hdel1 & Hrep1 & Hcons1) & Hx1).
  destruct (IH _ Hmax1 Hcons1) as ((Hmax2 & Hdel2 & Hrep2 & Hcons2) & Hl2).
  split.
  - repeat split; try done; [congruence|]. intros w Hw. by apply Hrep2, Hrep1.
  - intros y Hy Hm. apply elem_of_cons in Hy as [->|Hy].
    + by apply Hrep2, Hx1.
    + by apply Hl2.
Qed.

Lemma served_mono (st st' : LoopState) (d : jsstring) :
  extends this st st' -> served this input k st d -> served this input k st' d.
Proof.
  intros [Hrep Hdel] [Ha Hb]. split.
  - intros bucket w Hbk Hw Hm. apply Hrep. by apply (Ha bucket).
  - intros Hdepth i Hi. apply Hdel. by apply Hb.
Qed.

Lemma extends_trans (st1 st2 st3 : LoopState) :
  extends this st1 st2 -> extends this st2 st3 -> extends this st1 st3.
Proof.
  intros [H1 H2] [H3 H4]. split; [intros w Hw; by apply H3, H1|set_solver].
Qed.

Lemma lookupLoop_covers (fuel : nat) :
  forall queue st st',
    coverageInv this input k queue st ->
    lookupLoop fuel this ALL k input inputLen inputPrefixLen queue st = Some st' ->
    coverageInv this input k [] st' /\
    (forall d, d ∈ queue -> served this input k st' d) /\
    extends this st st'.
Proof.
  induction fuel as [|fuel IH]; intros [|d queue] st st' Hinv Hrun;
    simpl in Hrun; try discriminate.
  1,2: injection Hrun as <-; (split; [exact Hinv|]); split;
       [intros d Hd; by apply elem_of_nil in Hd|done].
  destruct Hinv as (Hmax & Hq & Hdel & Hcons).
  apply Forall_cons in Hq as [Hdd Hq]. pose proof Hdd as [Hd Hdepth].
  pose proof (inputPrefix_length this input ltac:(lia)) as Hipl.
  rewrite Hmax in Hrun.
  destruct (Z.gtb_spec (inputPrefixLen - Z.of_nat (length d)) k) as [|_]; [lia|].
  set (st1 := match deletes this !! d with Some _ => _ | None => _ end) in Hrun.
  assert (Hst1 : kept st st1 /\
                 (forall bucket w,
                     deletes this !! d = Some bucket -> w ∈ bucket ->
                     meets this input k k d w ->
                     reported this (ls_suggestions st1) w)).
  { unfold st1. destruct (deletes this !! d) as [bucket|] eqn:Hb; [|done].
    destruct (bucket_covers d bucket Hdd st Hmax Hcons) as [H1 H2].
    split; [exact H1|]. intros b w [= <-]. apply H2. }
  clearbody st1. destruct Hst1 as ((Hmax1 & Hdel1 & Hrep1 & Hcons1) & Hbucket).
  assert (Hext1 : extends this st st1).
  { split; [exact Hrep1|by rewrite Hdel1]. }
  pose proof (sublist_length _ _ Hd) as Hdl.
  replace (Z.of_nat (length d) <=? prefixLength this) with true in Hrun
    by (symmetry; apply Z.leb_le; lia).
  rewrite andb_true_r in Hrun. cbn [Verbosity_eqb negb andb] in Hrun.
  destruct (Z.ltb_spec (inputPrefixLen - Z.of_nat (length d)) k) as [Hlt|Hge].
  - pose proof (pushDeletes_covers d queue st1) as Hpush.
    destruct (pushDeletes d queue st1) as [queue2 st2]. cbv zeta in Hpush. simpl in Hpush.
    destruct Hpush as (Hs2 & Hm2 & Hc2 & Hd2 & Hq2 & Hq2' & Hnew).
    assert (Hext2 : extends this st1 st2).
    { split; [by rewrite Hs2|]. intros x Hx. apply Hd2. by left. }
    assert (Hserved : served this input k st2 d).
    { split.
      - rewrite Hs2. exact Hbucket.
      - intros _ i Hi. apply Hd2. right. by exists i. }
    destruct (IH queue2 st2 st') as (Hfin & Hall & Hext3); [|exact Hrun|].
    { split; [congruence|]. split; [|split].
      - apply Forall_forall. intros x Hx.
        apply Hq2 in Hx as [Hx|(i & Hi & ->)].
        + by apply (proj1 (Forall_forall _ _) Hq).
        + split; [etrans; [apply deleteAt_sublist|exact Hd]|].
          rewrite deleteAt_length by exact Hi. lia.
      - intros y Hy. destruct (Hnew y Hy) as [Hy1|Hy1]; [|by left].
        rewrite Hdel1 in Hy1. destruct (Hdel y Hy1) as [Hy2|Hy2].
        + apply elem_of_cons in Hy2 as [->|Hy2]; [by right|]. left. by apply Hq2'.
        + right. apply (served_mono st); [|exact Hy2]. by apply (extends_trans _ st1).
      - intros w Hw. rewrite Hc2 in Hw. rewrite Hs2. by apply Hcons1. }
    split; [exact Hfin|]. split.
    + intros y Hy. apply elem_of_cons in Hy as [->|Hy].
      * by apply (served_mono st2).
      * by apply Hall, Hq2'.
    + apply (extends_trans _ st1); [done|]. by apply (extends_trans _ st2).
  - assert (Hserved : served this input k st1 d).
    { split; [exact Hbucket|]. intros Hlt. lia. }
    destruct (IH queue st1 st') as (Hfin & Hall & Hext3); [|exact Hrun|].
    { split; [done|]. split; [exact Hq|]. split; [|done].
      intros y Hy. rewrite Hdel1 in Hy. destruct (Hdel y Hy) as [Hy2|Hy2].
      - apply elem_of_cons in Hy2 as [->|Hy2]; [by right|by left].
      - right. by apply (served_mono st). }
    split; [exact Hfin|]. split.
    + intros y Hy. apply elem_of_cons in Hy as [->|Hy].
      * by apply (served_mono st1).
      * by apply Hall.
    + by apply (extends_trans _ st1).
Qed.

(** Once the queue is empty, every delete variant of the prefix of the
    input within [k] deletes has had its iteration. *)
Lemma served_all (st : LoopState) :
  coverageInv this input k [] st ->
  forall (n : nat) (p d : jsstring),
    served this input k st p -> p `sublist_of` prefix ->
    d `sublist_of` p -> (length p - length d = n)%nat ->
    inputPrefixLen - Z.of_nat (length d) <= k ->
    served this input k st d.
Proof.
  intros (_ & _ & Hdel & _). induction n as [|n IH]; intros p d Hp Hpin Hdp Hn Hdepth.
  - pose proof (sublist_length _ _ Hdp).
    by rewrite (sublist_same_length d p Hdp ltac:(lia)).
  - destruct (sublist_through_delete d p Hdp ltac:(lia)) as (i & Hi & Hsub).
    pose proof (sublist_length _ _ Hdp).
    destruct Hp as [_ Hpush].
    destruct (Hdel (deleteAt p i)) as [Hq|Hserved].
    + apply Hpush; [lia|exact Hi].
    + by apply elem_of_nil in Hq.
    + apply (IH (deleteAt p i) d Hserved); [|exact Hsub| |exact Hdepth].
      * etrans; [apply deleteAt_sublist|exact Hpin].
      * rewrite deleteAt_length by exact Hi. lia.
Qed.

End CandidateLoop.

Lemma finishSuggestions_keeps tcs (l : list SuggestItem) (s : SuggestItem) :
  s ∈ l -> s ∈ finishSuggestions tcs noOptions [] l.
Proof.
  unfold finishSuggestions. cbv zeta. cbn [transferCasing noOptions].
  destruct (1 <? length l)%nat; [by rewrite elem_of_rev_sort|done].
Qed.

Section LookupCoverage.

Variable toLowerCase : jsstring -> jsstring.
Variable transferCasingSimilar : jsstring -> jsstring -> jsstring.

Local Abbreviation lookup := (SymSpell_lookup toLowerCase transferCasingSimilar).

(** The candidate loop, as [lookup] starts it without options. *)
Lemma lookup_loop_prefix (this : SymSpell) (input : jsstring) :
  0 <= prefixLength this ->
  (if Z.of_nat (length input) >? prefixLength this
   then prefixLength this else Z.of_nat (length input))
  = Z.of_nat (length (inputPrefix this input)) /\
  (if Z.of_nat (length input) >? prefixLength this
   then substr input 0 (Z.of_nat (length (inputPrefix this input)))
   else input)
  = inputPrefix this input.
Proof.
  intros Hpl. rewrite (inputPrefix_length this input Hpl). unfold inputPrefix.
  destruct (Z.gtb_spec (Z.of_nat (length input)) (prefixLength this)); split; try lia;
    try done.
  f_equal. lia.
Qed.

(** On an index built by calls of [createDictionaryEntry], with
    [0 <= maxDictionaryEditDistance < prefixLength], [lookup] with
    [Verbosity.ALL] and without options misses no word: for every input and
    every distance [k] between 0 and [maxDictionaryEditDistance] (and not
    above [Number.MAX_SAFE_INTEGER]), every word of Words whose OSA distance
    to the input is at most [k] is the term of a returned suggestion, with
    its count. *)
Theorem lookup_all_finds_words (med pl ct : Z) (entries : list (jsstring * Z))
    (input w : jsstring) (c : Z) (maxEditDistance : option Z) :
  let this := createEntries (newSymSpell med pl ct) entries in
  let k := default med maxEditDistance in
  0 <= k <= med -> med < pl -> k <= MAX_SAFE_INTEGER ->
  words this !! w = Some c ->
  osa_ref input w <= k ->
  exists s, s ∈ lookup this input ALL maxEditDistance noOptions /\
            term s = w /\ count s = c.
Proof.
  intros this k Hk Hmed Hsafe Hword Hosa.
  pose proof (deletesInv_createEntries entries _ (deletesInv_new med pl ct)) as Hdel.
  pose proof (lengthInv_createEntries entries _ (lengthInv_new med pl ct)) as [Hlen _].
  destruct (createEntries_config entries (newSymSpell med pl ct)) as (Hcmed & Hcpl & _).
  fold this in Hdel, Hlen, Hcmed, Hcpl. simpl in Hcmed, Hcpl.
  pose proof (osa_dp_lower input w (length input) (length w)) as Hlow.
  fold (osa_ref input w) in Hlow.
  assert (Hexact : w = input -> reported this (initialSuggestions this noOptions input) w).
  { intros ->. unfold initialSuggestions. rewrite Hword. simpl.
    eexists. split; [by left|]. simpl. by rewrite Hword. }
  assert (Hgoal : forall l, reported this l w ->
             exists s, s ∈ l /\ term s = w /\ count s = c).
  { intros l (s & Hs & Ht & Hc). exists s. rewrite Hword in Hc. done. }
  destruct (lookup_shape toLowerCase transferCasingSimilar this input ALL
              maxEditDistance noOptions) as (l & -> & Hl).
  cbv zeta in Hl. cbn [transferCasing noOptions] in Hl. rewrite Hcmed in Hl. fold k in Hl.
  unfold earlyExit. cbn [includeUnknown noOptions andb].
  destruct Hl as [[_ Hlong]|[(Hv & _)|[(_ & Hk0 & ->)|(_ & Hk0 & st & Hst & ->)]]].
  - specialize (Hlen w ltac:(by eexists)). lia.
  - done.
  - apply Hgoal, Hexact. symmetry. apply osa_ref_zero_iff.
    pose proof (osa_ref_nonneg input w). lia.
  - destruct (lookup_loop_prefix this input ltac:(lia)) as [Hipl Hcand].
    rewrite Hipl, Hcand in Hst.
    assert (Hkpos : 0 < k) by lia.
    assert (Hkpl : k < prefixLength this) by lia.
    assert (Hinv : coverageInv this input k [inputPrefix this input]
                     (mkLoop (initialSuggestions this noOptions input) k ∅ {[input]}
                             newEditDistance)).
    { split; [done|]. split; [|split].
      - apply Forall_singleton. split; [done|lia].
      - intros d Hd. simpl in Hd. by apply elem_of_empty in Hd.
      - intros x Hx. simpl in Hx. apply elem_of_singleton in Hx. by left. }
    destruct (lookupLoop_covers this input k Hkpos Hsafe Hkpl _ _ _ _ Hinv Hst)
      as (Hfin & Hall & Hext).
    assert (Hrep : reported this (ls_suggestions st) w).
    { destruct (decide (w = input)) as [Heq|Hne].
      { apply Hext. simpl. by apply Hexact. }
      destruct (meeting_point this input w k ltac:(lia) Hne Hosa) as (d & Hm).
      apply (meets_mono this input k _ k) in Hm; [|exact Hosa].
      pose proof Hm as (_ & _ & [Hdi Hdepth] & Hdw & _).
      assert (Hserved : served this input k st d).
      { apply (served_all this input k st Hfin
                 (length (inputPrefix this input) - length d) (inputPrefix this input) d);
          [|done|exact Hdi|done|exact Hdepth].
        apply Hall. by left. }
      assert (Hb : inBucket this d w).
      { apply Hdel. split; [by eexists|].
        apply editsPrefix_complete; [lia|].
        destruct Hdw as [? ?]. split; [done|lia]. }
      destruct Hb as (bucket & Hbk & Hin).
      exact (proj1 Hserved bucket w Hbk Hin Hm). }
    destruct (Hgoal _ Hrep) as (s & Hs & Ht & Hc).
    exists s. split; [by apply finishSuggestions_keeps|done].
Qed.

End LookupCoverage.

Lemma lookup_all_finds_words_witness :
  let this :=
    createEntries (newSymSpell 2 4 1) [(js "streaming", 4); (js "stream", 9)] in
  let k := default 2 (Some 2) in
  (0 <= k <= 2) /\ 2 < 4 /\ k <= MAX_SAFE_INTEGER /\
  words this !! js "streaming" = Some 4 /\
  osa_ref (js "straemign") (js "streaming") <= k /\
  exists s, s ∈ SymSpell_lookup (fun s => s) (fun _ s => s) this (js "straemign") ALL (Some 2)
                  noOptions /\
            term s = js "streaming" /\ count s = 4.
Proof.
  cbv zeta.
  assert (H1 : 0 <= default 2 (Some 2) <= 2) by (simpl; lia).
  assert (H2 : 2 < 4) by lia.
  assert (H3 : default 2 (Some 2) <= MAX_SAFE_INTEGER) by (by vm_compute).
  assert (H4 : words (createEntries (newSymSpell 2 4 1)
                        [(js "streaming", 4); (js "stream", 9)])
               !! js "streaming" = Some 4).
  { vm_compute. reflexivity. }
  assert (H5 : osa_ref (js "straemign") (js "streaming") <= default 2 (Some 2))
    by (by vm_compute).
  repeat (split; [assumption|]).
  exact (lookup_all_finds_words (fun s => s) (fun _ s => s) 2 4 1
           [(js "streaming", 4); (js "stream", 9)] (js "straemign") (js "streaming") 4
           (Some 2) H1 H2 H3 H4 H5).
Defined.

(* ===================================================================== *)
(** * Part XIII. [lookup] under [TOP] and [CLOSEST] returns a closest word *)
(* ===================================================================== *)

(** A delete that is a subsequence of the prefix of a suggestion passes
    [deleteInSuggestionPrefix]. *)
Lemma deleteInSuggestionPrefix_sublist (this : SymSpell) (del suggestion : jsstring) :
  0 <= prefixLength this ->
  del `sublist_of` termPrefix this suggestion ->
  deleteInSuggestionPrefix this del (Z.of_nat (length del))
    suggestion (Z.of_nat (length suggestion)) = true.
Proof.
  intros Hpl Hsub. unfold deleteInSuggestionPrefix.
  destruct (Z.of_nat (length del) =? 0); [reflexivity|].
  rewrite Nat2Z.id, firstn_all.
  rewrite termPrefix_take_min in Hsub by exact Hpl.
  set (n := (length suggestion `min` Z.to_nat (prefixLength this))%nat) in *.
  assert (Hsl : (if prefixLength this <? Z.of_nat (length suggestion)
                 then prefixLength this else Z.of_nat (length suggestion)) = Z.of_nat n).
  { destruct (Z.ltb_spec (prefixLength this) (Z.of_nat (length suggestion))); lia. }
  rewrite Hsl.
  apply (embedded_loop suggestion n ltac:(lia) del (take n suggestion)
           (sublist_looselyEmbedded _ _ Hsub) 0%nat); [lia|].
  by rewrite drop_0.
Qed.

(** [pushDeletes] appends to the queue. *)
Lemma pushDeletes_appends (d : jsstring) (queue : list jsstring) (st : LoopState) :
  exists news,
    (pushDeletes d queue st).1 = queue ++ news /\
    forall x, x ∈ news -> exists i, (i < length d)%nat /\ x = deleteAt d i.
Proof.
  unfold pushDeletes.
  assert (Hidx : forall i, i ∈ seq 0 (length d) -> (i < length d)%nat).
  { intros i Hi. apply elem_of_seq in Hi. lia. }
  revert Hidx. generalize (seq 0 (length d)). intros idxs. revert queue st.
  induction idxs as [|i idxs IH]; intros queue st Hidx.
  { exists []. split; [by rewrite app_nil_r|]. intros x Hx. by apply elem_of_nil in Hx. }
  simpl. destruct (bool_decide _).
  - apply IH. intros j Hj. apply Hidx. by right.
  - match goal with |- context [fold_left _ idxs (?q, ?s)] =>
      destruct (IH q s) as (news & Heq & Hnews)
    end.
    { intros j Hj. apply Hidx. by right. }
    exists (deleteAt d i :: news). split.
    + rewrite Heq, <- app_assoc. reflexivity.
    + intros x Hx. apply elem_of_cons in Hx as [->|Hx]; [|by apply Hnews].
      exists i. split; [|done]. apply Hidx. by left.
Qed.

Section LeadLoop.

Variables (this : SymSpell) (input : jsstring) (k : Z).

Hypothesis k_pos : 0 < k.
Hypothesis k_safe : k <= MAX_SAFE_INTEGER.
Hypothesis k_prefix : k < prefixLength this.
Hypothesis bucket_words : forall d bucket x,
  deletes this !! d = Some bucket -> x ∈ bucket -> is_Some (words this !! x).

Local Abbreviation inputLen := (Z.of_nat (length input)).
Local Abbreviation prefix := (inputPrefix this input).
Local Abbreviation inputPrefixLen := (Z.of_nat (length (inputPrefix this input))).
Local Abbreviation accounted := (accounted this input).
Local Abbreviation leadInv := (leadInv k).
Local Abbreviation consideredLead := (consideredLead this input k).
Local Abbreviation keptLead := (keptLead this input k).
Local Abbreviation extendsLead := (extendsLead this input).
Local Abbreviation servedLead := (servedLead this input k).
Local Abbreviation leadLoopInv := (leadLoopInv this input k).

(** A word beyond the current bound is accounted for by the suggestions
    that lowered the bound. *)
Lemma accounted_beyond (v : Verbosity) (st : LoopState) (w : jsstring) :
  leadInv v st ->
  ls_maxEditDistance2 st < osa_ref input w -> osa_ref input w <= k ->
  accounted v (ls_suggestions st) w.
Proof.
  intros (Hle & Hnil & Hall & _) Hfar Hk.
  destruct (ls_suggestions st) as [|s l] eqn:Hs; [specialize (Hnil eq_refl); lia|].
  apply Forall_cons in Hall as [Hd _].
  exists s. split; [by left|]. left. lia.
Qed.

(** What [recordSuggestion] does under [TOP] and [CLOSEST], for a distance
    within the bound. *)
Lemma record_lead (v : Verbosity) (st : LoopState) (x : jsstring) (dist : Z) :
  v <> ALL ->
  leadInv v st -> dist <= ls_maxEditDistance2 st ->
  let st1 := recordSuggestion this v x dist st in
  leadInv v st1 /\
  ls_maxEditDistance2 st1 <= ls_maxEditDistance2 st /\
  ls_consideredDeletes st1 = ls_consideredDeletes st /\
  ls_consideredSuggestions st1 = ls_consideredSuggestions st /\
  (forall w, accounted v (ls_suggestions st) w -> accounted v (ls_suggestions st1) w) /\
  (dist = osa_ref input x -> is_Some (words this !! x) ->
   accounted v (ls_suggestions st1) x).
Proof.
  intros Hv Hinv Hd. pose proof Hinv as (Hle & Hnil & Hall & Htop).
  cbv zeta. unfold recordSuggestion.
  destruct (Z.leb_spec dist (ls_maxEditDistance2 st)) as [_|]; [|lia]. cbv zeta.
  set (si := mkSuggestItem x dist (default 0 (words this !! x))).
  assert (Hsi : forall l, si ∈ l -> dist = osa_ref input x -> is_Some (words this !! x) ->
                          accounted v l x).
  { intros l Hl Hdist _. exists si. split; [exact Hl|]. right. split; [done|].
    destruct v; simpl; done || lia. }
  destruct (ls_suggestions st) as [|s0 rest] eqn:Hs.
  - (* the first suggestion *)
    assert (Hgoal : forall st1,
               st1 = mkLoop [si] dist (ls_consideredDeletes st) (ls_consideredSuggestions st)
                       (ls_distanceComparer st) ->
               leadInv v st1 /\
               ls_maxEditDistance2 st1 <= ls_maxEditDistance2 st /\
               ls_consideredDeletes st1 = ls_consideredDeletes st /\
               ls_consideredSuggestions st1 = ls_consideredSuggestions st /\
               (forall w, accounted v [] w -> accounted v (ls_suggestions st1) w) /\
               (dist = osa_ref input x -> is_Some (words this !! x) ->
                accounted v (ls_suggestions st1) x)).
    { intros st1 ->. simpl. repeat split; simpl; try done; try lia.
      + by apply Forall_singleton.
      + intros w (s & Hin & _). by apply elem_of_nil in Hin.
      + apply Hsi. by left. }
    apply Hgoal. destruct v; try done; cbv zeta; simpl; unfold set_suggestions; simpl;
      by rewrite Hs.
  - apply Forall_cons in Hall as [Hd0 Hrest].
    destruct v; [| |done].
    + (* TOP *)
      assert (rest = []) as ->.
      { specialize (Htop eq_refl). simpl in Htop. destruct rest; [done|simpl in Htop; lia]. }
      destruct ((dist <? ls_maxEditDistance2 st) || js_gt (words this !! x) (Some (count s0)))
        eqn:Hrep.
      * unfold set_suggestions, set_maxEditDistance2. simpl.
        repeat split; simpl; try done; try lia.
        -- by apply Forall_singleton.
        -- intros w (s & Hin & Hacc). apply list_elem_of_singleton in Hin. subst s.
           exists si. split; [by left|]. simpl.
           apply orb_true_iff in Hrep as [Hrep|Hrep].
           ++ apply Z.ltb_lt in Hrep. left. lia.
           ++ destruct (words this !! x) as [c|] eqn:Hc; [|done]. simpl in Hrep.
              apply Z.ltb_lt in Hrep. simpl.
              destruct Hacc as [Hacc|[Hacc1 Hacc2]]; [left; lia|].
              destruct (Z.eq_dec dist (ls_maxEditDistance2 st)); [right; split; lia|left; lia].
        -- apply Hsi. by left.
      * apply orb_false_iff in Hrep as [Hrep1 Hrep2]. apply Z.ltb_ge in Hrep1.
        split; [exact Hinv|]. rewrite Hs. repeat split; simpl; try done; try lia.
        intros Hdist [c Hc]. exists s0. split; [by left|]. right. split; [lia|].
           rewrite Hc in *. simpl in *. apply Z.ltb_ge in Hrep2. lia.
    + (* CLOSEST *)
      destruct (Z.ltb_spec dist (ls_maxEditDistance2 st)) as [Hlt|Hge];
        unfold set_suggestions, set_maxEditDistance2; simpl; rewrite ?Hs.
      * repeat split; simpl; try done; try lia.
        -- by apply Forall_singleton.
        -- intros w (s & Hin & Hacc). exists si. split; [by left|]. left. simpl.
           assert (distance s = ls_maxEditDistance2 st).
           { apply elem_of_cons in Hin as [->|Hin]; [done|].
             by apply (proj1 (Forall_forall _ _) Hrest). }
           lia.
        -- apply Hsi. by left.
      * assert (dist = ls_maxEditDistance2 st) as Hdist by lia.
        repeat split; simpl; try done; try lia.
        -- apply Forall_cons. split; [lia|]. apply Forall_app. split.
           ++ eapply Forall_impl; [exact Hrest|]. simpl. intros; lia.
           ++ by apply Forall_singleton.
        -- intros w (s & Hin & Hacc). exists s. split; [|done].
           change (s ∈ (s0 :: rest) ++ [si]). apply elem_of_app. by left.
        -- apply Hsi. change (si ∈ (s0 :: rest) ++ [si]). apply elem_of_app. right. by left.
Qed.

Lemma suggestionBody_lead (v : Verbosity) (d : jsstring) (st : LoopState) (x : jsstring) :
  v <> ALL ->
  leadInv v st -> consideredLead v st ->
  is_Some (words this !! x) ->
  let st1 := suggestionBody this v k input inputLen inputPrefixLen d st x in
  keptLead v st st1 /\
  (meets this input k (osa_ref input x) d x -> accounted v (ls_suggestions st1) x).
Proof.
  intros Hv Hinv Hcons Hword. cbv zeta.
  pose proof Hinv as (Hle & _).
  assert (Hstay : keptLead v st st).
  { split; [done|]. split; [lia|]. done. }
  assert (Hfar : meets this input k (osa_ref input x) d x ->
                 ls_maxEditDistance2 st < osa_ref input x ->
                 accounted v (ls_suggestions st) x).
  { intros (_ & Hosa & _) Hlt. by apply accounted_beyond. }
  assert (Hseen : x ∈ ls_consideredSuggestions st ->
                  meets this input k (osa_ref input x) d x ->
                  accounted v (ls_suggestions st) x).
  { intros Hx (Hne & Hosa & _). destruct (Hcons x Hx) as [?|[?|?]]; [done|lia|done]. }
  assert (Hrecord : forall st' dist,
             dist <= ls_maxEditDistance2 st ->
             ls_suggestions st' = ls_suggestions st ->
             ls_maxEditDistance2 st' = ls_maxEditDistance2 st ->
             ls_consideredDeletes st' = ls_consideredDeletes st ->
             (forall w, w ∈ ls_consideredSuggestions st' ->
                        (w = x /\ dist = osa_ref input x) \/ w ∈ ls_consideredSuggestions st) ->
             keptLead v st (recordSuggestion this v x dist st') /\
             (dist = osa_ref input x ->
              accounted v (ls_suggestions (recordSuggestion this v x dist st')) x)).
  { intros st' dist Hdist Hs' Hm' Hd' Hc'.
    assert (Hinv' : leadInv v st').
    { unfold leadInv. rewrite Hs', Hm'. exact Hinv. }
    destruct (record_lead v st' x dist Hv Hinv' ltac:(lia))
      as (H1 & H2 & H3 & H4 & H5 & H6).
    rewrite Hs' in H5. split.
    - split; [exact H1|]. split; [lia|]. split; [congruence|]. split; [exact H5|].
      intros w Hw. rewrite H4 in Hw. destruct (Hc' w Hw) as [[-> Hex]|Hw'].
      + right. right. by apply H6.
      + destruct (Hcons w Hw') as [?|[?|?]]; auto.
    - intros Hex. by apply H6. }
  pose proof (osa_dp_lower input x (length input) (length x)) as Hlow.
  fold (osa_ref input x) in Hlow.
  pose proof (osa_ref_upper input x) as Hup.
  pose proof (inputPrefix_length this input ltac:(lia)) as Hipl.
  pose proof (termPrefix_length this x ltac:(lia)) as Hxpl.
  pose proof (sublist_length _ _ (termPrefix_sublist this x)) as Hxp.
  unfold suggestionBody. cbv zeta.
  destruct (decide (x = input)) as [->|Hne].
  { split; [done|]. by intros [? _]. }
  destruct (_ || _ || _) eqn:Hf.
  { split; [done|]. intros Hm.
    destruct (Z.lt_ge_cases (ls_maxEditDistance2 st) (osa_ref input x)); [by apply Hfar|].
    exfalso. destruct Hm as (_ & Hosa & _ & [Hsub Hlen] & _).
    pose proof (sublist_length _ _ Hsub) as Hl.
    apply orb_true_iff in Hf as [Hf|Hf]; [apply orb_true_iff in Hf as [Hf|Hf]|].
    - apply Z.gtb_lt in Hf. lia.
    - apply Z.ltb_lt in Hf. lia.
    - apply andb_true_iff in Hf as [Hf1 Hf2]. apply Z.eqb_eq in Hf1.
      assert (Hdx : d `sublist_of` x) by (etrans; [exact Hsub|apply termPrefix_sublist]).
      apply sublist_same_length in Hdx; [|lia]. subst d.
      by rewrite bool_decide_eq_true_2 in Hf2. }
  clear Hf.
  destruct (_ && _) eqn:Hf.
  { split; [done|]. intros Hm.
    destruct (Z.lt_ge_cases (ls_maxEditDistance2 st) (osa_ref input x)); [by apply Hfar|].
    exfalso. destruct Hm as (_ & _ & _ & [Hsub Hlen] & _).
    apply andb_true_iff in Hf as [_ Hf]. apply Z.gtb_lt in Hf. lia. }
  clear Hf.
  destruct (Z.eqb_spec (Z.of_nat (length d)) 0) as [Hd0|Hd0].
  { destruct (_ || _) eqn:Hf.
    - split; [done|]. intros Hm.
      apply orb_true_iff in Hf as [Hf|Hf].
      + apply Z.gtb_lt in Hf. apply Hfar; [done|].
        destruct Hm as (_ & Hosa & [_ Hdi] & [_ Hdx] & _). lia.
      + apply bool_decide_eq_true in Hf. by apply Hseen.
    - apply orb_false_iff in Hf as [Hf _].
      assert (Hdist : Z.max inputLen (Z.of_nat (length x)) <= ls_maxEditDistance2 st).
      { destruct (Z.gtb_spec (Z.max inputLen (Z.of_nat (length x)))
                    (ls_maxEditDistance2 st)); [done|lia]. }
      destruct (Hrecord st (Z.max inputLen (Z.of_nat (length x))) Hdist
                  eq_refl eq_refl eq_refl (fun w Hw => or_intror Hw)) as [H1 H2].
      split; [exact H1|]. intros (_ & Hosa & [_ Hdi] & [_ Hdx] & _). apply H2. lia. }
  destruct (Z.eqb_spec (Z.of_nat (length x)) 1) as [Hx1|Hx1].
  { set (dist := if notIn _ _ then _ else _).
    assert (Hdist : d `sublist_of` prefix -> dist = osa_ref input x).
    { intros Hd. pose proof (sublist_length _ _ Hd) as Hdl.
      unfold dist. destruct x as [|c [|c' x']]; try (simpl in Hx1; lia).
      cbn [lookup list_lookup notIn].
      destruct (bool_decide_reflect (c ∈ input)) as [Hcin|Hcin]; cbn [negb].
      - pose proof (osa_ref_single_in input c Hcin). simpl in Hlow. lia.
      - pose proof (osa_dp_column_absent input c (length input) Hcin) as Hc.
        change (osa_dp input [c] (length input) 1) with (osa_ref input [c]) in Hc.
        simpl in Hup. lia. }
    destruct (_ || _) eqn:Hf.
    - split; [done|]. intros Hm.
      apply orb_true_iff in Hf as [Hf|Hf].
      + apply Z.gtb_lt in Hf. apply Hfar; [done|].
        destruct Hm as (_ & _ & [Hd _] & _). rewrite <- (Hdist Hd). lia.
      + apply bool_decide_eq_true in Hf. by apply Hseen.
    - apply orb_false_iff in Hf as [Hf _].
      assert (Hdist' : dist <= ls_maxEditDistance2 st).
      { destruct (Z.gtb_spec dist (ls_maxEditDistance2 st)); [done|lia]. }
      destruct (Hrecord st dist Hdist' eq_refl eq_refl eq_refl (fun w Hw => or_intror Hw))
        as [H1 H2].
      split; [exact H1|]. intros (_ & _ & [Hd _] & _). by apply H2, Hdist. }
  match goal with |- context [if ?c then st else _] => destruct c eqn:Hguard end.
  { split; [done|]. intros (_ & _ & _ & _ & Hoff). exfalso.
    pose proof (suffixGuard_eq this input k d x) as Heq. cbv zeta in Heq.
    rewrite Heq in Hguard.
    apply andb_true_iff in Hguard as [Hg1 Hg2]. apply Z.eqb_eq in Hg1.
    rewrite (Hoff Hg1) in Hg2. discriminate. }
  clear Hguard.
  match goal with |- context [if ?c then st else _] => destruct c eqn:Hskip end.
  { split; [done|]. intros Hm.
    apply orb_true_iff in Hskip as [Hskip|Hskip].
    - apply andb_true_iff in Hskip as [_ Hskip].
      destruct Hm as (_ & _ & _ & [Hsub _] & _).
      rewrite deleteInSuggestionPrefix_sublist in Hskip; [done|lia|exact Hsub].
    - apply bool_decide_eq_true in Hskip. by apply Hseen. }
  clear Hskip.
  unfold EditDistance_compare.
  pose proof (distance_result (ls_distanceComparer st) input x (ls_maxEditDistance2 st)) as Hres.
  destruct (EditDistance_distance _ _ _ _) as [r comparer]. cbn [fst] in Hres. subst r.
  set (st' := mkLoop _ _ _ _ _).
  pose proof (osa_ref_nonneg input x) as Hnn.
  assert (Hpos : 0 < osa_ref input x).
  { destruct (Z.eq_dec (osa_ref input x) 0) as [H0|]; [|lia].
    apply osa_ref_zero_iff in H0. congruence. }
  assert (Hbeyond : ls_maxEditDistance2 st < osa_ref input x ->
                    keptLead v st st' /\
                    (meets this input k (osa_ref input x) d x ->
                     accounted v (ls_suggestions st) x)).
  { intros Hlt. split; [|intros Hw; by apply Hfar].
    split; [done|]. split; [simpl; lia|]. split; [done|]. split; [done|].
    intros w Hw. simpl in Hw. apply elem_of_union in Hw as [Hw|Hw]; [|by apply Hcons].
    apply elem_of_singleton in Hw. subst w.
    destruct (Z.lt_ge_cases k (osa_ref input x)); [by right; left|].
    right. right. simpl. by apply accounted_beyond. }
  destruct (Z.leb_spec (ls_maxEditDistance2 st) 0) as [Hzero|Hbound].
  { destruct (decide (input = x)); [congruence|]. change (-1 <? 0) with true. cbv iota.
    destruct Hbeyond as [H1 H2]; [lia|]. split; [exact H1|]. intros Hw. by apply H2. }
  replace (Z.min (ls_maxEditDistance2 st) MAX_SAFE_INTEGER)
    with (ls_maxEditDistance2 st) by lia.
  destruct (Z.leb_spec (osa_ref input x) (ls_maxEditDistance2 st)) as [Hnear|Hfar'].
  - destruct (Z.ltb_spec (osa_ref input x) 0); [lia|].
    destruct (Hrecord st' (osa_ref input x) Hnear eq_refl eq_refl eq_refl) as [H1 H2].
    { intros w Hw. simpl in Hw. apply elem_of_union in Hw as [Hw|Hw]; [|by right].
      left. by apply elem_of_singleton in Hw. }
    split; [exact H1|]. intros _. by apply H2.
  - change (-1 <? 0) with true. cbv iota.
    destruct Hbeyond as [H1 H2]; [lia|]. split; [exact H1|]. intros Hw. by apply H2.
Qed.

Lemma keptLead_trans (v : Verbosity) (st1 st2 st3 : LoopState) :
  keptLead v st1 st2 -> keptLead v st2 st3 -> keptLead v st1 st3.
Proof.
  intros (A1 & A2 & A3 & A4 & A5) (B1 & B2 & B3 & B4 & B5).
  split; [exact B1|]. split; [lia|]. split; [congruence|]. split; [|exact B5].
  intros w Hw. by apply B4, A4.
Qed.

Lemma bucket_lead (v : Verbosity) (d : jsstring) (l : list jsstring) :
  v <> ALL ->
  Forall (fun x => is_Some (words this !! x)) l ->
  forall st,
    leadInv v st -> consideredLead v st ->
    let st1 := fold_left (suggestionBody this v k input inputLen inputPrefixLen d) l st in
    keptLead v st st1 /\
    (forall x, x ∈ l -> meets this input k (osa_ref input x) d x ->
               accounted v (ls_suggestions st1) x).
Proof.
  intros Hv. induction l as [|x l IH]; intros Hwords st Hinv Hcons; cbv zeta.
  { split.
    - pose proof Hinv as (? & _). split; [done|]. split; [simpl; lia|]. done.
    - intros x Hx. by apply elem_of_nil in Hx. }
  apply Forall_cons in Hwords as [Hword Hwords]. simpl.
  destruct (suggestionBody_lead v d st x Hv Hinv Hcons Hword) as (Hkept1 & Hx1).
  pose proof Hkept1 as (Hinv1 & _ & _ & _ & Hcons1).
  destruct (IH Hwords _ Hinv1 Hcons1) as (Hkept2 & Hl2).
  split; [exact (keptLead_trans v _ _ _ Hkept1 Hkept2)|].
  intros y Hy Hm. apply elem_of_cons in Hy as [->|Hy].
  - destruct Hkept2 as (_ & _ & _ & Hmono & _). by apply Hmono, Hx1.
  - by apply Hl2.
Qed.

Lemma queueInv_pop (d : jsstring) (queue : list jsstring) :
  queueInv this input (d :: queue) ->
  d `sublist_of` prefix /\
  (forall x, x ∈ queue -> Z.of_nat (length x) <= Z.of_nat (length d)) /\
  queueInv this input queue /\
  (forall news,
      Forall (fun x => x `sublist_of` prefix /\
                       inputPrefixLen - Z.of_nat (length x)
                       = inputPrefixLen - Z.of_nat (length d) + 1) news ->
      queueInv this input (queue ++ news)).
Proof.
  intros (D & q1 & q2 & Heq & H1 & H2).
  destruct q1 as [|h q1].
  - simpl in Heq. subst q2. apply Forall_cons in H2 as [[Hd HD] H2].
    split; [exact Hd|]. split; [|split].
    + intros x Hx. apply (proj1 (Forall_forall _ _) H2) in Hx as [_ Hx]. lia.
    + exists (D + 1), queue, []. rewrite app_nil_r. by repeat split.
    + intros news Hnews. exists (D + 1), queue, news. repeat split; [exact H2|].
      eapply Forall_impl; [exact Hnews|]. simpl. intros x [? ?]. split; [done|lia].
  - simpl in Heq. injection Heq as <- ->. apply Forall_cons in H1 as [[Hd HD] H1].
    split; [exact Hd|]. split; [|split].
    + intros x Hx. apply elem_of_app in Hx as [Hx|Hx].
      * apply (proj1 (Forall_forall _ _) H1) in Hx as [_ Hx]. lia.
      * apply (proj1 (Forall_forall _ _) H2) in Hx as [_ Hx]. lia.
    + by exists D, q1, q2.
    + intros news Hnews. exists D, q1, (q2 ++ news). rewrite app_assoc.
      repeat split; [exact H1|]. apply Forall_app. split; [exact H2|].
      eapply Forall_impl; [exact Hnews|]. simpl. intros x [? ?]. split; [done|lia].
Qed.

Lemma servedLead_mono (v : Verbosity) (st st' : LoopState) (d : jsstring) :
  extendsLead v st st' -> servedLead v st d -> servedLead v st' d.
Proof.
  intros (Hacc & Hdel & Hmax) [Ha Hb]. split.
  - intros bucket w Hbk Hw Hm. apply Hacc. by apply (Ha bucket).
  - intros Hdepth i Hi. apply Hdel. apply Hb; [lia|exact Hi].
Qed.

Lemma extendsLead_trans (v : Verbosity) (st1 st2 st3 : LoopState) :
  extendsLead v st1 st2 -> extendsLead v st2 st3 -> extendsLead v st1 st3.
Proof.
  intros (A1 & A2 & A3) (B1 & B2 & B3).
  split; [intros w Hw; by apply B1, A1|]. split; [set_solver|lia].
Qed.

Lemma lookupLoop_leads (v : Verbosity) (fuel : nat) :
  v <> ALL ->
  forall queue st st',
    leadLoopInv v queue st ->
    lookupLoop fuel this v k input inputLen inputPrefixLen queue st = Some st' ->
    leadInv v st' /\ extendsLead v st st' /\
    exists rest : list jsstring,
      (forall d, d ∈ rest -> ls_maxEditDistance2 st' < inputPrefixLen - Z.of_nat (length d)) /\
      (forall d, d ∈ ls_consideredDeletes st' -> d ∈ rest \/ servedLead v st' d) /\
      (forall d, d ∈ queue -> d ∈ rest \/ servedLead v st' d).
Proof.
  intros Hv.
  assert (Hnot : Verbosity_eqb v ALL = false) by (by destruct v).
  induction fuel as [|fuel IH]; intros [|d queue] st st' Hinv Hrun;
    simpl in Hrun; try discriminate.
  1,2: injection Hrun as <-; destruct Hinv as (Hlead & _ & Hdel & _);
       (split; [exact Hlead|]); (split; [by repeat split|]); exists [];
       (split; [intros d Hd; by apply elem_of_nil in Hd|]);
       (split; [exact Hdel|intros d Hd; by apply elem_of_nil in Hd]).
  destruct Hinv as (Hlead & Hq & Hdel & Hcons).
  destruct (queueInv_pop d queue Hq) as (Hd & Hmin & Hq' & Hpush).
  rewrite Hnot in Hrun. cbn [negb andb] in Hrun.
  destruct (Z.gtb_spec (inputPrefixLen - Z.of_nat (length d)) (ls_maxEditDistance2 st))
    as [Hstop|Hgo].
  { injection Hrun as <-. split; [exact Hlead|]. split; [by repeat split|].
    exists (d :: queue). split; [|split; [exact Hdel|by left]].
    intros x Hx. apply elem_of_cons in Hx as [->|Hx]; [lia|].
    specialize (Hmin x Hx). lia. }
  set (st1 := match deletes this !! d with Some _ => _ | None => _ end) in Hrun.
  assert (Hst1 : keptLead v st st1 /\
                 (forall bucket w,
                     deletes this !! d = Some bucket -> w ∈ bucket ->
                     meets this input k (osa_ref input w) d w ->
                     accounted v (ls_suggestions st1) w)).
  { unfold st1. destruct (deletes this !! d) as [bucket|] eqn:Hb.
    - destruct (bucket_lead v d bucket Hv) with (st := st) as [H1 H2]; [|done|done|].
      { apply Forall_forall. intros x Hx. by apply (bucket_words d bucket). }
      split; [exact H1|]. intros b w [= <-] Hw Hm. by apply H2.
    - split; [|done]. pose proof Hlead as (? & _).
      split; [done|]. split; [lia|]. done. }
  clearbody st1. destruct Hst1 as ((Hlead1 & Hmax1 & Hdel1 & Hacc1 & Hcons1) & Hbucket).
  assert (Hext1 : extendsLead v st st1).
  { split; [exact Hacc1|]. split; [by rewrite Hdel1|exact Hmax1]. }
  pose proof (sublist_length _ _ Hd) as Hdl.
  pose proof (inputPrefix_length this input ltac:(lia)) as Hipl.
  pose proof Hlead1 as (Hle1 & _).
  replace (Z.of_nat (length d) <=? prefixLength this) with true in Hrun
    by (symmetry; apply Z.leb_le; lia).
  rewrite andb_true_r in Hrun.
  assert (Hidle : inputPrefixLen - Z.of_nat (length d) >= ls_maxEditDistance2 st1 ->
                  lookupLoop fuel this v k input inputLen inputPrefixLen queue st1 = Some st' ->
                  leadInv v st' /\ extendsLead v st st' /\
                  exists rest : list jsstring,
                    (forall x, x ∈ rest ->
                               ls_maxEditDistance2 st' < inputPrefixLen - Z.of_nat (length x)) /\
                    (forall x, x ∈ ls_consideredDeletes st' ->
                               x ∈ rest \/ servedLead v st' x) /\
                    (forall x, x ∈ d :: queue -> x ∈ rest \/ servedLead v st' x)).
  { intros Hdeep Hrun'.
    assert (Hserved : servedLead v st1 d).
    { split; [exact Hbucket|]. intros Hlt. lia. }
    destruct (IH queue st1 st') as (Hfin & Hext & rest & Hrest & Hall & Hqueue);
      [|exact Hrun'|].
    { split; [done|]. split; [exact Hq'|]. split; [|done].
      intros y Hy. rewrite Hdel1 in Hy. destruct (Hdel y Hy) as [Hy2|Hy2].
      - apply elem_of_cons in Hy2 as [->|Hy2]; [by right|by left].
      - right. by apply (servedLead_mono v st). }
    split; [exact Hfin|]. split; [by apply (extendsLead_trans v _ st1)|].
    exists rest. split; [exact Hrest|]. split; [exact Hall|].
    intros y Hy. apply elem_of_cons in Hy as [->|Hy]; [|by apply Hqueue].
    right. by apply (servedLead_mono v st1). }
  destruct (Z.ltb_spec (inputPrefixLen - Z.of_nat (length d)) k) as [Hlt|Hge];
    [|apply Hidle; [lia|exact Hrun]].
  destruct (Z.geb_spec (inputPrefixLen - Z.of_nat (length d)) (ls_maxEditDistance2 st1))
    as [Hdeep|Hshallow]; [apply Hidle; [lia|exact Hrun]|].
  clear Hidle.
  pose proof (pushDeletes_covers d queue st1) as Hpush2.
  destruct (pushDeletes_appends d queue st1) as (news & Hnews & Hchildren).
  destruct (pushDeletes d queue st1) as [queue2 st2]. cbv zeta in Hpush2.
  simpl in Hpush2, Hnews. subst queue2.
  destruct Hpush2 as (Hs2 & Hm2 & Hc2 & Hd2 & Hq2 & Hq2' & Hnew).
  assert (Hext2 : extendsLead v st1 st2).
  { split; [by rewrite Hs2|]. split; [|lia]. intros x Hx. apply Hd2. by left. }
  assert (Hserved : servedLead v st2 d).
  { split.
    - rewrite Hs2. exact Hbucket.
    - intros _ i Hi. apply Hd2. right. by exists i. }
  destruct (IH (queue ++ news) st2 st') as (Hfin & Hext & rest & Hrest & Hall & Hqueue);
    [|exact Hrun|].
  { split; [|split; [|split]].
    - unfold leadInv. rewrite Hs2, Hm2. exact Hlead1.
    - apply Hpush. apply Forall_forall. intros x Hx.
      destruct (Hchildren x Hx) as (i & Hi & ->).
      split; [etrans; [apply deleteAt_sublist|exact Hd]|].
      rewrite deleteAt_length by exact Hi. lia.
    - intros y Hy. destruct (Hnew y Hy) as [Hy1|Hy1]; [|by left].
      rewrite Hdel1 in Hy1. destruct (Hdel y Hy1) as [Hy2|Hy2].
      + apply elem_of_cons in Hy2 as [->|Hy2]; [by right|]. left. by apply Hq2'.
      + right. apply (servedLead_mono v st); [|exact Hy2].
        by apply (extendsLead_trans v _ st1).
    - intros w Hw. rewrite Hc2 in Hw. rewrite Hs2. by apply Hcons1. }
  split; [exact Hfin|]. split.
  { apply (extendsLead_trans v _ st1); [done|]. by apply (extendsLead_trans v _ st2). }
  exists rest. split; [exact Hrest|]. split; [exact Hall|].
  intros y Hy. apply elem_of_cons in Hy as [->|Hy].
  - right. by apply (servedLead_mono v st2).
  - apply Hqueue. by apply Hq2'.
Qed.

(** When the loop has ended, every delete variant of the input within the
    final bound has had its iteration. *)
Lemma servedLead_all (v : Verbosity) (st : LoopState) (rest : list jsstring) :
  (forall d, d ∈ rest -> ls_maxEditDistance2 st < inputPrefixLen - Z.of_nat (length d)) ->
  (forall d, d ∈ ls_consideredDeletes st -> d ∈ rest \/ servedLead v st d) ->
  forall (n : nat) (p d : jsstring),
    servedLead v st p -> p `sublist_of` prefix ->
    d `sublist_of` p -> (length p - length d = n)%nat ->
    inputPrefixLen - Z.of_nat (length d) <= ls_maxEditDistance2 st ->
    servedLead v st d.
Proof.
  intros Hrest Hdel. induction n as [|n IH]; intros p d Hp Hpin Hdp Hn Hdepth.
  - pose proof (sublist_length _ _ Hdp).
    by rewrite (sublist_same_length d p Hdp ltac:(lia)).
  - destruct (sublist_through_delete d p Hdp ltac:(lia)) as (i & Hi & Hsub).
    pose proof (sublist_length _ _ Hdp). pose proof (sublist_length _ _ Hsub) as Hsl.
    rewrite deleteAt_length in Hsl by exact Hi.
    destruct Hp as [_ Hpush].
    destruct (Hdel (deleteAt p i)) as [Hq|Hserved].
    + apply Hpush; [lia|exact Hi].
    + apply Hrest in Hq. rewrite deleteAt_length in Hq by exact Hi. lia.
    + apply (IH (deleteAt p i) d Hserved); [|exact Hsub| |exact Hdepth].
      * etrans; [apply deleteAt_sublist|exact Hpin].
      * rewrite deleteAt_length by exact Hi. lia.
Qed.

End LeadLoop.

Lemma accounted_finish tcs (this : SymSpell) (input : jsstring) (v : Verbosity)
    (l : list SuggestItem) (w : jsstring) :
  accounted this input v l w ->
  accounted this input v (finishSuggestions tcs noOptions [] l) w.
Proof.
  intros (s & Hs & Hacc). exists s. split; [by apply finishSuggestions_keeps|exact Hacc].
Qed.

Section LookupLead.

Variable toLowerCase : jsstring -> jsstring.
Variable transferCasingSimilar : jsstring -> jsstring -> jsstring.

Local Abbreviation lookup := (SymSpell_lookup toLowerCase transferCasingSimilar).

(** Under [TOP] and [CLOSEST], the list that [lookup] returns does justice
    to every word within the distance. *)
Lemma lookup_lead_accounts (med pl ct : Z) (entries : list (jsstring * Z))
    (input w : jsstring) (c : Z) (v : Verbosity) (maxEditDistance : option Z) :
  let this := createEntries (newSymSpell med pl ct) entries in
  let k := default med maxEditDistance in
  v <> ALL ->
  0 <= k <= med -> med < pl -> k <= MAX_SAFE_INTEGER ->
  words this !! w = Some c ->
  osa_ref input w <= k ->
  accounted this input v (lookup this input v maxEditDistance noOptions) w.
Proof.
  intros this k Hv Hk Hmed Hsafe Hword Hosa.
  pose proof (deletesInv_createEntries entries _ (deletesInv_new med pl ct)) as Hdel.
  pose proof (lengthInv_createEntries entries _ (lengthInv_new med pl ct)) as [Hlen _].
  destruct (createEntries_config entries (newSymSpell med pl ct)) as (Hcmed & Hcpl & _).
  fold this in Hdel, Hlen, Hcmed, Hcpl. simpl in Hcmed, Hcpl.
  pose proof (osa_dp_lower input w (length input) (length w)) as Hlow.
  fold (osa_ref input w) in Hlow.
  pose proof (osa_ref_nonneg input w) as Hnn.
  assert (Hexact : forall ci, words this !! input = Some ci ->
                     accounted this input v [mkSuggestItem input 0 ci] w).
  { intros ci Hci. eexists. split; [by left|]. simpl.
    destruct (Z.eq_dec (osa_ref input w) 0) as [H0|]; [|left; lia].
    right. split; [done|]. apply osa_ref_zero_iff in H0. subst w.
    rewrite Hci. simpl. by destruct v. }
  destruct (lookup_shape toLowerCase transferCasingSimilar this input v
              maxEditDistance noOptions) as (l & -> & Hl).
  cbv zeta in Hl. cbn [transferCasing noOptions] in Hl. rewrite Hcmed in Hl. fold k in Hl.
  unfold earlyExit. cbn [includeUnknown noOptions andb].
  unfold initialSuggestions in Hl. cbn [ignoreToken noOptions] in Hl.
  rewrite app_nil_r in Hl.
  destruct Hl as [[_ Hlong]|[(_ & Hinit & ->)|[([?|Hinit] & Hk0 & ->)
                                              |([?|Hinit] & Hk0 & st & Hst & ->)]]];
    try done.
  - specialize (Hlen w ltac:(by eexists)). lia.
  - destruct (words this !! input) as [ci|] eqn:Hci; [|done]. simpl. by apply Hexact.
  - assert (osa_ref input w = 0) as H0 by lia. apply osa_ref_zero_iff in H0. subst w.
    by rewrite Hword in Hinit.
  - rewrite Hinit in Hst.
    destruct (lookup_loop_prefix this input ltac:(lia)) as [Hipl Hcand].
    rewrite Hipl, Hcand in Hst.
    assert (Hne : w <> input).
    { intros ->. by rewrite Hword in Hinit. }
    assert (Hkpos : 0 < k) by lia.
    assert (Hkpl : k < prefixLength this) by lia.
    assert (Hbw : forall d bucket x,
               deletes this !! d = Some bucket -> x ∈ bucket -> is_Some (words this !! x)).
    { intros d bucket x Hb Hx. apply (Hdel d x). by exists bucket. }
    assert (Hinv : leadLoopInv this input k v [inputPrefix this input]
                     (mkLoop [] k ∅ {[input]} newEditDistance)).
    { split; [|split; [|split]].
      - split; [simpl; lia|]. split; [done|]. split; [by apply Forall_nil|]. simpl. lia.
      - exists 0, [inputPrefix this input], []. repeat split; [|by apply Forall_nil].
        apply Forall_singleton. split; [done|lia].
      - intros d Hd. simpl in Hd. by apply elem_of_empty in Hd.
      - intros x Hx. simpl in Hx. apply elem_of_singleton in Hx. by left. }
    destruct (lookupLoop_leads this input k Hkpos Hsafe Hkpl Hbw v _ Hv _ _ _ Hinv Hst)
      as (Hfin & _ & rest & Hrest & Hall & Hqueue).
    apply accounted_finish.
    destruct (Z.lt_ge_cases (ls_maxEditDistance2 st) (osa_ref input w)) as [Hfar|Hnear].
    { by apply (accounted_beyond this input k v st w). }
    destruct (meeting_point this input w k ltac:(lia) Hne Hosa) as (d & Hm).
    pose proof Hm as (_ & _ & [Hdi Hdepth] & Hdw & _).
    assert (Hserved0 : servedLead this input k v st (inputPrefix this input)).
    { destruct (Hqueue (inputPrefix this input) ltac:(by left)) as [Hr|Hs]; [|exact Hs].
      apply Hrest in Hr. lia. }
    assert (Hserved : servedLead this input k v st d).
    { apply (servedLead_all this input k v st rest Hrest Hall
               (length (inputPrefix this input) - length d) (inputPrefix this input) d);
        [done|done|exact Hdi|done|lia]. }
    assert (Hb : inBucket this d w).
    { apply Hdel. split; [by eexists|].
      apply editsPrefix_complete; [lia|].
      destruct Hdw as [? ?]. split; [done|lia]. }
    destruct Hb as (bucket & Hbk & Hin).
    exact (proj1 Hserved bucket w Hbk Hin Hm).
Qed.

(** On an index built by calls of [createDictionaryEntry], with
    [0 <= maxDictionaryEditDistance < prefixLength], [lookup] with
    [Verbosity.TOP] and without options returns a best suggestion: for every
    input and every distance [k] between 0 and [maxDictionaryEditDistance]
    (and not above [Number.MAX_SAFE_INTEGER]), and for every word [w] of
    Words whose OSA distance to the input is at most [k], a suggestion is
    returned whose distance is below that of [w], or equal to it with a
    count that is at least the count of [w]. *)
Theorem lookup_top_beats_words (med pl ct : Z) (entries : list (jsstring * Z))
    (input w : jsstring) (c : Z) (maxEditDistance : option Z) :
  let this := createEntries (newSymSpell med pl ct) entries in
  let k := default med maxEditDistance in
  0 <= k <= med -> med < pl -> k <= MAX_SAFE_INTEGER ->
  words this !! w = Some c ->
  osa_ref input w <= k ->
  exists s, s ∈ lookup this input TOP maxEditDistance noOptions /\
            (distance s < osa_ref input w \/
             (distance s = osa_ref input w /\ c <= count s)).
Proof.
  intros this k Hk Hmed Hsafe Hword Hosa.
  destruct (lookup_lead_accounts med pl ct entries input w c TOP maxEditDistance
              ltac:(done) Hk Hmed Hsafe Hword Hosa) as (s & Hs & Hacc).
  exists s. split; [exact Hs|]. fold this in Hacc. rewrite Hword in Hacc. exact Hacc.
Qed.

(** Under the same conditions, [lookup] with [Verbosity.CLOSEST] returns
    every closest word: for every word [w] of Words whose OSA distance to
    the input is at most [k], either a suggestion with a smaller distance is
    returned, or [w] is returned with its OSA distance. *)
Theorem lookup_closest_finds_words (med pl ct : Z) (entries : list (jsstring * Z))
    (input w : jsstring) (c : Z) (maxEditDistance : option Z) :
  let this := createEntries (newSymSpell med pl ct) entries in
  let k := default med maxEditDistance in
  0 <= k <= med -> med < pl -> k <= MAX_SAFE_INTEGER ->
  words this !! w = Some c ->
  osa_ref input w <= k ->
  exists s, s ∈ lookup this input CLOSEST maxEditDistance noOptions /\
            (distance s < osa_ref input w \/
             (distance s = osa_ref input w /\ term s = w)).
Proof.
  intros this k Hk Hmed Hsafe Hword Hosa.
  exact (lookup_lead_accounts med pl ct entries input w c CLOSEST maxEditDistance
           ltac:(done) Hk Hmed Hsafe Hword Hosa).
Qed.

End LookupLead.

Lemma lookup_top_beats_words_witness :
  let this :=
    createEntries (newSymSpell 2 4 1)
      [(js "streaming", 1); (js "streamline", 2); (js "steaming", 3)] in
  let k := default 2 None in
  (0 <= k <= 2) /\ 2 < 4 /\ k <= MAX_SAFE_INTEGER /\
  words this !! js "streaming" = Some 1 /\
  osa_ref (js "straming") (js "streaming") <= k /\
  exists s, s ∈ SymSpell_lookup (fun s => s) (fun _ s => s) this (js "straming") TOP None
                  noOptions /\
            (distance s < osa_ref (js "straming") (js "streaming") \/
             (distance s = osa_ref (js "straming") (js "streaming") /\ 1 <= count s)).
Proof.
  cbv zeta.
  assert (H1 : 0 <= default 2 None <= 2) by (simpl; lia).
  assert (H2 : 2 < 4) by lia.
  assert (H3 : default 2 None <= MAX_SAFE_INTEGER) by (by vm_compute).
  assert (H4 : words (createEntries (newSymSpell 2 4 1)
                        [(js "streaming", 1); (js "streamline", 2); (js "steaming", 3)])
               !! js "streaming" = Some 1).
  { vm_compute. reflexivity. }
  assert (H5 : osa_ref (js "straming") (js "streaming") <= default 2 None)
    by (by vm_compute).
  repeat (split; [assumption|]).
  exact (lookup_top_beats_words (fun s => s) (fun _ s => s) 2 4 1
           [(js "streaming", 1); (js "streamline", 2); (js "steaming", 3)]
           (js "straming") (js "streaming") 1 None H1 H2 H3 H4 H5).
Defined.

Lemma lookup_closest_finds_words_witness :
  let this :=
    createEntries (newSymSpell 2 4 1)
      [(js "streaming", 1); (js "streamline", 2); (js "steaming", 3)] in
  let k := default 2 (Some 2) in
  (0 <= k <= 2) /\ 2 < 4 /\ k <= MAX_SAFE_INTEGER /\
  words this !! js "steaming" = Some 3 /\
  osa_ref (js "straming") (js "steaming") <= k /\
  exists s, s ∈ SymSpell_lookup (fun s => s) (fun _ s => s) this (js "straming") CLOSEST
                  (Some 2) noOptions /\
            (distance s < osa_ref (js "straming") (js "steaming") \/
             (distance s = osa_ref (js "straming") (js "steaming") /\
              term s = js "steaming")).
Proof.
  cbv zeta.
  assert (H1 : 0 <= default 2 (Some 2) <= 2) by (simpl; lia).
  assert (H2 : 2 < 4) by lia.
  assert (H3 : default 2 (Some 2) <= MAX_SAFE_INTEGER) by (by vm_compute).
  assert (H4 : words (createEntries (newSymSpell 2 4 1)
                        [(js "streaming", 1); (js "streamline", 2); (js "steaming", 3)])
               !! js "steaming" = Some 3).
  { vm_compute. reflexivity. }
  assert (H5 : osa_ref (js "straming") (js "steaming") <= default 2 (Some 2))
    by (by vm_compute).
  repeat (split; [assumption|]).
  exact (lookup_closest_finds_words (fun s => s) (fun _ s => s) 2 4 1
           [(js "streaming", 1); (js "streamline", 2); (js "steaming", 3)]
           (js "straming") (js "steaming") 3 (Some 2) H1 H2 H3 H4 H5).
Defined.

